(** * Static-shape array kernels of [jax/_src/numpy/lax_numpy.py]

    A shallow embedding of the insertion-point search ([searchsorted] and its
    four algorithms), of [histogram], of the padding engine ([pad], [_pad]
    and the per-mode helpers), of [_repeat], of [insert] / [delete] and of
    [fill_diagonal], together with the properties stated for them.

    Conventions.
    - A one-dimensional array is a [list]; an N-dimensional array is a shape
      together with an indexing function (module [Nd]).
    - Python and index-dtype integers are [Z].  Where the source takes care of
      a fixed width (the unsigned midpoint of the bisection) the wrap-around
      is written out.
    - A Python exception is a value of [exn]; a function that can raise
      returns a [result]. *)

From Stdlib Require Import List ZArith Lia Bool Arith Sorted Permutation.
From Stdlib Require Import QArith Qcanon.
From Stdlib Require String Ascii.
Import ListNotations.

Local Open Scope Z_scope.

(** ** Exceptions and results *)

Inductive exn : Type :=
| ValueError
| TypeError
| NotImplementedError
| ZeroDivisionError
| IndexError
| AssertionError
| OutOfFuel (* not a Python exception: a loop bound of the model ran out *).

Inductive result (A : Type) : Type :=
| Ok (a : A)
| Raise (e : exn).

Arguments Ok {A} a.
Arguments Raise {A} e.

Definition bind {A B : Type} (r : result A) (k : A -> result B) : result B :=
  match r with
  | Ok a => k a
  | Raise e => Raise e
  end.

Notation "x <- r ;; k" := (bind r (fun x => k))
  (at level 61, r at next level, right associativity).

Notation "r ;; k" := (bind r (fun _ => k))
  (at level 61, right associativity).

Notation "' p <- r ;; k" := (bind r (fun x => let 'p := x in k))
  (at level 61, p pattern, r at next level, right associativity).

(** ** One-dimensional array primitives

    The indexing, scatter and cumulative-sum primitives live in other modules
    of the library ([lax], [indexing], [reductions]); they are embedded here
    with the semantics the kernels rely on. *)

Module Arr.

(** Length of an array as a Python integer. *)
Definition len {A : Type} (l : list A) : Z := Z.of_nat (length l).

(** NumPy-style normalisation of a possibly negative index. *)
Definition norm_index (n i : Z) : Z := if i <? 0 then i + n else i.

(** [lax.iota(dtype, n)] and [arange(n)]. *)
Definition iota (n : nat) : list Z := map Z.of_nat (seq 0 n).

(** [zeros(n)]. *)
Definition zeros (n : nat) : list Z := repeat 0 n.

(** One in-bounds write [l[i] = v] on a position given as a natural. *)
Fixpoint set_nth {A : Type} (l : list A) (i : nat) (v : A) : list A :=
  match l, i with
  | [], _ => []
  | _ :: t, O => v :: t
  | h :: t, S j => h :: set_nth t j v
  end.

(** One scatter update: negative indices count from the end, and an index
    that is still out of bounds is dropped. *)
Definition update {A : Type} (f : A -> A -> A) (l : list A) (i : Z) (v : A)
  : list A :=
  let j := norm_index (len l) i in
  if (0 <=? j) && (j <? len l)
  then match nth_error l (Z.to_nat j) with
       | Some old => set_nth l (Z.to_nat j) (f old v)
       | None => l
       end
  else l.

(** [dst.at[idxs].set(vals)]. *)
Definition at_set {A : Type} (dst : list A) (idxs : list Z) (vals : list A)
  : list A :=
  fold_left (fun acc iv => update (fun _ v => v) acc (fst iv) (snd iv))
            (combine idxs vals) dst.

(** [dst.at[idxs].add(vals)]. *)
Definition at_add {A : Type} (add : A -> A -> A) (dst : list A)
  (idxs : list Z) (vals : list A) : list A :=
  fold_left (fun acc iv => update add acc (fst iv) (snd iv))
            (combine idxs vals) dst.

(** Dynamic indexing [l[i]] by a computed index: negative indices count from
    the end and the index is clamped into the array. *)
Definition getitem {A : Type} (l : list A) (i : Z) : option A :=
  let j := norm_index (len l) i in
  nth_error l (Z.to_nat (Z.max 0 (Z.min j (len l - 1)))).

(** Inclusive cumulative sum. *)
Fixpoint cumsum_from (acc : Z) (l : list Z) : list Z :=
  match l with
  | [] => []
  | x :: t => (acc + x) :: cumsum_from (acc + x) t
  end.

Definition cumsum (l : list Z) : list Z := cumsum_from 0 l.

(** [sum] of an integer array. *)
Definition sum (l : list Z) : Z := fold_right Z.add 0 l.

End Arr.

(** ** Insertion-point search *)

Module Search.

Import Arr.

(** The element dtype with the two comparators of [lax]
    ([_sort_lt_comparator], [_sort_le_comparator]) and [==].  The laws say
    that the comparators form a total preorder, which is what they are on
    every dtype once NaNs are placed last. *)
Class SortKey (E : Type) : Type := {
  _sort_lt_comparator : E -> E -> bool;
  _sort_le_comparator : E -> E -> bool;
  key_eq : E -> E -> bool;
  lt_is_not_ge : forall x y,
      _sort_lt_comparator x y = negb (_sort_le_comparator y x);
  le_total : forall x y,
      _sort_le_comparator x y = true \/ _sort_le_comparator y x = true;
  le_trans : forall x y z,
      _sort_le_comparator x y = true -> _sort_le_comparator y z = true ->
      _sort_le_comparator x z = true;
  key_eq_le : forall x y,
      key_eq x y = _sort_le_comparator x y && _sort_le_comparator y x
}.

#[export, refine] Instance SortKey_Z : SortKey Z := {
  _sort_lt_comparator := Z.ltb;
  _sort_le_comparator := Z.leb;
  key_eq := Z.eqb
}.
Proof.
  - intros x y. destruct (Z.ltb_spec x y), (Z.leb_spec y x); simpl; lia.
  - intros x y. destruct (Z.leb_spec x y), (Z.leb_spec y x); auto; lia.
  - intros x y z Hxy Hyz. apply Z.leb_le in Hxy, Hyz. apply Z.leb_le. lia.
  - intros x y.
    destruct (Z.eqb_spec x y), (Z.leb_spec x y), (Z.leb_spec y x); simpl; lia.
Defined.

Inductive side : Type := left | right.

Inductive method : Type := scan | scan_unrolled | sort | compare_all.

(** The index dtype of the result. *)
Inductive index_dtype : Type := int32 | int64.

Definition bits (d : index_dtype) : Z :=
  match d with int32 => 32 | int64 => 64 end.

(** [np.iinfo(np.int32).max]. *)
Definition int32_max : Z := 2 ^ 31 - 1.

(** [x.astype(unsigned_dtype)]. *)
Definition as_unsigned (d : index_dtype) (z : Z) : Z := z mod 2 ^ bits d.

(** [x.astype(dtype)] for the signed index dtype. *)
Definition as_signed (d : index_dtype) (z : Z) : Z :=
  (z + 2 ^ (bits d - 1)) mod 2 ^ bits d - 2 ^ (bits d - 1).

Section Algorithms.

Context {E : Type} `{SortKey E}.

(** The loop body of the bisection; the midpoint is formed in the unsigned
    dtype of the same width, where the addition wraps. *)
Definition body_fun (dtype : index_dtype) (sorted_arr : list E) (query : E)
  (s : side) (state : Z * Z) : Z * Z :=
  let op := match s with
            | left => _sort_le_comparator
            | right => _sort_lt_comparator
            end in
  let '(low, high) := state in
  let mid := as_unsigned dtype (as_unsigned dtype low + as_unsigned dtype high) in
  let mid := as_signed dtype (mid / 2) in
  let go_left := match getitem sorted_arr mid with
                 | Some x => op query x
                 | None => false
                 end in
  (if go_left then low else mid, if go_left then mid else high).

(** [control_flow.scan] with a fixed trip count and no scanned input. *)
Fixpoint scan_loop {S : Type} (f : S -> S) (length : nat) (init : S) : S :=
  match length with
  | O => init
  | Datatypes.S k => scan_loop f k (f init)
  end.

(** [int(np.ceil(np.log2(n + 1)))]. *)
Definition n_levels (sorted_arr : list E) : nat :=
  Z.to_nat (Z.log2_up (len sorted_arr + 1)).

(** The bisection for one query element; [unrolled] only selects how the
    loop is compiled. *)
Definition _searchsorted_via_scan_1 (unrolled : bool) (sorted_arr : list E)
  (query : E) (s : side) (dtype : index_dtype) : Z :=
  let init := (as_signed dtype 0, as_signed dtype (len sorted_arr)) in
  let carry := scan_loop (body_fun dtype sorted_arr query s)
                         (n_levels sorted_arr) init in
  snd carry.

(** The bisection vectorised over the query array. *)
Definition _searchsorted_via_scan (unrolled : bool) (sorted_arr : list E)
  (query : list E) (s : side) (dtype : index_dtype) : list Z :=
  map (fun q => _searchsorted_via_scan_1 unrolled sorted_arr q s dtype) query.

(** Insertion of one (key, index) pair in front of the first pair whose key
    is not smaller. *)
Fixpoint insert_key (a : E * nat) (l : list (E * nat)) : list (E * nat) :=
  match l with
  | [] => [a]
  | b :: t => if _sort_lt_comparator (fst b) (fst a)
              then b :: insert_key a t
              else a :: b :: t
  end.

(** Modelled from the spec: [argsort] belongs to the sorting module, which is
    not among the sources.  The rank-sort of the search needs it to be the
    stable sorting permutation (ties keep their input order), which is what
    this insertion sort on (key, position) pairs computes. *)
Definition argsort (x : list E) : list Z :=
  map (fun p => Z.of_nat (snd p))
      (fold_right insert_key [] (combine x (seq 0 (length x)))).

Definition _rank (x : list E) : list Z :=
  let idx := iota (length x) in
  at_set (zeros (length idx)) (argsort x) idx.

Definition _searchsorted_via_sort (sorted_arr : list E) (query : list E)
  (s : side) (dtype : index_dtype) : list Z :=
  let query_flat := query in
  let index :=
    match s with
    | left => firstn (length query) (_rank (query_flat ++ sorted_arr))
    | right => skipn (length sorted_arr) (_rank (sorted_arr ++ query_flat))
    end in
  map (as_signed dtype)
      (map (fun p => fst p - snd p) (combine index (_rank query_flat))).

Definition b2z (b : bool) : Z := if b then 1 else 0.

Definition _searchsorted_via_compare_all (sorted_arr : list E)
  (query : list E) (s : side) (dtype : index_dtype) : list Z :=
  let op := match s with
            | left => _sort_lt_comparator
            | right => _sort_le_comparator
            end in
  map (fun q => as_signed dtype (Arr.sum (map (fun x => b2z (op x q)) sorted_arr)))
      query.

(** [searchsorted(a, v, side, method=...)] on a one-dimensional [a] without a
    sorter; [v] is given by its elements in row-major order. *)
Definition searchsorted (a : list E) (v : list E) (s : side) (m : method)
  : list Z :=
  let dtype := if len a <=? int32_max then int32 else int64 in
  if len a =? 0 then map (fun _ => 0) v
  else
    let impl := match m with
                | scan => _searchsorted_via_scan false
                | scan_unrolled => _searchsorted_via_scan true
                | sort => _searchsorted_via_sort
                | compare_all => _searchsorted_via_compare_all
                end in
    impl a v s dtype.

(** The insertion point as the specification words it: the number of
    elements strictly below the query ([left]) or not above it ([right]). *)
Definition count_before (s : side) (r : list E) (q : E) : Z :=
  match s with
  | left => len (filter (fun x => _sort_lt_comparator x q) r)
  | right => len (filter (fun x => _sort_le_comparator x q) r)
  end.

(** Sortedness of the reference array. *)
Definition sorted (r : list E) : Prop :=
  Sorted (fun x y => _sort_le_comparator x y = true) r.

End Algorithms.

End Search.

(** ** Histogram *)

Module Hist.

Import Arr Search.

(** The inexact dtype [histogram] promotes samples, bin edges and weights
    to, with its arithmetic.  No law is assumed of the operations: floating
    point addition rounds and is not associative.  [linspace] belongs to the
    array-creation module, which is not among the sources, and is a
    parameter. *)
Class Inexact (F : Type) `{SortKey F} : Type := {
  f_zero : F;
  f_one : F;
  f_half : F;
  f_add : F -> F -> F;
  f_sub : F -> F -> F;
  f_div : F -> F -> F;
  linspace : F -> F -> Z -> list F
}.

(** The exact rationals in canonical form, for running the model. *)
#[export, refine] Instance SortKey_Qc : SortKey Qc := {
  _sort_lt_comparator := fun x y => negb (Qle_bool y x);
  _sort_le_comparator := fun x y => Qle_bool x y;
  key_eq := fun x y => Qeq_bool x y
}.
Proof.
  - reflexivity.
  - intros x y. rewrite !Qle_bool_iff.
    destruct (Qlt_le_dec x y) as [Hlt|Hle]; [left; apply Qlt_le_weak|right];
      assumption.
  - intros x y z. rewrite !Qle_bool_iff. apply Qle_trans.
  - intros x y. apply eq_true_iff_eq.
    rewrite andb_true_iff, Qeq_bool_iff, !Qle_bool_iff. split.
    + intros Heq. rewrite Heq. split; apply Qle_refl.
    + intros [Hxy Hyx]. apply Qle_antisym; assumption.
Defined.

(** An integer as a rational. *)
Definition qc (z : Z) : Qc := Q2Qc (inject_Z z).

(** [num] evenly spaced rationals from [start] to [stop], both included. *)
Definition linspace_Qc (start stop : Qc) (num : Z) : list Qc :=
  let step := ((stop - start) / Q2Qc (inject_Z (Z.max 1 (num - 1))))%Qc in
  map (fun i => (start + Q2Qc (inject_Z i) * step)%Qc) (iota (Z.to_nat num)).

#[export] Instance Inexact_Qc : Inexact Qc := {
  f_zero := Q2Qc 0;
  f_one := Q2Qc 1;
  f_half := Q2Qc (1 # 2);
  f_add := Qcplus;
  f_sub := Qcminus;
  f_div := Qcdiv;
  linspace := linspace_Qc
}.

(** An N-dimensional array: its shape and its elements in row-major order. *)
Record ndarray (A : Type) : Type := mk_ndarray {
  shape : list Z;
  data : list A
}.

Arguments mk_ndarray {A} shape data.
Arguments shape {A} n.
Arguments data {A} n.

(** The [bins] argument: a number of bins or a one-dimensional array of
    edges. *)
Inductive bins_spec (F : Type) : Type :=
| bins_number (n : Z)
| bins_edges (edges : list F).

Arguments bins_number {F} n.
Arguments bins_edges {F} edges.

Section Histogram.

Context {F : Type} `{Inexact F}.

(** [arr.min()] and [arr.max()]; a zero-size array has no minimum. *)
Definition amin (l : list F) : result F :=
  match l with
  | [] => Raise ValueError
  | x :: t =>
      Ok (fold_left (fun m y => if _sort_lt_comparator y m then y else m) t x)
  end.

Definition amax (l : list F) : result F :=
  match l with
  | [] => Raise ValueError
  | x :: t =>
      Ok (fold_left (fun m y => if _sort_lt_comparator m y then y else m) t x)
  end.

(** [reductions.ptp] of a two-element range. *)
Definition ptp2 (lo hi : F) : F :=
  let mx := if _sort_lt_comparator lo hi then hi else lo in
  let mn := if _sort_lt_comparator hi lo then hi else lo in
  f_sub mx mn.

Definition histogram_bin_edges (a : ndarray F) (bins : bins_spec F)
  (range : option (list F)) : result (list F) :=
  match bins with
  | bins_edges edges => Ok edges
  | bins_number bins_int =>
      range <- match range with
               | None => lo <- amin (data a) ;;
                         hi <- amax (data a) ;;
                         Ok [lo; hi]
               | Some r => Ok r
               end ;;
      match range with
      | [r0; r1] =>
          let degenerate := key_eq (ptp2 r0 r1) f_zero in
          let lo := if degenerate then f_sub r0 f_half else r0 in
          let hi := if degenerate then f_add r1 f_half else r1 in
          Ok (linspace lo hi (bins_int + 1))
      | _ => Raise ValueError
      end
  end.

(** [diff]. *)
Fixpoint diff (l : list F) : list F :=
  match l with
  | x :: ((y :: _) as t) => f_sub y x :: diff t
  | _ => []
  end.

(** [counts.sum()]. *)
Definition total (l : list F) : F := fold_right f_add f_zero l.

Definition list_eqb (s1 s2 : list Z) : bool :=
  (length s1 =? length s2)%nat
  && forallb (fun p => fst p =? snd p) (combine s1 s2).

(** [histogram(a, bins, range, weights, density)].  The last edge is read by
    a static index, which is out of bounds on an empty edge array. *)
Definition histogram (a : ndarray F) (bins : bins_spec F)
  (range : option (list F)) (weights : option (ndarray F))
  (density : bool) : result (list F * list F) :=
  weights <- match weights with
             | None => Ok (map (fun _ => f_one) (data a))
             | Some w =>
                 if negb (list_eqb (shape a) (shape w))
                 then Raise ValueError
                 else Ok (data w)
             end ;;
  bin_edges <- histogram_bin_edges a bins range ;;
  let bin_idx := searchsorted bin_edges (data a) right scan in
  match last (map Some bin_edges) None with
  | None => Raise IndexError
  | Some last_edge =>
      let bin_idx :=
        map (fun p => if key_eq (fst p) last_edge
                      then len bin_edges - 1 else snd p)
            (combine (data a) bin_idx) in
      let counts :=
        tl (at_add f_add (repeat f_zero (length bin_edges)) bin_idx weights) in
      let counts :=
        if density
        then let bin_widths := diff bin_edges in
             let s := total counts in
             map (fun p => f_div (f_div (fst p) (snd p)) s)
                 (combine counts bin_widths)
        else counts in
      Ok (counts, bin_edges)
  end.

End Histogram.

End Hist.

(** ** N-dimensional arrays

    An array is its shape and its indexing function; only the values at
    in-bounds indices matter.  The structural primitives of [lax] and
    [lax_slicing] used by the kernels ([slice_in_dim], [concatenate], [rev],
    [pad], [broadcast_in_dim], [reshape]) are not among the sources; they are
    embedded here with the semantics of the library, including the bounds
    checks of [slice] and the shape check of [concatenate]. *)

Module Nd.

Import Arr.

Record array (T : Type) : Type := mk_array {
  shape : list Z;
  at_ : list Z -> T
}.

Arguments mk_array {T} shape at_.
Arguments shape {T} a.
Arguments at_ {T} a idx.

Section Ops.

Context {T : Type}.

(** [np.ndim(a)]. *)
Definition ndim (a : array T) : nat := length (shape a).

(** [a.shape[axis]]. *)
Definition dim (a : array T) (axis : nat) : Z := nth axis (shape a) 0.

(** The coordinate of a multi-index on one axis, and its replacement. *)
Definition coord (idx : list Z) (axis : nat) : Z := nth axis idx 0.

Definition with_coord (idx : list Z) (axis : nat) (v : Z) : list Z :=
  set_nth idx axis v.

(** A multi-index addresses an element of an array of the given shape. *)
Definition in_bounds (shp idx : list Z) : Prop :=
  Forall2 (fun n i => 0 <= i < n) shp idx.

(** Extensional equality: same shape, same elements. *)
Definition array_eq (a b : array T) : Prop :=
  shape a = shape b /\
  forall idx, in_bounds (shape a) idx -> at_ a idx = at_ b idx.

(** A one-dimensional array from the list of its elements. *)
Definition of_list (d : T) (l : list T) : array T :=
  mk_array [len l] (fun idx => nth (Z.to_nat (coord idx 0)) l d).

Definition shape_eqb (s1 s2 : list Z) : bool :=
  (length s1 =? length s2)%nat
  && forallb (fun p => fst p =? snd p) (combine s1 s2).

(** [lax_slicing.slice_in_dim(a, start, limit, axis=axis)]: negative bounds
    count from the end, [None] as limit is the axis length, and [lax.slice]
    rejects bounds outside of [0 <= start <= limit <= len]. *)
Definition slice_in_dim (a : array T) (start : Z) (limit : option Z)
  (axis : nat) : result (array T) :=
  let len_axis := dim a axis in
  let start := if start <? 0 then start + len_axis else start in
  let limit := match limit with
               | None => len_axis
               | Some l => if l <? 0 then l + len_axis else l
               end in
  if (0 <=? start) && (start <=? limit) && (limit <=? len_axis)
  then Ok (mk_array (set_nth (shape a) axis (limit - start))
             (fun idx => at_ a (with_coord idx axis (coord idx axis + start))))
  else Raise TypeError.

(** The element of a concatenation, found by walking the operands. *)
Fixpoint concat_at (axis : nat) (p0 : array T) (rest : list (array T))
  (j : Z) (idx : list Z) : T :=
  match rest with
  | [] => at_ p0 (with_coord idx axis j)
  | p1 :: rest' =>
      if j <? dim p0 axis then at_ p0 (with_coord idx axis j)
      else concat_at axis p1 rest' (j - dim p0 axis) idx
  end.

(** [lax.concatenate(parts, dimension=axis)]: the operands must agree on
    every other axis. *)
Definition concatenate (parts : list (array T)) (axis : nat)
  : result (array T) :=
  match parts with
  | [] => Raise ValueError
  | p0 :: rest =>
      if forallb (fun p => shape_eqb (set_nth (shape p) axis 0)
                                     (set_nth (shape p0) axis 0)) rest
      then Ok (mk_array
                 (set_nth (shape p0) axis
                    (Arr.sum (map (fun p => dim p axis) parts)))
                 (fun idx => concat_at axis p0 rest (coord idx axis) idx))
      else Raise TypeError
  end.

(** [lax.rev(a, [axis])]. *)
Definition rev (a : array T) (axis : nat) : array T :=
  mk_array (shape a)
    (fun idx => at_ a (with_coord idx axis (dim a axis - 1 - coord idx axis))).

(** [lax.pad(a, value, [(lo, hi, 0), ...])] with non-negative widths. *)
Definition lax_pad (a : array T) (value : T) (widths : list (Z * Z))
  : array T :=
  mk_array
    (map (fun p => fst (snd p) + fst p + snd (snd p))
         (combine (shape a) widths))
    (fun idx =>
       let lows := map fst widths in
       let inner := map (fun p => fst p - snd p) (combine idx lows) in
       if forallb (fun p => (0 <=? snd p) && (snd p <? fst p))
                  (combine (shape a) inner)
       then at_ a inner else value).

(** [lax.broadcast_in_dim] towards a shape with one new axis of size [k]
    inserted at position [aux_axis]. *)
Definition broadcast_new_axis (a : array T) (aux_axis : nat) (k : Z)
  : array T :=
  mk_array (firstn aux_axis (shape a) ++ k :: skipn aux_axis (shape a))
    (fun idx => at_ a (firstn aux_axis idx ++ skipn (S aux_axis) idx)).

(** [reshape] that merges the axes [axis] and [axis + 1] (row-major). *)
Definition reshape_merge (a : array T) (axis : nat) : array T :=
  let k := dim a (S axis) in
  mk_array (firstn axis (shape a) ++ (dim a axis * k)
              :: skipn (S (S axis)) (shape a))
    (fun idx =>
       let m := coord idx axis in
       at_ a (firstn axis idx ++ (m / k) :: (m mod k) :: skipn (S axis) idx)).

(** An array filled with one value. *)
Definition full (shp : list Z) (v : T) : array T :=
  mk_array shp (fun _ => v).

(** [indexing.take(a, indices, axis=axis)] for in-bounds indices. *)
Definition take (a : array T) (indices : list Z) (axis : nat) : array T :=
  mk_array (set_nth (shape a) axis (len indices))
    (fun idx =>
       at_ a (with_coord idx axis
                (nth (Z.to_nat (coord idx axis)) indices 0))).

(** The elements of [a] along [axis] through the multi-index [idx]. *)
Definition lane (a : array T) (axis : nat) (idx : list Z) : list T :=
  map (fun j => at_ a (with_coord idx axis j)) (iota (Z.to_nat (dim a axis))).

End Ops.

End Nd.

(** ** [repeat] *)

Module Repeat.

Import Arr Nd.

(** The [repeats] argument: a scalar or an array (given flattened). *)
Inductive repeats_like : Type :=
| repeats_scalar (k : Z)
| repeats_array (l : list Z).

(** [_canonicalize_axis(axis, num_dims)]. *)
Definition _canonicalize_axis (axis : Z) (num_dims : nat) : result nat :=
  let n := Z.of_nat num_dims in
  if (- n <=? axis) && (axis <? n)
  then Ok (Z.to_nat (if axis <? 0 then axis + n else axis))
  else Raise ValueError.

(** [shape[axis]] with a Python integer: out of range is an [IndexError]. *)
Definition python_axis (axis : Z) (num_dims : nat) : result nat :=
  match _canonicalize_axis axis num_dims with
  | Ok ax => Ok ax
  | Raise _ => Raise IndexError
  end.

(** [broadcast_to(repeats, [n])] for a one-dimensional [repeats]. *)
Definition broadcast_to_1d (l : list Z) (n : Z) : result (list Z) :=
  if len l =? n then Ok l
  else match l with
       | [x] => Ok (repeat x (Z.to_nat n))
       | _ => Raise ValueError
       end.

(** [roll(l, shift=1)] on a one-dimensional array. *)
Definition roll1 (l : list Z) : list Z :=
  match l with
  | [] => []
  | _ => last l 0 :: removelast l
  end.

Section Repeat.

Context {T : Type}.

(** The row-major multi-index of a flat position. *)
Fixpoint unravel (shp : list Z) (flat : Z) : list Z :=
  match shp with
  | [] => []
  | _ :: rest =>
      let stride := fold_right Z.mul 1 rest in
      (flat / stride) :: unravel rest (flat mod stride)
  end.

(** [arr.ravel()]. *)
Definition ravel (a : array T) : array T :=
  mk_array [fold_right Z.mul 1 (shape a)]
    (fun idx => at_ a (unravel (shape a) (coord idx 0))).

Definition _repeat (a : array T) (repeats : repeats_like) (axis : option Z)
  (total_repeat_length : option Z) : result (array T) :=
  let arr := a in
  let '(arr, axis) := match axis with
                      | None => (ravel arr, 0)
                      | Some ax => (arr, ax)
                      end in
  let general (repeats : list Z) (total_repeat_length : Z) :=
    (* Special case when a is a scalar. *)
    if (ndim arr =? 0)%nat then
      if (length repeats =? 1)%nat
      then Ok (full [total_repeat_length] (at_ arr []))
      else Raise ValueError
    else
      axis <- python_axis axis (ndim arr) ;;
      (* Special case if total_repeat_length is zero. *)
      if total_repeat_length =? 0
      then Ok (mk_array (set_nth (shape arr) axis 0) (at_ arr))
      (* If repeats is on a zero sized axis, then return the array. *)
      else if dim arr axis =? 0 then Ok arr
      else
        let exclusive_repeats := set_nth (roll1 repeats) 0 0 in
        let scatter_indices := cumsum exclusive_repeats in
        let block_split_indicators :=
          at_add Z.add (zeros (Z.to_nat total_repeat_length)) scatter_indices
                 (map (fun _ => 1) scatter_indices) in
        let gather_indices :=
          map (fun c => c - 1) (cumsum block_split_indicators) in
        Ok (take arr gather_indices axis) in
  let broadcast_repeats (l : list Z) :=
    if (ndim arr =? 0)%nat then Ok l
    else ax <- python_axis axis (ndim arr) ;;
         broadcast_to_1d l (dim arr ax) in
  match total_repeat_length with
  | None =>
      match repeats with
      | repeats_scalar k =>
          if negb (ndim arr =? 0)%nat then
            (* Fast path for when repeats is a scalar. *)
            axis <- _canonicalize_axis axis (ndim arr) ;;
            if k <? 0 then Raise ValueError
            else
              let aux_axis := S axis in
              let arr := broadcast_new_axis arr aux_axis k in
              Ok (reshape_merge arr axis)
          else
            general [k] (Arr.sum [k])
      | repeats_array l =>
          repeats <- broadcast_repeats l ;;
          general repeats (Arr.sum repeats)
      end
  | Some total =>
      repeats <- broadcast_repeats (match repeats with
                                    | repeats_scalar k => [k]
                                    | repeats_array l => l
                                    end) ;;
      general repeats total
  end.

(** [repeat(a, repeats, axis, total_repeat_length)] without a sharding. *)
Definition repeat (a : array T) (repeats : repeats_like) (axis : option Z)
  (total_repeat_length : option Z) : result (array T) :=
  _repeat a repeats axis total_repeat_length.

End Repeat.

End Repeat.

(** ** [insert] and [delete]

    Both work along one axis of an N-dimensional array; with no axis the
    array is flattened first. *)

Module InsertDelete.

Import Arr Nd Search.

(** A Python [slice(start, stop, step)]. *)
Record pyslice : Type := mk_slice {
  slice_start : option Z;
  slice_stop : option Z;
  slice_step : option Z
}.

(** The [obj] argument. *)
Inductive index_like : Type :=
| obj_int (i : Z)
| obj_ints (l : list Z)
| obj_bools (l : list bool)
| obj_slice (s : pyslice).

(** [slice.indices(length)]. *)
Definition slice_indices (s : pyslice) (length : Z) : result (Z * Z * Z) :=
  let step := match slice_step s with None => 1 | Some k => k end in
  if step =? 0 then Raise ValueError
  else
    let lower := if step <? 0 then -1 else 0 in
    let upper := if step <? 0 then length - 1 else length in
    let clamp v := if v <? 0 then Z.max (v + length) lower
                   else Z.min v upper in
    let start := match slice_start s with
                 | None => if step <? 0 then upper else lower
                 | Some v => clamp v
                 end in
    let stop := match slice_stop s with
                | None => if step <? 0 then lower else upper
                | Some v => clamp v
                end in
    Ok (start, stop, step).

(** [arange(start, stop, step)] for a non-zero step. *)
Definition arange3 (start stop step : Z) : list Z :=
  let count := if 0 <? step
               then (stop - start + step - 1) / step
               else (start - stop - step - 1) / (- step) in
  map (fun i => start + i * step) (iota (Z.to_nat count)).

(** [clip(where(idx < 0, idx + n, idx), 0, n)]. *)
Definition clip_index (n i : Z) : Z :=
  let i := if i <? 0 then i + n else i in
  Z.max 0 (Z.min i n).

(** [sort] of an integer array. *)
Fixpoint insert_int (x : Z) (t : list Z) : list Z :=
  match t with
  | [] => [x]
  | y :: t' => if y <? x then y :: insert_int x t' else x :: y :: t'
  end.

Definition sort_ints (l : list Z) : list Z := fold_right insert_int [] l.

(** [broadcast_shapes((m,), (v,))[0]]. *)
Definition broadcast_len (m v : Z) : result Z :=
  if m =? v then Ok m
  else if m =? 1 then Ok v
  else if v =? 1 then Ok m
  else Raise ValueError.

(** [where(mask, size=size)[0]]: the positions of the true entries, cut or
    filled with 0 to the requested size. *)
Definition where_size (mask : list bool) (size : nat) : list Z :=
  let found := map fst (filter snd (combine (iota (length mask)) mask)) in
  firstn size (found ++ repeat 0 size).

(** NumPy's [mask[obj] = False] on a concrete mask: an index outside of
    [-n, n) is an [IndexError]. *)
Definition np_clear (mask : list bool) (obj : list Z) : result (list bool) :=
  if forallb (fun i => (- len mask <=? i) && (i <? len mask)) obj
  then Ok (at_set mask obj (map (fun _ => false) obj))
  else Raise IndexError.

Section InsertDelete.

Context {T : Type}.

(** [T]'s zero, the fill value of [zeros_like]. *)
Variable zero : T.

(** The positions of [insert]: the effective insertion indices, the slots
    [values_ind] taken by the inserted values and the slots [arr_ind] taken
    by the elements of the input. *)
Record insert_plan : Type := mk_plan {
  n_insert : Z;
  values_ind : list Z;
  arr_ind : list Z
}.

Definition plan_insert (n_input : Z) (obj : index_like) (n_values : Z)
  : result insert_plan :=
  indices <- match obj with
             | obj_slice s =>
                 '(start, stop, step) <- slice_indices s n_input ;;
                 Ok (arange3 start stop step)
             | obj_int i => Ok [i]
             | obj_ints l => Ok l
             | obj_bools l =>
                 match l with
                 | [] => Ok []
                 | _ => Raise ValueError
                 end
             end ;;
  let indices := match indices with
                 | [index] => repeat index (Z.to_nat n_values)
                 | _ => indices
                 end in
  n_insert <- broadcast_len (len indices) n_values ;;
  let indices := map (clip_index n_input) indices in
  let values_ind :=
    at_add Z.add indices (argsort indices) (iota (Z.to_nat n_insert)) in
  let arr_mask :=
    at_set (repeat true (Z.to_nat (n_input + n_insert))) values_ind
           (map (fun _ => false) values_ind) in
  let arr_ind := where_size arr_mask (Z.to_nat n_input) in
  Ok (mk_plan n_insert values_ind arr_ind).

(** [array(values, ndmin=ndmin)]: axes of length one are prepended until
    there are [ndmin] of them. *)
Definition with_ndmin (values : array T) (ndmin : nat) : array T :=
  let lead := (ndmin - ndim values)%nat in
  mk_array (repeat 1 lead ++ shape values)
    (fun idx => at_ values (skipn lead idx)).

(** [moveaxis(a, source, destination)] for canonical axes. *)
Definition moveaxis (a : array T) (source destination : nat) : array T :=
  let others := firstn source (shape a) ++ skipn (S source) (shape a) in
  mk_array (firstn destination others
              ++ dim a source :: skipn destination others)
    (fun idx =>
       let rest := firstn destination idx ++ skipn (S destination) idx in
       at_ a (firstn source rest
                ++ coord idx destination :: skipn source rest)).

(** [broadcast_to(arr, shape)] (lines 3073-3108), NumPy's broadcasting
    rule: the shapes are aligned at their last axes, an axis of [arr] has the
    length of the target's or the length one, and [arr] has no more axes
    than the target.  Anything else is a [ValueError]. *)
Definition broadcast_to (arr : array T) (shp : list Z) : result (array T) :=
  let nlead := (length shp - ndim arr)%nat in
  if (length shp <? ndim arr)%nat then Raise ValueError
  else if forallb (fun p => (fst p =? 1) || (fst p =? snd p))
                  (combine (shape arr) (skipn nlead shp))
  then Ok (mk_array shp
             (fun idx =>
                at_ arr (map (fun p => if fst p =? 1 then 0 else snd p)
                             (combine (shape arr) (skipn nlead idx)))))
  else Raise ValueError.

(** [x.at[(slice(None),) * axis + (ind,)].set(vals)] for an index array
    [ind] and [vals] of the shape of the indexed slices: a functional update.
    A negative index counts from the end of the axis, and an index that is
    still out of bounds is dropped. *)
Definition at_set_axis (x : array T) (axis : nat) (ind : list Z)
  (vals : array T) : array T :=
  mk_array (shape x)
    (fold_left
       (fun f kv => fun j =>
          if coord j axis =? norm_index (dim x axis) (snd kv)
          then at_ vals (with_coord j axis (Z.of_nat (fst kv)))
          else f j)
       (combine (seq 0 (length ind)) ind)
       (at_ x)).

(** [a[(slice(None),) * axis + (i,)]] for an index array [i]: a negative
    index counts from the end of the axis and an index is clamped into the
    axis. *)
Definition gather_axis (a : array T) (axis : nat) (i : list Z) : array T :=
  let n := dim a axis in
  mk_array (set_nth (shape a) axis (len i))
    (fun idx =>
       let j := norm_index n (nth (Z.to_nat (coord idx axis)) i 0) in
       at_ a (with_coord idx axis (Z.max 0 (Z.min j (n - 1))))).

(** [a[(slice(None),) * axis + (mask,)]] for a boolean mask as long as the
    axis: the slices at the true positions. *)
Definition compress_axis (a : array T) (axis : nat) (mask : list bool)
  : array T :=
  take a (map fst (filter snd (combine (iota (length mask)) mask))) axis.

(** [a[(slice(None),) * axis + (slice(start, stop),)]] for a non-negative
    [start] and a non-negative or absent [stop]: both are clamped to the
    length of the axis. *)
Definition slice_axis (a : array T) (axis : nat) (start : Z)
  (stop : option Z) : array T :=
  let n := dim a axis in
  let start := Z.min start n in
  let stop := match stop with None => n | Some s => Z.min s n end in
  mk_array (set_nth (shape a) axis (Z.max 0 (stop - start)))
    (fun idx => at_ a (with_coord idx axis (coord idx axis + start))).

(** [insert(arr, obj, values, axis)].  The input [a] has the shape of the
    slices its scatter writes, and is not broadcast. *)
Definition insert (arr : array T) (obj : index_like) (values : array T)
  (axis : option Z) : result (array T) :=
  let '(a, axis) := match axis with
                    | None => (Repeat.ravel arr, 0)
                    | Some ax => (arr, ax)
                    end in
  axis <- Repeat._canonicalize_axis axis (ndim a) ;;
  let values_arr := with_ndmin values (ndim a) in
  let values_arr := match obj with
                    | obj_int _ => moveaxis values_arr 0 axis
                    | _ => values_arr
                    end in
  let n_input := dim a axis in
  plan <- plan_insert n_input obj (dim values_arr axis) ;;
  let out_shape := set_nth (shape a) axis (n_input + n_insert plan) in
  let out := full out_shape zero in
  values_arr <- broadcast_to values_arr
                  (set_nth out_shape axis (len (values_ind plan))) ;;
  let out := at_set_axis out axis (values_ind plan) values_arr in
  let out := at_set_axis out axis (arr_ind plan) a in
  Ok out.

(** [_canonicalize_axis(obj, n)] on a static integer index. *)
Definition canonicalize_index (obj n : Z) : result Z :=
  if (- n <=? obj) && (obj <? n)
  then Ok (if obj <? 0 then obj + n else obj)
  else Raise ValueError.

(** [delete(arr, obj, axis, assume_unique_indices=...)]. *)
Definition delete (arr : array T) (obj : index_like) (axis : option Z)
  (assume_unique_indices : bool) : result (array T) :=
  let '(a, axis) := match axis with
                    | None => (Repeat.ravel arr, 0)
                    | Some ax => (arr, ax)
                    end in
  axis <- Repeat._canonicalize_axis axis (ndim a) ;;
  let n := dim a axis in
  (* Case 3a: unique integer indices. *)
  let delete_unique (obj : list Z) : result (array T) :=
    let obj := map (clip_index n) obj in
    let obj := sort_ints obj in
    let obj := map (fun p => fst p - snd p)
                   (combine obj (iota (length obj))) in
    let i := iota (Z.to_nat (n - len obj)) in
    let i := map (fun x =>
                    x + Arr.sum (map (fun o => if o <=? x then 1 else 0) obj))
                 i in
    Ok (gather_axis a axis i) in
  match obj with
  | obj_int i =>
      (* Case 1: obj is a static integer. *)
      obj <- canonicalize_index i n ;;
      concatenate [slice_axis a axis 0 (Some obj);
                   slice_axis a axis (obj + 1) None] axis
  | obj_slice s =>
      (* Case 2: obj is a static slice. *)
      '(start, stop, step) <- slice_indices s n ;;
      delete_unique (arange3 start stop step)
  | obj_ints l =>
      if assume_unique_indices then delete_unique l
      else
        (* Case 3b: non-unique indices, static. *)
        mask <- np_clear (repeat true (Z.to_nat n)) l ;;
        Ok (compress_axis a axis mask)
  | obj_bools l =>
      if negb (len l =? n) then Raise ValueError
      else Ok (compress_axis a axis (map negb l))
  end.

End InsertDelete.

End InsertDelete.

(** ** [fill_diagonal] *)

Module FillDiagonal.

Import Arr Nd.

(** The [val] argument: a scalar or an array (given flattened). *)
Inductive value_like (T : Type) : Type :=
| val_scalar (v : T)
| val_array (l : list T).

Arguments val_scalar {T} v.
Arguments val_array {T} l.

Section FillDiagonal.

Context {T : Type}.

(** [diag_indices(n, ndim)]: [ndim] copies of [iota(n)]. *)
Definition diag_indices (n : Z) (ndim : Z) : result (list (list Z)) :=
  if n <? 0 then Raise ValueError
  else if ndim <? 0 then Raise ValueError
  else Ok (repeat (iota (Z.to_nat n)) (Z.to_nat ndim)).

(** [tile(arr, reps)] on a one-dimensional array. *)
Definition tile (arr : list T) (reps : Z) : list T :=
  concat (repeat arr (Z.to_nat reps)).

Definition _tile_to_size (arr : list T) (size : Z) : result (list T) :=
  arr <- (if len arr <? size
          then if len arr =? 0 then Raise ZeroDivisionError
               else Ok (tile arr ((size + len arr - 1) / len arr))
          else Ok arr) ;;
  if negb (size <=? len arr) then Raise AssertionError
  else Ok (if size <? len arr then firstn (Z.to_nat size) arr else arr).

(** The multi-index named by position [k] of a tuple of index arrays. *)
Definition position (idx : list (list Z)) (k : nat) : list Z :=
  map (fun ia => nth k ia 0) idx.

(** [a.at[idx].set(vals)] for a tuple [idx] of index arrays, one per axis:
    a functional update, which leaves [a] as it is. *)
Definition at_set_tuple (a : array T) (idx : list (list Z))
  (vals : list T) : array T :=
  mk_array (shape a)
    (fold_left
       (fun f kv => fun j => if shape_eqb j (position idx (fst kv))
                             then snd kv else f j)
       (combine (seq 0 (length vals)) vals)
       (at_ a)).

Definition fill_diagonal (a : array T) (val : value_like T) (wrap : bool)
  (inplace : bool) : result (array T) :=
  if inplace then Raise NotImplementedError
  else if wrap then Raise NotImplementedError
  else if (ndim a <? 2)%nat then Raise ValueError
  else if (2 <? ndim a)%nat
          && negb (forallb (fun n => n =? hd 0 (shape a)) (tl (shape a)))
  then Raise ValueError
  else
    let n := fold_right Z.min (hd 0 (shape a)) (tl (shape a)) in
    idx <- diag_indices n (Z.of_nat (ndim a)) ;;
    vals <- match val with
            | val_scalar v => Ok (repeat v (Z.to_nat n))
            | val_array l => _tile_to_size l n
            end ;;
    Ok (at_set_tuple a idx vals).

End FillDiagonal.

End FillDiagonal.

(** ** Padding *)

Module Pad.

Import Arr Nd.

Inductive mode : Type :=
| constant | wrap | symmetric | reflect | edge | linear_ramp
| maximum | minimum | mean | median | empty.

Inductive reflect_kind : Type := even | odd.

(** [PadValueLike]: a scalar, a sequence or a sequence of sequences, as
    [np.asarray] receives it. *)
Inductive pad_value_like (V : Type) : Type :=
| pv_scalar (v : V)
| pv_vector (l : list V)
| pv_matrix (rows : list (list V)).

Arguments pv_scalar {V} v.
Arguments pv_vector {V} l.
Arguments pv_matrix {V} rows.

(** The element dtype of the padded array.  The arithmetic of the fill
    values belongs to modules that are not among the sources and is a
    parameter: [odd_reflect e x] is [2 * e - x], [ramp start stop num j] is
    element [j] of [linspace(start, stop, num, endpoint=False)],
    [stat_value m lane] is the statistic of mode [m] over a non-empty lane,
    [stat_of_empty m] is what that reduction does on a zero-size lane,
    [finish_stat] is the rounding and conversion applied to a statistic and
    [convert_constant] the conversion of [constant_values]. *)
Class PadElem (T : Type) : Type := {
  zero : T;
  odd_reflect : T -> T -> T;
  ramp : T -> T -> Z -> Z -> T;
  stat_value : mode -> list T -> T;
  stat_of_empty : mode -> result T;
  finish_stat : T -> T;
  convert_constant : T -> T
}.

(** Integers, for running the model. *)
#[export] Instance PadElem_Z : PadElem Z := {
  zero := 0;
  odd_reflect := fun e x => 2 * e - x;
  ramp := fun start stop num j => start + (stop - start) * j / num;
  stat_value := fun m lane =>
    match m with
    | maximum => fold_right Z.max (hd 0 lane) lane
    | minimum => fold_right Z.min (hd 0 lane) lane
    | median => nth (length lane / 2) (InsertDelete.sort_ints lane) 0
    | _ => (2 * Arr.sum lane + len lane) / (2 * len lane)
    end;
  stat_of_empty := fun m =>
    match m with
    | maximum | minimum => Raise ValueError
    | _ => Ok 0
    end;
  finish_stat := fun x => x;
  convert_constant := fun x => x
}.

(** The rows of a two-column array as pairs. *)
Fixpoint rows_to_pairs {V : Type} (rows : list (list V))
  : option (list (V * V)) :=
  match rows with
  | [] => Some []
  | [x; y] :: rest =>
      match rows_to_pairs rest with
      | Some ps => Some ((x, y) :: ps)
      | None => None
      end
  | _ => None
  end.

(** [_broadcast_to_pairs(nvals, nd, name)]: the accepted shapes are
    [(nd, 2)], [(1, 2)], [(2,)], [(1,)] and [()]; an inhomogeneous nesting
    is a [TypeError]. *)
Definition _broadcast_to_pairs {V : Type} (nvals : pad_value_like V)
  (nd : nat) : result (list (V * V)) :=
  match nvals with
  | pv_matrix rows =>
      match rows_to_pairs rows with
      | Some pairs =>
          if (length rows =? nd)%nat then Ok pairs
          else match pairs with
               | [v1_2] => Ok (repeat v1_2 nd)
               | _ => Raise ValueError
               end
      | None =>
          if forallb (fun r => (length r =? length (hd [] rows))%nat) rows
          then Raise ValueError
          else Raise TypeError
      end
  | pv_vector [v1; v2] => Ok (repeat (v1, v2) nd)
  | pv_vector [v] => Ok (repeat (v, v) nd)
  | pv_scalar v => Ok (repeat (v, v) nd)
  | pv_vector _ => Raise ValueError
  end.

(** The tuple of pairs that [pad] hands to [_pad], as [np.asarray] sees it
    there. *)
Definition pairs_to_rows {V : Type} (pairs : list (V * V)) : list (list V) :=
  map (fun p => [fst p; snd p]) pairs.

(** The keyword arguments of [pad]: an absent key is [None], and [kw_other]
    says that some key other than the four below is present. *)
Record kwargs (T : Type) : Type := mk_kwargs {
  kw_constant_values : option (pad_value_like T);
  kw_stat_length : option (option (pad_value_like Z));
  kw_end_values : option (pad_value_like T);
  kw_reflect_type : option reflect_kind;
  kw_other : bool
}.

Arguments mk_kwargs {T} _ _ _ _ _.
Arguments kw_constant_values {T} _.
Arguments kw_stat_length {T} _.
Arguments kw_end_values {T} _.
Arguments kw_reflect_type {T} _.
Arguments kw_other {T} _.

Definition present {A : Type} (o : option A) : bool :=
  match o with Some _ => true | None => false end.

(** [set(kwargs) - set(allowed_kwargs[mode])] is not empty. *)
Definition unsupported_kwargs {T : Type} (m : mode) (kw : kwargs T) : bool :=
  kw_other kw
  || (present (kw_constant_values kw)
      && negb (match m with constant => true | _ => false end))
  || (present (kw_end_values kw)
      && negb (match m with linear_ramp => true | _ => false end))
  || (present (kw_stat_length kw)
      && negb (match m with
               | maximum | mean | median | minimum => true
               | _ => false
               end))
  || (present (kw_reflect_type kw)
      && negb (match m with reflect | symmetric => true | _ => false end)).

(** [_check_no_padding(axis_padding, mode)]. *)
Definition _check_no_padding (axis_padding : Z * Z) : result unit :=
  if (0 <? fst axis_padding) || (0 <? snd axis_padding)
  then Raise ValueError
  else Ok tt.

Section Padding.

Context {T : Type} `{PadElem T}.

(** [for i in range(nd)]: the per-axis steps, each on the result of the
    previous one. *)
Fixpoint for_axes (step : nat -> array T -> result (array T))
  (axes : list nat) (a : array T) : result (array T) :=
  match axes with
  | [] => Ok a
  | i :: rest => a' <- step i a ;; for_axes step rest a'
  end.

(** [pad_width[i]]. *)
Definition width_at (pad_width : list (Z * Z)) (i : nat) : Z * Z :=
  nth i pad_width (0, 0).

(** [repeat(x, k, axis=i)] with a scalar count. *)
Definition repeat_axis (x : array T) (k : Z) (i : nat) : result (array T) :=
  Repeat.repeat x (Repeat.repeats_scalar k) (Some (Z.of_nat i)) None.

(** [broadcast_to(constant_values, (nd, 2))]. *)
Definition broadcast_constants (cv : pad_value_like T) (nd : nat)
  : result (list (T * T)) :=
  match cv with
  | pv_scalar v => Ok (repeat (v, v) nd)
  | pv_vector [v] => Ok (repeat (v, v) nd)
  | pv_vector [v1; v2] => Ok (repeat (v1, v2) nd)
  | pv_vector _ => Raise ValueError
  | pv_matrix rows =>
      pairs <- match rows_to_pairs rows with
               | Some pairs => Ok pairs
               | None =>
                   match rows_to_pairs (map (fun r => r ++ r) rows) with
                   | Some pairs =>
                       if forallb (fun r => (length r =? 1)%nat) rows
                       then Ok pairs else Raise ValueError
                   | None => Raise ValueError
                   end
               end ;;
      if (length pairs =? nd)%nat then Ok pairs
      else match pairs with
           | [p] => Ok (repeat p nd)
           | _ => Raise ValueError
           end
  end.

Definition map_pad_value (f : T -> T) (cv : pad_value_like T)
  : pad_value_like T :=
  match cv with
  | pv_scalar v => pv_scalar (f v)
  | pv_vector l => pv_vector (map f l)
  | pv_matrix rows => pv_matrix (map (map f) rows)
  end.

(** The body of the loop of [_pad_constant]. *)
Definition constant_axis (pad_width : list (Z * Z))
  (constant_values : list (T * T)) (nd : nat) (i : nat) (array : array T)
  : result (Nd.array T) :=
  let cv := nth i constant_values (zero, zero) in
  let zeros := repeat (0, 0) nd in
  let array :=
    if negb (fst (width_at pad_width i) =? 0)
    then lax_pad array (fst cv)
           (set_nth zeros i (fst (width_at pad_width i), 0))
    else array in
  let array :=
    if negb (snd (width_at pad_width i) =? 0)
    then lax_pad array (snd cv)
           (set_nth zeros i (0, snd (width_at pad_width i)))
    else array in
  Ok array.

Definition _pad_constant (array : array T) (pad_width : list (Z * Z))
  (constant_values : pad_value_like T) : result (Nd.array T) :=
  let nd := ndim array in
  let constant_values := map_pad_value convert_constant constant_values in
  let widths := pad_width in
  match constant_values with
  | pv_scalar v => Ok (lax_pad array v widths)
  | pv_vector [v] => Ok (lax_pad array v widths)
  | _ =>
      match constant_values with
      | pv_vector l =>
          if negb (length l =? 2)%nat then Raise ValueError else Ok tt
      | _ => Ok tt
      end ;;
      constant_values <- broadcast_constants constant_values nd ;;
      for_axes (constant_axis pad_width constant_values nd) (seq 0 nd) array
  end.

(** The optional slices of [_pad_wrap]. *)
Definition optional_part (present : bool) (part : result (array T))
  : result (list (array T)) :=
  if present then p <- part ;; Ok [p] else Ok [].

(** The body of the loop of [_pad_wrap]. *)
Definition wrap_axis (pad_width : list (Z * Z)) (i : nat) (array : array T)
  : result (Nd.array T) :=
  if dim array i =? 0
  then _check_no_padding (width_at pad_width i) ;; Ok array
  else
    let size := dim array i in
    let left_repeats := fst (width_at pad_width i) / size in
    let left_remainder := fst (width_at pad_width i) mod size in
    let right_repeats := snd (width_at pad_width i) / size in
    let right_remainder := snd (width_at pad_width i) mod size in
    let total_repeats := left_repeats + right_repeats + 1 in
    left <- optional_part (0 <? left_remainder)
              (slice_in_dim array (size - left_remainder) (Some size) i) ;;
    right <- optional_part (0 <? right_remainder)
               (slice_in_dim array 0 (Some right_remainder) i) ;;
    concatenate (left ++ repeat array (Z.to_nat total_repeats) ++ right) i.

Definition _pad_wrap (array : array T) (pad_width : list (Z * Z))
  : result (Nd.array T) :=
  for_axes (wrap_axis pad_width) (seq 0 (ndim array)) array.

(** [2 * edge - x], the edge being broadcast along the axis. *)
Definition odd_combine (edge x : array T) (i : nat) : array T :=
  mk_array (shape x)
    (fun idx => odd_reflect (at_ edge (with_coord idx i 0)) (at_ x idx)).

(** The [while padding > 0] loop of [build_padding]; every turn consumes at
    least one unit of padding, and [fuel] bounds the number of turns. *)
Fixpoint build_padding_loop (fuel : nat) (m : mode) (reflect_type : reflect_kind)
  (i : nat) (axis_size offset : Z) (before : bool)
  (array : array T) (padding : Z) (edge : Nd.array T)
  : result (Nd.array T) :=
  if padding <=? 0 then Ok array
  else
    match fuel with
    | O => Raise OutOfFuel
    | S fuel' =>
        let curr_pad := Z.min padding (axis_size - offset) in
        let padding := padding - curr_pad in
        let start := if before then offset else - (curr_pad + offset) in
        let stop :=
          if before then Some (offset + curr_pad)
          else if (match m with symmetric => true | _ => false end)
                  || (axis_size =? 1)
               then None else Some (-1) in
        x <- slice_in_dim array start stop i ;;
        let x := rev x i in
        '(x, edge) <-
          match reflect_type with
          | odd =>
              let x := odd_combine edge x i in
              if 1 <? axis_size
              then edge <- (if before then slice_in_dim x 0 (Some 1) i
                            else slice_in_dim x (-1) None i) ;;
                   Ok (x, edge)
              else Ok (x, edge)
          | even => Ok (x, edge)
          end ;;
        array <- (if before then concatenate [x; array] i
                  else concatenate [array; x] i) ;;
        build_padding_loop fuel' m reflect_type i axis_size offset before
                           array padding edge
    end.

Definition build_padding (m : mode) (reflect_type : reflect_kind) (i : nat)
  (axis_size : Z) (array : array T) (padding : Z) (before : bool)
  : result (Nd.array T) :=
  edge <- (if before then slice_in_dim array 0 (Some 1) i
           else slice_in_dim array (-1) None i) ;;
  let offset :=
    if (match m with reflect => true | _ => false end) && (1 <? axis_size)
    then 1 else 0 in
  build_padding_loop (Z.to_nat padding) m reflect_type i axis_size offset
                     before array padding edge.

(** The body of the loop of [_pad_symmetric_or_reflect]. *)
Definition symmetric_or_reflect_axis (pad_width : list (Z * Z)) (m : mode)
  (reflect_type : reflect_kind) (i : nat) (array : array T)
  : result (Nd.array T) :=
  if dim array i =? 0
  then _check_no_padding (width_at pad_width i) ;; Ok array
  else
    let axis_size := dim array i in
    array <- build_padding m reflect_type i axis_size array
               (fst (width_at pad_width i)) true ;;
    build_padding m reflect_type i axis_size array
      (snd (width_at pad_width i)) false.

Definition _pad_symmetric_or_reflect (array : array T)
  (pad_width : list (Z * Z)) (m : mode) (reflect_type : reflect_kind)
  : result (Nd.array T) :=
  match m with
  | symmetric | reflect =>
      for_axes (symmetric_or_reflect_axis pad_width m reflect_type)
               (seq 0 (ndim array)) array
  | _ => Raise AssertionError
  end.

(** The body of the loop of [_pad_edge]. *)
Definition edge_axis (pad_width : list (Z * Z)) (i : nat) (array : array T)
  : result (Nd.array T) :=
  if dim array i =? 0
  then _check_no_padding (width_at pad_width i) ;; Ok array
  else
    let n := dim array i in
    let '(npad_before, npad_after) := width_at pad_width i in
    edge_before <- slice_in_dim array 0 (Some 1) i ;;
    pad_before <- repeat_axis edge_before npad_before i ;;
    edge_after <- slice_in_dim array (n - 1) (Some n) i ;;
    pad_after <- repeat_axis edge_after npad_after i ;;
    concatenate [pad_before; array; pad_after] i.

Definition _pad_edge (array : array T) (pad_width : list (Z * Z))
  : result (Nd.array T) :=
  for_axes (edge_axis pad_width) (seq 0 (ndim array)) array.

(** [linspace(start, stop, num, endpoint=False, axis=axis)] towards the edge
    slice [stop] (whose axis has length 1). *)
Definition linspace_axis (start : T) (stop : array T) (num : Z) (axis : nat)
  : array T :=
  mk_array (set_nth (shape stop) axis num)
    (fun idx => ramp start (at_ stop (with_coord idx axis 0)) num
                     (coord idx axis)).

(** The body of the loop of [_pad_linear_ramp]. *)
Definition linear_ramp_axis (pad_width : list (Z * Z))
  (end_values : list (T * T)) (axis : nat) (array : array T)
  : result (Nd.array T) :=
  edge_before <- slice_in_dim array 0 (Some 1) axis ;;
  edge_after <- slice_in_dim array (-1) None axis ;;
  let ends := nth axis end_values (zero, zero) in
  let ramp_before :=
    linspace_axis (fst ends) edge_before
                  (fst (width_at pad_width axis)) axis in
  let ramp_after :=
    linspace_axis (snd ends) edge_after
                  (snd (width_at pad_width axis)) axis in
  (* Reverse linear space in appropriate dimension *)
  let ramp_after := rev ramp_after axis in
  concatenate [ramp_before; array; ramp_after] axis.

Definition _pad_linear_ramp (array : array T) (pad_width : list (Z * Z))
  (end_values : list (T * T)) : result (Nd.array T) :=
  for_axes (linear_ramp_axis pad_width end_values) (seq 0 (ndim array)) array.

(** [stat_func(array, axis=i, keepdims=True)], rounded and converted. *)
Definition stat_along (m : mode) (a : array T) (i : nat)
  : result (Nd.array T) :=
  if dim a i <=? 0
  then v <- stat_of_empty m ;;
       Ok (mk_array (set_nth (shape a) i 1) (fun _ => finish_stat v))
  else Ok (mk_array (set_nth (shape a) i 1)
             (fun idx => finish_stat (stat_value m (lane a i idx)))).

(** The body of the loop of [_pad_stats]. *)
Definition stats_axis (pad_width : list (Z * Z))
  (stat_length : option (list (Z * Z))) (m : mode) (i : nat)
  (array : array T) : result (Nd.array T) :=
  '(stat_before, stat_after) <-
    match stat_length with
    | None =>
        stat_before <- stat_along m array i ;;
        Ok (stat_before, stat_before)
    | Some stat_length =>
        let array_length := dim array i in
        let '(length_before, length_after) := width_at stat_length i in
        if (length_before =? 0) || (length_after =? 0)
        then Raise ValueError
        else
          (* Limit stat_length to length of array. *)
          let length_before := Z.min length_before array_length in
          let length_after := Z.min length_after array_length in
          slice_before <- slice_in_dim array 0 (Some length_before) i ;;
          slice_after <- slice_in_dim array (- length_after) None i ;;
          stat_before <- stat_along m slice_before i ;;
          stat_after <- stat_along m slice_after i ;;
          Ok (stat_before, stat_after)
    end ;;
  let '(npad_before, npad_after) := width_at pad_width i in
  pad_before <- repeat_axis stat_before npad_before i ;;
  pad_after <- repeat_axis stat_after npad_after i ;;
  concatenate [pad_before; array; pad_after] i.

Definition _pad_stats (array : array T) (pad_width : list (Z * Z))
  (stat_length : option (list (Z * Z))) (m : mode) : result (Nd.array T) :=
  for_axes (stats_axis pad_width stat_length m) (seq 0 (ndim array)) array.

(** The body of the loop of [_pad_empty]. *)
Definition empty_axis (pad_width : list (Z * Z)) (i : nat) (array : array T)
  : result (Nd.array T) :=
  let shape_before := set_nth (shape array) i (fst (width_at pad_width i)) in
  let pad_before := full shape_before zero in
  let shape_after := set_nth (shape array) i (snd (width_at pad_width i)) in
  let pad_after := full shape_after zero in
  concatenate [pad_before; array; pad_after] i.

Definition _pad_empty (array : array T) (pad_width : list (Z * Z))
  : result (Nd.array T) :=
  for_axes (empty_axis pad_width) (seq 0 (ndim array)) array.

Definition _pad (array : array T) (pad_width : pad_value_like Z) (m : mode)
  (constant_values : pad_value_like T)
  (stat_length : option (pad_value_like Z))
  (end_values : pad_value_like T) (reflect_type : reflect_kind)
  : result (Nd.array T) :=
  let nd := ndim array in
  if (nd =? 0)%nat then Ok array
  else
    pad_width <- _broadcast_to_pairs pad_width nd ;;
    if existsb (fun p => (fst p <? 0) || (snd p <? 0)) pad_width
    then Raise ValueError
    else
      match m with
      | constant => _pad_constant array pad_width constant_values
      | wrap => _pad_wrap array pad_width
      | symmetric | reflect =>
          _pad_symmetric_or_reflect array pad_width m reflect_type
      | edge => _pad_edge array pad_width
      | linear_ramp =>
          end_values <- _broadcast_to_pairs end_values nd ;;
          _pad_linear_ramp array pad_width end_values
      | maximum | minimum | mean | median =>
          stat_length <- match stat_length with
                         | Some sl => sl <- _broadcast_to_pairs sl nd ;;
                                      Ok (Some sl)
                         | None => Ok None
                         end ;;
          _pad_stats array pad_width stat_length m
      | empty => _pad_empty array pad_width
      end.

(** [pad(array, pad_width, mode, **kwargs)] for the modes given by name;
    [mode] ranges over the supported ones, so the [NotImplementedError] of an
    unknown name and the callable modes are outside of it.  The widths are
    integers, so the integrality check passes. *)
Definition pad (array : array T) (pad_width : pad_value_like Z) (m : mode)
  (kw : kwargs T) : result (Nd.array T) :=
  pad_width <- _broadcast_to_pairs pad_width (ndim array) ;;
  if unsupported_kwargs m kw then Raise ValueError
  else
    (* Set default value if not given. *)
    let constant_values :=
      match kw_constant_values kw with Some v => v | None => pv_scalar zero end in
    let stat_length :=
      match kw_stat_length kw with Some v => v | None => None end in
    let end_values :=
      match kw_end_values kw with Some v => v | None => pv_scalar zero end in
    let reflect_type :=
      match kw_reflect_type kw with Some v => v | None => even end in
    _pad array (pv_matrix (pairs_to_rows pad_width)) m constant_values
         stat_length end_values reflect_type.

End Padding.

(** No keyword argument. *)
Definition no_kwargs {T : Type} : kwargs T :=
  mk_kwargs None None None None false.

End Pad.

(** ** [digitize] *)

Module Digitize.

Import Arr Search.

(** The ordinary [>=] of the element dtype ([lax.ge]). *)
Class Comparable (E : Type) : Type := {
  ge : E -> E -> bool
}.

#[export] Instance Comparable_Z : Comparable Z := {
  ge := Z.geb
}.

Section Digitize.

Context {E : Type} `{SortKey E} `{Comparable E}.

(** [digitize(x, bins, right, method=...)] for one-dimensional [bins]; [x]
    is given by its elements in row-major order.  Both searches are made
    and [where] selects one of them by the scalar test on the two ends of
    [bins]; the count of the reversed search is subtracted in the dtype of
    the indices. *)
Definition digitize (x : list E) (bins_arr : list E) (right_ : bool)
  (m : option method) : list Z :=
  match bins_arr with
  | [] => map (fun _ => 0) x
  | first :: _ =>
      let s := if negb right_ then right else left in
      let m := match m with None => scan | Some m => m end in
      let dtype := if len bins_arr <=? int32_max then int32 else int64 in
      let increasing := ge (last bins_arr first) first in
      let ascending := searchsorted bins_arr x s m in
      let descending :=
        map (fun r => as_signed dtype (len bins_arr - r))
            (searchsorted (rev bins_arr) x s m) in
      map (fun p => if increasing then fst p else snd p)
          (combine ascending descending)
  end.

End Digitize.

End Digitize.

(** ** [gcd] and [lcm] *)

Module Gcd.

Import Arr.

(** [x.astype(dtype)] for a signed integer dtype of [bits] bits: arithmetic
    that leaves the range wraps around. *)
Definition wrap (bits z : Z) : Z :=
  (z + 2 ^ (bits - 1)) mod 2 ^ bits - 2 ^ (bits - 1).

(** [control_flow.while_loop(cond_fun, body_fun, init_val)]; [fuel] bounds
    the number of turns of the model. *)
Fixpoint while_loop {S : Type} (fuel : nat) (cond_fun : S -> bool)
  (body_fun : S -> S) (init_val : S) : result S :=
  if cond_fun init_val
  then match fuel with
       | O => Raise OutOfFuel
       | Datatypes.S fuel' =>
           while_loop fuel' cond_fun body_fun (body_fun init_val)
       end
  else Ok init_val.

(** An elementwise binary operation on arrays of the same shape. *)
Definition map2 {A B C : Type} (f : A -> B -> C) (x : list A) (y : list B)
  : list C :=
  map (fun p => f (fst p) (snd p)) (combine x y).

(** [where(c, x, y)] on arrays of the same shape. *)
Definition where_ {A : Type} (c : list bool) (x y : list A) : list A :=
  map2 (fun (b : bool) (p : A * A) => if b then fst p else snd p)
       c (combine x y).

(** [broadcast_arrays(x1, x2)] on one-dimensional arrays. *)
Definition broadcast_arrays {A : Type} (x1 x2 : list A)
  : result (list A * list A) :=
  if (length x1 =? length x2)%nat then Ok (x1, x2)
  else match x1, x2 with
       | [a], _ => Ok (repeat a (length x2), x2)
       | _, [b] => Ok (x1, repeat b (length x1))
       | _, _ => Raise ValueError
       end.

Section Gcd.

(** The width of the integer dtype of the (promoted) arguments. *)
Variable bits : Z.

(** [ufuncs.abs] on the integer dtype. *)
Definition abs (v : Z) : Z := wrap bits (Z.abs v).

Definition _gcd_cond_fn (xs : list Z * list Z) : bool :=
  let '(x1, x2) := xs in
  existsb (fun v => negb (v =? 0)) x2.

(** [lax.rem] is the remainder of the truncated division. *)
Definition _gcd_body_fn (xs : list Z * list Z) : list Z * list Z :=
  let '(x1, x2) := xs in
  let nonzero := map (fun v => negb (v =? 0)) x2 in
  let '(x1, x2) := (where_ nonzero x2 x1,
                    where_ nonzero (map2 Z.rem x1 x2)
                           (map (fun _ => 0) x2)) in
  let less := map2 Z.ltb x1 x2 in
  (where_ less x2 x1, where_ less x1 x2).

(** [gcd(x1, x2)] on one-dimensional integer arrays. *)
Definition gcd (fuel : nat) (x1 x2 : list Z) : result (list Z) :=
  ' (x1, x2) <- broadcast_arrays x1 x2 ;;
  ' (gcd, _) <- while_loop fuel _gcd_cond_fn _gcd_body_fn
                  (map abs x1, map abs x2) ;;
  Ok gcd.

(** [lcm(x1, x2)] on one-dimensional integer arrays; the operands of the
    last line broadcast against each other as those of [gcd] do. *)
Definition lcm (fuel : nat) (x1 x2 : list Z) : result (list Z) :=
  let x1 := map abs x1 in
  let x2 := map abs x2 in
  d <- gcd fuel x1 x2 ;;
  ' (x1, x2) <- broadcast_arrays x1 x2 ;;
  Ok (where_ (map (fun v => v =? 0) d)
             (map (fun _ => 0) d)
             (map2 (fun a q => wrap bits (a * q)) x1 (map2 Z.div x2 d))).

End Gcd.

End Gcd.

(** ** [clip], [ravel_multi_index] and [unravel_index] *)

Module Clip.

(** [clip(arr, min, max)] on one element: [maximum(min, arr)] and then
    [minimum(max, arr)], each bound being optional. *)
Definition clip (arr : Z) (min max : option Z) : Z :=
  let arr := match min with Some m => Z.max m arr | None => arr end in
  match max with Some m => Z.min m arr | None => arr end.

End Clip.

Module RavelIndex.

Import Arr Clip.

Inductive index_mode : Type := mode_raise | mode_clip | mode_wrap.

Inductive index_order : Type := order_C | order_F.

(** [np.cumprod] in the 64-bit integers of NumPy. *)
Fixpoint cumprod_from (acc : Z) (l : list Z) : list Z :=
  match l with
  | [] => []
  | x :: t => let p := Gcd.wrap 64 (acc * x) in p :: cumprod_from p t
  end.

Definition cumprod (l : list Z) : list Z := cumprod_from 1 l.

Section RavelIndex.

(** The width of the integer dtype of the index arrays. *)
Variable bits : Z.

(** [ravel_multi_index(multi_index, dims, mode, order)] for one point: every
    entry of [multi_index] is an integer scalar (index arrays are treated
    elementwise).  [mode] and [order] range over the accepted names. *)
Definition ravel_multi_index (multi_index : list Z) (dims : list Z)
  (mode : index_mode) (order : index_order) : result Z :=
  if negb (length multi_index =? length dims)%nat then Raise AssertionError
  else
    multi_index_arr <-
      match mode with
      | mode_raise =>
          if existsb (fun p => (fst p <? 0) || (snd p <=? fst p))
                     (combine multi_index dims)
          then Raise ValueError
          else Ok multi_index
      | mode_clip =>
          Ok (map (fun p => clip (fst p) (Some 0) (Some (snd p - 1)))
                  (combine multi_index dims))
      | mode_wrap =>
          Ok (map (fun p => fst p mod snd p) (combine multi_index dims))
      end ;;
    let strides :=
      match order with
      | order_F => cumprod (1 :: removelast dims)
      | order_C => rev (cumprod (1 :: rev (tl dims)))
      end in
    Ok (fold_left
          (fun result p =>
             Gcd.wrap bits (result + Gcd.wrap bits (fst p * snd p)))
          (combine multi_index_arr strides) 0).

(** [unravel_index(indices, shape)] for one flat index; the quotient that
    is left after the last division tells whether the index was out of
    bounds. *)
Definition unravel_index (indices : Z) (shape : list Z) : list Z :=
  let '(indices_arr, out_indices) :=
    fold_right (fun s st => (fst st / s, (fst st mod s) :: snd st))
               (indices, []) shape in
  let oob_pos := 0 <? indices_arr in
  let oob_neg := indices_arr <? -1 in
  map (fun p => if oob_pos then fst p - 1
                else if oob_neg then 0 else snd p)
      (combine shape out_indices).

End RavelIndex.

End RavelIndex.

(** ** [roll] *)

Module Roll.

Import Arr Nd.

(** [np.broadcast_arrays(axis, shift)] on two tuples of integers. *)
Definition broadcast_tuples {A B : Type} (x1 : list A) (x2 : list B)
  : result (list (A * B)) :=
  if (length x1 =? length x2)%nat then Ok (combine x1 x2)
  else match x1, x2 with
       | [a], _ => Ok (combine (repeat a (length x2)) x2)
       | _, [b] => Ok (combine x1 (repeat b (length x1)))
       | _, _ => Raise ValueError
       end.

(** A tuple comprehension whose elements can raise. *)
Fixpoint map_result {A B : Type} (f : A -> result B) (l : list A)
  : result (list B) :=
  match l with
  | [] => Ok []
  | x :: t => y <- f x ;; ys <- map_result f t ;; Ok (y :: ys)
  end.

Section Roll.

Context {T : Type}.

(** The body of the loop of [_roll_static]. *)
Definition roll_axis (a : array T) (ax : nat) (s : Z) : result (array T) :=
  if dim a ax =? 0 then Ok a
  else
    let i := (- s) mod dim a ax in
    front <- slice_in_dim a i (Some (dim a ax)) ax ;;
    back <- slice_in_dim a 0 (Some i) ax ;;
    concatenate [front; back] ax.

Fixpoint roll_axes (a : array T) (pairs : list (nat * Z))
  : result (array T) :=
  match pairs with
  | [] => Ok a
  | (ax, s) :: rest => a' <- roll_axis a ax s ;; roll_axes a' rest
  end.

Definition _roll_static (a : array T) (shift : list Z) (axis : list nat)
  : result (array T) :=
  pairs <- broadcast_tuples axis shift ;;
  roll_axes a pairs.

(** The row-major position of a multi-index in a shape. *)
Fixpoint ravel_position (idx shp : list Z) : Z :=
  match idx, shp with
  | i :: idx', _ :: shp' =>
      i * fold_right Z.mul 1 shp' + ravel_position idx' shp'
  | _, _ => 0
  end.

(** [flat.reshape(shape)] of a one-dimensional array. *)
Definition reshape_flat (flat : array T) (shp : list Z) : array T :=
  mk_array shp (fun idx => at_ flat [ravel_position idx shp]).

(** [roll(a, shift, axis)] with a static [shift] (an integer or a tuple of
    integers, given as a tuple); [axis] is [None] or a tuple. *)
Definition roll (a : array T) (shift : list Z) (axis : option (list Z))
  : result (array T) :=
  match axis with
  | None =>
      r <- _roll_static (Repeat.ravel a) shift [0%nat] ;;
      Ok (reshape_flat r (shape a))
  | Some axis =>
      axis <- map_result (fun ax => Repeat._canonicalize_axis ax (ndim a))
                         axis ;;
      _roll_static a shift axis
  end.

End Roll.

End Roll.

(** ** [trim_zeros] *)

Module TrimZeros.

Import Arr.

(** [c.lower()] on an ASCII character. *)
Definition lower (c : Ascii.ascii) : Ascii.ascii :=
  let n := Ascii.nat_of_ascii c in
  if ((65 <=? n) && (n <=? 90))%nat then Ascii.ascii_of_nat (n + 32) else c.

(** The letters ['f'] and ['b']. *)
Definition letter_f : Ascii.ascii := Ascii.ascii_of_nat 102.
Definition letter_b : Ascii.ascii := Ascii.ascii_of_nat 98.

(** [c in s.lower()]. *)
Fixpoint in_lower (c : Ascii.ascii) (s : String.string) : bool :=
  match s with
  | String.EmptyString => false
  | String.String h t => Ascii.eqb (lower h) c || in_lower c t
  end.

(** [argmin] of a boolean array: the first position of the least value,
    which is the first [False] when there is one. *)
Fixpoint argmin (nz : list bool) : Z :=
  match nz with
  | [] => 0
  | b :: t => if negb b then 0
              else if forallb (fun x => x) t then 0 else 1 + argmin t
  end.

Section TrimZeros.

Context {T : Type}.

(** [x == 0] in the dtype of the array. *)
Variable is_zero : T -> bool.

(** [filt[start:stop]] for [0 <= start] and [0 <= stop]. *)
Definition slice_between (filt : list T) (start stop : Z) : list T :=
  skipn (Z.to_nat start) (firstn (Z.to_nat stop) filt).

(** [trim_zeros(filt, trim)] on a one-dimensional array. *)
Definition trim_zeros (filt : list T) (trim : String.string) : list T :=
  let nz := map is_zero filt in
  if forallb (fun x => x) nz then []
  else
    let start := if in_lower letter_f trim then argmin nz else 0 in
    let end_ := if in_lower letter_b trim then argmin (rev nz) else 0 in
    slice_between filt start (len filt - end_).

End TrimZeros.

End TrimZeros.

(** ** [split], [array_split], [vsplit], [hsplit] and [dsplit] on a
    one-dimensional array *)

Module Split.

Import Arr.

(** The name under which [_split] is called. *)
Inductive split_op : Type :=
| op_split | op_vsplit | op_hsplit | op_dsplit | op_array_split.

(** [indices_or_sections]: a number of sections or a sequence of indices. *)
Inductive sections_like : Type :=
| sections_number (n : Z)
| sections_indices (l : list Z).

(** [np.diff] of a sequence of integers. *)
Fixpoint diff (l : list Z) : list Z :=
  match l with
  | a :: ((b :: _) as t) => (b - a) :: diff t
  | _ => []
  end.

Section Split.

Context {T : Type}.

(** The pieces of consecutive [sizes]. *)
Fixpoint pieces (l : list T) (sizes : list Z) : list (list T) :=
  match sizes with
  | [] => []
  | s :: rest =>
      firstn (Z.to_nat s) l :: pieces (skipn (Z.to_nat s) l) rest
  end.

(** [lax.split(operand, sizes, axis=0)] on a one-dimensional array: the
    sizes must be non-negative and add up to the length. *)
Definition lax_split (operand : list T) (sizes : list Z)
  : result (list (list T)) :=
  if existsb (fun s => s <? 0) sizes then Raise ValueError
  else if negb (len operand =? Arr.sum sizes) then Raise ValueError
  else Ok (pieces operand sizes).

(** [_split(op, ary, indices_or_sections, axis)] on a one-dimensional
    array: [ary.shape[axis]] is an index into a tuple of length one, an
    [IndexError] unless [axis] is 0 or -1. *)
Definition _split (op : split_op) (ary : list T)
  (indices_or_sections : sections_like) (axis : Z)
  : result (list (list T)) :=
  if negb ((-1 <=? axis) && (axis <? 1)) then Raise IndexError
  else
  let size := len ary in
  sizes <-
    match indices_or_sections with
    | sections_indices l => Ok (diff ([0] ++ l ++ [size]))
    | sections_number num_sections =>
        if num_sections =? 0 then Raise ZeroDivisionError
        else
          let part_size := size / num_sections in
          let r := size mod num_sections in
          if r =? 0 then Ok (repeat part_size (Z.to_nat num_sections))
          else match op with
               | op_array_split =>
                   Ok (repeat (part_size + 1) (Z.to_nat r)
                       ++ repeat part_size (Z.to_nat (num_sections - r)))
               | _ => Raise ValueError
               end
    end ;;
  lax_split ary sizes.

Definition split (ary : list T) (indices_or_sections : sections_like)
  (axis : Z) : result (list (list T)) :=
  _split op_split ary indices_or_sections axis.

Definition vsplit (ary : list T) (indices_or_sections : sections_like)
  : result (list (list T)) :=
  _split op_vsplit ary indices_or_sections 0.

(** On a one-dimensional array [a.ndim == 1] holds. *)
Definition hsplit (ary : list T) (indices_or_sections : sections_like)
  : result (list (list T)) :=
  let ndim := 1%nat in
  _split op_hsplit ary indices_or_sections (if (ndim =? 1)%nat then 0 else 1).

Definition dsplit (ary : list T) (indices_or_sections : sections_like)
  : result (list (list T)) :=
  _split op_dsplit ary indices_or_sections 2.

Definition array_split (ary : list T) (indices_or_sections : sections_like)
  (axis : Z) : result (list (list T)) :=
  _split op_array_split ary indices_or_sections axis.

End Split.

End Split.

(** ** [_triu_size] *)

Module Tri.

Import Arr.

(** [_triu_size(n, m, k)] on Python integers; a negative [k] makes one
    recursive call, and [fuel] bounds the depth of the recursion. *)
Fixpoint _triu_size (fuel : nat) (n m k : Z) : result Z :=
  if k <? 0 then
    match fuel with
    | O => Raise OutOfFuel
    | S fuel' =>
        rest <- _triu_size fuel' m n (1 - k) ;;
        Ok (n * m - rest)
    end
  else if m <=? k then Ok 0
  else
    let mk := Z.min n (m - k) in
    Ok (mk * (mk + 1) / 2 + mk * (m - k - mk)).

End Tri.

(** ** [bincount] *)

Module Bincount.

Import Arr Clip.

(** [x.max()] of a non-empty integer array. *)
Definition array_max (x : list Z) : Z := fold_right Z.max (hd 0 x) x.

Section Bincount.

(** The width of the signed integer dtype of the weights, which is the
    dtype of the result: that of [dtypes.int_] when no weights are given. *)
Variable bits : Z.

(** Addition in the dtype of the weights. *)
Definition add_weights (a b : Z) : Z := Gcd.wrap bits (a + b).

(** [bincount(x, weights, minlength, length=length)] on a one-dimensional
    integer array [x], with integer weights given by their values in the
    dtype.  A static [length] is a dimension, hence a natural number. *)
Definition bincount (x : list Z) (weights : option (list Z)) (minlength : Z)
  (length : option nat) : result (list Z) :=
  let length :=
    match length with
    | None => Z.max minlength
                    (if len x =? 0 then 0 else Z.max 0 (array_max x) + 1)
    | Some length => Z.of_nat length
    end in
  weights <- match weights with
             | None => Ok (map (fun _ => 1) x)
             | Some w => if negb (len x =? len w) then Raise ValueError
                         else Ok w
             end ;;
  Ok (at_add add_weights (zeros (Z.to_nat length))
             (map (fun v => clip v (Some 0) None) x) weights).

End Bincount.

End Bincount.

(** * Properties *)

(** ** Facts on the array primitives *)

Module ArrFacts.

Import Arr.

Lemma len_nonneg {A : Type} (l : list A) : 0 <= len l.
Proof. unfold len. lia. Qed.

Lemma len_app {A : Type} (l1 l2 : list A) : len (l1 ++ l2) = len l1 + len l2.
Proof. unfold len. rewrite length_app. lia. Qed.

Lemma len_filter_le {A : Type} (p : A -> bool) (l : list A) :
  len (filter p l) <= len l.
Proof. unfold len. pose proof (filter_length_le p l). lia. Qed.

Lemma getitem_in_range {A : Type} (l : list A) (i : Z) :
  0 <= i < len l -> getitem l i = nth_error l (Z.to_nat i).
Proof.
  intros Hi. unfold getitem, norm_index.
  destruct (Z.ltb_spec i 0); [lia|].
  f_equal. f_equal. lia.
Qed.

Lemma set_nth_length {A : Type} (l : list A) (i : nat) (v : A) :
  length (set_nth l i v) = length l.
Proof.
  revert i. induction l as [|h t IH]; intros [|i]; simpl; auto.
Qed.

Lemma nth_error_set_nth_eq {A : Type} (l : list A) (i : nat) (v : A) :
  (i < length l)%nat -> nth_error (set_nth l i v) i = Some v.
Proof.
  revert i. induction l as [|h t IH]; intros [|i] Hi; simpl in *;
    try lia; auto.
  apply IH. lia.
Qed.

Lemma nth_error_set_nth_ne {A : Type} (l : list A) (i j : nat) (v : A) :
  i <> j -> nth_error (set_nth l i v) j = nth_error l j.
Proof.
  revert i j. induction l as [|h t IH]; intros [|i] [|j] Hij; simpl;
    try reflexivity; try congruence.
  apply IH. congruence.
Qed.

Lemma update_length {A : Type} (f : A -> A -> A) (l : list A) (i : Z) (v : A) :
  length (update f l i v) = length l.
Proof.
  unfold update.
  destruct ((0 <=? norm_index (len l) i) && (norm_index (len l) i <? len l));
    [|reflexivity].
  destruct (nth_error l (Z.to_nat (norm_index (len l) i)));
    [apply set_nth_length|reflexivity].
Qed.

(** An in-range scatter update is a plain write at that position. *)
Lemma update_in_range {A : Type} (f : A -> A -> A) (l : list A) (i : nat)
  (old v : A) :
  nth_error l i = Some old ->
  update f l (Z.of_nat i) v = set_nth l i (f old v).
Proof.
  intros Hold. unfold update, norm_index.
  assert (Hi : (i < length l)%nat) by (apply nth_error_Some; congruence).
  destruct (Z.ltb_spec (Z.of_nat i) 0); [lia|].
  destruct (Z.leb_spec 0 (Z.of_nat i)); [|lia].
  destruct (Z.ltb_spec (Z.of_nat i) (len l)); [|unfold len in *; lia].
  simpl. rewrite Nat2Z.id, Hold. reflexivity.
Qed.

Lemma at_set_length {A : Type} (dst : list A) (idxs : list Z) (vals : list A) :
  length (at_set dst idxs vals) = length dst.
Proof.
  unfold at_set. revert dst vals.
  induction idxs as [|i idxs IH]; intros dst [|v vals]; simpl; auto.
  rewrite IH. apply update_length.
Qed.

Lemma at_add_length {A : Type} (add : A -> A -> A) (dst : list A)
  (idxs : list Z) (vals : list A) :
  length (at_add add dst idxs vals) = length dst.
Proof.
  unfold at_add. revert dst vals.
  induction idxs as [|i idxs IH]; intros dst [|v vals]; simpl; auto.
  rewrite IH. apply update_length.
Qed.

(** A position that no index names keeps its value through a scatter. *)
Lemma at_add_untouched {A : Type} (f : A -> A -> A) (dst : list A)
  (idxs : list nat) (vals : list A) (j : nat) :
  ~ In j idxs -> Forall (fun i => (i < length dst)%nat) idxs ->
  nth_error (at_add f dst (map Z.of_nat idxs) vals) j = nth_error dst j.
Proof.
  unfold at_add. revert dst vals.
  induction idxs as [|i idxs IH]; intros dst [|v vals] Hj Hr; simpl; auto.
  inversion Hr as [|? ? Hi Hr']; subst.
  destruct (nth_error dst i) as [old|] eqn:Hold.
  2:{ apply nth_error_None in Hold. lia. }
  rewrite (update_in_range _ dst i old v Hold).
  rewrite IH.
  - apply nth_error_set_nth_ne. intros ->. apply Hj. left. reflexivity.
  - intros Hin. apply Hj. right. exact Hin.
  - rewrite set_nth_length. exact Hr'.
Qed.

(** Scattering along distinct in-range indices combines the [k]-th value
    with what the [k]-th index held. *)
Lemma at_add_lookup {A : Type} (f : A -> A -> A) (dst : list A)
  (idxs : list nat) (vals : list A) (k i : nat) (old v : A) :
  NoDup idxs -> Forall (fun i => (i < length dst)%nat) idxs ->
  nth_error idxs k = Some i -> nth_error vals k = Some v ->
  nth_error dst i = Some old ->
  nth_error (at_add f dst (map Z.of_nat idxs) vals) i = Some (f old v).
Proof.
  revert dst vals k.
  induction idxs as [|i0 idxs IH]; intros dst vals k Hnd Hr Hi Hv Hold.
  - destruct k; discriminate.
  - destruct vals as [|v0 vals]; [destruct k; discriminate|].
    inversion Hnd as [|? ? Hnotin Hnd']; subst.
    inversion Hr as [|? ? Hi0 Hr']; subst.
    destruct (nth_error dst i0) as [old0|] eqn:Hold0.
    2:{ apply nth_error_None in Hold0. lia. }
    assert (Hstep : at_add f dst (map Z.of_nat (i0 :: idxs)) (v0 :: vals)
                    = at_add f (set_nth dst i0 (f old0 v0))
                        (map Z.of_nat idxs) vals).
    { unfold at_add. simpl.
      rewrite (update_in_range _ dst i0 old0 v0 Hold0). reflexivity. }
    rewrite Hstep.
    destruct k as [|k]; simpl in Hi, Hv.
    + inversion Hi; inversion Hv; subst.
      rewrite at_add_untouched; auto.
      * rewrite nth_error_set_nth_eq by exact Hi0. congruence.
      * rewrite set_nth_length. exact Hr'.
    + eapply IH; eauto.
      * rewrite set_nth_length. exact Hr'.
      * rewrite nth_error_set_nth_ne; [exact Hold|].
        intros ->. apply Hnotin. eapply nth_error_In; eauto.
Qed.

Lemma at_set_untouched {A : Type} (dst : list A) (idxs : list nat)
  (vals : list A) (j : nat) :
  ~ In j idxs -> Forall (fun i => (i < length dst)%nat) idxs ->
  nth_error (at_set dst (map Z.of_nat idxs) vals) j = nth_error dst j.
Proof. apply (at_add_untouched (fun _ v => v)). Qed.

(** Scattering along distinct in-range indices puts the [k]-th value at the
    [k]-th index. *)
Lemma at_set_lookup {A : Type} (dst : list A) (idxs : list nat)
  (vals : list A) (k i : nat) (v : A) :
  NoDup idxs -> Forall (fun i => (i < length dst)%nat) idxs ->
  nth_error idxs k = Some i -> nth_error vals k = Some v ->
  nth_error (at_set dst (map Z.of_nat idxs) vals) i = Some v.
Proof.
  intros Hnd Hr Hi Hv.
  destruct (nth_error dst i) as [old|] eqn:Hold.
  - exact (at_add_lookup (fun _ v => v) dst idxs vals k i old v
             Hnd Hr Hi Hv Hold).
  - apply nth_error_None in Hold. rewrite Forall_forall in Hr.
    specialize (Hr i (nth_error_In _ _ Hi)). lia.
Qed.

Lemma nth_error_ext_eq {A : Type} (l1 l2 : list A) :
  (forall i, nth_error l1 i = nth_error l2 i) -> l1 = l2.
Proof.
  revert l2. induction l1 as [|a l1 IH]; intros [|b l2] Hext.
  - reflexivity.
  - specialize (Hext O). discriminate.
  - specialize (Hext O). discriminate.
  - f_equal.
    + specialize (Hext O). simpl in Hext. congruence.
    + apply IH. intros i. exact (Hext (S i)).
Qed.

Lemma filter_length_perm {A : Type} (f : A -> bool) (l1 l2 : list A) :
  Permutation l1 l2 -> length (filter f l1) = length (filter f l2).
Proof.
  intros Hp. induction Hp as [|x l l' _ IH|x y l|l l' l'' _ IH1 _ IH2]; simpl.
  - reflexivity.
  - destruct (f x); simpl; congruence.
  - destruct (f x), (f y); reflexivity.
  - congruence.
Qed.

End ArrFacts.


(** ** Scatter-add and cumulative sums on integer arrays *)

Module ScatterFacts.

Import Arr ArrFacts.

(** The sum of the values scattered to position [p]. *)
Definition hits (p : nat) (idxs vals : list Z) : Z :=
  Arr.sum (map (fun iv => if fst iv =? Z.of_nat p then snd iv else 0)
               (combine idxs vals)).

Lemma nth_set_nth {A : Type} (l : list A) (i p : nat) (v d : A) :
  (i < length l)%nat ->
  nth p (set_nth l i v) d = if (i =? p)%nat then v else nth p l d.
Proof.
  revert i p. induction l as [|h t IH]; intros [|i] [|p] Hi; simpl in *;
    try lia; try reflexivity.
  apply IH. lia.
Qed.

Lemma nth_update (dst : list Z) (i v : Z) (p : nat) :
  0 <= i ->
  nth p (update Z.add dst i v) 0
  = nth p dst 0
    + if (i =? Z.of_nat p) && (Z.of_nat p <? len dst) then v else 0.
Proof.
  intros Hi. unfold update, norm_index.
  destruct (Z.ltb_spec i 0); [lia|].
  destruct (Z.leb_spec 0 i); [|lia]. cbn [andb].
  destruct (Z.ltb_spec i (len dst)) as [Hlt|Hge].
  - assert (Hn : (Z.to_nat i < length dst)%nat) by (unfold len in Hlt; lia).
    destruct (nth_error dst (Z.to_nat i)) as [old|] eqn:Hold.
    2:{ apply nth_error_None in Hold. lia. }
    rewrite nth_set_nth by exact Hn.
    destruct (Nat.eqb_spec (Z.to_nat i) p) as [He|Hne].
    + subst p. rewrite Z2Nat.id by lia. rewrite Z.eqb_refl.
      destruct (Z.ltb_spec i (len dst)); [|lia]. cbn [andb].
      rewrite (nth_error_nth _ _ 0 Hold). reflexivity.
    + destruct (Z.eqb_spec i (Z.of_nat p)); [lia|]. cbn [andb]. lia.
  - destruct (Z.eqb_spec i (Z.of_nat p)) as [He|Hne]; cbn [andb]; [|lia].
    destruct (Z.ltb_spec (Z.of_nat p) (len dst)); [lia|]. lia.
Qed.

(** A scatter-add along non-negative indices adds, at every position, the
    values whose index is that position; indices beyond the end are
    dropped. *)
Lemma at_add_hits (dst idxs vals : list Z) (p : nat) :
  Forall (fun i => 0 <= i) idxs -> (p < length dst)%nat ->
  nth p (at_add Z.add dst idxs vals) 0 = nth p dst 0 + hits p idxs vals.
Proof.
  unfold at_add, hits. intros Hi. revert dst vals.
  induction Hi as [|i idxs Hi0 _ IH]; intros dst vals Hp.
  - cbn. lia.
  - destruct vals as [|v vals]; [cbn; lia|].
    cbn [combine fold_left map fst snd].
    change (Arr.sum (?x :: ?l)) with (x + Arr.sum l).
    rewrite IH by (rewrite update_length; exact Hp).
    rewrite nth_update by exact Hi0.
    destruct (Z.ltb_spec (Z.of_nat p) (len dst)); [|unfold len in *; lia].
    rewrite andb_true_r. lia.
Qed.

Lemma nth_zeros (n p : nat) : nth p (zeros n) 0 = 0.
Proof.
  unfold zeros. destruct (Nat.lt_ge_cases p n) as [Hlt|Hge].
  - apply nth_repeat_lt. exact Hlt.
  - apply nth_overflow. rewrite repeat_length. exact Hge.
Qed.

Lemma nth_cumsum_from (acc : Z) (l : list Z) (p : nat) :
  (p < length l)%nat ->
  nth p (cumsum_from acc l) 0 = acc + Arr.sum (firstn (S p) l).
Proof.
  revert acc p. induction l as [|x l IH]; intros acc p Hp;
    simpl in Hp; [lia|].
  destruct p as [|p].
  - cbn. lia.
  - cbn [cumsum_from nth]. rewrite IH by lia.
    change (firstn (S (S p)) (x :: l)) with (x :: firstn (S p) l).
    change (Arr.sum (x :: firstn (S p) l))
      with (x + Arr.sum (firstn (S p) l)). lia.
Qed.

Lemma cumsum_from_length (acc : Z) (l : list Z) :
  length (cumsum_from acc l) = length l.
Proof.
  revert acc. induction l as [|x l IH]; intros acc; simpl; [reflexivity|].
  f_equal. apply IH.
Qed.

Lemma sum_zeros (n : nat) : Arr.sum (zeros n) = 0.
Proof.
  unfold zeros. induction n as [|n IH]; [reflexivity|].
  simpl. exact IH.
Qed.

Lemma sum_set_nth (l : list Z) (i : nat) (v : Z) :
  (i < length l)%nat -> Arr.sum (set_nth l i v) = Arr.sum l - nth i l 0 + v.
Proof.
  revert i. induction l as [|h t IH]; intros [|i] Hi; simpl in *; try lia.
  rewrite IH by lia. lia.
Qed.

Lemma sum_update (dst : list Z) (i v : Z) :
  0 <= i ->
  Arr.sum (update Z.add dst i v)
  = Arr.sum dst + if i <? len dst then v else 0.
Proof.
  intros Hi. unfold update, norm_index.
  destruct (Z.ltb_spec i 0); [lia|].
  destruct (Z.leb_spec 0 i); [|lia]. cbn [andb].
  destruct (Z.ltb_spec i (len dst)) as [Hlt|Hge]; [|lia].
  assert (Hn : (Z.to_nat i < length dst)%nat) by (unfold len in Hlt; lia).
  destruct (nth_error dst (Z.to_nat i)) as [old|] eqn:Hold.
  2:{ apply nth_error_None in Hold. lia. }
  rewrite sum_set_nth by exact Hn.
  rewrite (nth_error_nth _ _ 0 Hold). lia.
Qed.

(** A scatter-add whose indices all lie inside the array adds the total of
    the values to the total of the array. *)
Lemma sum_at_add (dst idxs vals : list Z) :
  Forall (fun i => 0 <= i < len dst) idxs -> length vals = length idxs ->
  Arr.sum (at_add Z.add dst idxs vals) = Arr.sum dst + Arr.sum vals.
Proof.
  unfold at_add. intros Hi. revert dst Hi vals.
  induction idxs as [|i idxs IH]; intros dst Hi vals Hlen.
  - destruct vals; [unfold Arr.sum; simpl; lia|discriminate].
  - destruct vals as [|v vals]; [discriminate|].
    inversion Hi as [|? ? Hi0 Hrest]; subst.
    cbn [combine fold_left fst snd].
    rewrite IH.
    + rewrite sum_update by lia.
      destruct (Z.ltb_spec i (len dst)); [|lia].
      change (Arr.sum (v :: vals)) with (v + Arr.sum vals). lia.
    + unfold len. rewrite update_length. exact Hrest.
    + simpl in Hlen. lia.
Qed.

Lemma hits_ones (p : nat) (idxs : list Z) :
  hits p idxs (map (fun _ => 1) idxs)
  = Z.of_nat (count_occ Z.eq_dec idxs (Z.of_nat p)).
Proof.
  unfold hits. induction idxs as [|i idxs IH]; [reflexivity|].
  cbn [map combine fst snd count_occ].
  change (Arr.sum (?x :: ?l)) with (x + Arr.sum l). rewrite IH.
  destruct (Z.eq_dec i (Z.of_nat p)) as [->|Hne].
  - rewrite Z.eqb_refl. lia.
  - destruct (Z.eqb_spec i (Z.of_nat p)); [contradiction|]. lia.
Qed.

Lemma nth_map_lt {A B : Type} (f : A -> B) (l : list A) (p : nat)
  (d : B) (d' : A) :
  (p < length l)%nat -> nth p (map f l) d = f (nth p l d').
Proof.
  revert p. induction l as [|h t IH]; intros [|p] Hp; simpl in *;
    try lia; try reflexivity.
  apply IH. lia.
Qed.

Lemma firstn_set_nth {A : Type} (l : list A) (m i : nat) (v : A) :
  firstn m (set_nth l i v) = set_nth (firstn m l) i v.
Proof.
  revert m i. induction l as [|h t IH]; intros [|m] [|i]; simpl;
    try reflexivity.
  f_equal. apply IH.
Qed.

Lemma set_nth_overflow {A : Type} (l : list A) (i : nat) (v : A) :
  (length l <= i)%nat -> set_nth l i v = l.
Proof.
  revert i. induction l as [|h t IH]; intros [|i] Hi; simpl in *;
    try reflexivity; try lia.
  f_equal. apply IH. lia.
Qed.

Lemma nth_firstn_lt {A : Type} (l : list A) (m i : nat) (d : A) :
  (i < m)%nat -> nth i (firstn m l) d = nth i l d.
Proof.
  revert m i. induction l as [|h t IH]; intros [|m] [|i] Hi; simpl;
    try reflexivity; try lia.
  apply IH. lia.
Qed.

Lemma sum_firstn_update (dst : list Z) (m : nat) (i v : Z) :
  0 <= i -> (m <= length dst)%nat ->
  Arr.sum (firstn m (update Z.add dst i v))
  = Arr.sum (firstn m dst) + if i <? Z.of_nat m then v else 0.
Proof.
  intros Hi Hm. unfold update, norm_index.
  destruct (Z.ltb_spec i 0); [lia|].
  destruct (Z.leb_spec 0 i); [|lia]. cbn [andb].
  destruct (Z.ltb_spec i (len dst)) as [Hlt|Hge].
  - destruct (nth_error dst (Z.to_nat i)) as [old|] eqn:Hold.
    2:{ apply nth_error_None in Hold. unfold len in Hlt. lia. }
    rewrite firstn_set_nth.
    destruct (Z.ltb_spec i (Z.of_nat m)) as [Him|Him].
    + rewrite sum_set_nth by (rewrite length_firstn; lia).
      rewrite nth_firstn_lt by lia.
      rewrite (nth_error_nth _ _ 0 Hold). lia.
    + rewrite set_nth_overflow by (rewrite length_firstn; lia). lia.
  - destruct (Z.ltb_spec i (Z.of_nat m)); [unfold len in Hge; lia|]. lia.
Qed.

(** Scattering ones along non-negative indices: the first [m] entries gain
    in total the number of indices below [m]. *)
Lemma sum_firstn_at_add (dst idxs : list Z) (m : nat) :
  Forall (fun i => 0 <= i) idxs -> (m <= length dst)%nat ->
  Arr.sum (firstn m (at_add Z.add dst idxs (map (fun _ => 1) idxs)))
  = Arr.sum (firstn m dst)
    + len (filter (fun s => s <? Z.of_nat m) idxs).
Proof.
  unfold at_add. intros Hi. revert dst.
  induction Hi as [|i idxs Hi0 _ IH]; intros dst Hm.
  - cbn. lia.
  - cbn [map combine fold_left fst snd filter].
    rewrite IH by (rewrite update_length; exact Hm).
    rewrite sum_firstn_update by assumption.
    destruct (Z.ltb_spec i (Z.of_nat m)).
    + unfold len. cbn [length]. lia.
    + lia.
Qed.

Lemma sum_firstn_zeros (m n : nat) : Arr.sum (firstn m (zeros n)) = 0.
Proof.
  unfold zeros. revert m. induction n as [|n IH]; intros [|m];
    try reflexivity.
  simpl. apply IH.
Qed.

End ScatterFacts.

(** ** Facts on N-dimensional arrays *)

Module NdFacts.

Import Arr Nd ArrFacts.

Lemma shape_eqb_eq (s1 s2 : list Z) : shape_eqb s1 s2 = true -> s1 = s2.
Proof.
  unfold shape_eqb. revert s2.
  induction s1 as [|x s1 IH]; intros [|y s2]; simpl; try discriminate;
    [reflexivity|].
  intros Heq. apply andb_true_iff in Heq. destruct Heq as [Hlen Hall].
  apply andb_true_iff in Hall. destruct Hall as [Hxy Hall].
  apply Z.eqb_eq in Hxy. subst y. f_equal. apply IH.
  apply andb_true_iff. split; assumption.
Qed.

Lemma shape_eqb_refl (s : list Z) : shape_eqb s s = true.
Proof.
  unfold shape_eqb. rewrite Nat.eqb_refl. simpl.
  induction s as [|x s IH]; simpl; [reflexivity|].
  rewrite Z.eqb_refl. exact IH.
Qed.

(** *** Writing one coordinate *)

Lemma set_nth_set_nth {A : Type} (l : list A) (i : nat) (u v : A) :
  set_nth (set_nth l i u) i v = set_nth l i v.
Proof.
  revert i. induction l as [|h t IH]; intros [|i]; simpl; try reflexivity.
  f_equal. apply IH.
Qed.

Lemma set_nth_same {A : Type} (l : list A) (i : nat) (d : A) :
  set_nth l i (nth i l d) = l.
Proof.
  revert i. induction l as [|h t IH]; intros [|i]; simpl; try reflexivity.
  f_equal. apply IH.
Qed.

Lemma nth_set_nth_eq {A : Type} (l : list A) (i : nat) (v d : A) :
  (i < length l)%nat -> nth i (set_nth l i v) d = v.
Proof.
  revert i. induction l as [|h t IH]; intros [|i] Hi; simpl in *;
    try lia; [reflexivity|].
  apply IH. lia.
Qed.

Lemma nth_set_nth_ne {A : Type} (l : list A) (i j : nat) (v d : A) :
  i <> j -> nth j (set_nth l i v) d = nth j l d.
Proof.
  revert i j. induction l as [|h t IH]; intros [|i] [|j] Hij; simpl;
    try reflexivity; try congruence.
  apply IH. congruence.
Qed.

Lemma set_nth_split {A : Type} (l : list A) (i : nat) (v : A) :
  (i < length l)%nat -> set_nth l i v = firstn i l ++ v :: skipn (S i) l.
Proof.
  revert i. induction l as [|h t IH]; intros [|i] Hi; simpl in *;
    try lia; [reflexivity|].
  f_equal. apply IH. lia.
Qed.

Lemma set_nth_agree {A : Type} (l1 l2 : list A) (i : nat) (u v : A) :
  set_nth l1 i u = set_nth l2 i u -> set_nth l1 i v = set_nth l2 i v.
Proof.
  intros Heq.
  rewrite <- (set_nth_set_nth l1 i u v), <- (set_nth_set_nth l2 i u v).
  rewrite Heq. reflexivity.
Qed.

Lemma set_nth_Forall {A : Type} (P : A -> Prop) (l : list A) (i : nat)
  (v : A) :
  Forall P l -> P v -> Forall P (set_nth l i v).
Proof.
  intros Hl Hv. revert i. induction Hl as [|h t Hh Ht IH]; intros [|i];
    simpl; constructor; auto.
Qed.

Section Structure.

Context {T : Type}.

(** Coordinates of a rewritten multi-index. *)
Lemma coord_with_coord (idx : list Z) (i : nat) (v : Z) :
  (i < length idx)%nat -> coord (with_coord idx i v) i = v.
Proof. apply nth_set_nth_eq. Qed.

Lemma with_coord_twice (idx : list Z) (i : nat) (u v : Z) :
  with_coord (with_coord idx i u) i v = with_coord idx i v.
Proof. apply set_nth_set_nth. Qed.

Lemma with_coord_same (idx : list Z) (i : nat) :
  with_coord idx i (coord idx i) = idx.
Proof. apply set_nth_same. Qed.

Lemma dim_set (shp : list Z) (at_f : list Z -> T) (i : nat) (v : Z) :
  (i < length shp)%nat -> dim (mk_array (set_nth shp i v) at_f) i = v.
Proof. intros Hi. unfold dim. simpl. apply nth_set_nth_eq. exact Hi. Qed.

(** *** Multi-indices in bounds *)

Lemma in_bounds_length (shp idx : list Z) :
  in_bounds shp idx -> length idx = length shp.
Proof. intros Hb. symmetry. eapply Forall2_length. exact Hb. Qed.

Lemma in_bounds_coord (shp idx : list Z) (i : nat) :
  in_bounds shp idx -> (i < length shp)%nat ->
  0 <= coord idx i < nth i shp 0.
Proof.
  unfold coord. intros Hb. revert i.
  induction Hb as [|n j shp idx Hj Hb IH]; intros [|i] Hi; simpl in *;
    try lia.
  apply IH. lia.
Qed.

Lemma in_bounds_set (shp idx : list Z) (i : nat) (n v : Z) :
  in_bounds shp idx -> 0 <= v < n ->
  in_bounds (set_nth shp i n) (with_coord idx i v).
Proof.
  unfold with_coord, in_bounds. intros Hb Hv. revert i.
  induction Hb as [|m j shp idx Hj Hb IH]; intros [|i]; simpl.
  - constructor.
  - constructor.
  - constructor; [exact Hv|exact Hb].
  - constructor; [exact Hj|apply IH].
Qed.

(** *** Slices *)

Lemma slice_in_dim_ok (a : array T) (start limit : Z) (i : nat) :
  0 <= start -> start <= limit -> limit <= dim a i ->
  slice_in_dim a start (Some limit) i
  = Ok (mk_array (set_nth (shape a) i (limit - start))
          (fun idx => at_ a (with_coord idx i (coord idx i + start)))).
Proof.
  intros H0 H1 H2. unfold slice_in_dim.
  destruct (Z.ltb_spec start 0); [lia|].
  destruct (Z.ltb_spec limit 0); [lia|].
  destruct (Z.leb_spec 0 start); [|lia].
  destruct (Z.leb_spec start limit); [|lia].
  destruct (Z.leb_spec limit (dim a i)); [|lia].
  reflexivity.
Qed.

(** A slice of the last [k] elements, [slice_in_dim(a, -k, None)]. *)
Lemma slice_in_dim_tail (a : array T) (k : Z) (i : nat) :
  0 < k -> k <= dim a i ->
  slice_in_dim a (- k) None i
  = Ok (mk_array (set_nth (shape a) i k)
          (fun idx => at_ a (with_coord idx i (coord idx i + (- k + dim a i))))).
Proof.
  intros H0 H1. unfold slice_in_dim.
  destruct (Z.ltb_spec (- k) 0); [|lia].
  destruct (Z.leb_spec 0 (- k + dim a i)); [|lia].
  destruct (Z.leb_spec (- k + dim a i) (dim a i)); [|lia].
  rewrite Z.leb_refl. simpl. f_equal. f_equal. f_equal. lia.
Qed.

(** Whatever a slice returns has the shape of its operand off the axis. *)
Lemma slice_in_dim_shape (a r : array T) (start : Z) (limit : option Z)
  (i : nat) :
  slice_in_dim a start limit i = Ok r ->
  set_nth (shape r) i 0 = set_nth (shape a) i 0 /\
  ((i < ndim a)%nat -> 0 <= dim r i <= dim a i).
Proof.
  unfold slice_in_dim. intros Hs.
  match type of Hs with (if ?c then _ else _) = _ => destruct c eqn:Hc end;
    [|discriminate].
  inversion Hs; subst r. clear Hs. simpl.
  split; [apply set_nth_set_nth|].
  intros Hi. rewrite !dim_set by exact Hi.
  apply andb_true_iff in Hc. destruct Hc as [Hc H3].
  apply andb_true_iff in Hc. destruct Hc as [H1 H2].
  apply Z.leb_le in H1, H2, H3. lia.
Qed.

(** *** Concatenation *)

Definition sum_dims (i : nat) (l : list (array T)) : Z :=
  Arr.sum (map (fun p => dim p i) l).

(** Two arrays agree on every axis but [i]. *)
Definition same_off_axis (i : nat) (p x : array T) : Prop :=
  set_nth (shape p) i 0 = set_nth (shape x) i 0.

(** [x'] is [x] with [b] elements put before and [a] elements put after
    along axis [i]: the shape grows on that axis only and the elements of
    [x] sit at offset [b]. *)
Definition padded (i : nat) (b a : Z) (x x' : array T) : Prop :=
  shape x' = set_nth (shape x) i (dim x i + b + a) /\
  forall idx, in_bounds (shape x) idx ->
              at_ x' (with_coord idx i (coord idx i + b)) = at_ x idx.

Lemma sum_dims_app (i : nat) (l1 l2 : list (array T)) :
  sum_dims i (l1 ++ l2) = sum_dims i l1 + sum_dims i l2.
Proof.
  unfold sum_dims. induction l1 as [|p l1 IH]; simpl; [reflexivity|].
  rewrite IH. lia.
Qed.

Lemma sum_dims_nonneg (i : nat) (l : list (array T)) :
  (forall p, In p l -> 0 <= dim p i) -> 0 <= sum_dims i l.
Proof.
  unfold sum_dims. induction l as [|p l IH]; intros Hl; simpl; [lia|].
  pose proof (Hl p (or_introl eq_refl)).
  specialize (IH (fun q Hq => Hl q (or_intror Hq))). lia.
Qed.

Lemma concat_at_walk (i : nat) (l1 : list (array T)) (x : array T)
  (l2 : list (array T)) (c : Z) (idx : list Z) :
  (forall p, In p l1 -> 0 <= dim p i) -> 0 <= c < dim x i ->
  match l1 ++ x :: l2 with
  | [] => True
  | p0 :: rest =>
      concat_at i p0 rest (c + sum_dims i l1) idx = at_ x (with_coord idx i c)
  end.
Proof.
  intros Hl Hc. induction l1 as [|q l1 IH]; simpl.
  - unfold sum_dims. simpl. rewrite Z.add_0_r.
    destruct l2 as [|p1 l2]; simpl; [reflexivity|].
    destruct (Z.ltb_spec c (dim x i)); [reflexivity|lia].
  - specialize (IH (fun p Hp => Hl p (or_intror Hp))).
    pose proof (Hl q (or_introl eq_refl)) as Hq.
    pose proof (sum_dims_nonneg i l1 (fun p Hp => Hl p (or_intror Hp))) as Hs.
    destruct (l1 ++ x :: l2) as [|p1 rest] eqn:Heq.
    + destruct l1; discriminate.
    + simpl. unfold sum_dims in *. simpl.
      destruct (Z.ltb_spec (c + (dim q i + Arr.sum (map (fun p => dim p i) l1)))
                           (dim q i)); [lia|].
      replace (c + (dim q i + Arr.sum (map (fun p => dim p i) l1)) - dim q i)
        with (c + Arr.sum (map (fun p => dim p i) l1)) by lia.
      exact IH.
Qed.

(** Concatenating arrays that agree off the axis around [x] pads [x]. *)
Lemma concatenate_pads (l1 : list (array T)) (x : array T)
  (l2 : list (array T)) (i : nat) :
  (i < ndim x)%nat ->
  (forall p, In p (l1 ++ l2) -> same_off_axis i p x) ->
  (forall p, In p l1 -> 0 <= dim p i) ->
  exists r, concatenate (l1 ++ x :: l2) i = Ok r /\
            padded i (sum_dims i l1) (sum_dims i l2) x r.
Proof.
  intros Hndim Hsame Hl1.
  assert (Hall : forall p, In p (l1 ++ x :: l2) -> same_off_axis i p x).
  { intros p Hp. apply in_app_or in Hp. destruct Hp as [Hp|[<-|Hp]].
    - apply Hsame. apply in_or_app. left. exact Hp.
    - reflexivity.
    - apply Hsame. apply in_or_app. right. exact Hp. }
  pose proof (fun c idx => concat_at_walk i l1 x l2 c idx Hl1) as Hwalk.
  assert (Hsum : sum_dims i (l1 ++ x :: l2)
                 = dim x i + sum_dims i l1 + sum_dims i l2).
  { rewrite sum_dims_app. unfold sum_dims at 2. simpl.
    fold (sum_dims i l2). lia. }
  destruct (l1 ++ x :: l2) as [|p0 rest] eqn:Heq.
  { destruct l1; discriminate. }
  unfold concatenate.
  assert (Hcheck : forallb (fun p => shape_eqb (set_nth (shape p) i 0)
                                               (set_nth (shape p0) i 0)) rest
                   = true).
  { apply forallb_forall. intros p Hp.
    pose proof (Hall p (or_intror Hp)) as H1.
    pose proof (Hall p0 (or_introl eq_refl)) as H2.
    unfold same_off_axis in H1, H2. rewrite H1, H2. apply shape_eqb_refl. }
  rewrite Hcheck. eexists. split; [reflexivity|].
  unfold padded. split.
  - cbn [shape].
    change (Arr.sum (map (fun p => dim p i) (p0 :: rest)))
      with (sum_dims i (p0 :: rest)).
    rewrite Hsum.
    pose proof (Hall p0 (or_introl eq_refl)) as H2.
    eapply set_nth_agree. exact H2.
  - intros idx Hb. cbn [at_].
    assert (Hi : (i < length idx)%nat)
      by (rewrite (in_bounds_length _ _ Hb); exact Hndim).
    pose proof (in_bounds_coord _ _ i Hb Hndim) as Hc.
    rewrite coord_with_coord by exact Hi.
    rewrite (Hwalk (coord idx i) _ Hc).
    rewrite with_coord_twice, with_coord_same. reflexivity.
Qed.


Lemma padded_compose (i : nat) (b1 a1 b2 a2 : Z) (x y z : array T) :
  (i < ndim x)%nat -> 0 <= b1 -> 0 <= a1 ->
  padded i b1 a1 x y -> padded i b2 a2 y z ->
  padded i (b1 + b2) (a1 + a2) x z.
Proof.
  intros Hi Hb Ha [Hsy Hy] [Hsz Hz].
  assert (Hdy : dim y i = dim x i + b1 + a1).
  { unfold dim at 1. rewrite Hsy. apply nth_set_nth_eq. exact Hi. }
  split.
  - rewrite Hsz, Hsy, set_nth_set_nth, Hdy. f_equal. lia.
  - intros idx Hb'.
    assert (Hidx : (i < length idx)%nat)
      by (rewrite (in_bounds_length _ _ Hb'); exact Hi).
    pose proof (in_bounds_coord _ _ i Hb' Hi) as Hc. fold (dim x i) in Hc.
    rewrite <- (Hy idx Hb').
    rewrite <- (Hz (with_coord idx i (coord idx i + b1))).
    + rewrite coord_with_coord by exact Hidx.
      rewrite with_coord_twice. f_equal. f_equal. lia.
    + rewrite Hsy. apply in_bounds_set; [exact Hb'|lia].
Qed.

Lemma padded_refl (i : nat) (x : array T) : padded i 0 0 x x.
Proof.
  split.
  - rewrite !Z.add_0_r. symmetry. apply set_nth_same.
  - intros idx _. rewrite Z.add_0_r, with_coord_same. reflexivity.
Qed.

(** *** [repeat] along an axis *)

Lemma canonicalize_axis_nat (i n : nat) :
  (i < n)%nat -> Repeat._canonicalize_axis (Z.of_nat i) n = Ok i.
Proof.
  intros Hi. unfold Repeat._canonicalize_axis.
  destruct (Z.leb_spec (- Z.of_nat n) (Z.of_nat i)); [|lia].
  destruct (Z.ltb_spec (Z.of_nat i) (Z.of_nat n)); [|lia].
  destruct (Z.ltb_spec (Z.of_nat i) 0); [lia|].
  simpl. rewrite Nat2Z.id. reflexivity.
Qed.

Lemma repeat_scalar_shape (x : array T) (k : Z) (i : nat) :
  (i < ndim x)%nat -> 0 <= k ->
  exists r,
    Repeat.repeat x (Repeat.repeats_scalar k) (Some (Z.of_nat i)) None = Ok r /\
    shape r = set_nth (shape x) i (dim x i * k).
Proof.
  intros Hi Hk. unfold Repeat.repeat, Repeat._repeat.
  destruct (Nat.eqb_spec (ndim x) 0) as [H0|_]; [lia|].
  cbn [negb]. rewrite (canonicalize_axis_nat i (ndim x) Hi). cbn [bind].
  destruct (Z.ltb_spec k 0); [lia|].
  eexists. split; [reflexivity|].
  unfold reshape_merge, broadcast_new_axis, dim, ndim in *. cbn [shape].
  set (shp := shape x) in *.
  rewrite (set_nth_split shp i _ Hi).
  assert (Hf : length (firstn (S i) shp) = S i)
    by (rewrite length_firstn; lia).
  assert (H1 : firstn i (firstn (S i) shp ++ k :: skipn (S i) shp)
               = firstn i shp).
  { rewrite firstn_app, Hf.
    replace (i - S i)%nat with O by lia. rewrite firstn_O, app_nil_r.
    rewrite firstn_firstn. f_equal. lia. }
  assert (H2 : nth i (firstn (S i) shp ++ k :: skipn (S i) shp) 0
               = nth i shp 0).
  { rewrite app_nth1 by lia.
    rewrite <- (firstn_skipn (S i) shp) at 2.
    rewrite app_nth1 by lia. reflexivity. }
  assert (H3 : nth (S i) (firstn (S i) shp ++ k :: skipn (S i) shp) 0 = k).
  { rewrite app_nth2 by lia. rewrite Hf, Nat.sub_diag. reflexivity. }
  assert (H4 : skipn (S (S i)) (firstn (S i) shp ++ k :: skipn (S i) shp)
               = skipn (S i) shp).
  { rewrite skipn_app, Hf.
    replace (S (S i) - S i)%nat with 1%nat by lia.
    rewrite skipn_all2 by lia. reflexivity. }
  rewrite H1, H2, H3, H4. reflexivity.
Qed.


End Structure.

End NdFacts.
(** ** Insertion-point search: the four algorithms compute the same count *)

Module SearchFacts.

Import Arr Search ArrFacts.

(** *** Fixed-width conversions stay exact on array sizes *)

Lemma bits_pos (d : index_dtype) : 2 ^ (bits d) = 2 * 2 ^ (bits d - 1) /\ 0 < 2 ^ (bits d - 1).
Proof. destruct d; simpl; split; reflexivity. Qed.

Lemma as_signed_small (d : index_dtype) (z : Z) :
  0 <= z < 2 ^ (bits d - 1) -> as_signed d z = z.
Proof.
  intros Hz. unfold as_signed. destruct (bits_pos d) as [H2 Hp].
  rewrite Z.mod_small by lia. lia.
Qed.

Lemma as_unsigned_small (d : index_dtype) (z : Z) :
  0 <= z < 2 ^ bits d -> as_unsigned d z = z.
Proof. intros Hz. unfold as_unsigned. now rewrite Z.mod_small. Qed.

Lemma midpoint_exact (d : index_dtype) (low high : Z) :
  0 <= low -> low <= high -> high < 2 ^ (bits d - 1) ->
  as_signed d (as_unsigned d (as_unsigned d low + as_unsigned d high) / 2)
  = (low + high) / 2.
Proof.
  intros Hl Hlh Hh. destruct (bits_pos d) as [H2 Hp].
  rewrite (as_unsigned_small d low), (as_unsigned_small d high) by lia.
  rewrite as_unsigned_small by lia.
  apply as_signed_small.
  split.
  - apply Z.div_pos; lia.
  - apply Z.div_lt_upper_bound; lia.
Qed.

Section ScanCorrect.

Context {E : Type} `{SortKey E}.

Lemma sorted_strongly (r : list E) :
  sorted r -> StronglySorted (fun x y => _sort_le_comparator x y = true) r.
Proof.
  intros Hs. apply Sorted_StronglySorted; [|exact Hs].
  intros x y z. apply le_trans.
Qed.

(** A predicate that is closed downwards holds exactly on a prefix of a sorted
    array, and the length of that prefix is the number of its elements. *)
Lemma prefix_count (p : E -> bool) (r : list E) :
  StronglySorted (fun x y => _sort_le_comparator x y = true) r ->
  (forall x y, _sort_le_comparator x y = true -> p y = true -> p x = true) ->
  forall i x, nth_error r i = Some x ->
              (p x = true <-> Z.of_nat i < len (filter p r)).
Proof.
  intros Hs Hdown. induction Hs as [|a t Hs IH Hall]; intros i x Hnth.
  - destruct i; discriminate.
  - simpl. destruct (p a) eqn:Hpa.
    + destruct i as [|i]; simpl in Hnth.
      * inversion Hnth; subst. unfold len; simpl. split; [lia|auto].
      * rewrite (IH i x Hnth). unfold len; simpl. lia.
    + assert (Hnone : forall y, In y t -> p y = false).
      { intros y Hy. rewrite Forall_forall in Hall.
        destruct (p y) eqn:Hpy; [|reflexivity].
        rewrite (Hdown a y (Hall y Hy) Hpy) in Hpa. discriminate. }
      assert (Hf : filter p t = []).
      { clear -Hnone. induction t as [|b t IHt]; [reflexivity|].
        simpl. rewrite (Hnone b) by (left; reflexivity).
        apply IHt. intros y Hy. apply Hnone. right; exact Hy. }
      rewrite Hf. unfold len; simpl.
      destruct i as [|i]; simpl in Hnth.
      * inversion Hnth; subst. rewrite Hpa. split; [discriminate|lia].
      * rewrite (Hnone x) by (eapply nth_error_In; eauto).
        split; [discriminate|lia].
Qed.

Definition below (s : side) (q x : E) : bool :=
  match s with
  | left => _sort_lt_comparator x q
  | right => _sort_le_comparator x q
  end.

Lemma below_down (s : side) (q x y : E) :
  _sort_le_comparator x y = true -> below s q y = true -> below s q x = true.
Proof.
  destruct s; simpl; intros Hxy Hy.
  - rewrite lt_is_not_ge in *. apply negb_true_iff in Hy. apply negb_true_iff.
    destruct (_sort_le_comparator q x) eqn:Hqx; [|reflexivity].
    rewrite (le_trans q x y Hqx Hxy) in Hy. discriminate.
  - eapply le_trans; eauto.
Qed.

Lemma count_before_below (s : side) (r : list E) (q : E) :
  count_before s r q = len (filter (below s q) r).
Proof. destruct s; reflexivity. Qed.

Variables (r : list E) (q : E) (s : side) (d : index_dtype).
Hypothesis r_sorted : sorted r.
Hypothesis r_nonempty : 1 <= len r.
Hypothesis r_fits : len r < 2 ^ (bits d - 1).

Definition scan_inv (j : nat) (st : Z * Z) : Prop :=
  let c := count_before s r q in
  let '(low, high) := st in
  0 <= low /\ low <= high /\ high <= len r /\ c <= high /\
  ((low < c /\ high - low <= 2 ^ Z.of_nat j) \/
   (low = 0 /\ c = 0 /\ high + 1 <= 2 ^ Z.of_nat j)).

Lemma scan_inv_step (j : nat) (st : Z * Z) :
  scan_inv (S j) st -> scan_inv j (body_fun d r q s st).
Proof.
  destruct st as [low high]. unfold scan_inv, body_fun.
  intros (Hl & Hlh & Hh & Hc & Hm).
  rewrite midpoint_exact by lia.
  set (c := count_before s r q) in *.
  set (mid := (low + high) / 2).
  assert (Hpow : 2 ^ Z.of_nat (S j) = 2 * 2 ^ Z.of_nat j).
  { rewrite Nat2Z.inj_succ, Z.pow_succ_r by lia. reflexivity. }
  assert (Hpp : 0 < 2 ^ Z.of_nat j) by (apply Z.pow_pos_nonneg; lia).
  assert (Hmid : 0 <= mid < len r).
  { subst mid. split; [apply Z.div_pos; lia|].
    apply Z.div_lt_upper_bound; lia. }
  assert (Hmid2 : 2 * mid <= low + high < 2 * mid + 2).
  { subst mid. pose proof (Z.div_mod (low + high) 2 ltac:(lia)).
    pose proof (Z.mod_pos_bound (low + high) 2 ltac:(lia)). lia. }
  rewrite getitem_in_range by exact Hmid.
  destruct (nth_error r (Z.to_nat mid)) as [x|] eqn:Hx.
  2:{ apply nth_error_None in Hx. unfold len in Hmid. lia. }
  pose proof (prefix_count (below s q) r (sorted_strongly r r_sorted)
                (below_down s q) _ _ Hx) as Hpc.
  rewrite <- count_before_below in Hpc. fold c in Hpc.
  rewrite Z2Nat.id in Hpc by lia.
  assert (Hgo : (match s with
                 | left => _sort_le_comparator
                 | right => _sort_lt_comparator
                 end) q x = negb (below s q x)).
  { destruct s; simpl.
    - rewrite lt_is_not_ge, negb_involutive. reflexivity.
    - apply lt_is_not_ge. }
  rewrite Hgo.
  destruct (below s q x) eqn:Hb; simpl.
  - assert (mid < c) by (apply Hpc; reflexivity).
    repeat split; lia.
  - assert (~ mid < c) by (intros Hlt; apply Hpc in Hlt; discriminate).
    repeat split; lia.
Qed.

Lemma scan_loop_inv (j : nat) (st : Z * Z) :
  scan_inv j st ->
  snd (scan_loop (body_fun d r q s) j st) = count_before s r q.
Proof.
  revert st. induction j as [|j IH]; intros st Hinv.
  - destruct st as [low high]. simpl. unfold scan_inv in Hinv.
    simpl in Hinv. lia.
  - simpl. apply IH. apply scan_inv_step. exact Hinv.
Qed.

Lemma scan_one_correct (unrolled : bool) :
  _searchsorted_via_scan_1 unrolled r q s d = count_before s r q.
Proof.
  unfold _searchsorted_via_scan_1.
  apply scan_loop_inv.
  destruct (bits_pos d) as [H2 Hp].
  rewrite !as_signed_small by lia.
  unfold scan_inv.
  pose proof (len_filter_le (below s q) r) as Hle.
  pose proof (len_nonneg (filter (below s q) r)) as Hge.
  rewrite <- count_before_below in Hle, Hge.
  assert (Hlog : len r + 1 <= 2 ^ Z.of_nat (n_levels r)).
  { unfold n_levels. rewrite Z2Nat.id by apply Z.log2_up_nonneg.
    apply Z.log2_up_spec. lia. }
  repeat split; lia.
Qed.

End ScanCorrect.

(** *** The bisection on an arbitrary array

    Without sortedness the bisection still ends on a local insertion point:
    the comparison sends the query left at the returned index and right just
    before it. *)

Section ScanLocal.

Context {E : Type} `{SortKey E}.

Variables (r : list E) (q : E) (s : side) (d : index_dtype).
Hypothesis r_nonempty : 1 <= len r.
Hypothesis r_fits : len r < 2 ^ (bits d - 1).

Definition go_left_at (i : Z) : bool :=
  match nth_error r (Z.to_nat i) with
  | Some x => match s with
              | left => _sort_le_comparator q x
              | right => _sort_lt_comparator q x
              end
  | None => false
  end.

Definition local_inv (j : nat) (st : Z * Z) : Prop :=
  let '(low, high) := st in
  0 <= low /\ low <= high /\ high <= len r /\ low < len r /\
  (high = len r \/ go_left_at high = true) /\
  ((go_left_at low = false /\ high - low <= 2 ^ Z.of_nat j) \/
   (go_left_at low = true /\ low = 0 /\ high + 1 <= 2 ^ Z.of_nat j)).

Lemma body_fun_go_left (low high : Z) :
  0 <= low -> low <= high -> high <= len r -> low < len r ->
  body_fun d r q s (low, high)
  = let mid := (low + high) / 2 in
    (if go_left_at mid then low else mid, if go_left_at mid then mid else high).
Proof.
  intros Hl Hlh Hh Hln. unfold body_fun.
  rewrite midpoint_exact by lia.
  assert (Hmid : 0 <= (low + high) / 2 < len r).
  { split; [apply Z.div_pos; lia|]. apply Z.div_lt_upper_bound; lia. }
  rewrite getitem_in_range by exact Hmid.
  unfold go_left_at.
  destruct (nth_error r (Z.to_nat ((low + high) / 2))) as [x|] eqn:Hx.
  - destruct s; reflexivity.
  - reflexivity.
Qed.

Lemma local_inv_step (j : nat) (st : Z * Z) :
  local_inv (S j) st -> local_inv j (body_fun d r q s st).
Proof.
  destruct st as [low high]. unfold local_inv.
  intros (Hl & Hlh & Hh & Hln & Hhi & Hm).
  rewrite body_fun_go_left by lia. cbv zeta.
  set (mid := (low + high) / 2).
  assert (Hpow : 2 ^ Z.of_nat (S j) = 2 * 2 ^ Z.of_nat j).
  { rewrite Nat2Z.inj_succ, Z.pow_succ_r by lia. reflexivity. }
  assert (Hpp : 0 < 2 ^ Z.of_nat j) by (apply Z.pow_pos_nonneg; lia).
  assert (Hmid2 : 2 * mid <= low + high < 2 * mid + 2).
  { subst mid. pose proof (Z.div_mod (low + high) 2 ltac:(lia)).
    pose proof (Z.mod_pos_bound (low + high) 2 ltac:(lia)). lia. }
  assert (Hne : go_left_at low = false -> low < high).
  { intros Hlow. destruct Hhi as [Hn|Hg]; [lia|].
    destruct (Z.eq_dec low high) as [->|]; [congruence|lia]. }
  destruct (go_left_at mid) eqn:Hgm.
  - split; [lia|]. split; [lia|]. split; [lia|]. split; [lia|].
    split; [right; exact Hgm|].
    destruct Hm as [[Hlow Hd]|[Hlow [H0 Hd]]].
    + left. specialize (Hne Hlow). split; [exact Hlow|lia].
    + right. split; [exact Hlow|]. split; lia.
  - assert (Hmh : low < high -> mid < high) by lia.
    destruct Hm as [[Hlow Hd]|[Hlow [H0 Hd]]].
    + specialize (Hne Hlow).
      split; [lia|]. split; [lia|]. split; [lia|]. split; [lia|].
      split; [exact Hhi|]. left. split; [exact Hgm|lia].
    + assert (mid <> low) by congruence.
      split; [lia|]. split; [lia|]. split; [lia|]. split; [lia|].
      split; [exact Hhi|]. left. split; [exact Hgm|lia].
Qed.

(** The index returned for one query is a local insertion point. *)
Lemma scan_one_local (unrolled : bool) :
  let h := _searchsorted_via_scan_1 unrolled r q s d in
  0 <= h <= len r /\
  (h = 0 \/ go_left_at (h - 1) = false) /\
  (h = len r \/ go_left_at h = true).
Proof.
  unfold _searchsorted_via_scan_1.
  destruct (bits_pos d) as [H2 Hp].
  rewrite !as_signed_small by lia.
  assert (Hlog : len r + 1 <= 2 ^ Z.of_nat (n_levels r)).
  { unfold n_levels. rewrite Z2Nat.id by apply Z.log2_up_nonneg.
    apply Z.log2_up_spec. lia. }
  assert (Hinit : local_inv (n_levels r) (0, len r)).
  { unfold local_inv.
    split; [lia|]. split; [lia|]. split; [lia|]. split; [lia|].
    split; [left; reflexivity|].
    destruct (go_left_at 0); [right|left]; repeat split; lia. }
  revert Hinit. generalize (n_levels r) (0, len r). clear Hlog.
  intros j. induction j as [|j IH]; intros [low high] Hinv.
  - simpl. unfold local_inv in Hinv.
    destruct Hinv as (Hl & Hlh & Hh & Hln & Hhi & Hm). simpl in Hm.
    destruct Hm as [[Hlow Hd]|[Hlow [H0 Hd]]].
    + assert (low < high).
      { destruct Hhi as [Hn|Hg]; [lia|].
        destruct (Z.eq_dec low high) as [->|]; [congruence|lia]. }
      replace (high - 1) with low by lia.
      split; [lia|]. split; [right; exact Hlow|exact Hhi].
    + split; [lia|]. split; [left; lia|exact Hhi].
  - apply (IH (body_fun d r q s (low, high))).
    apply local_inv_step. exact Hinv.
Qed.

End ScanLocal.

(** *** The rank-sort *)

Section SortCorrect.

Context {E : Type} `{SortKey E}.

(** The order the stable sort puts (key, position) pairs in. *)
Definition precedes (a b : E * nat) : bool :=
  _sort_lt_comparator (fst a) (fst b)
  || (negb (_sort_lt_comparator (fst b) (fst a)) && (snd a <? snd b)%nat).

Definition isort (l : list (E * nat)) : list (E * nat) :=
  fold_right insert_key [] l.

Lemma le_refl (x : E) : _sort_le_comparator x x = true.
Proof. destruct (le_total x x); assumption. Qed.

Lemma lt_asym (x y : E) :
  _sort_lt_comparator x y = true -> _sort_lt_comparator y x = false.
Proof.
  rewrite !lt_is_not_ge. intros Hxy. apply negb_true_iff in Hxy.
  apply negb_false_iff. destruct (le_total x y) as [Hle|Hle]; congruence.
Qed.

Lemma precedes_spec (a b : E * nat) :
  precedes a b = true <->
  _sort_lt_comparator (fst b) (fst a) = false /\
  (_sort_lt_comparator (fst a) (fst b) = true \/ (snd a < snd b)%nat).
Proof.
  unfold precedes. rewrite orb_true_iff, andb_true_iff, negb_true_iff.
  rewrite Nat.ltb_lt. split.
  - intros [Hlt|[Hge Hi]]; [|auto]. split; [apply lt_asym; exact Hlt|auto].
  - intros [Hge [Hlt|Hi]]; auto.
Qed.

Lemma precedes_irrefl (a : E * nat) : precedes a a = false.
Proof.
  destruct (precedes a a) eqn:Hp; [|reflexivity].
  apply precedes_spec in Hp. destruct Hp as [Hge [Hlt|Hi]]; [congruence|lia].
Qed.

Lemma precedes_asym (a b : E * nat) :
  precedes a b = true -> precedes b a = false.
Proof.
  intros Hab. destruct (precedes b a) eqn:Hba; [|reflexivity].
  apply precedes_spec in Hab, Hba.
  destruct Hab as [Hab1 [Hab2|Hab2]], Hba as [Hba1 [Hba2|Hba2]];
    try congruence; lia.
Qed.

Lemma insert_key_perm (a : E * nat) (l : list (E * nat)) :
  Permutation (insert_key a l) (a :: l).
Proof.
  induction l as [|b t IH]; simpl; [reflexivity|].
  destruct (_sort_lt_comparator (fst b) (fst a)); [|reflexivity].
  rewrite IH. apply perm_swap.
Qed.

Lemma isort_perm (l : list (E * nat)) : Permutation (isort l) l.
Proof.
  induction l as [|a t IH]; simpl; [reflexivity|].
  rewrite insert_key_perm. now apply perm_skip.
Qed.

Lemma insert_key_sorted (a : E * nat) (l : list (E * nat)) :
  StronglySorted (fun x y => precedes x y = true) l ->
  Forall (fun b => (snd a < snd b)%nat) l ->
  StronglySorted (fun x y => precedes x y = true) (insert_key a l).
Proof.
  intros Hs. induction Hs as [|b t Hs IH Hall]; intros Hidx; simpl.
  - repeat constructor.
  - inversion Hidx as [|? ? Hab Hidx']; subst.
    destruct (_sort_lt_comparator (fst b) (fst a)) eqn:Hba.
    + constructor; [apply IH; exact Hidx'|].
      eapply Permutation_Forall; [symmetry; apply insert_key_perm|].
      constructor; [|exact Hall].
      apply precedes_spec. split; [apply lt_asym; exact Hba|auto].
    + constructor; [constructor; assumption|].
      constructor; [apply precedes_spec; auto|].
      rewrite Forall_forall in *. intros y Hy.
      apply precedes_spec. split; [|right; apply Hidx'; exact Hy].
      specialize (Hall y Hy). apply precedes_spec in Hall.
      destruct Hall as [Hyb _].
      rewrite lt_is_not_ge in *.
      apply negb_false_iff in Hba, Hyb. apply negb_false_iff.
      eapply le_trans; eauto.
Qed.

Lemma isort_sorted (l : list (E * nat)) :
  StronglySorted (fun x y => (snd x < snd y)%nat) l ->
  StronglySorted (fun x y => precedes x y = true) (isort l).
Proof.
  intros Hs. induction Hs as [|a t Hs IH Hall]; simpl; [constructor|].
  apply insert_key_sorted; [exact IH|].
  eapply Permutation_Forall; [symmetry; apply isort_perm|exact Hall].
Qed.

Lemma combine_seq_increasing (x : list E) (start n : nat) :
  StronglySorted (fun a b => (snd a < snd b)%nat) (combine x (seq start n)).
Proof.
  revert start n. induction x as [|k x IH]; intros start [|n]; simpl;
    try constructor.
  - apply IH.
  - apply Forall_forall. intros [k' i] Hin.
    apply in_combine_r in Hin. apply in_seq in Hin. simpl. lia.
Qed.

(** In a list sorted for [precedes], an element sits at the position given
    by the number of elements that precede it. *)
Lemma position_count (l : list (E * nat)) :
  StronglySorted (fun x y => precedes x y = true) l ->
  forall p e, nth_error l p = Some e ->
              p = length (filter (fun e' => precedes e' e) l).
Proof.
  intros Hs. induction Hs as [|a t Hs IH Hall]; intros p e Hnth.
  - destruct p; discriminate.
  - simpl. destruct p as [|p]; simpl in Hnth.
    + inversion Hnth; subst. rewrite precedes_irrefl.
      assert (Hf : filter (fun e' => precedes e' e) t = []).
      { clear -Hall. induction Hall as [|b t Hb Hall IH]; [reflexivity|].
        simpl. rewrite (precedes_asym _ _ Hb). exact IH. }
      rewrite Hf. reflexivity.
    + rewrite Forall_forall in Hall.
      rewrite (Hall e) by (eapply nth_error_In; eauto).
      simpl. f_equal. apply IH. exact Hnth.
Qed.

Lemma map_snd_combine_seq (x : list E) (start : nat) :
  map snd (combine x (seq start (length x))) = seq start (length x).
Proof.
  revert start. induction x as [|k x IH]; intros start; simpl; [reflexivity|].
  f_equal. apply IH.
Qed.

Lemma map_fst_combine_seq (x : list E) (start : nat) :
  map fst (combine x (seq start (length x))) = x.
Proof.
  revert start. induction x as [|k x IH]; intros start; simpl; [reflexivity|].
  f_equal. apply IH.
Qed.

Lemma length_combine_seq (x : list E) (start : nat) :
  length (combine x (seq start (length x))) = length x.
Proof. rewrite length_combine, length_seq. apply Nat.min_id. Qed.

Lemma combine_seq_app (x y : list E) (start : nat) :
  combine (x ++ y) (seq start (length (x ++ y)))
  = combine x (seq start (length x))
    ++ combine y (seq (start + length x) (length y)).
Proof.
  revert start. induction x as [|k x IH]; intros start; simpl.
  - rewrite Nat.add_0_r. reflexivity.
  - f_equal. rewrite IH.
    replace (S start + length x)%nat with (start + S (length x))%nat by lia.
    reflexivity.
Qed.

(** The rank of every element: the number of pairs the stable order puts
    before it. *)
Definition rank_of (l : list (E * nat)) (e : E * nat) : Z :=
  Z.of_nat (length (filter (fun e' => precedes e' e) l)).

Lemma rank_spec (x : list E) :
  let l := combine x (seq 0 (length x)) in
  _rank x = map (rank_of l) l.
Proof.
  intros l. apply nth_error_ext_eq. intros j.
  assert (Hlen : length l = length x) by apply length_combine_seq.
  assert (Hlenr : length (_rank x) = length x).
  { unfold _rank. rewrite at_set_length. unfold zeros, iota.
    rewrite repeat_length, length_map, length_seq. reflexivity. }
  destruct (nth_error l j) as [e|] eqn:He.
  2:{ rewrite nth_error_map, He. simpl.
      apply nth_error_None. apply nth_error_None in He. lia. }
  rewrite nth_error_map, He. simpl.
  assert (Hsnd : snd e = j).
  { assert (Hs : nth_error (map snd l) j = Some (snd e))
      by (apply map_nth_error; exact He).
    unfold l in Hs. rewrite map_snd_combine_seq, nth_error_seq in Hs.
    destruct (j <? length x)%nat; inversion Hs. reflexivity. }
  pose proof (isort_perm l) as Hperm.
  assert (Hin : In e (isort l)).
  { eapply Permutation_in; [symmetry; exact Hperm|].
    eapply nth_error_In; eauto. }
  destruct (In_nth_error _ _ Hin) as [p Hp].
  assert (Hpc : p = length (filter (fun e' => precedes e' e) l)).
  { rewrite (position_count (isort l)
               (isort_sorted l (combine_seq_increasing x 0 (length x))) p e Hp).
    apply filter_length_perm. exact Hperm. }
  assert (Hplt : (p < length x)%nat).
  { rewrite <- Hlen, <- (Permutation_length Hperm).
    apply nth_error_Some. congruence. }
  unfold _rank, argsort. fold l. fold (isort l).
  rewrite <- (map_map snd Z.of_nat).
  unfold rank_of. rewrite <- Hpc.
  apply (at_set_lookup _ (map snd (isort l)) _ p j).
  - eapply Permutation_NoDup.
    + symmetry. apply Permutation_map. exact Hperm.
    + unfold l. rewrite map_snd_combine_seq. apply seq_NoDup.
  - eapply Permutation_Forall.
    + symmetry. apply Permutation_map. exact Hperm.
    + unfold l. rewrite map_snd_combine_seq. apply Forall_forall.
      intros i Hi. apply in_seq in Hi. unfold zeros, iota.
      rewrite repeat_length, length_map, length_seq. lia.
  - rewrite <- Hsnd. apply map_nth_error. exact Hp.
  - unfold iota. rewrite nth_error_map, nth_error_seq.
    apply Nat.ltb_lt in Hplt. rewrite Hplt. reflexivity.
Qed.

Lemma filter_combine_seq (f : E * nat -> bool) (g : E -> bool) (r : list E)
  (start : nat) :
  (forall x i, (start <= i < start + length r)%nat -> f (x, i) = g x) ->
  length (filter f (combine r (seq start (length r)))) = length (filter g r).
Proof.
  revert start. induction r as [|a r IH]; intros start Hfg; simpl;
    [reflexivity|].
  rewrite (Hfg a start) by (simpl; lia).
  assert (Hrec : length (filter f (combine r (seq (S start) (length r))))
                 = length (filter g r)).
  { apply IH. intros x i Hi. apply Hfg. simpl. lia. }
  destruct (g a); simpl; rewrite Hrec; reflexivity.
Qed.

Lemma combine_seq_shift (x : list E) (start : nat) :
  combine x (seq start (length x))
  = map (fun e => (fst e, (start + snd e)%nat)) (combine x (seq 0 (length x))).
Proof.
  revert start. induction x as [|k x IH]; intros start; simpl; [reflexivity|].
  rewrite Nat.add_0_r. f_equal.
  rewrite (IH (S start)), (IH 1%nat), map_map. simpl.
  apply map_ext. intros [k' i]. simpl. f_equal. lia.
Qed.

Lemma filter_map_length {A B : Type} (f : B -> bool) (g : A -> B)
  (l : list A) :
  length (filter f (map g l)) = length (filter (fun a => f (g a)) l).
Proof.
  induction l as [|a l IH]; simpl; [reflexivity|].
  destruct (f (g a)); simpl; congruence.
Qed.

Lemma combine_map_same {A B C : Type} (f : A -> B) (g : A -> C) (l : list A) :
  combine (map f l) (map g l) = map (fun a => (f a, g a)) l.
Proof. induction l as [|a l IH]; simpl; congruence. Qed.

Lemma precedes_shift (n : nat) (a b : E * nat) :
  precedes (fst a, (n + snd a)%nat) (fst b, (n + snd b)%nat) = precedes a b.
Proof.
  unfold precedes. simpl.
  replace (n + snd a <? n + snd b)%nat with (snd a <? snd b)%nat;
    [reflexivity|].
  destruct (Nat.ltb_spec (n + snd a) (n + snd b)),
           (Nat.ltb_spec (snd a) (snd b)); auto; lia.
Qed.

Lemma le_or_gt (x k : E) :
  _sort_lt_comparator x k || negb (_sort_lt_comparator k x)
  = _sort_le_comparator x k.
Proof.
  rewrite !lt_is_not_ge, negb_involutive.
  destruct (_sort_le_comparator x k) eqn:Hxk; [apply orb_true_r|].
  destruct (le_total x k) as [Hle|Hle]; [congruence|].
  rewrite Hle. reflexivity.
Qed.

Lemma sort_correct (r q : list E) (s : side) (d : index_dtype) :
  len r < 2 ^ (bits d - 1) ->
  _searchsorted_via_sort r q s d = map (count_before s r) q.
Proof.
  intros Hfit. unfold _searchsorted_via_sort.
  set (lq := combine q (seq 0 (length q))).
  assert (Hcount : forall x, as_signed d (count_before s r x)
                             = count_before s r x).
  { intros x. apply as_signed_small. rewrite count_before_below.
    pose proof (len_filter_le (below s x) r).
    pose proof (len_nonneg (filter (below s x) r)). lia. }
  assert (Hgoal : forall index,
             index = map (fun e => rank_of lq e + count_before s r (fst e)) lq ->
             map (as_signed d)
                 (map (fun p => fst p - snd p) (combine index (_rank q)))
             = map (count_before s r) q).
  { intros index ->. rewrite (rank_spec q). fold lq.
    rewrite combine_map_same, !map_map. simpl.
    transitivity (map (count_before s r) (map fst lq));
      [|unfold lq; rewrite map_fst_combine_seq; reflexivity].
    rewrite map_map. apply map_ext. intros e.
    replace (rank_of lq e + count_before s r (fst e) - rank_of lq e)
      with (count_before s r (fst e)) by lia.
    apply Hcount. }
  apply Hgoal. destruct s.
  - rewrite (rank_spec (q ++ r)). rewrite (combine_seq_app q r 0). fold lq.
    simpl (0 + length q)%nat.
    set (lr := combine r (seq (length q) (length r))).
    assert (Hlq : length lq = length q) by apply length_combine_seq.
    rewrite map_app, firstn_app, length_map, Hlq, Nat.sub_diag.
    rewrite firstn_O, app_nil_r, firstn_all2 by (rewrite length_map; lia).
    apply map_ext_in. intros e He.
    unfold rank_of. rewrite filter_app, length_app, Nat2Z.inj_add. f_equal.
    simpl. unfold len. f_equal. unfold lr.
    apply filter_combine_seq. intros x i Hi.
    assert (Hsnd : (snd e < length q)%nat).
    { unfold lq in He. destruct e as [k j]. apply in_combine_r in He.
      apply in_seq in He. simpl. lia. }
    unfold precedes. simpl.
    destruct (Nat.ltb_spec i (snd e)); [lia|].
    rewrite andb_false_r, orb_false_r. reflexivity.
  - rewrite (rank_spec (r ++ q)). rewrite (combine_seq_app r q 0).
    simpl (0 + length r)%nat.
    set (lr := combine r (seq 0 (length r))).
    rewrite (combine_seq_shift q (length r)). fold lq.
    assert (Hlr : length lr = length r) by apply length_combine_seq.
    rewrite map_app, skipn_app, length_map, Hlr, Nat.sub_diag.
    rewrite skipn_O, skipn_all2 by (rewrite length_map; lia).
    simpl. rewrite map_map.
    apply map_ext. intros e.
    unfold rank_of. rewrite filter_app, length_app, Nat2Z.inj_add.
    rewrite Z.add_comm. f_equal.
    + f_equal. rewrite filter_map_length.
      f_equal. apply filter_ext. intros a. apply precedes_shift.
    + unfold len. f_equal. unfold lr.
      apply filter_combine_seq. intros x i Hi.
      unfold precedes. simpl.
      destruct (Nat.ltb_spec i (length r + snd e)); [|lia].
      rewrite andb_true_r. apply le_or_gt.
Qed.

Lemma sum_b2z (p : E -> bool) (r : list E) :
  Arr.sum (map (fun x => b2z (p x)) r) = len (filter p r).
Proof.
  unfold len. induction r as [|a r IH]; simpl; [reflexivity|].
  rewrite IH. destruct (p a); unfold b2z; simpl length; lia.
Qed.

Lemma compare_all_correct (r q : list E) (s : side) (d : index_dtype) :
  len r < 2 ^ (bits d - 1) ->
  _searchsorted_via_compare_all r q s d = map (count_before s r) q.
Proof.
  intros Hfit. unfold _searchsorted_via_compare_all.
  apply map_ext. intros x.
  assert (Hc : Arr.sum (map (fun y => b2z (below s x y)) r)
               = count_before s r x).
  { rewrite sum_b2z, count_before_below. reflexivity. }
  assert (Hs : as_signed d (count_before s r x) = count_before s r x).
  { apply as_signed_small. rewrite count_before_below.
    pose proof (len_filter_le (below s x) r).
    pose proof (len_nonneg (filter (below s x) r)). lia. }
  destruct s; simpl in *; rewrite Hc; exact Hs.
Qed.

Lemma scan_correct (unrolled : bool) (r q : list E) (s : side)
  (d : index_dtype) :
  sorted r -> 1 <= len r -> len r < 2 ^ (bits d - 1) ->
  _searchsorted_via_scan unrolled r q s d = map (count_before s r) q.
Proof.
  intros Hs Hn Hfit. unfold _searchsorted_via_scan.
  apply map_ext. intros x. now apply scan_one_correct.
Qed.

(** The index dtype chosen by [searchsorted] holds every index of the
    reference array. *)
Lemma dtype_fits (r : list E) :
  len r <= 2 ^ 63 - 1 ->
  len r < 2 ^ (bits (if len r <=? int32_max then int32 else int64) - 1).
Proof.
  intros Hn. unfold int32_max.
  destruct (Z.leb_spec (len r) (2 ^ 31 - 1)); simpl; lia.
Qed.

End SortCorrect.

(** Every algorithm of the dispatch table computes the count, on a
    non-empty sorted array whose indices fit the chosen dtype. *)
Ltac method_counts Hs Hn Hfit :=
  first [ apply scan_correct; [exact Hs|exact Hn|exact Hfit]
        | apply sort_correct; exact Hfit
        | apply compare_all_correct; exact Hfit ].

(** C1: on a sorted one-dimensional reference array [r] (whose length fits
    the 64-bit index type) and any query array [q], [searchsorted] returns, at
    every position, the number of elements of [r] strictly below the query
    element for [side = left], and the number of elements not above it for
    [side = right]; this holds for each of the four methods. *)
Theorem searchsorted_counts {E : Type} `{SortKey E}
  (r q : list E) (s : side) (m : method) :
  sorted r -> len r <= 2 ^ 63 - 1 ->
  searchsorted r q s m = map (count_before s r) q.
Proof.
  intros Hs Hmax. unfold searchsorted.
  pose proof (dtype_fits r Hmax) as Hfit.
  destruct (Z.eqb_spec (len r) 0) as [H0|H0].
  - destruct r as [|a r]; [|unfold len in H0; simpl in H0; lia].
    apply map_ext. intros x. destruct s; reflexivity.
  - assert (Hn : 1 <= len r) by (pose proof (len_nonneg r); lia).
    destruct m; method_counts Hs Hn Hfit.
Qed.

Lemma searchsorted_counts_witness :
  searchsorted [1; 2; 2; 3; 4; 5; 5] [0; 3; 8; 2] left scan = [0; 3; 7; 1] /\
  searchsorted [1; 2; 2; 3; 4; 5; 5] [2] right sort = [3].
Proof.
  split.
  - rewrite (searchsorted_counts [1; 2; 2; 3; 4; 5; 5] [0; 3; 8; 2] left scan).
    + reflexivity.
    + repeat constructor.
    + vm_compute. discriminate.
  - rewrite (searchsorted_counts [1; 2; 2; 3; 4; 5; 5] [2] right sort).
    + reflexivity.
    + repeat constructor.
    + vm_compute. discriminate.
Defined.

(** C2: on a sorted one-dimensional reference array (whose length fits the
    64-bit index type), any query array and either side, the methods [scan],
    [scan_unrolled], [sort] and [compare_all] return the same index array. *)
Theorem searchsorted_methods_agree {E : Type} `{SortKey E}
  (r q : list E) (s : side) (m1 m2 : method) :
  sorted r -> len r <= 2 ^ 63 - 1 ->
  searchsorted r q s m1 = searchsorted r q s m2.
Proof.
  intros Hs Hmax. unfold searchsorted.
  pose proof (dtype_fits r Hmax) as Hfit.
  destruct (Z.eqb_spec (len r) 0) as [H0|H0]; [reflexivity|].
  assert (Hn : 1 <= len r) by (pose proof (len_nonneg r); lia).
  transitivity (map (count_before s r) q).
  - destruct m1; method_counts Hs Hn Hfit.
  - symmetry. destruct m2; method_counts Hs Hn Hfit.
Qed.

Lemma searchsorted_methods_agree_witness :
  searchsorted [1; 2; 2; 3; 4; 5; 5] [0; 3; 8; 2; 5] right scan_unrolled
  = searchsorted [1; 2; 2; 3; 4; 5; 5] [0; 3; 8; 2; 5] right compare_all.
Proof.
  apply (searchsorted_methods_agree [1; 2; 2; 3; 4; 5; 5] [0; 3; 8; 2; 5]
           right scan_unrolled compare_all).
  - repeat constructor.
  - vm_compute. discriminate.
Defined.

End SearchFacts.

(** ** Histogram: the total weight is conserved *)

Module HistFacts.

Import Arr Search Hist ArrFacts SearchFacts.

Section Conservation.

Context {F : Type} `{Inexact F}.

Lemma list_eqb_refl (s : list Z) : list_eqb s s = true.
Proof.
  unfold list_eqb. rewrite Nat.eqb_refl. simpl.
  induction s as [|x s IH]; simpl; [reflexivity|].
  rewrite Z.eqb_refl. exact IH.
Qed.

Lemma last_map_Some (mid : list F) (e0 el : F) :
  last (map Some (e0 :: mid ++ [el])) None = Some el.
Proof.
  change (e0 :: mid ++ [el]) with ((e0 :: mid) ++ [el]).
  rewrite map_app. simpl map at 2. apply last_last.
Qed.

(** The bin index of a sample between the first and the last edge lies in
    [1, len edges - 1]. *)
Lemma bin_index_in_range (e0 el : F) (mid : list F) (x : F)
  (d : index_dtype) :
  let edges := e0 :: mid ++ [el] in
  len edges < 2 ^ (bits d - 1) ->
  _sort_le_comparator e0 x = true -> _sort_le_comparator x el = true ->
  let h := _searchsorted_via_scan_1 false edges x right d in
  1 <= (if key_eq x el then len edges - 1 else h) < len edges.
Proof.
  intros edges Hfit Hlo Hhi h.
  assert (Hn : 2 <= len edges).
  { unfold edges, len. cbn [length]. rewrite length_app. cbn [length]. lia. }
  destruct (key_eq x el) eqn:Heq; [lia|].
  destruct (scan_one_local edges x right d ltac:(lia) Hfit false)
    as (Hrange & Hbefore & Hafter).
  fold h in Hrange, Hbefore, Hafter.
  assert (Hh0 : h <> 0).
  { intros Hz. destruct Hafter as [Hl|Hg]; [lia|].
    rewrite Hz in Hg. unfold go_left_at, edges in Hg. simpl in Hg.
    rewrite lt_is_not_ge, Hlo in Hg. discriminate. }
  assert (Hhn : h <> len edges).
  { intros Hl. destruct Hbefore as [Hz|Hb]; [lia|].
    rewrite Hl in Hb. unfold go_left_at in Hb.
    replace (Z.to_nat (len edges - 1)) with (length (e0 :: mid)) in Hb
      by (unfold len, edges; cbn [length]; rewrite length_app;
          cbn [length]; lia).
    change edges with ((e0 :: mid) ++ [el]) in Hb.
    rewrite nth_error_app2, Nat.sub_diag in Hb by lia. simpl in Hb.
    rewrite lt_is_not_ge in Hb. apply negb_false_iff in Hb.
    rewrite key_eq_le, Hhi, Hb in Heq. discriminate. }
  lia.
Qed.

End Conservation.

(** *** Integer weights

    Floating-point addition is exact on integers that are small enough:
    [int z] is the integer [z] as a value of the dtype and [exact] the bound
    up to which integers are added without rounding ([2^24] in float32,
    [2^53] in float64). *)

(** The sum of the absolute values. *)
Definition mass (l : list Z) : Z := Arr.sum (map Z.abs l).

Lemma mass_cons (z : Z) (l : list Z) : mass (z :: l) = Z.abs z + mass l.
Proof. reflexivity. Qed.

Lemma mass_nonneg (l : list Z) : 0 <= mass l.
Proof.
  induction l as [|z l IH]; [cbn; lia|]. rewrite mass_cons. lia.
Qed.

Lemma sum_le_mass (l : list Z) : Z.abs (Arr.sum l) <= mass l.
Proof.
  induction l as [|z l IH]; [cbn; lia|]. rewrite mass_cons.
  change (Arr.sum (z :: l)) with (z + Arr.sum l). lia.
Qed.

Lemma nth_le_mass (l : list Z) (i : nat) : Z.abs (nth i l 0) <= mass l.
Proof.
  revert i. induction l as [|z l IH]; intros [|i]; cbn [nth];
    rewrite ?mass_cons; try (cbn; lia).
  - pose proof (mass_nonneg l). lia.
  - specialize (IH i). lia.
Qed.

Lemma mass_set_nth (l : list Z) (i : nat) (v : Z) :
  mass (set_nth l i v) <= mass l + Z.abs v - Z.abs (nth i l 0).
Proof.
  revert i. induction l as [|z l IH]; intros [|i]; cbn [set_nth nth];
    rewrite ?mass_cons; try (cbn; lia).
  specialize (IH i). lia.
Qed.

Lemma mass_tl (l : list Z) : mass (tl l) <= mass l.
Proof. destruct l as [|z l]; [cbn; lia|]. cbn [tl]. rewrite mass_cons. lia. Qed.

Lemma map_set_nth {A B : Type} (f : A -> B) (l : list A) (i : nat) (v : A) :
  map f (set_nth l i v) = set_nth (map f l) i (f v).
Proof.
  revert i. induction l as [|h t IH]; intros [|i]; simpl; try reflexivity.
  f_equal. apply IH.
Qed.

Lemma mass_update (ds : list Z) (i z : Z) :
  mass (update Z.add ds i z) <= mass ds + Z.abs z.
Proof.
  unfold update.
  destruct ((0 <=? norm_index (len ds) i)
            && (norm_index (len ds) i <? len ds)); [|lia].
  destruct (nth_error ds (Z.to_nat (norm_index (len ds) i)))
    as [old|] eqn:Hold; [|lia].
  pose proof (mass_set_nth ds (Z.to_nat (norm_index (len ds) i))
                (old + z)) as Hset.
  rewrite (nth_error_nth _ _ 0 Hold) in Hset. lia.
Qed.

Lemma mass_at_add (ds idxs zs : list Z) :
  mass (at_add Z.add ds idxs zs) <= mass ds + mass zs.
Proof.
  unfold at_add. revert ds zs.
  induction idxs as [|i idxs IH]; intros ds zs.
  - cbn [combine fold_left]. pose proof (mass_nonneg zs). lia.
  - destruct zs as [|z zs]; cbn [combine fold_left fst snd].
    + cbn. lia.
    + rewrite mass_cons. specialize (IH (update Z.add ds i z) zs).
      pose proof (mass_update ds i z). lia.
Qed.

Section Integers.

Context {F : Type} `{Inexact F}.

Variable int : Z -> F.
Variable exact : Z.
Hypothesis int_zero : int 0 = f_zero.
Hypothesis int_add : forall a b,
    Z.abs a <= exact -> Z.abs b <= exact -> Z.abs (a + b) <= exact ->
    f_add (int a) (int b) = int (a + b).

(** The sum of integers whose absolute values add up to at most [exact] is
    computed without rounding. *)
Lemma total_int (zs : list Z) :
  mass zs <= exact -> total (map int zs) = int (Arr.sum zs).
Proof using int_zero int_add.
  induction zs as [|z zs IH]; intros Hm.
  - symmetry. exact int_zero.
  - rewrite mass_cons in Hm. pose proof (mass_nonneg zs).
    pose proof (sum_le_mass zs).
    cbn [map]. change (total (int z :: map int zs))
      with (f_add (int z) (total (map int zs))).
    rewrite IH by lia.
    change (Arr.sum (z :: zs)) with (z + Arr.sum zs).
    apply int_add; lia.
Qed.

Lemma update_int (ds : list Z) (i z : Z) :
  mass ds + Z.abs z <= exact ->
  update f_add (map int ds) i (int z) = map int (update Z.add ds i z) /\
  mass (update Z.add ds i z) <= mass ds + Z.abs z.
Proof using int_add.
  intros Hm. unfold update, len. rewrite length_map.
  destruct ((0 <=? norm_index (Z.of_nat (length ds)) i)
            && (norm_index (Z.of_nat (length ds)) i <? Z.of_nat (length ds))).
  2:{ split; [reflexivity|lia]. }
  rewrite nth_error_map.
  set (j := Z.to_nat (norm_index (Z.of_nat (length ds)) i)).
  destruct (nth_error ds j) as [old|] eqn:Hold; cbn [option_map].
  2:{ split; [reflexivity|lia]. }
  pose proof (nth_le_mass ds j) as Hold'.
  rewrite (nth_error_nth _ _ 0 Hold) in Hold'.
  pose proof (mass_set_nth ds j (old + z)) as Hset.
  rewrite (nth_error_nth _ _ 0 Hold) in Hset.
  split; [|lia].
  rewrite map_set_nth. f_equal. apply int_add; lia.
Qed.

(** A scatter-add of integers whose absolute values, with those already
    there, add up to at most [exact] is the scatter-add of the integers. *)
Lemma at_add_int (ds idxs zs : list Z) :
  mass ds + mass zs <= exact ->
  at_add f_add (map int ds) idxs (map int zs)
  = map int (at_add Z.add ds idxs zs).
Proof using int_add.
  unfold at_add. revert ds zs.
  induction idxs as [|i idxs IH]; intros ds [|z zs] Hm;
    cbn [map combine fold_left fst snd]; try reflexivity.
  rewrite mass_cons in Hm. pose proof (mass_nonneg zs).
  destruct (update_int ds i z ltac:(lia)) as [Hu Hmu].
  rewrite Hu. apply IH. lia.
Qed.

Lemma hits_none (idxs zs : list Z) :
  Forall (fun i => 1 <= i) idxs -> ScatterFacts.hits 0 idxs zs = 0.
Proof using Type.
  unfold ScatterFacts.hits. intros Hi. revert zs.
  induction Hi as [|i idxs Hi0 _ IH]; intros [|z zs];
    cbn [combine map fst snd]; try reflexivity.
  change (Arr.sum (?a :: ?l)) with (a + Arr.sum l). rewrite IH.
  destruct (Z.eqb_spec i (Z.of_nat 0)); [cbn in *; lia|reflexivity].
Qed.

Lemma sum_tl (l : list Z) : Arr.sum (tl l) = Arr.sum l - nth 0 l 0.
Proof using Type.
  destruct l as [|z l]; [reflexivity|]. cbn [tl nth].
  change (Arr.sum (z :: l)) with (z + Arr.sum l). lia.
Qed.

(** Dropping slot 0 of the scatter buffer loses nothing when every bin index
    is at least 1 and in bounds. *)
Lemma scatter_counts_total (n : nat) (idxs : list Z) (zs : list Z) :
  Forall (fun i => 1 <= i < Z.of_nat n) idxs ->
  length zs = length idxs ->
  mass zs <= exact ->
  total (tl (at_add f_add (repeat f_zero n) idxs (map int zs)))
  = int (Arr.sum zs).
Proof using int_zero int_add.
  intros Hr Hlen Hm.
  assert (Hz : repeat f_zero n = map int (zeros n)).
  { unfold zeros. rewrite map_repeat, int_zero. reflexivity. }
  assert (Hmz : mass (zeros n) = 0).
  { unfold zeros. clear. induction n as [|n IH]; [reflexivity|].
    cbn [repeat]. rewrite mass_cons, IH. reflexivity. }
  rewrite Hz, at_add_int by lia.
  set (ds := at_add Z.add (zeros n) idxs zs).
  assert (Hsum : Arr.sum ds = Arr.sum zs).
  { unfold ds. rewrite ScatterFacts.sum_at_add.
    - rewrite ScatterFacts.sum_zeros. lia.
    - eapply Forall_impl; [|exact Hr]. cbn beta. intros i Hi.
      unfold len, zeros. rewrite repeat_length. lia.
    - exact Hlen. }
  assert (Hhead : nth 0 ds 0 = 0).
  { destruct n as [|n].
    - unfold ds. cbn. destruct idxs as [|i idxs]; [reflexivity|].
      inversion Hr; subst. lia.
    - unfold ds. rewrite ScatterFacts.at_add_hits.
      + rewrite ScatterFacts.nth_zeros, hits_none; [reflexivity|].
        eapply Forall_impl; [|exact Hr]. cbn beta. lia.
      + eapply Forall_impl; [|exact Hr]. cbn beta. lia.
      + unfold zeros. rewrite repeat_length. lia. }
  assert (Hmass : mass ds <= mass zs).
  { pose proof (mass_at_add (zeros n) idxs zs) as Hle. fold ds in Hle. lia. }
  replace (tl (map int ds)) with (map int (tl ds)) by (destruct ds; reflexivity).
  rewrite total_int by (pose proof (mass_tl ds); lia).
  f_equal. rewrite sum_tl. lia.
Qed.

End Integers.

(** C5 (amended): with at least two bin edges (at least one bin), samples
    that all lie between the first and the last edge, no density
    normalisation, and weights of the shape of the samples that are the
    integers [ws], whose absolute values add up to at most [exact], the
    bound up to which the dtype adds integers without rounding (or no
    weights and at most [exact] samples), [histogram] returns the edges
    together with counts whose sum is the sum of the weights: the integer
    [sum ws], which is the number of samples when there are no weights. *)
Theorem histogram_conserves_weight {F : Type} `{Inexact F}
  (int : Z -> F) (exact : Z)
  (a : ndarray F) (bins : bins_spec F) (range : option (list F))
  (weights : option (ndarray F)) (ws : list Z) (e0 el : F) (mid : list F) :
  int 0 = f_zero ->
  (forall x y, Z.abs x <= exact -> Z.abs y <= exact ->
               Z.abs (x + y) <= exact -> f_add (int x) (int y) = int (x + y)) ->
  let edges := e0 :: mid ++ [el] in
  histogram_bin_edges a bins range = Ok edges ->
  len edges <= 2 ^ 63 - 1 ->
  match weights with
  | Some w => shape w = shape a /\ data w = map int ws /\
              length ws = length (data a)
  | None => f_one = int 1 /\ ws = map (fun _ => 1) (data a)
  end ->
  Arr.sum (map Z.abs ws) <= exact ->
  Forall (fun x => _sort_le_comparator e0 x = true /\
                   _sort_le_comparator x el = true) (data a) ->
  exists counts,
    histogram a bins range weights false = Ok (counts, edges) /\
    total counts = int (Arr.sum ws) /\
    total counts = total (match weights with
                          | Some w => data w
                          | None => map (fun _ => f_one) (data a)
                          end) /\
    (weights = None -> Arr.sum ws = len (data a)).
Proof.
  intros Hzero Hadd edges Hedges Hmax Hw Hmass Hin.
  fold (mass ws) in Hmass.
  set (W := match weights with
            | Some w => data w
            | None => map (fun _ => f_one) (data a)
            end).
  assert (HW : W = map int ws /\ length ws = length (data a)).
  { unfold W. destruct weights as [w|].
    - destruct Hw as [_ [Hd Hl]]. split; assumption.
    - destruct Hw as [H1 ->]. rewrite map_map, H1, length_map.
      split; reflexivity. }
  destruct HW as [HW Hlenw].
  assert (Hn : 2 <= len edges).
  { unfold edges, len. cbn [length]. rewrite length_app. cbn [length]. lia. }
  pose proof (dtype_fits edges Hmax) as Hfit.
  set (d := if len edges <=? int32_max then int32 else int64) in *.
  set (idx := map (fun x => if key_eq x el then len edges - 1
                            else _searchsorted_via_scan_1 false edges x right d)
                  (data a)).
  exists (tl (at_add f_add (repeat f_zero (length edges)) idx W)).
  assert (Hcounts : total (tl (at_add f_add (repeat f_zero (length edges))
                                      idx W)) = int (Arr.sum ws)).
  { rewrite HW. apply (scatter_counts_total int exact Hzero Hadd);
      try assumption.
    - unfold idx. rewrite Forall_map. rewrite Forall_forall in *.
      intros x Hx. destruct (Hin x Hx) as [Hlo Hhi].
      exact (bin_index_in_range e0 el mid x d Hfit Hlo Hhi).
    - unfold idx. rewrite length_map. exact Hlenw. }
  split; [|split; [exact Hcounts|split]].
  - unfold histogram.
    assert (Hwb : match weights with
                  | Some w => if negb (list_eqb (shape a) (shape w))
                              then Raise ValueError else Ok (data w)
                  | None => Ok (map (fun _ : F => f_one) (data a))
                  end = Ok W).
    { unfold W. destruct weights as [w|]; [|reflexivity].
      destruct Hw as [Hs _]. rewrite Hs, list_eqb_refl. reflexivity. }
    rewrite Hwb. cbn [bind]. rewrite Hedges. cbn [bind].
    assert (Hlast : last (map Some edges) None = Some el)
      by apply last_map_Some.
    rewrite Hlast.
    unfold searchsorted. fold d.
    destruct (Z.eqb_spec (len edges) 0) as [Hz|_]; [lia|].
    unfold _searchsorted_via_scan.
    rewrite <- (map_id (data a)) at 1. rewrite combine_map_same, map_map.
    reflexivity.
  - rewrite Hcounts, HW. symmetry.
    apply (total_int int exact Hzero Hadd). exact Hmass.
  - intros Hnone. rewrite Hnone in Hw. destruct Hw as [_ ->]. clear.
    unfold len. induction (data a) as [|x l IH]; [reflexivity|].
    cbn [map length]. change (Arr.sum (?z :: ?t)) with (z + Arr.sum t).
    rewrite IH. lia.
Qed.

Lemma qc_add (x y : Z) : (qc x + qc y)%Qc = qc (x + y).
Proof.
  unfold qc. apply Qc_is_canon. cbn [this Qcplus Q2Qc].
  rewrite !Qred_correct, inject_Z_plus. reflexivity.
Qed.

Lemma histogram_conserves_weight_witness :
  let a := mk_ndarray [8] (map qc [1; 2; 3; 10; 11; 15; 19; 25]) in
  let w := mk_ndarray [8] (map qc [2; 0; 1; 5; 1; 1; 3; 4]) in
  exists counts,
    histogram a (bins_edges (map qc [0; 10; 20; 30])) None (Some w) false
    = Ok (counts, map qc [0; 10; 20; 30]) /\
    total counts = qc 17.
Proof.
  intros a w.
  destruct (histogram_conserves_weight qc 17 a
              (bins_edges (map qc [0; 10; 20; 30])) None (Some w)
              [2; 0; 1; 5; 1; 1; 3; 4] (qc 0) (qc 30) [qc 10; qc 20])
    as [counts [Hh [Ht _]]].
  - reflexivity.
  - intros x y _ _ _. apply qc_add.
  - reflexivity.
  - vm_compute. discriminate.
  - split; [reflexivity|split; reflexivity].
  - vm_compute. discriminate.
  - repeat (constructor; [split; vm_compute; reflexivity|]). constructor.
  - exists counts. split; [exact Hh|exact Ht].
Defined.

(** C5, as stated, fails for a single bin edge: the sample 5 lies within
    [edges[0], edges[-1]] = [5, 5], yet there is no bin, the counts are empty
    and their sum is 0 instead of the total weight 1. *)
Lemma histogram_single_edge_loses_weight :
  let a := mk_ndarray [1] [qc 5] in
  let edges := [qc 5] in
  Forall (fun x => _sort_le_comparator (hd x edges) x = true /\
                   _sort_le_comparator x (last edges x) = true) (data a) /\
  histogram a (bins_edges edges) None None false = Ok ([], edges) /\
  total (@nil Qc) <> total (map (fun _ => f_one) (data a)).
Proof.
  split; [|split].
  - repeat constructor.
  - reflexivity.
  - intros Heq. apply (f_equal this) in Heq. vm_compute in Heq. discriminate.
Qed.

End HistFacts.

(** ** [repeat] with a scalar count *)

Module RepeatFacts.

Import Arr Nd Repeat.

Lemma block_index (k i j : Z) :
  0 <= j < k -> (i * k + j) / k = i.
Proof.
  intros Hj. rewrite Z.add_comm, Z.div_add by lia.
  rewrite Z.div_small by lia. reflexivity.
Qed.

(** C7: for a one-dimensional array [a] of length [n] and a scalar count
    [k >= 0], [repeat(a, k)] (no axis or axis 0, no total length) returns an
    array of length [k * n] whose block [i*k .. (i+1)*k - 1] holds [a[i]] at
    each of its [k] positions. *)
Theorem repeat_scalar_blocks {T : Type} (a : array T) (n k : Z)
  (axis : option Z) :
  shape a = [n] -> 0 <= n -> 0 <= k ->
  axis = None \/ axis = Some 0 ->
  exists r,
    repeat a (repeats_scalar k) axis None = Ok r /\
    shape r = [k * n] /\
    forall i j, 0 <= i < n -> 0 <= j < k ->
                at_ r [i * k + j] = at_ a [i].
Proof.
  intros Hshape Hn Hk Haxis.
  destruct (Z.ltb_spec k 0) as [Hneg|_]; [lia|].
  destruct Haxis as [-> | ->]; unfold repeat, _repeat.
  - cbn [ravel ndim shape length Nat.eqb negb].
    unfold _canonicalize_axis. cbn [Z.of_nat bind].
    destruct (Z.ltb_spec k 0) as [Hneg|_]; [lia|].
    eexists. split; [reflexivity|]. split.
    + cbn. rewrite Hshape. cbn. f_equal. lia.
    + intros i j Hi Hj. cbn. rewrite Hshape. cbn.
      rewrite block_index by exact Hj.
      rewrite Z.div_1_r. reflexivity.
  - unfold ndim. rewrite Hshape.
    cbn [length Nat.eqb negb]. unfold _canonicalize_axis. cbn [Z.of_nat bind].
    destruct (Z.ltb_spec k 0) as [Hneg|_]; [lia|].
    eexists. split; [reflexivity|]. split.
    + cbn. rewrite Hshape. cbn. f_equal. lia.
    + intros i j Hi Hj. cbn. rewrite Hshape. cbn.
      rewrite block_index by exact Hj. reflexivity.
Qed.

Lemma repeat_scalar_blocks_witness :
  exists r,
    repeat (of_list 0 [7; 8; 9]) (repeats_scalar 2) None None = Ok r /\
    shape r = [2 * 3] /\
    forall i j, 0 <= i < 3 -> 0 <= j < 2 ->
                at_ r [i * 2 + j] = at_ (of_list 0 [7; 8; 9]) [i].
Proof.
  apply (repeat_scalar_blocks (of_list 0 [7; 8; 9]) 3 2 None).
  - reflexivity.
  - lia.
  - lia.
  - left. reflexivity.
Defined.

End RepeatFacts.

(** ** [insert] and [delete] *)

Module InsertDeleteFacts.

Import Arr Nd Search InsertDelete ArrFacts NdFacts SearchFacts.

(** *** Lists of positions *)

Lemma map_indexed {A B : Type} (g : A -> B) (h : A -> nat -> B)
  (s : list A) (k : nat) :
  (forall r e, nth_error s r = Some e -> g e = h e (k + r)%nat) ->
  map g s = map (fun p => h (fst p) (snd p)) (combine s (seq k (length s))).
Proof.
  revert k. induction s as [|a s IH]; intros k Hgh; simpl; [reflexivity|].
  f_equal.
  - rewrite (Hgh O a eq_refl). f_equal. lia.
  - apply IH. intros r e He. rewrite (Hgh (S r) e He). f_equal. lia.
Qed.

Lemma map_nth_seq {A : Type} (l : list A) (d : A) :
  map (fun j => nth j l d) (seq 0 (length l)) = l.
Proof.
  induction l as [|a l IH]; simpl; [reflexivity|].
  f_equal. rewrite <- seq_shift, map_map. exact IH.
Qed.

Lemma map_nth_error_seq {A : Type} (l : list A) :
  map (nth_error l) (seq 0 (length l)) = map Some l.
Proof.
  induction l as [|a l IH]; simpl; [reflexivity|].
  f_equal. rewrite <- seq_shift, map_map. exact IH.
Qed.

Lemma map_combine_snd {A B C : Type} (f : B -> C) (l : list A)
  (rs : list B) :
  length l = length rs ->
  map (fun p => f (snd p)) (combine l rs) = map f rs.
Proof.
  revert rs. induction l as [|a l IH]; intros [|r rs] Hlen; simpl in *;
    try discriminate; [reflexivity|].
  f_equal. apply IH. lia.
Qed.

Lemma map_Some_inj {A : Type} (l1 l2 : list A) :
  map Some l1 = map Some l2 -> l1 = l2.
Proof.
  revert l2. induction l1 as [|a l1 IH]; intros [|b l2] Heq;
    simpl in Heq; try discriminate; [reflexivity|].
  inversion Heq. f_equal. apply IH. assumption.
Qed.

Lemma strictly_sorted_NoDup (l : list Z) :
  StronglySorted Z.lt l -> NoDup l.
Proof.
  intros Hs. induction Hs as [|a l Hs IH Hall]; constructor; [|exact IH].
  intros Hin. rewrite Forall_forall in Hall. specialize (Hall a Hin). lia.
Qed.

(** Adding its rank to each element of a sorted list makes it strictly
    increasing. *)
Lemma add_rank_strictly_sorted (c : list Z) (k : nat) :
  StronglySorted Z.le c ->
  StronglySorted Z.lt
    (map (fun p => fst p + Z.of_nat (snd p)) (combine c (seq k (length c)))).
Proof.
  intros Hs. revert k. induction Hs as [|a c Hs IH Hall]; intros k; simpl.
  - constructor.
  - constructor; [apply IH|].
    rewrite Forall_map. apply Forall_forall. intros [x r] Hin. simpl.
    pose proof (in_combine_l _ _ _ _ Hin) as Hx.
    pose proof (in_combine_r _ _ _ _ Hin) as Hr.
    apply in_seq in Hr. rewrite Forall_forall in Hall.
    specialize (Hall x Hx). lia.
Qed.

(** Removing [k] distinct positions from the first [n] naturals leaves
    [n - k] of them. *)
Lemma filter_remove_one (v : nat) (l : list nat) :
  NoDup l -> In v l ->
  S (length (filter (fun p => negb (p =? v)%nat) l)) = length l.
Proof.
  intros Hnd. induction Hnd as [|a l Hnotin Hnd IH]; intros Hin;
    [destruct Hin|].
  simpl. destruct (Nat.eqb_spec a v) as [->|Hne]; simpl.
  - f_equal. clear IH Hin.
    induction l as [|b l IHl]; [reflexivity|].
    simpl. destruct (Nat.eqb_spec b v) as [->|_]; simpl.
    + exfalso. apply Hnotin. left. reflexivity.
    + f_equal. apply IHl.
      * intros Hin. apply Hnotin. right. exact Hin.
      * inversion Hnd; assumption.
  - f_equal. apply IH. destruct Hin as [Heq|Hin]; [congruence|exact Hin].
Qed.

Lemma filter_complement_length (vs l : list nat) :
  NoDup vs -> NoDup l -> incl vs l ->
  (length (filter (fun p => negb (existsb (Nat.eqb p) vs)) l) + length vs
   = length l)%nat.
Proof.
  intros Hvs. revert l. induction Hvs as [|v vs Hnotin Hvs IH];
    intros l Hl Hincl.
  - simpl. rewrite Nat.add_0_r. f_equal.
    induction l as [|a l IHl]; [reflexivity|].
    simpl. f_equal. apply IHl.
    + inversion Hl; assumption.
    + intros x [].
  - assert (Hfilter :
      filter (fun p => negb (existsb (Nat.eqb p) (v :: vs))) l
      = filter (fun p => negb (p =? v)%nat)
               (filter (fun p => negb (existsb (Nat.eqb p) vs)) l)).
    { clear. induction l as [|a l IHl]; [reflexivity|].
      simpl. destruct (Nat.eqb_spec a v) as [->|Hne]; simpl.
      - destruct (existsb (Nat.eqb v) vs); simpl;
          [|rewrite Nat.eqb_refl; simpl]; exact IHl.
      - destruct (existsb (Nat.eqb a) vs); simpl; [exact IHl|].
        destruct (Nat.eqb_spec a v); [contradiction|]. simpl.
        f_equal. exact IHl. }
    rewrite Hfilter.
    pose proof (filter_remove_one v
                  (filter (fun p => negb (existsb (Nat.eqb p) vs)) l)) as H1.
    assert (Hin : In v (filter (fun p => negb (existsb (Nat.eqb p) vs)) l)).
    { apply filter_In. split; [apply Hincl; left; reflexivity|].
      apply negb_true_iff. destruct (existsb (Nat.eqb v) vs) eqn:He;
        [|reflexivity].
      apply existsb_exists in He. destruct He as [x [Hx Heq]].
      apply Nat.eqb_eq in Heq. subst x. contradiction. }
    specialize (H1 (NoDup_filter _ Hl) Hin).
    specialize (IH l Hl (fun x Hx => Hincl x (or_intror Hx))).
    simpl. lia.
Qed.

(** The true positions of a mask whose entries are given by a predicate. *)
Lemma true_positions (g : nat -> bool) (mask : list bool) (s : nat) :
  (forall k, (k < length mask)%nat -> nth_error mask k = Some (g (s + k)%nat)) ->
  map fst (filter snd (combine (map Z.of_nat (seq s (length mask))) mask))
  = map Z.of_nat (filter g (seq s (length mask))).
Proof.
  revert s. induction mask as [|b mask IH]; intros s Hg; [reflexivity|].
  simpl.
  assert (Hb : b = g s).
  { specialize (Hg O ltac:(simpl; lia)). simpl in Hg.
    rewrite Nat.add_0_r in Hg. congruence. }
  assert (Hrec : map fst (filter snd
                   (combine (map Z.of_nat (seq (S s) (length mask))) mask))
                 = map Z.of_nat (filter g (seq (S s) (length mask)))).
  { apply IH. intros k Hk. specialize (Hg (S k) ltac:(simpl; lia)).
    simpl in Hg. rewrite Hg. f_equal. f_equal. lia. }
  rewrite <- Hb. destruct b; simpl; rewrite Hrec; reflexivity.
Qed.

(** *** The slots of the inserted values *)

Lemma StronglySorted_map {A B : Type} (R : A -> A -> Prop)
  (R' : B -> B -> Prop) (f : A -> B) (l : list A) :
  (forall a b, R a b -> R' (f a) (f b)) ->
  StronglySorted R l -> StronglySorted R' (map f l).
Proof.
  intros HR Hs. induction Hs as [|a l Hs IH Hall]; simpl; constructor.
  - exact IH.
  - rewrite Forall_map. eapply Forall_impl; [|exact Hall]. intros b. apply HR.
Qed.

Lemma combine_seq_lookup {A : Type} (l : list A) (k : nat) (e : A * nat) :
  In e (combine l (seq k (length l))) ->
  (k <= snd e)%nat /\ nth_error l (snd e - k) = Some (fst e).
Proof.
  revert k. induction l as [|a l IH]; intros k Hin; simpl in Hin;
    [destruct Hin|].
  destruct Hin as [<-|Hin]; simpl.
  - rewrite Nat.sub_diag. split; [lia|reflexivity].
  - destruct (IH (S k) Hin) as [Hk Hnth]. split; [lia|].
    replace (snd e - k)%nat with (S (snd e - S k)) by lia. exact Hnth.
Qed.

Section Slots.

(** The effective insertion indices, already clipped into [0, n]. *)
Variables (I : list Z) (n : Z).
Hypothesis n_nonneg : 0 <= n.
Hypothesis I_clipped : Forall (fun i => 0 <= i <= n) I.

Definition sorted_pairs : list (Z * nat) :=
  isort (combine I (seq 0 (length I))).

(** [values_ind] as [insert] computes it. *)
Definition slots : list Z :=
  at_add Z.add I (argsort I) (iota (length I)).

(** The sorted insertion indices, each shifted by its rank. *)
Definition shifted : list Z :=
  map (fun p => fst p + Z.of_nat (snd p))
      (combine (map fst sorted_pairs) (seq 0 (length I))).

Lemma sorted_pairs_perm :
  Permutation sorted_pairs (combine I (seq 0 (length I))).
Proof. apply isort_perm. Qed.

Lemma sorted_pairs_length : length sorted_pairs = length I.
Proof.
  rewrite (Permutation_length sorted_pairs_perm). apply length_combine_seq.
Qed.

Lemma order_perm : Permutation (map snd sorted_pairs) (seq 0 (length I)).
Proof.
  rewrite <- (map_snd_combine_seq I 0). apply Permutation_map.
  apply sorted_pairs_perm.
Qed.

Lemma argsort_order : argsort I = map Z.of_nat (map snd sorted_pairs).
Proof. unfold argsort, sorted_pairs, isort. rewrite map_map. reflexivity. Qed.

Lemma slots_length : length slots = length I.
Proof. unfold slots. apply at_add_length. Qed.

Lemma sorted_pairs_lookup (r : nat) (e : Z * nat) :
  nth_error sorted_pairs r = Some e -> nth_error I (snd e) = Some (fst e).
Proof.
  intros He. apply nth_error_In in He.
  apply (Permutation_in _ sorted_pairs_perm) in He.
  apply combine_seq_lookup in He. rewrite Nat.sub_0_r in He. apply He.
Qed.

Lemma slots_at_sorted (r : nat) (e : Z * nat) :
  nth_error sorted_pairs r = Some e ->
  nth_error slots (snd e) = Some (fst e + Z.of_nat r).
Proof.
  intros He. unfold slots. rewrite argsort_order.
  apply (at_add_lookup Z.add I (map snd sorted_pairs) _ r (snd e)).
  - eapply Permutation_NoDup; [symmetry; apply order_perm|apply seq_NoDup].
  - eapply Permutation_Forall; [symmetry; apply order_perm|].
    apply Forall_forall. intros i Hi. apply in_seq in Hi. lia.
  - apply map_nth_error. exact He.
  - unfold iota. rewrite nth_error_map, nth_error_seq.
    assert (Hr : (r < length I)%nat).
    { rewrite <- sorted_pairs_length. apply nth_error_Some. congruence. }
    apply Nat.ltb_lt in Hr. rewrite Hr. reflexivity.
  - eapply sorted_pairs_lookup. exact He.
Qed.

Lemma slots_perm : Permutation slots shifted.
Proof.
  rewrite <- (map_nth_seq slots 0). rewrite slots_length.
  transitivity (map (fun j => nth j slots 0) (map snd sorted_pairs)).
  - apply Permutation_map. symmetry. apply order_perm.
  - assert (Heq : map (fun j => nth j slots 0) (map snd sorted_pairs)
                  = shifted); [|rewrite Heq; reflexivity].
    unfold shifted. rewrite map_map.
    rewrite (map_indexed (fun e => nth (snd e) slots 0)
               (fun e r => fst e + Z.of_nat r) sorted_pairs 0).
    + rewrite sorted_pairs_length.
      generalize (seq 0 (length I)). generalize sorted_pairs. clear.
      induction l as [|e l IH]; intros [|r rs]; simpl; try reflexivity.
      f_equal. apply IH.
    + intros r e He. simpl. apply nth_error_nth.
      apply slots_at_sorted. exact He.
Qed.

Lemma sorted_keys : StronglySorted Z.le (map fst sorted_pairs).
Proof.
  apply (StronglySorted_map (fun x y => precedes x y = true)).
  - intros a b Hab. apply precedes_spec in Hab. destruct Hab as [Hge _].
    simpl in Hge. apply Z.ltb_ge in Hge. exact Hge.
  - apply isort_sorted. apply combine_seq_increasing.
Qed.

Lemma shifted_sorted : StronglySorted Z.lt shifted.
Proof.
  unfold shifted. rewrite <- sorted_pairs_length, <- (length_map fst).
  apply add_rank_strictly_sorted. apply sorted_keys.
Qed.

Lemma sorted_keys_range : Forall (fun i => 0 <= i <= n) (map fst sorted_pairs).
Proof.
  eapply Permutation_Forall.
  - symmetry. apply Permutation_map. apply sorted_pairs_perm.
  - rewrite map_fst_combine_seq. exact I_clipped.
Qed.

Lemma shifted_range :
  Forall (fun w => 0 <= w < n + Z.of_nat (length I)) shifted.
Proof.
  unfold shifted. rewrite Forall_map. apply Forall_forall.
  intros [x r] Hin. simpl.
  pose proof (in_combine_l _ _ _ _ Hin) as Hx.
  pose proof (in_combine_r _ _ _ _ Hin) as Hr.
  apply in_seq in Hr.
  pose proof sorted_keys_range as Hk. rewrite Forall_forall in Hk.
  specialize (Hk x Hx). lia.
Qed.

(** The slots are distinct positions of the enlarged array. *)
Lemma slots_range : Forall (fun w => 0 <= w < n + Z.of_nat (length I)) slots.
Proof.
  eapply Permutation_Forall; [symmetry; apply slots_perm|apply shifted_range].
Qed.

Lemma slots_NoDup : NoDup slots.
Proof.
  eapply Permutation_NoDup; [symmetry; apply slots_perm|].
  apply strictly_sorted_NoDup. apply shifted_sorted.
Qed.

End Slots.

(** *** The slots left to the input *)

Lemma of_nat_to_nat (V : list Z) :
  Forall (fun w => 0 <= w) V -> map Z.of_nat (map Z.to_nat V) = V.
Proof.
  intros Hv. induction Hv as [|w V Hw Hv IH]; simpl; [reflexivity|].
  rewrite IH, Z2Nat.id by exact Hw. reflexivity.
Qed.

Section Layout.

Variables (V : list Z) (N n : nat).
Hypothesis V_NoDup : NoDup V.
Hypothesis V_range : Forall (fun w => 0 <= w < Z.of_nat N) V.
Hypothesis V_count : (n + length V = N)%nat.

Definition taken (p : nat) : bool := existsb (Nat.eqb p) (map Z.to_nat V).

Definition arr_mask : list bool :=
  at_set (repeat true N) V (map (fun _ => false) V).

Definition free : list nat := filter (fun p => negb (taken p)) (seq 0 N).

Lemma V_nat : map Z.of_nat (map Z.to_nat V) = V.
Proof.
  apply of_nat_to_nat. eapply Forall_impl; [|exact V_range].
  simpl. intros; lia.
Qed.

Lemma V_nat_NoDup : NoDup (map Z.to_nat V).
Proof.
  apply (NoDup_map_inv Z.of_nat). rewrite V_nat. exact V_NoDup.
Qed.

Lemma V_nat_range : Forall (fun i => (i < N)%nat) (map Z.to_nat V).
Proof.
  rewrite Forall_map. eapply Forall_impl; [|exact V_range].
  simpl. intros; lia.
Qed.

Lemma arr_mask_length : length arr_mask = N.
Proof. unfold arr_mask. rewrite at_set_length. apply repeat_length. Qed.

Lemma arr_mask_spec (k : nat) :
  (k < N)%nat -> nth_error arr_mask k = Some (negb (taken k)).
Proof.
  intros Hk. unfold arr_mask, taken. rewrite <- V_nat at 1.
  destruct (existsb (Nat.eqb k) (map Z.to_nat V)) eqn:He.
  - apply existsb_exists in He. destruct He as [x [Hx Heq]].
    apply Nat.eqb_eq in Heq. subst x.
    destruct (In_nth_error _ _ Hx) as [j Hj].
    apply (at_set_lookup _ (map Z.to_nat V) _ j k).
    + apply V_nat_NoDup.
    + rewrite repeat_length. apply V_nat_range.
    + exact Hj.
    + rewrite nth_error_map.
      assert (Hjl : (j < length V)%nat).
      { rewrite <- (length_map Z.to_nat). apply nth_error_Some. congruence. }
      destruct (nth_error V j) eqn:Hv; [reflexivity|].
      apply nth_error_None in Hv. lia.
  - rewrite at_set_untouched.
    + simpl. apply nth_error_repeat. exact Hk.
    + intros Hin. assert (Ht : existsb (Nat.eqb k) (map Z.to_nat V) = true).
      { apply existsb_exists. exists k. split; [exact Hin|apply Nat.eqb_refl]. }
      congruence.
    + rewrite repeat_length. apply V_nat_range.
Qed.

Lemma free_length : length free = n.
Proof.
  pose proof (filter_complement_length (map Z.to_nat V) (seq 0 N)
                V_nat_NoDup (seq_NoDup N 0)) as Hc.
  rewrite length_map, length_seq in Hc. unfold free, taken.
  assert (Hincl : incl (map Z.to_nat V) (seq 0 N)).
  { intros x Hx. apply in_seq. pose proof V_nat_range as Hr.
    rewrite Forall_forall in Hr. specialize (Hr x Hx). lia. }
  specialize (Hc Hincl). lia.
Qed.

Lemma free_NoDup : NoDup free.
Proof. apply NoDup_filter. apply seq_NoDup. Qed.

Lemma free_range : Forall (fun p => (p < N)%nat) free.
Proof.
  apply Forall_forall. intros p Hp. apply filter_In in Hp.
  destruct Hp as [Hp _]. apply in_seq in Hp. lia.
Qed.

Lemma free_not_taken (p : nat) : In p free -> ~ In (Z.of_nat p) V.
Proof.
  intros Hp Hin. apply filter_In in Hp. destruct Hp as [_ Hp].
  apply negb_true_iff in Hp.
  assert (Ht : taken p = true).
  { apply existsb_exists. exists p. split; [|apply Nat.eqb_refl].
    apply in_map_iff. exists (Z.of_nat p). split; [apply Nat2Z.id|exact Hin]. }
  congruence.
Qed.

(** The true positions of [arr_mask] are the free slots. *)
Lemma found_free :
  map fst (filter snd (combine (iota (length arr_mask)) arr_mask))
  = map Z.of_nat free.
Proof.
  unfold iota.
  rewrite (true_positions (fun p => negb (taken p)) arr_mask 0).
  - rewrite arr_mask_length. reflexivity.
  - intros k Hk. rewrite arr_mask_length in Hk. simpl.
    apply arr_mask_spec. exact Hk.
Qed.

(** [where(arr_mask, size=n)] finds exactly the free slots. *)
Lemma where_size_free : where_size arr_mask n = map Z.of_nat free.
Proof.
  unfold where_size. rewrite found_free.
  rewrite firstn_app, length_map, free_length, Nat.sub_diag.
  rewrite firstn_O, app_nil_r. apply firstn_all2.
  rewrite length_map, free_length. lia.
Qed.

End Layout.


Lemma insert_int_perm (x : Z) (l : list Z) :
  Permutation (insert_int x l) (x :: l).
Proof.
  induction l as [|y l IH]; simpl; [reflexivity|].
  destruct (y <? x); [|reflexivity].
  rewrite IH. apply perm_swap.
Qed.

Lemma sort_ints_perm (l : list Z) : Permutation (sort_ints l) l.
Proof.
  induction l as [|x l IH]; simpl; [reflexivity|].
  rewrite insert_int_perm. now apply perm_skip.
Qed.

Lemma insert_int_sorted (x : Z) (l : list Z) :
  StronglySorted Z.le l -> StronglySorted Z.le (insert_int x l).
Proof.
  intros Hs. induction Hs as [|y l Hs IH Hall]; simpl.
  - repeat constructor.
  - destruct (Z.ltb_spec y x).
    + constructor; [exact IH|].
      eapply Permutation_Forall; [symmetry; apply insert_int_perm|].
      constructor; [lia|exact Hall].
    + constructor; [constructor; assumption|].
      constructor; [exact H|].
      eapply Forall_impl; [|exact Hall]. simpl. intros; lia.
Qed.

Lemma sort_ints_sorted (l : list Z) : StronglySorted Z.le (sort_ints l).
Proof.
  induction l as [|x l IH]; simpl; [constructor|].
  apply insert_int_sorted. exact IH.
Qed.

(** A sorted arrangement of distinct integers is unique. *)
Lemma sorted_perm_unique (l1 l2 : list Z) :
  StronglySorted Z.le l1 -> StronglySorted Z.lt l2 -> Permutation l1 l2 ->
  l1 = l2.
Proof.
  intros Hs1. revert l2.
  induction Hs1 as [|a l1 Hs1 IH Hall1]; intros l2 Hs2 Hp.
  - apply Permutation_nil in Hp. congruence.
  - destruct l2 as [|b l2].
    + apply Permutation_sym, Permutation_nil in Hp. discriminate.
    + inversion Hs2 as [|? ? Hs2' Hall2]; subst.
      rewrite Forall_forall in Hall1, Hall2.
      assert (Hab : a = b).
      { assert (Ha : In a (b :: l2))
          by (eapply Permutation_in; [exact Hp|left; reflexivity]).
        assert (Hb : In b (a :: l1))
          by (eapply Permutation_in; [symmetry; exact Hp|left; reflexivity]).
        destruct Ha as [Ha|Ha]; [congruence|].
        destruct Hb as [Hb|Hb]; [congruence|].
        specialize (Hall1 b Hb). specialize (Hall2 a Ha). lia. }
      subst b. f_equal. apply IH; [exact Hs2'|].
      eapply Permutation_cons_inv. exact Hp.
Qed.

Lemma lt_sorted_le (l : list Z) :
  StronglySorted Z.lt l -> StronglySorted Z.le l.
Proof.
  intros Hs. induction Hs as [|a l Hs IH Hall]; constructor; [exact IH|].
  eapply Forall_impl; [|exact Hall]. simpl. intros; lia.
Qed.

(** Case 3a: the cumulative-count offsets. *)

(** The number of sorted insertion indices at or before [t]. *)
Definition at_or_before (c : list Z) (t : Z) : Z :=
  Arr.sum (map (fun o => if o <=? t then 1 else 0) c).

Lemma at_or_before_bounds (c : list Z) (t : Z) :
  0 <= at_or_before c t <= len c.
Proof.
  unfold at_or_before, len. induction c as [|o c IH]; simpl; [lia|].
  destruct (o <=? t); lia.
Qed.

Lemma at_or_before_mono (c : list Z) (t1 t2 : Z) :
  t1 <= t2 -> at_or_before c t1 <= at_or_before c t2.
Proof.
  intros Ht. unfold at_or_before. induction c as [|o c IH]; simpl; [lia|].
  destruct (Z.leb_spec o t1), (Z.leb_spec o t2); lia.
Qed.

Lemma at_or_before_none (c : list Z) (t : Z) :
  Forall (fun o => t < o) c -> at_or_before c t = 0.
Proof.
  intros Hc. unfold at_or_before. induction Hc as [|o c Ho Hc IH]; simpl;
    [reflexivity|].
  destruct (Z.leb_spec o t); lia.
Qed.

(** An input element never lands on a slot of an inserted value. *)
Lemma not_shifted (c : list Z) (k : nat) (t : Z) :
  StronglySorted Z.le c ->
  ~ In (t + Z.of_nat k + at_or_before c t)
       (map (fun p => fst p + Z.of_nat (snd p)) (combine c (seq k (length c)))).
Proof.
  intros Hs. revert k. induction Hs as [|o c Hs IH Hall]; intros k; simpl.
  - intros [].
  - unfold at_or_before. simpl. fold (at_or_before c t).
    pose proof (at_or_before_bounds c t) as Hb.
    destruct (Z.leb_spec o t) as [Hle|Hgt].
    + intros [Heq|Hin]; [lia|].
      apply (IH (S k)).
      replace (t + Z.of_nat (S k) + at_or_before c t)
        with (t + Z.of_nat k + (1 + at_or_before c t)) by lia.
      exact Hin.
    + assert (Hnone : at_or_before c t = 0).
      { apply at_or_before_none. eapply Forall_impl; [|exact Hall].
        simpl. intros; lia. }
      rewrite Hnone. intros [Heq|Hin]; [lia|].
      apply in_map_iff in Hin. destruct Hin as [[x r] [Heq Hin]].
      simpl in Heq.
      pose proof (in_combine_l _ _ _ _ Hin) as Hx.
      pose proof (in_combine_r _ _ _ _ Hin) as Hr.
      apply in_seq in Hr. rewrite Forall_forall in Hall.
      specialize (Hall x Hx). lia.
Qed.

Lemma seq_strictly_sorted (s n : nat) : StronglySorted lt (seq s n).
Proof.
  revert s. induction n as [|n IH]; intros s; simpl; constructor.
  - apply IH.
  - apply Forall_forall. intros x Hx. apply in_seq in Hx. lia.
Qed.

Lemma StronglySorted_filter {A : Type} (R : A -> A -> Prop)
  (f : A -> bool) (l : list A) :
  StronglySorted R l -> StronglySorted R (filter f l).
Proof.
  intros Hs. induction Hs as [|a l Hs IH Hall]; simpl; [constructor|].
  destruct (f a); [|exact IH].
  constructor; [exact IH|].
  apply Forall_forall. intros x Hx. apply filter_In in Hx.
  rewrite Forall_forall in Hall. apply Hall. apply Hx.
Qed.

Lemma unshift_keys (c : list Z) (k : nat) :
  map (fun p => fst p - snd p)
      (combine (map (fun p => fst p + Z.of_nat (snd p))
                    (combine c (seq k (length c))))
               (map Z.of_nat (seq k (length c))))
  = c.
Proof.
  revert k. induction c as [|o c IH]; intros k; simpl; [reflexivity|].
  f_equal; [lia|apply IH].
Qed.

Lemma flat_map_singletons {A : Type} (f : nat -> option A) (a : list A)
  (k : nat) :
  (forall t, (t < length a)%nat -> f (k + t)%nat = nth_error a t) ->
  flat_map (fun x => match f x with Some v => [v] | None => [] end)
           (seq k (length a)) = a.
Proof.
  revert k. induction a as [|x a IH]; intros k Hf; simpl; [reflexivity|].
  rewrite <- (Nat.add_0_r k) at 1. rewrite (Hf O) by (simpl; lia). simpl.
  f_equal. apply IH. intros t Ht.
  replace (S k + t)%nat with (k + S t)%nat by lia.
  apply (Hf (S t)). simpl. lia.
Qed.

(** *** The positions [insert] works with *)

(** The position an insertion index stands for: shifted by the length [n]
    of the axis when negative, then clipped into [0, n]. *)
Definition effective_position (n p : Z) : Z :=
  Z.max 0 (Z.min (if p <? 0 then p + n else p) n).

Lemma clip_index_position (n i : Z) : clip_index n i = effective_position n i.
Proof. reflexivity. Qed.

Lemma effective_position_range (n i : Z) :
  0 <= n -> 0 <= effective_position n i <= n.
Proof. intros Hn. unfold effective_position. destruct (i <? 0); lia. Qed.

Lemma clip_index_id (n i : Z) : 0 <= i < n -> clip_index n i = i.
Proof.
  intros Hi. unfold clip_index. destruct (Z.ltb_spec i 0); lia.
Qed.

(** The positions of a call: a single index stands for one index per
    value, and every index for its effective position. *)
Definition positions (n : Z) (idxs : list Z) (n_values : Z) : list Z :=
  map (effective_position n)
      (match idxs with
       | [index] => repeat index (Z.to_nat n_values)
       | _ => idxs
       end).

(** The indices broadcast against the values along the axis. *)
Definition compatible (idxs : list Z) (n_values : Z) : Prop :=
  len idxs = 1 \/ len idxs = n_values \/ n_values = 1.

Lemma positions_length (n : Z) (idxs : list Z) (n_values : Z) :
  0 <= n_values -> compatible idxs n_values ->
  len (positions n idxs n_values)
  = (if len idxs =? 1 then n_values else len idxs) /\
  broadcast_len (len (positions n idxs n_values)) n_values
  = Ok (len (positions n idxs n_values)).
Proof.
  intros Hv Hc. unfold positions, broadcast_len, len.
  rewrite length_map.
  destruct idxs as [|i [|j idxs]]; cbn [length].
  - simpl. destruct Hc as [Hc|[Hc|Hc]]; unfold len in Hc; simpl in Hc;
      try lia; subst n_values; split; reflexivity.
  - rewrite repeat_length, Z2Nat.id by lia. simpl.
    rewrite Z.eqb_refl. split; reflexivity.
  - destruct (Z.eqb_spec (Z.of_nat (S (S (length idxs)))) 1) as [H1|_];
      [lia|].
    split; [reflexivity|].
    destruct (Z.eqb_spec (Z.of_nat (S (S (length idxs)))) n_values);
      [reflexivity|].
    destruct Hc as [Hc|[Hc|Hc]]; unfold len in Hc; cbn [length] in Hc;
      try lia.
    subst n_values. reflexivity.
Qed.

Lemma plan_insert_ints (n : Z) (idxs : list Z) (n_values : Z) :
  0 <= n_values -> compatible idxs n_values ->
  let I := positions n idxs n_values in
  plan_insert n (obj_ints idxs) n_values
  = Ok (mk_plan (len I) (slots I)
          (where_size (arr_mask (slots I) (Z.to_nat (n + len I)))
                      (Z.to_nat n))).
Proof.
  intros Hv Hc I. unfold plan_insert. cbn [bind].
  change (map (clip_index n)
              match idxs with
              | [index] => repeat index (Z.to_nat n_values)
              | _ => idxs
              end) with I.
  destruct (positions_length n idxs n_values Hv Hc) as [_ Hb].
  fold I in Hb.
  assert (Hlen : len (match idxs with
                      | [index] => repeat index (Z.to_nat n_values)
                      | _ => idxs
                      end) = len I).
  { unfold I, positions, len. rewrite length_map. reflexivity. }
  rewrite Hlen, Hb. cbn [bind].
  unfold slots, arr_mask, len. rewrite Nat2Z.id. reflexivity.
Qed.

(** *** The layout of the enlarged axis *)

Section Positions.

Variables (n : nat) (idxs : list Z) (n_values : Z).

Let I := positions (Z.of_nat n) idxs n_values.
Let N := (n + length I)%nat.
Let keys := map fst (sorted_pairs I).

Lemma I_clipped : Forall (fun i => 0 <= i <= Z.of_nat n) I.
Proof.
  unfold I, positions. rewrite Forall_map. apply Forall_forall.
  intros i _. apply effective_position_range. lia.
Qed.

Lemma slots_in_N : Forall (fun w => 0 <= w < Z.of_nat N) (slots I).
Proof.
  eapply Forall_impl; [|apply (slots_range I (Z.of_nat n) I_clipped)].
  simpl. intros w Hw. unfold N. lia.
Qed.

Lemma count_N : (n + length (slots I) = N)%nat.
Proof. rewrite slots_length. reflexivity. Qed.

Lemma arr_ind_free :
  where_size (arr_mask (slots I) N) n = map Z.of_nat (free (slots I) N).
Proof.
  apply (where_size_free (slots I) N n (slots_NoDup I) slots_in_N count_N).
Qed.

Lemma free_count : length (free (slots I) N) = n.
Proof.
  apply (free_length (slots I) N n (slots_NoDup I) slots_in_N count_N).
Qed.

Lemma keys_length : length keys = length I.
Proof. unfold keys. rewrite length_map. apply sorted_pairs_length. Qed.

Lemma shifted_length : length (shifted I) = length I.
Proof.
  unfold shifted. rewrite length_map, length_combine, length_seq.
  fold keys. rewrite keys_length. apply Nat.min_id.
Qed.

Lemma sort_slots : sort_ints (slots I) = shifted I.
Proof.
  apply sorted_perm_unique.
  - apply sort_ints_sorted.
  - apply shifted_sorted.
  - rewrite sort_ints_perm. apply slots_perm.
Qed.

(** The [t]-th free slot is [t] plus the number of insertion indices at or
    before [t]. *)
Lemma free_offsets :
  map (fun x => x + at_or_before keys x) (iota n)
  = map Z.of_nat (free (slots I) N).
Proof.
  pose proof slots_in_N as Hr.
  pose proof count_N as Hcount.
  assert (Hlen1 : length (map Z.of_nat (free (slots I) N)) = n).
  { rewrite length_map. apply free_count. }
  assert (Hs1 : StronglySorted Z.lt (map Z.of_nat (free (slots I) N))).
  { apply (StronglySorted_map lt); [intros; lia|].
    apply StronglySorted_filter. apply seq_strictly_sorted. }
  assert (Hs2 : StronglySorted Z.lt
                  (map (fun x => x + at_or_before keys x) (iota n))).
  { unfold iota. rewrite map_map.
    apply (StronglySorted_map lt); [|apply seq_strictly_sorted].
    intros x y Hxy.
    pose proof (at_or_before_mono keys (Z.of_nat x) (Z.of_nat y)). lia. }
  assert (Hincl : incl (map (fun x => x + at_or_before keys x) (iota n))
                       (map Z.of_nat (free (slots I) N))).
  { intros w Hw. apply in_map_iff in Hw. destruct Hw as [x [<- Hx]].
    unfold iota in Hx. apply in_map_iff in Hx. destruct Hx as [t [<- Ht]].
    apply in_seq in Ht.
    pose proof (at_or_before_bounds keys (Z.of_nat t)) as Hb.
    unfold len in Hb. rewrite keys_length in Hb.
    set (w := Z.of_nat t + at_or_before keys (Z.of_nat t)) in *.
    apply in_map_iff. exists (Z.to_nat w). split; [lia|].
    apply filter_In. split.
    - apply in_seq. unfold N. lia.
    - apply negb_true_iff. destruct (taken (slots I) (Z.to_nat w)) eqn:Ht';
        [|reflexivity].
      exfalso. apply existsb_exists in Ht'. destruct Ht' as [p [Hp Heq]].
      apply Nat.eqb_eq in Heq. subst p.
      apply in_map_iff in Hp. destruct Hp as [v [Hv Hin]].
      rewrite Forall_forall in Hr. pose proof (Hr v Hin) as Hvr.
      assert (Hvw : v = w) by lia. subst v.
      apply (Permutation_in _ (slots_perm I)) in Hin.
      apply (not_shifted keys 0 (Z.of_nat t) (sorted_keys I)).
      unfold shifted in Hin. fold keys in Hin.
      rewrite keys_length. simpl. rewrite Z.add_0_r. exact Hin. }
  symmetry. apply sorted_perm_unique.
  - apply lt_sorted_le. exact Hs1.
  - exact Hs2.
  - apply NoDup_Permutation.
    + apply strictly_sorted_NoDup. exact Hs1.
    + apply strictly_sorted_NoDup. exact Hs2.
    + intros w. split; [|apply Hincl].
      apply NoDup_length_incl.
      * apply strictly_sorted_NoDup. exact Hs2.
      * rewrite Hlen1, length_map. unfold iota.
        rewrite length_map, length_seq. lia.
      * exact Hincl.
Qed.

(** The index array of [delete] with [assume_unique_indices] on the slots
    of the values: the free slots. *)
Lemma unique_offsets :
  let obj := map (clip_index (Z.of_nat N)) (slots I) in
  let obj := sort_ints obj in
  let obj := map (fun p => fst p - snd p)
                 (combine obj (iota (length obj))) in
  map (fun x => x + Arr.sum (map (fun o => if o <=? x then 1 else 0) obj))
      (iota (Z.to_nat (Z.of_nat N - len obj)))
  = map Z.of_nat (free (slots I) N).
Proof.
  cbv zeta.
  pose proof slots_in_N as Hr.
  assert (Hclip : map (clip_index (Z.of_nat N)) (slots I) = slots I).
  { rewrite <- (map_id (slots I)) at 2. apply map_ext_in. intros w Hw.
    rewrite Forall_forall in Hr. specialize (Hr w Hw).
    apply clip_index_id. exact Hr. }
  rewrite Hclip, sort_slots, shifted_length.
  assert (Hkeys : map (fun p => fst p - snd p)
                      (combine (shifted I) (iota (length I))) = keys).
  { unfold shifted, iota. fold keys. rewrite <- keys_length.
    apply unshift_keys. }
  rewrite Hkeys.
  replace (Z.to_nat (Z.of_nat N - len keys)) with n
    by (unfold len; rewrite keys_length; unfold N; lia).
  apply free_offsets.
Qed.

End Positions.

(** *** Where the values and the input land *)

(** The slot of value [k]: its position plus the number of values inserted
    before it, those of a smaller position and those of the same position
    and a smaller index. *)
Definition slot_of (E : list Z) (k : nat) : Z :=
  nth k E 0
  + Z.of_nat (length (filter (fun j => (nth j E 0 <? nth k E 0)
                                       || ((nth j E 0 =? nth k E 0)
                                           && (j <? k)%nat))
                             (seq 0 (length E)))).

(** The slot of element [t] of the input: [t] plus the number of values
    inserted at or before [t]. *)
Definition home_of (E : list Z) (t : Z) : Z :=
  t + Z.of_nat (length (filter (fun e => e <=? t) E)).

Lemma combine_seq_nth (I : list Z) (s : nat) :
  combine I (seq s (length I))
  = map (fun j => (nth (j - s) I 0, j)) (seq s (length I)).
Proof.
  revert s. induction I as [|i I IH]; intros s; [reflexivity|].
  cbn [length seq combine map]. rewrite Nat.sub_diag. cbn [nth]. f_equal.
  rewrite IH. apply map_ext_in. intros j Hj. apply in_seq in Hj.
  replace (j - s)%nat with (S (j - S s)) by lia. reflexivity.
Qed.

Lemma precedes_Z (a b : Z) (i j : nat) :
  precedes (a, i) (b, j) = (a <? b) || ((a =? b) && (i <? j)%nat).
Proof.
  unfold precedes. cbn [fst snd _sort_lt_comparator SortKey_Z].
  destruct (Z.ltb_spec a b), (Z.ltb_spec b a), (Z.eqb_spec a b);
    cbn [negb orb andb]; try reflexivity; lia.
Qed.

Lemma rank_in_order (I : list Z) (x : Z) (k : nat) (js : list nat) :
  length (filter (fun e' => precedes e' (x, k))
                 (map (fun j => (nth (j - 0) I 0, j)) js))
  = length (filter (fun j => (nth j I 0 <? x)
                             || ((nth j I 0 =? x) && (j <? k)%nat)) js).
Proof.
  induction js as [|j js IH]; [reflexivity|].
  cbn [map filter]. rewrite precedes_Z, Nat.sub_0_r.
  destruct ((nth j I 0 <? x) || ((nth j I 0 =? x) && (j <? k)%nat));
    cbn [length]; rewrite IH; reflexivity.
Qed.

(** [values_ind]: value [k] goes to slot [slot_of I k]. *)
Lemma slots_formula (I : list Z) (k : nat) :
  (k < length I)%nat -> nth_error (slots I) k = Some (slot_of I k).
Proof.
  intros Hk.
  set (l := combine I (seq 0 (length I))).
  set (e := (nth k I 0, k)).
  assert (Hin : In e l).
  { unfold l. rewrite combine_seq_nth. apply in_map_iff. exists k.
    rewrite Nat.sub_0_r. split; [reflexivity|]. apply in_seq. lia. }
  pose proof (sorted_pairs_perm I) as Hperm. fold l in Hperm.
  assert (Hin' : In e (sorted_pairs I))
    by (eapply Permutation_in; [symmetry; exact Hperm|exact Hin]).
  destruct (In_nth_error _ _ Hin') as [r Hr].
  pose proof (slots_at_sorted I r e Hr) as Hslot. cbn [fst snd e] in Hslot.
  rewrite Hslot. unfold slot_of.
  f_equal. f_equal. f_equal.
  rewrite (position_count (sorted_pairs I)
             (isort_sorted l (combine_seq_increasing I 0 (length I))) r e Hr).
  rewrite (filter_length_perm _ _ _ Hperm).
  unfold l. rewrite combine_seq_nth. apply rank_in_order.
Qed.

Lemma at_or_before_count (c : list Z) (t : Z) :
  at_or_before c t = Z.of_nat (length (filter (fun e => e <=? t) c)).
Proof.
  unfold at_or_before. induction c as [|o c IH]; [reflexivity|].
  cbn [map filter]. change (Arr.sum (?a :: ?l)) with (a + Arr.sum l).
  rewrite IH. destruct (o <=? t); cbn [length]; lia.
Qed.

(** [arr_ind]: element [t] of the input goes to slot [home_of I t]. *)
Lemma free_formula (n : nat) (idxs : list Z) (n_values : Z) :
  let I := positions (Z.of_nat n) idxs n_values in
  map Z.of_nat (free (slots I) (n + length I))
  = map (home_of I) (iota n).
Proof.
  intros I. unfold I. rewrite <- free_offsets. fold I.
  apply map_ext. intros t. unfold home_of. f_equal.
  rewrite at_or_before_count. f_equal.
  apply filter_length_perm.
  pose proof (sorted_pairs_perm I) as Hperm.
  apply (Permutation_map fst) in Hperm.
  rewrite map_fst_combine_seq in Hperm. exact Hperm.
Qed.

(** *** Scatters and gathers along an axis *)

Section AlongAxis.

Context {T : Type}.

Lemma scatter_axis_elsewhere (d : Z) (ax : nat) (vals : array T)
  (l : list (nat * Z)) (f : list Z -> T) (j : list Z) :
  (forall kv, In kv l -> coord j ax <> norm_index d (snd kv)) ->
  fold_left (fun f kv => fun j =>
               if coord j ax =? norm_index d (snd kv)
               then at_ vals (with_coord j ax (Z.of_nat (fst kv)))
               else f j) l f j
  = f j.
Proof.
  revert f. induction l as [|[k i] l IH]; intros f Hj; [reflexivity|].
  cbn [fold_left]. rewrite IH by (intros kv Hin; apply Hj; right; exact Hin).
  cbn [fst snd].
  destruct (Z.eqb_spec (coord j ax) (norm_index d i)) as [He|_];
    [|reflexivity].
  exfalso. exact (Hj (k, i) (or_introl eq_refl) He).
Qed.

Lemma scatter_axis_lookup (d : Z) (ax : nat) (vals : array T)
  (ind : list Z) (s k : nat) (f : list Z -> T) (j : list Z) :
  nth_error ind k = Some (coord j ax) -> 0 <= coord j ax ->
  (forall k' i', (k < k')%nat -> nth_error ind k' = Some i' ->
                 coord j ax <> norm_index d i') ->
  fold_left (fun f kv => fun j =>
               if coord j ax =? norm_index d (snd kv)
               then at_ vals (with_coord j ax (Z.of_nat (fst kv)))
               else f j)
            (combine (seq s (length ind)) ind) f j
  = at_ vals (with_coord j ax (Z.of_nat (s + k))).
Proof.
  revert s k f. induction ind as [|i ind IH]; intros s k f Hk Hpos Hlater.
  - destruct k; discriminate.
  - cbn [length seq combine fold_left fst snd].
    destruct k as [|k].
    + cbn [nth_error] in Hk. injection Hk as Hi.
      rewrite scatter_axis_elsewhere.
      * rewrite Hi. unfold norm_index at 1.
        destruct (Z.ltb_spec (coord j ax) 0); [lia|].
        rewrite Z.eqb_refl, Nat.add_0_r. reflexivity.
      * intros [k' i'] Hin. cbn [snd].
        apply in_combine_r in Hin. destruct (In_nth_error _ _ Hin) as [p Hp].
        apply (Hlater (S p) i'); [lia|exact Hp].
    + replace (s + S k)%nat with (S s + k)%nat by lia.
      apply IH; [exact Hk|exact Hpos|].
      intros k' i' Hlt Hk'. apply (Hlater (S k') i'); [lia|exact Hk'].
Qed.

(** A scatter along an axis leaves the slices no index names. *)
Lemma at_set_axis_elsewhere (x : array T) (ax : nat) (ind : list Z)
  (vals : array T) (j : list Z) :
  Forall (fun i => 0 <= i) ind -> ~ In (coord j ax) ind ->
  at_ (at_set_axis x ax ind vals) j = at_ x j.
Proof.
  intros Hpos Hj. unfold at_set_axis. cbn [at_].
  apply scatter_axis_elsewhere. intros [k i] Hin Heq. cbn [snd] in Heq.
  apply in_combine_r in Hin. rewrite Forall_forall in Hpos.
  specialize (Hpos i Hin). unfold norm_index in Heq.
  destruct (Z.ltb_spec i 0); [lia|]. apply Hj. rewrite Heq. exact Hin.
Qed.

(** A scatter along an axis through distinct non-negative indices writes
    slice [k] of the values at index [k]. *)
Lemma at_set_axis_lookup (x : array T) (ax : nat) (ind : list Z)
  (vals : array T) (k : nat) (j : list Z) :
  Forall (fun i => 0 <= i) ind -> NoDup ind ->
  nth_error ind k = Some (coord j ax) ->
  at_ (at_set_axis x ax ind vals) j
  = at_ vals (with_coord j ax (Z.of_nat k)).
Proof.
  intros Hpos Hnd Hk. unfold at_set_axis. cbn [at_].
  rewrite Forall_forall in Hpos.
  rewrite (scatter_axis_lookup _ ax vals ind 0 k); [reflexivity|exact Hk| |].
  - apply Hpos. eapply nth_error_In. exact Hk.
  - intros k' i' Hlt Hk' Heq.
    pose proof (Hpos i' (nth_error_In _ _ Hk')) as Hi'.
    unfold norm_index in Heq. destruct (Z.ltb_spec i' 0); [lia|].
    rewrite Heq in Hk.
    assert (Hkk : k = k').
    { apply (proj1 (NoDup_nth_error ind) Hnd).
      - apply nth_error_Some. congruence.
      - congruence. }
    lia.
Qed.

Lemma canonicalize_axis_lt (k : Z) (nd ax : nat) :
  Repeat._canonicalize_axis k nd = Ok ax -> (ax < nd)%nat.
Proof.
  unfold Repeat._canonicalize_axis.
  destruct (Z.leb_spec (- Z.of_nat nd) k); [|discriminate].
  destruct (Z.ltb_spec k (Z.of_nat nd)); [|discriminate].
  cbn [andb]. intros Heq. injection Heq as <-.
  destruct (Z.ltb_spec k 0); lia.
Qed.

Lemma set_nth_dim (shp : list Z) (ax : nat) :
  set_nth shp ax (nth ax shp 0) = shp.
Proof. apply set_nth_same. Qed.

Lemma nth_map_of_nat (l : list nat) (t p : nat) :
  nth_error l t = Some p -> nth t (map Z.of_nat l) 0 = Z.of_nat p.
Proof.
  intros Hp. apply nth_error_nth. rewrite nth_error_map, Hp. reflexivity.
Qed.

End AlongAxis.

Lemma NoDup_map_of_nat (l : list nat) : NoDup l -> NoDup (map Z.of_nat l).
Proof.
  induction 1 as [|x l Hx _ IH]; cbn [map]; constructor; [|exact IH].
  intros Hin. apply in_map_iff in Hin. destruct Hin as [y [Hy Hin]].
  apply Nat2Z.inj in Hy. subst y. exact (Hx Hin).
Qed.

(** *** [insert] along an axis *)

(** The array [insert] and [delete] work on: the input, flattened when no
    axis is given. *)
Definition working_array {T : Type} (a : array T) (axis : option Z)
  : array T :=
  match axis with
  | None => Repeat.ravel a
  | Some _ => a
  end.

Definition axis_number (axis : option Z) : Z :=
  match axis with
  | None => 0
  | Some k => k
  end.

Lemma insert_flattened {T : Type} (zero : T) (arr : array T)
  (obj : index_like) (values : array T) :
  insert zero arr obj values None
  = insert zero (Repeat.ravel arr) obj values (Some 0).
Proof. reflexivity. Qed.

Lemma delete_flattened {T : Type} (arr : array T) (obj : index_like)
  (assume_unique_indices : bool) :
  delete arr obj None assume_unique_indices
  = delete (Repeat.ravel arr) obj (Some 0) assume_unique_indices.
Proof. reflexivity. Qed.

Section InsertAlong.

Context {T : Type}.
Variable zero : T.
Variables (a : array T) (k : Z) (ax n : nat) (idxs : list Z).
Variables (values vb : array T).

Let values_arr := with_ndmin values (ndim a).
Let nv := dim values_arr ax.
Let I := positions (Z.of_nat n) idxs nv.
Let N := (n + length I)%nat.

Hypothesis Haxis : Repeat._canonicalize_axis k (ndim a) = Ok ax.
Hypothesis Hdim : dim a ax = Z.of_nat n.
Hypothesis Hnv : 0 <= nv.
Hypothesis Hcompat : compatible idxs nv.
Hypothesis Hbroadcast :
  broadcast_to values_arr (set_nth (shape a) ax (len I)) = Ok vb.

(** The array [insert] builds. *)
Definition inserted : array T :=
  at_set_axis
    (at_set_axis (full (set_nth (shape a) ax (Z.of_nat n + len I)) zero)
                 ax (slots I) vb)
    ax (map Z.of_nat (free (slots I) N)) a.

Lemma insert_ints :
  insert zero a (obj_ints idxs) values (Some k) = Ok inserted.
Proof using Haxis Hdim Hnv Hcompat Hbroadcast.
  unfold insert. rewrite Haxis. cbn [bind].
  fold values_arr. fold nv. rewrite Hdim.
  rewrite (plan_insert_ints (Z.of_nat n) idxs nv Hnv Hcompat).
  cbn [bind n_insert values_ind arr_ind]. fold I.
  rewrite set_nth_set_nth.
  assert (Hl : len (slots I) = len I)
    by (unfold len; rewrite slots_length; reflexivity).
  rewrite Hl, Hbroadcast. cbn [bind].
  replace (Z.to_nat (Z.of_nat n + len I)) with N by (unfold N, len; lia).
  rewrite Nat2Z.id.
  unfold I, N. rewrite arr_ind_free. reflexivity.
Qed.

Lemma inserted_shape :
  shape inserted = set_nth (shape a) ax (Z.of_nat n + len I).
Proof using Type. reflexivity. Qed.

Lemma free_positions :
  Forall (fun i => 0 <= i) (map Z.of_nat (free (slots I) N)) /\
  NoDup (map Z.of_nat (free (slots I) N)).
Proof using Type.
  split.
  - rewrite Forall_map. apply Forall_forall. intros; lia.
  - apply NoDup_map_of_nat. apply free_NoDup.
Qed.

(** Element [t] of the input is at the [t]-th free slot. *)
Lemma inserted_free (idx : list Z) (t p : nat) :
  (ax < length idx)%nat ->
  nth_error (free (slots I) N) t = Some p ->
  at_ inserted (with_coord idx ax (Z.of_nat p))
  = at_ a (with_coord idx ax (Z.of_nat t)).
Proof using Type.
  intros Hax Hp. unfold inserted.
  destruct free_positions as [Hpos Hnd].
  rewrite (at_set_axis_lookup _ ax _ a t); [| exact Hpos | exact Hnd |].
  - rewrite with_coord_twice. reflexivity.
  - rewrite coord_with_coord by exact Hax.
    rewrite nth_error_map, Hp. reflexivity.
Qed.

(** Slice [k] of the values is at slot [slot_of I k]. *)
Lemma inserted_slot (idx : list Z) (j : nat) :
  (ax < length idx)%nat -> (j < length I)%nat ->
  at_ inserted (with_coord idx ax (slot_of I j))
  = at_ vb (with_coord idx ax (Z.of_nat j)).
Proof using Type.
  intros Hax Hj. unfold inserted.
  destruct free_positions as [Hpos Hnd].
  pose proof (slots_formula I j Hj) as Hslot.
  pose proof (slots_in_N n idxs nv) as Hr. fold I N in Hr.
  rewrite at_set_axis_elsewhere.
  - rewrite (at_set_axis_lookup _ ax (slots I) vb j).
    + rewrite with_coord_twice. reflexivity.
    + eapply Forall_impl; [|exact Hr]. cbn beta. lia.
    + apply slots_NoDup.
    + rewrite coord_with_coord by exact Hax. exact Hslot.
  - exact Hpos.
  - rewrite coord_with_coord by exact Hax. intros Hin.
    apply in_map_iff in Hin. destruct Hin as [p [Hp Hin]].
    apply (free_not_taken (slots I) N p Hin).
    rewrite Hp. eapply nth_error_In. exact Hslot.
Qed.

End InsertAlong.

(** *** [delete] of the slots of the values *)

Section DeleteAlong.

Context {T : Type}.
Variables (o a : array T) (k : Z) (ax n : nat) (idxs : list Z) (nv : Z).

Let I := positions (Z.of_nat n) idxs nv.
Let N := (n + length I)%nat.
Let F := map Z.of_nat (free (slots I) N).

Hypothesis Haxis : Repeat._canonicalize_axis k (ndim a) = Ok ax.
Hypothesis Hdim : dim a ax = Z.of_nat n.
Hypothesis o_shape : shape o = set_nth (shape a) ax (Z.of_nat N).
Hypothesis o_free : forall idx t p,
    length idx = ndim a ->
    nth_error (free (slots I) N) t = Some p ->
    at_ o (with_coord idx ax (Z.of_nat p))
    = at_ a (with_coord idx ax (Z.of_nat t)).

Lemma o_ndim : ndim o = ndim a.
Proof using o_shape.
  unfold ndim. rewrite o_shape. apply set_nth_length.
Qed.

Lemma o_dim : dim o ax = Z.of_nat N.
Proof using o_shape Haxis.
  unfold dim. rewrite o_shape. apply nth_set_nth_eq.
  apply (canonicalize_axis_lt k). exact Haxis.
Qed.

Lemma F_length : len F = Z.of_nat n.
Proof using Type.
  unfold F, len. rewrite length_map. unfold I, N. rewrite free_count.
  reflexivity.
Qed.

(** An array that reads [o] at the free slots is the input. *)
Lemma free_slices (r : array T) :
  shape r = set_nth (shape o) ax (len F) ->
  (forall idx t p, length idx = ndim a ->
                   coord idx ax = Z.of_nat t ->
                   nth_error (free (slots I) N) t = Some p ->
                   at_ r idx = at_ o (with_coord idx ax (Z.of_nat p))) ->
  array_eq r a.
Proof using Haxis Hdim o_shape o_free.
  intros Hshape Hread.
  pose proof (canonicalize_axis_lt k _ _ Haxis) as Hax.
  assert (Hs : shape r = shape a).
  { rewrite Hshape, o_shape, set_nth_set_nth, F_length, <- Hdim.
    apply set_nth_dim. }
  split; [exact Hs|].
  intros idx Hb. rewrite Hs in Hb.
  pose proof (in_bounds_length _ _ Hb) as Hlen.
  pose proof (in_bounds_coord _ _ ax Hb Hax) as Hc.
  fold (dim a ax) in Hc. rewrite Hdim in Hc.
  set (t := Z.to_nat (coord idx ax)).
  assert (Ht : (t < length (free (slots I) N))%nat).
  { unfold I, N. rewrite free_count. unfold t. lia. }
  destruct (nth_error (free (slots I) N) t) as [p|] eqn:Hp.
  2:{ apply nth_error_None in Hp. lia. }
  rewrite (Hread idx t p Hlen ltac:(unfold t; lia) Hp).
  rewrite (o_free idx t p Hlen Hp).
  replace (Z.of_nat t) with (coord idx ax) by (unfold t; lia).
  rewrite with_coord_same. reflexivity.
Qed.

Lemma slots_checked :
  forallb (fun i => (- len (repeat true (Z.to_nat (dim o ax))) <=? i)
                    && (i <? len (repeat true (Z.to_nat (dim o ax)))))
          (slots I) = true.
Proof using o_shape Haxis.
  pose proof (slots_in_N n idxs nv) as Hr. fold I N in Hr.
  apply forallb_forall. intros w Hw. rewrite Forall_forall in Hr.
  specialize (Hr w Hw). unfold len. rewrite repeat_length, o_dim, Nat2Z.id.
  apply andb_true_iff. split; [apply Z.leb_le|apply Z.ltb_lt]; lia.
Qed.

(** Case 3b: the static mask. *)
Lemma delete_slots_mask :
  exists r, delete o (obj_ints (slots I)) (Some k) false = Ok r /\
            array_eq r a.
Proof using Haxis Hdim o_shape o_free.
  pose proof (canonicalize_axis_lt k _ _ Haxis) as Hax.
  pose proof (slots_in_N n idxs nv) as Hr. fold I N in Hr.
  pose proof (count_N n idxs nv) as Hcount. fold I N in Hcount.
  unfold delete. rewrite o_ndim, Haxis. cbn [bind].
  unfold np_clear. rewrite slots_checked. cbn [bind].
  rewrite o_dim, Nat2Z.id. fold (arr_mask (slots I) N).
  eexists. split; [reflexivity|].
  unfold compress_axis.
  rewrite (found_free (slots I) N n (slots_NoDup I) Hr Hcount).
  fold F. apply free_slices.
  - reflexivity.
  - intros idx t p Hlen Hc Hp. unfold take. cbn [at_].
    rewrite Hc, Nat2Z.id. unfold F.
    rewrite (nth_map_of_nat _ t p Hp). reflexivity.
Qed.

(** Case 3a: the cumulative-count offsets. *)
Lemma delete_slots_unique :
  exists r, delete o (obj_ints (slots I)) (Some k) true = Ok r /\
            array_eq r a.
Proof using Haxis Hdim o_shape o_free.
  pose proof (canonicalize_axis_lt k _ _ Haxis) as Hax.
  pose proof (free_range (slots I) N n (count_N n idxs nv)) as Hfr.
  unfold delete. rewrite o_ndim, Haxis. cbn [bind].
  rewrite o_dim.
  pose proof (unique_offsets n idxs nv) as Hoff. cbv zeta in Hoff.
  fold I N in Hoff. rewrite Hoff. fold F.
  eexists. split; [reflexivity|].
  apply free_slices.
  - reflexivity.
  - intros idx t p Hlen Hc Hp. unfold gather_axis. cbn [at_].
    rewrite Hc, Nat2Z.id. unfold F.
    rewrite (nth_map_of_nat _ t p Hp), o_dim.
    rewrite Forall_forall in Hfr.
    pose proof (Hfr p (nth_error_In _ _ Hp)) as Hpr. cbn beta in Hpr.
    unfold norm_index. destruct (Z.ltb_spec (Z.of_nat p) 0); [lia|].
    f_equal. f_equal. lia.
Qed.

End DeleteAlong.

(** *** The claims *)

Lemma slots_list (I : list Z) :
  slots I = map (slot_of I) (seq 0 (length I)).
Proof.
  apply nth_error_ext_eq. intros j.
  destruct (Nat.lt_ge_cases j (length I)) as [Hlt|Hge].
  - rewrite (slots_formula I j Hlt).
    rewrite nth_error_map, nth_error_seq.
    apply Nat.ltb_lt in Hlt. rewrite Hlt. reflexivity.
  - rewrite (proj2 (nth_error_None _ _))
      by (rewrite slots_length; exact Hge).
    symmetry. apply nth_error_None.
    rewrite length_map, length_seq. exact Hge.
Qed.

Lemma free_home (n : nat) (idxs : list Z) (n_values : Z) (t p : nat) :
  let I := positions (Z.of_nat n) idxs n_values in
  (t < n)%nat ->
  nth_error (free (slots I) (n + length I)) t = Some p <->
  Z.of_nat p = home_of I (Z.of_nat t).
Proof.
  intros I Ht.
  pose proof (free_formula n idxs n_values) as Hf. cbv zeta in Hf. fold I in Hf.
  assert (Hnth : nth_error (map Z.of_nat (free (slots I) (n + length I))) t
                 = Some (home_of I (Z.of_nat t))).
  { rewrite Hf. unfold iota. rewrite !nth_error_map, nth_error_seq.
    apply Nat.ltb_lt in Ht. rewrite Ht. reflexivity. }
  rewrite nth_error_map in Hnth.
  destruct (nth_error (free (slots I) (n + length I)) t) as [q|];
    cbn [option_map] in Hnth; [|discriminate].
  injection Hnth as Hq. split.
  - intros Heq. injection Heq as <-. exact Hq.
  - intros Hp. f_equal. lia.
Qed.

Section Along.

Context {T : Type}.
Variable zero : T.
Variables (a : array T) (k : Z) (ax n : nat) (idxs : list Z).
Variables (values vb : array T).

Let values_arr := with_ndmin values (ndim a).
Let E := positions (Z.of_nat n) idxs (dim values_arr ax).

Hypothesis Haxis : Repeat._canonicalize_axis k (ndim a) = Ok ax.
Hypothesis Hdim : dim a ax = Z.of_nat n.
Hypothesis Hnv : 0 <= dim values_arr ax.
Hypothesis Hcompat : compatible idxs (dim values_arr ax).
Hypothesis Hbroadcast :
  broadcast_to values_arr (set_nth (shape a) ax (len E)) = Ok vb.

Lemma insert_along :
  exists out,
    insert zero a (obj_ints idxs) values (Some k) = Ok out /\
    shape out = set_nth (shape a) ax (Z.of_nat n + len E) /\
    (forall j, (j < length E)%nat ->
               0 <= slot_of E j < Z.of_nat n + len E) /\
    (forall t, (t < n)%nat ->
               0 <= home_of E (Z.of_nat t) < Z.of_nat n + len E) /\
    (forall idx j, (ax < length idx)%nat -> (j < length E)%nat ->
       at_ out (with_coord idx ax (slot_of E j))
       = at_ vb (with_coord idx ax (Z.of_nat j))) /\
    (forall idx t, (ax < length idx)%nat -> (t < n)%nat ->
       at_ out (with_coord idx ax (home_of E (Z.of_nat t)))
       = at_ a (with_coord idx ax (Z.of_nat t))).
Proof using Haxis Hdim Hnv Hcompat Hbroadcast.
  exists (inserted zero a ax n idxs values vb).
  pose proof (slots_in_N n idxs (dim values_arr ax)) as Hr. fold E in Hr.
  pose proof (count_N n idxs (dim values_arr ax)) as Hcount. fold E in Hcount.
  assert (Hhome : forall t, (t < n)%nat ->
            exists p, nth_error (free (slots E) (n + length E)) t = Some p /\
                      Z.of_nat p = home_of E (Z.of_nat t) /\
                      (p < n + length E)%nat).
  { intros t Ht.
    destruct (nth_error (free (slots E) (n + length E)) t) as [p|] eqn:Hp.
    2:{ apply nth_error_None in Hp. unfold E in Hp.
        rewrite free_count in Hp. lia. }
    exists p. split; [reflexivity|]. split.
    - apply (free_home n idxs (dim values_arr ax) t p Ht). exact Hp.
    - pose proof (free_range (slots E) (n + length E) n Hcount) as Hfr.
      rewrite Forall_forall in Hfr.
      apply (Hfr p). eapply nth_error_In. exact Hp. }
  split; [apply (insert_ints zero a k ax n idxs values vb); assumption|].
  split; [reflexivity|].
  split; [|split; [|split]].
  - intros j Hj. rewrite Forall_forall in Hr.
    pose proof (Hr (slot_of E j)
                  (nth_error_In _ _ (slots_formula E j Hj))) as Hs.
    unfold len. lia.
  - intros t Ht. destruct (Hhome t Ht) as [p [_ [Hp Hlt]]].
    unfold len. lia.
  - intros idx j Hax Hj. apply inserted_slot; assumption.
  - intros idx t Hax Ht. destruct (Hhome t Ht) as [p [Hp [Heq _]]].
    rewrite <- Heq. apply inserted_free; assumption.
Qed.

Lemma roundtrip_along (assume_unique_indices : bool) :
  exists out r,
    insert zero a (obj_ints idxs) values (Some k) = Ok out /\
    shape out = set_nth (shape a) ax (Z.of_nat n + len E) /\
    (forall idx t p, (ax < length idx)%nat ->
        nth_error (free (slots E) (n + length E)) t = Some p ->
        at_ out (with_coord idx ax (Z.of_nat p))
        = at_ a (with_coord idx ax (Z.of_nat t))) /\
    delete out (obj_ints (map (slot_of E) (seq 0 (length E)))) (Some k)
           assume_unique_indices = Ok r /\
    array_eq r a.
Proof using Haxis Hdim Hnv Hcompat Hbroadcast.
  pose proof (canonicalize_axis_lt k _ _ Haxis) as Hax.
  set (out := inserted zero a ax n idxs values vb).
  assert (Hshape : shape out
                   = set_nth (shape a) ax (Z.of_nat (n + length E)))
    by (unfold out; rewrite inserted_shape; unfold len, E, values_arr;
        f_equal; lia).
  assert (Hfree : forall idx t p,
             length idx = ndim a ->
             nth_error (free (slots E) (n + length E)) t = Some p ->
             at_ out (with_coord idx ax (Z.of_nat p))
             = at_ a (with_coord idx ax (Z.of_nat t))).
  { intros idx t p Hlen Hp. apply inserted_free; [lia|exact Hp]. }
  rewrite <- slots_list.
  assert (Hdel : exists r,
             delete out (obj_ints (slots E)) (Some k) assume_unique_indices
             = Ok r /\ array_eq r a).
  { destruct assume_unique_indices.
    - apply (delete_slots_unique out a k ax n idxs (dim values_arr ax));
        assumption.
    - apply (delete_slots_mask out a k ax n idxs (dim values_arr ax));
        assumption. }
  destruct Hdel as [r [Hr Heq]].
  exists out, r.
  split; [apply (insert_ints zero a k ax n idxs values vb); assumption|].
  split; [reflexivity|].
  split; [intros idx t p Hi Hp; apply inserted_free; assumption|].
  split; assumption.
Qed.

End Along.

(** Flattening a one-dimensional array changes nothing. *)
Lemma ravel_flat {T : Type} (o : array T) (N : Z) (idx : list Z) (p : Z) :
  shape o = [N] -> length idx = 1%nat ->
  shape (Repeat.ravel o) = [N] /\
  at_ (Repeat.ravel o) (with_coord idx 0 p) = at_ o (with_coord idx 0 p).
Proof.
  intros Hs Hlen. unfold Repeat.ravel. cbn [shape at_]. rewrite Hs.
  cbn [fold_right Repeat.unravel]. rewrite Z.mul_1_r. split; [reflexivity|].
  destruct idx as [|i [|? ?]]; try discriminate.
  cbn. rewrite Z.div_1_r. reflexivity.
Qed.

Lemma ravel_ndim {T : Type} (a : array T) : ndim (Repeat.ravel a) = 1%nat.
Proof. reflexivity. Qed.

Lemma array_eq_trans {T : Type} (x y z : array T) :
  array_eq x y -> array_eq y z -> array_eq x z.
Proof.
  intros [Hs1 He1] [Hs2 He2]. split; [congruence|].
  intros idx Hb. rewrite He1 by exact Hb. apply He2. rewrite <- Hs1.
  exact Hb.
Qed.

(** C9 (amended): [insert] along a valid axis (the flattened array when no
    axis is given), with integer positions [idxs] and values that broadcast
    against them, returns an array of the enlarged shape.  Every position is
    first shifted by the length [n] of the axis when negative and then
    clipped into [0, n]: with [E] these effective positions, slice [j] of
    the values is at index [E[j]] plus the number of values inserted before
    it, and slice [t] of the input is at index [t] plus the number of
    effective positions at or before [t]; both lie within the enlarged
    axis. *)
Theorem insert_positions_in_bounds {T : Type} (zero : T) (a : array T)
  (idxs : list Z) (values : array T) (axis : option Z) (ax n : nat)
  (vb : array T) :
  let a' := working_array a axis in
  let values_arr := with_ndmin values (ndim a') in
  let E := positions (Z.of_nat n) idxs (dim values_arr ax) in
  Repeat._canonicalize_axis (axis_number axis) (ndim a') = Ok ax ->
  dim a' ax = Z.of_nat n ->
  0 <= dim values_arr ax ->
  len idxs = 1 \/ len idxs = dim values_arr ax \/ dim values_arr ax = 1 ->
  broadcast_to values_arr (set_nth (shape a') ax (len E)) = Ok vb ->
  exists out,
    insert zero a (obj_ints idxs) values axis = Ok out /\
    shape out = set_nth (shape a') ax (Z.of_nat n + len E) /\
    (forall j, (j < length E)%nat ->
               0 <= slot_of E j < Z.of_nat n + len E) /\
    (forall t, (t < n)%nat ->
               0 <= home_of E (Z.of_nat t) < Z.of_nat n + len E) /\
    (forall idx j, (ax < length idx)%nat -> (j < length E)%nat ->
       at_ out (with_coord idx ax (slot_of E j))
       = at_ vb (with_coord idx ax (Z.of_nat j))) /\
    (forall idx t, (ax < length idx)%nat -> (t < n)%nat ->
       at_ out (with_coord idx ax (home_of E (Z.of_nat t)))
       = at_ a' (with_coord idx ax (Z.of_nat t))).
Proof.
  intros a' values_arr E Haxis Hdim Hnv Hcompat Hbroadcast.
  destruct axis as [k|]; cbn [working_array axis_number] in *.
  - apply (insert_along zero a k ax n idxs values vb); assumption.
  - rewrite insert_flattened.
    apply (insert_along zero (Repeat.ravel a) 0 ax n idxs values vb);
      assumption.
Qed.

(** C8 (amended): for every array [a], valid axis, integer insertion
    indices and values that broadcast against them, [insert] returns an
    array, and deleting from it along the same axis the slots that the
    inserted values occupy, through the static mask or with
    [assume_unique_indices], returns an array equal to the one [insert]
    worked on: [a] itself when an axis is given, the flattened [a] when none
    is. *)
Theorem delete_insert_roundtrip {T : Type} (zero : T) (a : array T)
  (idxs : list Z) (values : array T) (axis : option Z) (ax n : nat)
  (vb : array T) (assume_unique_indices : bool) :
  let a' := working_array a axis in
  let values_arr := with_ndmin values (ndim a') in
  let E := positions (Z.of_nat n) idxs (dim values_arr ax) in
  Repeat._canonicalize_axis (axis_number axis) (ndim a') = Ok ax ->
  dim a' ax = Z.of_nat n ->
  0 <= dim values_arr ax ->
  len idxs = 1 \/ len idxs = dim values_arr ax \/ dim values_arr ax = 1 ->
  broadcast_to values_arr (set_nth (shape a') ax (len E)) = Ok vb ->
  exists out r,
    insert zero a (obj_ints idxs) values axis = Ok out /\
    delete out (obj_ints (map (slot_of E) (seq 0 (length E)))) axis
           assume_unique_indices = Ok r /\
    array_eq r a'.
Proof.
  intros a' values_arr E Haxis Hdim Hnv Hcompat Hbroadcast.
  destruct axis as [k|]; cbn [working_array axis_number] in *.
  - destruct (roundtrip_along zero a k ax n idxs values vb Haxis Hdim Hnv
                Hcompat Hbroadcast assume_unique_indices)
      as [out [r [Hins [_ [_ [Hdel Heq]]]]]].
    exists out, r. auto.
  - destruct (roundtrip_along zero (Repeat.ravel a) 0 ax n idxs values vb
                Haxis Hdim Hnv Hcompat Hbroadcast assume_unique_indices)
      as [out [r [Hins [Hshape [Hfree _]]]]].
    clear r.
    assert (Hax : ax = 0%nat).
    { pose proof (canonicalize_axis_lt 0 _ _ Haxis) as Hlt.
      cbn in Hlt. lia. }
    subst ax.
    assert (Hout : shape out = [Z.of_nat (n + length E)]).
    { rewrite Hshape. cbn [Repeat.ravel shape set_nth].
      unfold len, E, values_arr, a'. cbn [working_array]. f_equal. lia. }
    assert (Hdel : exists r,
               delete (Repeat.ravel out)
                      (obj_ints (slots E)) (Some 0) assume_unique_indices
               = Ok r /\ array_eq r (Repeat.ravel a)).
    { assert (Ho_shape : shape (Repeat.ravel out)
                         = set_nth (shape (Repeat.ravel a)) 0
                                   (Z.of_nat (n + length E))).
      { exact (proj1 (ravel_flat out _ [0] 0 Hout eq_refl)). }
      assert (Ho_free : forall idx t p,
                 length idx = ndim (Repeat.ravel a) ->
                 nth_error (free (slots E) (n + length E)) t = Some p ->
                 at_ (Repeat.ravel out) (with_coord idx 0 (Z.of_nat p))
                 = at_ (Repeat.ravel a) (with_coord idx 0 (Z.of_nat t))).
      { intros idx t p Hlen Hp. rewrite ravel_ndim in Hlen.
        rewrite (proj2 (ravel_flat out _ idx (Z.of_nat p) Hout Hlen)).
        apply Hfree; [lia|exact Hp]. }
      destruct assume_unique_indices.
      - apply (delete_slots_unique (Repeat.ravel out) (Repeat.ravel a) 0 0%nat
                 n idxs (dim values_arr 0)); assumption.
      - apply (delete_slots_mask (Repeat.ravel out) (Repeat.ravel a) 0 0%nat
                 n idxs (dim values_arr 0)); assumption. }
    destruct Hdel as [r [Hr Heq]].
    exists out, r. rewrite insert_flattened, delete_flattened.
    rewrite <- slots_list. auto.
Qed.

(** *** Instances on arrays of integers *)

(** The two-dimensional array of the rows [[1, 2, 3]] and [[4, 5, 6]], and
    the values [[10, 11]] and [[12, 13]]. *)
Definition example_x : array Z :=
  mk_array [2; 3]
    (fun idx => nth (Z.to_nat (coord idx 0 * 3 + coord idx 1))
                    [1; 2; 3; 4; 5; 6] 0).

Definition example_values : array Z :=
  mk_array [2; 2]
    (fun idx => nth (Z.to_nat (coord idx 0 * 2 + coord idx 1))
                    [10; 11; 12; 13] 0).

Lemma insert_positions_in_bounds_witness :
  exists out,
    insert 0 example_x (obj_ints [1; -100]) example_values (Some 1) = Ok out /\
    shape out = [2; 5] /\
    at_ out [0; 2] = 10 /\ at_ out [1; 0] = 13 /\ at_ out [1; 3] = 5.
Proof.
  edestruct (insert_positions_in_bounds 0 example_x [1; -100] example_values
               (Some 1) 1%nat 3%nat)
    as [out [Hins [Hshape [_ [_ [Hslot Hhome]]]]]].
  - reflexivity.
  - reflexivity.
  - cbn. lia.
  - right. left. reflexivity.
  - reflexivity.
  - exists out. split; [exact Hins|]. split; [exact Hshape|].
    split; [|split].
    + exact (Hslot [0; 0] 0%nat ltac:(cbn; lia) ltac:(cbn; lia)).
    + exact (Hslot [1; 0] 1%nat ltac:(cbn; lia) ltac:(cbn; lia)).
    + exact (Hhome [1; 0] 1%nat ltac:(cbn; lia) ltac:(cbn; lia)).
Defined.

(** C9, as stated, fails when the positions do not broadcast against the
    values: two positions and three values are refused with a ValueError,
    and no array is returned. *)
Lemma insert_positions_not_broadcast :
  insert 0 (of_list 0 [0; 1; 2]) (obj_ints [100; -100])
         (of_list 0 [7; 8; 9]) None
  = Raise ValueError.
Proof. reflexivity. Qed.

Lemma delete_insert_roundtrip_witness :
  exists out r,
    insert 0 example_x (obj_ints [1; 3]) example_values (Some 1) = Ok out /\
    delete out (obj_ints [1; 4]) (Some 1) true = Ok r /\
    array_eq r example_x.
Proof.
  eapply (delete_insert_roundtrip 0 example_x [1; 3] example_values
            (Some 1) 1%nat 3%nat _ true).
  - reflexivity.
  - reflexivity.
  - cbn. lia.
  - right. left. reflexivity.
  - reflexivity.
Defined.

(** C8, as stated, fails for an array that is not one-dimensional: without
    an axis [insert] and [delete] work on the flattened array, and the round
    trip returns the two elements of the one-by-two array [a] as a
    one-dimensional array, which is not [a]. *)
Lemma roundtrip_flattens :
  let a := mk_array [1; 2]
             (fun idx => nth (Z.to_nat (coord idx 1)) [1; 2] 0) in
  let v := mk_array [] (fun _ => 9) in
  exists out r,
    insert 0 a (obj_ints [0]) v None = Ok out /\
    shape out = [3] /\ at_ out [0] = 9 /\
    delete out (obj_ints [0]) None false = Ok r /\
    shape r = [2] /\ ~ array_eq r a.
Proof.
  intros a v. eexists. eexists.
  split; [reflexivity|]. split; [reflexivity|]. split; [reflexivity|].
  split; [reflexivity|]. split; [reflexivity|].
  intros [Hs _]. discriminate Hs.
Qed.


End InsertDeleteFacts.

(** ** [fill_diagonal] *)

Module FillDiagonalFacts.

Import Arr Nd FillDiagonal NdFacts.

(** A scatter through index arrays changes nothing away from the positions
    they name. *)
Lemma at_set_tuple_elsewhere {T : Type} (a : array T) (idx : list (list Z))
  (vals : list T) (j : list Z) :
  (forall k, j <> position idx k) ->
  at_ (at_set_tuple a idx vals) j = at_ a j.
Proof.
  intros Hj. unfold at_set_tuple. cbn [at_].
  generalize (combine (seq 0 (length vals)) vals) (at_ a).
  induction l as [|[k v] l IH]; intros f; simpl; [reflexivity|].
  rewrite IH. destruct (shape_eqb j (position idx k)) eqn:He; [|reflexivity].
  apply shape_eqb_eq in He. exfalso. exact (Hj k He).
Qed.

Lemma position_diag (n : nat) (d : nat) (k : nat) :
  position (repeat (iota n) d) k = repeat (nth k (iota n) 0) d.
Proof.
  unfold position. induction d as [|d IH]; simpl; [reflexivity|].
  f_equal. exact IH.
Qed.

(** C10: [fill_diagonal] raises [NotImplementedError] whenever [inplace] is
    true (its default) or [wrap] is true.  It returns a result only with
    [inplace = False] and [wrap = False], and that result is a separate array
    of the same shape that agrees with the input everywhere off the main
    diagonal; the input, an immutable value, is as it was. *)
Theorem fill_diagonal_needs_explicit_copy {T : Type} (a : array T)
  (val : value_like T) (wrap inplace : bool) :
  (inplace = true \/ wrap = true ->
   fill_diagonal a val wrap inplace = Raise NotImplementedError) /\
  (forall r, fill_diagonal a val wrap inplace = Ok r ->
             inplace = false /\ wrap = false /\
             shape r = shape a /\
             forall j, (forall k, j <> repeat k (ndim a)) ->
                       at_ r j = at_ a j).
Proof.
  split.
  - intros [-> | ->]; unfold fill_diagonal; [reflexivity|].
    destruct inplace; reflexivity.
  - intros r Hr. unfold fill_diagonal in Hr.
    destruct inplace; [discriminate|].
    destruct wrap; [discriminate|].
    split; [reflexivity|]. split; [reflexivity|].
    destruct (ndim a <? 2)%nat; [discriminate|].
    destruct ((2 <? ndim a)%nat
              && negb (forallb (fun n => n =? hd 0 (shape a)) (tl (shape a))));
      [discriminate|].
    unfold diag_indices in Hr.
    set (n := fold_right Z.min (hd 0 (shape a)) (tl (shape a))) in *.
    destruct (n <? 0); [discriminate|].
    destruct (Z.of_nat (ndim a) <? 0); [discriminate|].
    cbn [bind] in Hr. rewrite Nat2Z.id in Hr.
    destruct (match val with
              | val_scalar v => Ok (repeat v (Z.to_nat n))
              | val_array l => _tile_to_size l n
              end) as [vals|e]; [|discriminate].
    cbn [bind] in Hr. inversion Hr; subst r. clear Hr.
    split; [reflexivity|].
    intros j Hj. apply at_set_tuple_elsewhere.
    intros k. rewrite position_diag. apply Hj.
Qed.

Lemma fill_diagonal_needs_explicit_copy_witness :
  let x := mk_array [3; 3] (fun _ => 0) in
  fill_diagonal x (val_array [1; 2; 3]) false true = Raise NotImplementedError /\
  fill_diagonal x (val_array [1; 2; 3]) true false = Raise NotImplementedError /\
  exists r, fill_diagonal x (val_array [1; 2; 3]) false false = Ok r /\
            at_ r [0; 1] = at_ x [0; 1].
Proof.
  intros x. split; [|split].
  - apply (proj1 (fill_diagonal_needs_explicit_copy x (val_array [1; 2; 3])
                    false true)).
    left. reflexivity.
  - apply (proj1 (fill_diagonal_needs_explicit_copy x (val_array [1; 2; 3])
                    true false)).
    right. reflexivity.
  - eexists. split; [reflexivity|].
    apply (proj2 (fill_diagonal_needs_explicit_copy x (val_array [1; 2; 3])
                    false false) _ eq_refl).
    intros k. destruct k; discriminate.
Defined.

End FillDiagonalFacts.

(** ** Padding *)

Module PadFacts.

Import Arr Nd Pad ArrFacts NdFacts.

(** The shape of the padded array and the place of an element of the input
    in it. *)
Definition padded_shape (shp : list Z) (pw : list (Z * Z)) : list Z :=
  map (fun p => fst p + fst (snd p) + snd (snd p)) (combine shp pw).

Definition interior_index (idx : list Z) (pw : list (Z * Z)) : list Z :=
  map (fun p => fst p + fst (snd p)) (combine idx pw).

(** The same after the first [k] axes only. *)
Fixpoint pad_first (k : nat) (shp : list Z) (pw : list (Z * Z)) : list Z :=
  match k, shp, pw with
  | S k', n :: shp', p :: pw' => (n + fst p + snd p) :: pad_first k' shp' pw'
  | _, _, _ => shp
  end.

Fixpoint shift_first (k : nat) (idx : list Z) (pw : list (Z * Z)) : list Z :=
  match k, idx, pw with
  | S k', j :: idx', p :: pw' => (j + fst p) :: shift_first k' idx' pw'
  | _, _, _ => idx
  end.

Definition nonneg_widths (pw : list (Z * Z)) : Prop :=
  Forall (fun p => 0 <= fst p /\ 0 <= snd p) pw.

Lemma pad_first_length (k : nat) (shp : list Z) (pw : list (Z * Z)) :
  length (pad_first k shp pw) = length shp.
Proof.
  revert shp pw. induction k as [|k IH]; intros [|n shp] [|p pw]; simpl;
    auto.
Qed.

Lemma pad_first_all (shp : list Z) (pw : list (Z * Z)) :
  length pw = length shp ->
  pad_first (length shp) shp pw = padded_shape shp pw.
Proof.
  revert pw. induction shp as [|n shp IH]; intros [|p pw] Hlen;
    simpl in *; try discriminate; [reflexivity|].
  unfold padded_shape in *. simpl. f_equal. apply IH. lia.
Qed.

Lemma shift_first_all (idx : list Z) (pw : list (Z * Z)) :
  length pw = length idx ->
  shift_first (length idx) idx pw = interior_index idx pw.
Proof.
  revert pw. induction idx as [|n idx IH]; intros [|p pw] Hlen;
    simpl in *; try discriminate; [reflexivity|].
  unfold interior_index in *. simpl. f_equal. apply IH. lia.
Qed.

Lemma pad_first_nth (k : nat) (shp : list Z) (pw : list (Z * Z)) :
  nth k (pad_first k shp pw) 0 = nth k shp 0.
Proof.
  revert shp pw. induction k as [|k IH]; intros [|n shp] [|p pw]; simpl;
    auto.
Qed.

Lemma shift_first_nth (k : nat) (idx : list Z) (pw : list (Z * Z)) :
  nth k (shift_first k idx pw) 0 = nth k idx 0.
Proof.
  revert idx pw. induction k as [|k IH]; intros [|n idx] [|p pw]; simpl;
    auto.
Qed.

Lemma pad_first_step (k : nat) (shp : list Z) (pw : list (Z * Z)) :
  (k < length shp)%nat -> length pw = length shp ->
  set_nth (pad_first k shp pw) k
          (nth k shp 0 + fst (width_at pw k) + snd (width_at pw k))
  = pad_first (S k) shp pw.
Proof.
  unfold width_at. revert shp pw.
  induction k as [|k IH]; intros [|n shp] [|p pw] Hk Hlen; simpl in *;
    try lia; try reflexivity.
  f_equal. apply IH; lia.
Qed.

Lemma shift_first_step (k : nat) (idx : list Z) (pw : list (Z * Z)) :
  (k < length idx)%nat -> length pw = length idx ->
  with_coord (shift_first k idx pw) k
             (nth k idx 0 + fst (width_at pw k))
  = shift_first (S k) idx pw.
Proof.
  unfold width_at, with_coord. revert idx pw.
  induction k as [|k IH]; intros [|n idx] [|p pw] Hk Hlen; simpl in *;
    try lia; try reflexivity.
  f_equal. apply IH; lia.
Qed.

Lemma pad_first_nonneg (k : nat) (shp : list Z) (pw : list (Z * Z)) :
  Forall (fun n => 0 <= n) shp -> nonneg_widths pw ->
  Forall (fun n => 0 <= n) (pad_first k shp pw).
Proof.
  intros Hs. revert k pw. induction Hs as [|n shp Hn Hs IH];
    intros [|k] [|p pw] Hw; simpl; try constructor; auto.
  - inversion Hw; subst. lia.
  - apply IH. inversion Hw; assumption.
Qed.

Lemma shift_first_in_bounds (k : nat) (shp idx : list Z) (pw : list (Z * Z)) :
  in_bounds shp idx -> nonneg_widths pw ->
  in_bounds (pad_first k shp pw) (shift_first k idx pw).
Proof.
  unfold in_bounds. intros Hb. revert k pw.
  induction Hb as [|n j shp idx Hj Hb IH]; intros [|k] [|p pw] Hw; simpl;
    try constructor; auto.
  - inversion Hw as [|? ? [H1 H2] Hw']; subst. lia.
  - apply IH. inversion Hw; assumption.
Qed.

Lemma width_at_nonneg (pw : list (Z * Z)) (i : nat) :
  nonneg_widths pw -> 0 <= fst (width_at pw i) /\ 0 <= snd (width_at pw i).
Proof.
  intros Hw. unfold width_at.
  destruct (Nat.lt_ge_cases i (length pw)) as [Hi|Hi].
  - unfold nonneg_widths in Hw. rewrite Forall_forall in Hw.
    apply Hw. apply nth_In. exact Hi.
  - rewrite nth_overflow by exact Hi. simpl. lia.
Qed.

Section Loop.

Context {T : Type}.

(** The loops over the axes.  When every per-axis step that returns pads
    its axis by the requested widths, a loop that returns has padded every
    axis and left the input in the middle; a loop whose steps accept every
    axis returns; and a loop with an axis that its steps refuse raises. *)
Variable step : nat -> array T -> result (array T).
Variable accepts : Z -> Z * Z -> Prop.
Variable pw : list (Z * Z).

Hypothesis step_sound :
  forall i y y', (i < ndim y)%nat -> ndim y = length pw ->
                 Forall (fun n => 0 <= n) (shape y) ->
                 step i y = Ok y' ->
                 padded i (fst (width_at pw i)) (snd (width_at pw i)) y y'.

Hypothesis step_returns :
  forall i y, (i < ndim y)%nat -> ndim y = length pw ->
              Forall (fun n => 0 <= n) (shape y) ->
              accepts (dim y i) (width_at pw i) ->
              exists y', step i y = Ok y'.

Hypothesis step_rejects :
  forall i y, (i < ndim y)%nat -> ndim y = length pw ->
              Forall (fun n => 0 <= n) (shape y) ->
              ~ accepts (dim y i) (width_at pw i) ->
              step i y = Raise ValueError.

Hypothesis accepts_dec : forall n w, accepts n w \/ ~ accepts n w.

Variable a : array T.
Hypothesis a_shape : Forall (fun n => 0 <= n) (shape a).
Hypothesis pw_length : length pw = ndim a.
Hypothesis pw_nonneg : nonneg_widths pw.

Definition stage (k : nat) (y : array T) : Prop :=
  shape y = pad_first k (shape a) pw /\
  forall idx, in_bounds (shape a) idx ->
              at_ y (shift_first k idx pw) = at_ a idx.

Lemma stage_dims (k : nat) (y : array T) :
  stage k y ->
  dim y k = dim a k /\ ndim y = ndim a /\ Forall (fun n => 0 <= n) (shape y).
Proof using a_shape pw_nonneg.
  intros [Hshape _]. unfold dim, ndim. rewrite Hshape.
  split; [apply pad_first_nth|]. split; [apply pad_first_length|].
  apply pad_first_nonneg; assumption.
Qed.

Lemma stage_step (k : nat) (y y' : array T) :
  (k < ndim a)%nat -> stage k y -> step k y = Ok y' -> stage (S k) y'.
Proof using step_sound a_shape pw_length pw_nonneg.
  intros Hk Hst Hstep.
  destruct (stage_dims k y Hst) as (Hdim & Hnd & Hnn).
  destruct Hst as [Hshape Hat].
  destruct (step_sound k y y') as [Hs' Hat']; try assumption; try lia.
  split.
  - rewrite Hs', Hshape, Hdim. apply pad_first_step; [exact Hk|].
    exact pw_length.
  - intros idx Hb.
    pose proof (in_bounds_length _ _ Hb) as Hlen.
    rewrite <- (shift_first_step k idx pw) by (unfold ndim in *; lia).
    rewrite <- (shift_first_nth k idx pw).
    fold (coord (shift_first k idx pw) k).
    rewrite Hat'; [apply Hat; exact Hb|].
    rewrite Hshape. apply shift_first_in_bounds; assumption.
Qed.

Lemma stage_all (r : array T) :
  stage (ndim a) r ->
  shape r = padded_shape (shape a) pw /\
  forall idx, in_bounds (shape a) idx ->
              at_ r (interior_index idx pw) = at_ a idx.
Proof using pw_length.
  intros [Hs Hat]. split.
  - rewrite Hs. apply pad_first_all. exact pw_length.
  - intros idx Hb. rewrite <- (Hat idx Hb).
    rewrite <- (in_bounds_length _ _ Hb) at 1.
    rewrite shift_first_all; [reflexivity|].
    rewrite (in_bounds_length _ _ Hb). exact pw_length.
Qed.

Lemma stage_first : stage 0 a.
Proof using Type.
  clear step_sound step_returns step_rejects accepts_dec a_shape pw_length
        pw_nonneg.
  split; [destruct (shape a), pw; reflexivity|].
  intros idx _. destruct idx, pw; reflexivity.
Qed.

Lemma for_axes_sound_from (rem k : nat) (y r : array T) :
  (k + rem = ndim a)%nat -> stage k y ->
  for_axes step (seq k rem) y = Ok r -> stage (ndim a) r.
Proof using step_sound a_shape pw_length pw_nonneg.
  revert k y. induction rem as [|rem IH]; intros k y Hk Hst Hr; simpl in Hr.
  - inversion Hr; subst r. replace (ndim a) with k by lia. exact Hst.
  - destruct (step k y) as [y'|e] eqn:Hstep; [|discriminate].
    cbn [bind] in Hr.
    apply (IH (S k) y'); [lia| |exact Hr].
    apply (stage_step k y y'); [lia|exact Hst|exact Hstep].
Qed.

(** A loop that returns has padded every axis. *)
Lemma for_axes_sound (r : array T) :
  for_axes step (seq 0 (ndim a)) a = Ok r ->
  shape r = padded_shape (shape a) pw /\
  forall idx, in_bounds (shape a) idx ->
              at_ r (interior_index idx pw) = at_ a idx.
Proof using step_sound a_shape pw_length pw_nonneg.
  intros Hr. apply stage_all.
  apply (for_axes_sound_from (ndim a) 0 a r eq_refl stage_first Hr).
Qed.

Lemma for_axes_returns_from (rem k : nat) (y : array T) :
  (k + rem = ndim a)%nat -> stage k y ->
  (forall i, (i < ndim a)%nat -> accepts (dim a i) (width_at pw i)) ->
  exists r, for_axes step (seq k rem) y = Ok r.
Proof using step_sound step_returns a_shape pw_length pw_nonneg.
  revert k y. induction rem as [|rem IH]; intros k y Hk Hst Hacc; simpl.
  - exists y. reflexivity.
  - destruct (stage_dims k y Hst) as (Hdim & Hnd & Hnn).
    destruct (step_returns k y) as [y' Hstep]; try assumption; try lia.
    { rewrite Hdim. apply Hacc. lia. }
    rewrite Hstep. cbn [bind]. apply IH; [lia| |exact Hacc].
    apply (stage_step k y y'); [lia|exact Hst|exact Hstep].
Qed.

(** A loop whose steps accept every axis returns. *)
Lemma for_axes_returns :
  (forall i, (i < ndim a)%nat -> accepts (dim a i) (width_at pw i)) ->
  exists r, for_axes step (seq 0 (ndim a)) a = Ok r.
Proof using step_sound step_returns a_shape pw_length pw_nonneg. apply (for_axes_returns_from (ndim a) 0 a eq_refl stage_first). Qed.

Lemma for_axes_rejects_from (rem k : nat) (y : array T) (i : nat) :
  (k + rem = ndim a)%nat -> stage k y ->
  (k <= i < ndim a)%nat -> ~ accepts (dim a i) (width_at pw i) ->
  for_axes step (seq k rem) y = Raise ValueError.
Proof using step_sound step_returns step_rejects accepts_dec a_shape pw_length pw_nonneg.
  revert k y. induction rem as [|rem IH]; intros k y Hk Hst Hi Hrej; simpl.
  - lia.
  - destruct (stage_dims k y Hst) as (Hdim & Hnd & Hnn).
    destruct (accepts_dec (dim a k) (width_at pw k)) as [Hacc|Hno].
    + destruct (step_returns k y) as [y' Hstep]; try assumption; try lia.
      { rewrite Hdim. exact Hacc. }
      rewrite Hstep. cbn [bind].
      assert (Hne : k <> i) by (intros ->; contradiction).
      apply IH; [lia| |lia|exact Hrej].
      apply (stage_step k y y'); [lia|exact Hst|exact Hstep].
    + rewrite (step_rejects k y); try assumption; try lia; [reflexivity|].
      rewrite Hdim. exact Hno.
Qed.

(** A loop with an axis that its steps refuse raises. *)
Lemma for_axes_rejects (i : nat) :
  (i < ndim a)%nat -> ~ accepts (dim a i) (width_at pw i) ->
  for_axes step (seq 0 (ndim a)) a = Raise ValueError.
Proof using step_sound step_returns step_rejects accepts_dec a_shape pw_length pw_nonneg.
  intros Hi Hrej.
  apply (for_axes_rejects_from (ndim a) 0 a i eq_refl stage_first);
    [lia|exact Hrej].
Qed.

End Loop.

(** *** The per-axis steps *)

Section Steps.

Context {T : Type} `{PadElem T}.

Lemma sum_dims_one (i : nat) (p : array T) : sum_dims i [p] = dim p i.
Proof. unfold sum_dims. simpl. lia. Qed.

Lemma sum_dims_nil (i : nat) : sum_dims i (@nil (array T)) = 0.
Proof. reflexivity. Qed.

Lemma dim_nonneg (y : array T) (i : nat) :
  Forall (fun n => 0 <= n) (shape y) -> 0 <= dim y i.
Proof.
  intros Hy. unfold dim.
  destruct (Nat.lt_ge_cases i (length (shape y))) as [Hi|Hi].
  - rewrite Forall_forall in Hy. apply Hy. apply nth_In. exact Hi.
  - rewrite nth_overflow by exact Hi. lia.
Qed.

(** Padding by two blocks whose shapes are the shape of [y] with the axis
    set to the widths. *)
Lemma concatenate_blocks (pb pa y : array T) (i : nat) (b a : Z) :
  (i < ndim y)%nat -> 0 <= b ->
  shape pb = set_nth (shape y) i b ->
  shape pa = set_nth (shape y) i a ->
  exists y', concatenate [pb; y; pa] i = Ok y' /\ padded i b a y y'.
Proof.
  intros Hi Hb Hpb Hpa.
  destruct (concatenate_pads [pb] y [pa] i Hi) as [r [Hr Hp]].
  - intros p [<-|[<-|[]]]; unfold same_off_axis.
    + rewrite Hpb. apply set_nth_set_nth.
    + rewrite Hpa. apply set_nth_set_nth.
  - intros p [<-|[]]. unfold dim. rewrite Hpb.
    rewrite nth_set_nth_eq by exact Hi. exact Hb.
  - exists r. split; [exact Hr|].
    rewrite !sum_dims_one in Hp. unfold dim at 1 2 in Hp.
    rewrite Hpb, Hpa in Hp. rewrite !nth_set_nth_eq in Hp by exact Hi.
    exact Hp.
Qed.

Lemma repeat_axis_shape (x : array T) (k : Z) (i : nat) :
  (i < ndim x)%nat -> 0 <= k ->
  exists r, repeat_axis x k i = Ok r /\
            shape r = set_nth (shape x) i (dim x i * k).
Proof. apply repeat_scalar_shape. Qed.

(** A block of [k] copies of a one-element slice of [y]. *)
Lemma repeat_unit_block (e y : array T) (k : Z) (i : nat) :
  (i < ndim y)%nat -> 0 <= k ->
  shape e = set_nth (shape y) i 1 ->
  exists r, repeat_axis e k i = Ok r /\ shape r = set_nth (shape y) i k.
Proof.
  intros Hi Hk He.
  assert (Hie : (i < ndim e)%nat).
  { unfold ndim. rewrite He, set_nth_length. exact Hi. }
  destruct (repeat_axis_shape e k i Hie Hk) as [r [Hr Hs]].
  exists r. split; [exact Hr|].
  rewrite Hs. unfold dim. rewrite He, set_nth_set_nth.
  rewrite nth_set_nth_eq by exact Hi. f_equal. lia.
Qed.

Lemma empty_axis_pads (pw : list (Z * Z)) (i : nat) (y : array T) :
  (i < ndim y)%nat -> 0 <= fst (width_at pw i) ->
  exists y', empty_axis pw i y = Ok y' /\
             padded i (fst (width_at pw i)) (snd (width_at pw i)) y y'.
Proof.
  intros Hi Hb. unfold empty_axis.
  apply concatenate_blocks; auto.
Qed.

(** What the guarded modes accept on an axis: non-negative widths, and no
    padding at all on an axis of length zero. *)
Definition guarded_accepts (n : Z) (w : Z * Z) : Prop :=
  0 <= fst w /\ 0 <= snd w /\ (n = 0 -> fst w = 0 /\ snd w = 0).

Lemma check_no_padding_ok (w : Z * Z) :
  fst w = 0 -> snd w = 0 -> _check_no_padding w = Ok tt.
Proof.
  intros H1 H2. unfold _check_no_padding. rewrite H1, H2. reflexivity.
Qed.

Lemma guarded_empty_axis (w : Z * Z) (y : array T) (i : nat) :
  dim y i = 0 -> guarded_accepts (dim y i) w ->
  exists y', (_check_no_padding w ;; Ok y) = Ok y' /\
             padded i (fst w) (snd w) y y'.
Proof.
  intros H0 (Hb & Ha & Hz). destruct (Hz H0) as [H1 H2].
  rewrite (check_no_padding_ok w H1 H2). cbn [bind].
  exists y. split; [reflexivity|].
  rewrite H1, H2. apply padded_refl.
Qed.

Lemma edge_axis_pads (pw : list (Z * Z)) (i : nat) (y : array T) :
  (i < ndim y)%nat -> Forall (fun n => 0 <= n) (shape y) ->
  guarded_accepts (dim y i) (width_at pw i) ->
  exists y', edge_axis pw i y = Ok y' /\
             padded i (fst (width_at pw i)) (snd (width_at pw i)) y y'.
Proof.
  intros Hi Hy Hacc. unfold edge_axis.
  pose proof (dim_nonneg y i Hy) as Hn.
  destruct (Z.eqb_spec (dim y i) 0) as [H0|H0].
  { apply guarded_empty_axis; assumption. }
  destruct Hacc as (Hb & Ha & _).
  destruct (width_at pw i) as [npb npa]. simpl in Hb, Ha. cbn [fst snd].
  rewrite slice_in_dim_ok by lia. cbn [bind].
  match goal with
  | |- context [repeat_axis ?e npb i] =>
      destruct (repeat_unit_block e y npb i Hi Hb eq_refl) as [pb [Hpb Hspb]]
  end.
  rewrite Hpb. cbn [bind].
  rewrite slice_in_dim_ok by lia. cbn [bind].
  match goal with
  | |- context [repeat_axis ?e npa i] =>
      destruct (repeat_unit_block e y npa i Hi Ha) as [pa [Hpa Hspa]]
  end.
  { cbn [shape]. f_equal. lia. }
  rewrite Hpa. cbn [bind].
  apply concatenate_blocks; auto.
Qed.

(** What the modes that read the edges of every axis accept: a non-empty
    axis and non-negative widths. *)
Definition nonempty_accepts (n : Z) (w : Z * Z) : Prop :=
  0 < n /\ 0 <= fst w /\ 0 <= snd w.

Lemma linear_ramp_axis_pads (pw : list (Z * Z)) (ev : list (T * T))
  (i : nat) (y : array T) :
  (i < ndim y)%nat -> Forall (fun n => 0 <= n) (shape y) ->
  nonempty_accepts (dim y i) (width_at pw i) ->
  exists y', linear_ramp_axis pw ev i y = Ok y' /\
             padded i (fst (width_at pw i)) (snd (width_at pw i)) y y'.
Proof.
  intros Hi Hy (Hn & Hb & Ha). unfold linear_ramp_axis.
  rewrite slice_in_dim_ok by lia. cbn [bind].
  change (slice_in_dim y (-1) None i) with (slice_in_dim y (- (1)) None i).
  rewrite (slice_in_dim_tail y 1 i) by lia. cbn [bind].
  apply concatenate_blocks; auto.
  - cbn [linspace_axis shape]. apply set_nth_set_nth.
  - cbn [linspace_axis rev shape]. apply set_nth_set_nth.
Qed.

Lemma stat_along_nonempty (m : mode) (x : array T) (i : nat) :
  0 < dim x i ->
  exists r, stat_along m x i = Ok r /\ shape r = set_nth (shape x) i 1.
Proof.
  intros Hn. unfold stat_along.
  destruct (Z.leb_spec (dim x i) 0); [lia|].
  eexists. split; reflexivity.
Qed.

(** The statistics window lengths [stats_axis] accepts. *)
Definition stat_length_ok (stat_length : option (list (Z * Z))) (i : nat)
  : Prop :=
  match stat_length with
  | None => True
  | Some sl => 0 < fst (width_at sl i) /\ 0 < snd (width_at sl i)
  end.

Lemma stats_axis_pads (pw : list (Z * Z))
  (stat_length : option (list (Z * Z))) (m : mode)
  (i : nat) (y : array T) :
  (i < ndim y)%nat -> Forall (fun n => 0 <= n) (shape y) ->
  stat_length_ok stat_length i ->
  nonempty_accepts (dim y i) (width_at pw i) ->
  exists y', stats_axis pw stat_length m i y = Ok y' /\
             padded i (fst (width_at pw i)) (snd (width_at pw i)) y y'.
Proof.
  intros Hi Hy Hsl (Hn & Hb & Ha). unfold stats_axis.
  match goal with
  | |- exists y', bind ?E _ = _ /\ _ =>
      assert (Hstats : exists sb sa,
                 E = Ok (sb, sa) /\
                 shape sb = set_nth (shape y) i 1 /\
                 shape sa = set_nth (shape y) i 1)
  end.
  { destruct stat_length as [sl|].
    - simpl in Hsl. destruct (width_at sl i) as [lb la]. simpl in Hsl.
      destruct Hsl as [Hlb Hla]. cbv zeta.
      destruct (Z.eqb_spec lb 0); [lia|]. destruct (Z.eqb_spec la 0); [lia|].
      cbn [orb].
      rewrite slice_in_dim_ok by lia. cbn [bind].
      rewrite slice_in_dim_tail by lia. cbn [bind].
      match goal with
      | |- context [stat_along m ?x i ;; _] => idtac
      | |- _ => idtac
      end.
      destruct (stat_along_nonempty m
                  (mk_array (set_nth (shape y) i (Z.min lb (dim y i) - 0))
                     (fun idx => at_ y (with_coord idx i (coord idx i + 0))))
                  i) as [sb [Hsb Hssb]].
      { rewrite dim_set by exact Hi. lia. }
      rewrite Hsb. cbn [bind].
      destruct (stat_along_nonempty m
                  (mk_array (set_nth (shape y) i (Z.min la (dim y i)))
                     (fun idx => at_ y (with_coord idx i
                        (coord idx i + (- Z.min la (dim y i) + dim y i)))))
                  i) as [sa [Hsa Hssa]].
      { rewrite dim_set by exact Hi. lia. }
      rewrite Hsa. cbn [bind].
      exists sb, sa. split; [reflexivity|].
      rewrite Hssb, Hssa. cbn [shape]. rewrite !set_nth_set_nth.
      split; reflexivity.
    - destruct (stat_along_nonempty m y i Hn) as [sb [Hsb Hssb]].
      rewrite Hsb. cbn [bind]. exists sb, sb. auto. }
  destruct Hstats as [sb [sa [Hs [Hssb Hssa]]]].
  rewrite Hs. cbn [bind].
  destruct (width_at pw i) as [npb npa]. simpl in Hb, Ha. cbn [fst snd].
  destruct (repeat_unit_block sb y npb i Hi Hb Hssb) as [pb [Hpb Hspb]].
  destruct (repeat_unit_block sa y npa i Hi Ha Hssa) as [pa [Hpa Hspa]].
  rewrite Hpb. cbn [bind]. rewrite Hpa. cbn [bind].
  apply concatenate_blocks; auto.
Qed.

Lemma sum_dims_repeat (i : nat) (y : array T) (k : nat) :
  sum_dims i (repeat y k) = Z.of_nat k * dim y i.
Proof.
  induction k as [|k IH]; [reflexivity|].
  change (repeat y (S k)) with ([y] ++ repeat y k).
  rewrite sum_dims_app, sum_dims_one, IH. lia.
Qed.

(** The remainder slice of [wrap_axis], when there is one. *)
Lemma optional_slice (y : array T) (i : nat) (start limit : Z) :
  (i < ndim y)%nat -> 0 <= start -> start <= limit -> limit <= dim y i ->
  exists part,
    optional_part (0 <? limit - start)
                  (slice_in_dim y start (Some limit) i) = Ok part /\
    (forall p, In p part -> same_off_axis i p y /\ 0 <= dim p i) /\
    sum_dims i part = limit - start.
Proof.
  intros Hi H0 H1 H2. unfold optional_part.
  destruct (Z.ltb_spec 0 (limit - start)).
  - rewrite slice_in_dim_ok by lia. cbn [bind].
    eexists. split; [reflexivity|]. split.
    + intros p [<-|[]]. split.
      * unfold same_off_axis. cbn [shape]. apply set_nth_set_nth.
      * rewrite dim_set by exact Hi. lia.
    + rewrite sum_dims_one, dim_set by exact Hi. reflexivity.
  - exists []. split; [reflexivity|]. split; [intros p []|].
    rewrite sum_dims_nil. lia.
Qed.

Lemma wrap_axis_pads (pw : list (Z * Z)) (i : nat) (y : array T) :
  (i < ndim y)%nat -> Forall (fun n => 0 <= n) (shape y) ->
  guarded_accepts (dim y i) (width_at pw i) ->
  exists y', wrap_axis pw i y = Ok y' /\
             padded i (fst (width_at pw i)) (snd (width_at pw i)) y y'.
Proof.
  intros Hi Hy Hacc. unfold wrap_axis.
  pose proof (dim_nonneg y i Hy) as Hn.
  destruct (Z.eqb_spec (dim y i) 0) as [H0|H0].
  { apply guarded_empty_axis; assumption. }
  destruct Hacc as (Hb & Ha & _).
  set (size := dim y i) in *.
  set (w0 := fst (width_at pw i)) in *. set (w1 := snd (width_at pw i)) in *.
  pose proof (Z.mod_pos_bound w0 size ltac:(lia)) as Hlr.
  pose proof (Z.mod_pos_bound w1 size ltac:(lia)) as Hrr.
  pose proof (Z.div_mod w0 size ltac:(lia)) as Hl.
  pose proof (Z.div_mod w1 size ltac:(lia)) as Hr.
  assert (Hlq : 0 <= w0 / size) by (apply Z.div_pos; lia).
  assert (Hrq : 0 <= w1 / size) by (apply Z.div_pos; lia).
  destruct (optional_slice y i (size - w0 mod size) size Hi)
    as [left [Hleft [Hlp Hls]]]; try (unfold size in *; lia).
  destruct (optional_slice y i 0 (w1 mod size) Hi)
    as [right [Hright [Hrp Hrs]]]; try (unfold size in *; lia).
  replace (size - (size - w0 mod size)) with (w0 mod size) in Hleft, Hls
    by lia.
  rewrite Z.sub_0_r in Hright, Hrs.
  rewrite Hleft. cbn [bind]. rewrite Hright. cbn [bind].
  replace (Z.to_nat (w0 / size + w1 / size + 1))
    with (Z.to_nat (w0 / size) + S (Z.to_nat (w1 / size)))%nat by lia.
  rewrite repeat_app. cbn [repeat].
  replace (left ++ (repeat y (Z.to_nat (w0 / size))
                    ++ y :: repeat y (Z.to_nat (w1 / size))) ++ right)
    with ((left ++ repeat y (Z.to_nat (w0 / size)))
          ++ y :: (repeat y (Z.to_nat (w1 / size)) ++ right))
    by (rewrite <- !app_assoc; reflexivity).
  destruct (concatenate_pads (left ++ repeat y (Z.to_nat (w0 / size))) y
              (repeat y (Z.to_nat (w1 / size)) ++ right) i Hi)
    as [r [Hr' Hp]].
  - intros p Hp. rewrite <- !app_assoc in Hp.
    repeat (apply in_app_or in Hp; destruct Hp as [Hp|Hp]).
    + apply Hlp. exact Hp.
    + apply repeat_spec in Hp. subst p. reflexivity.
    + apply repeat_spec in Hp. subst p. reflexivity.
    + apply Hrp. exact Hp.
  - intros p Hp. apply in_app_or in Hp. destruct Hp as [Hp|Hp].
    + apply Hlp. exact Hp.
    + apply repeat_spec in Hp. subst p. exact Hn.
  - exists r. split; [exact Hr'|].
    rewrite !sum_dims_app, !sum_dims_repeat, Hls, Hrs in Hp.
    rewrite !Z2Nat.id in Hp by lia. fold size in Hp.
    replace (w0 mod size + w0 / size * size) with w0 in Hp by lia.
    replace (w1 / size * size + w1 mod size) with w1 in Hp by lia.
    exact Hp.
Qed.

Lemma padded_eq (i : nat) (b a b' a' : Z) (x r : array T) :
  padded i b a x r -> b = b' -> a = a' -> padded i b' a' x r.
Proof. intros Hp -> ->. exact Hp. Qed.

Lemma padded_dim (i : nat) (b a : Z) (x x' : array T) :
  (i < ndim x)%nat -> padded i b a x x' ->
  dim x' i = dim x i + b + a /\ ndim x' = ndim x.
Proof.
  intros Hi [Hs _]. unfold dim at 1, ndim. rewrite Hs.
  rewrite nth_set_nth_eq by exact Hi. rewrite set_nth_length. split; reflexivity.
Qed.

(** The chunk that one turn of [build_padding] mirrors. *)
Lemma chunk_slice (m : mode) (arr : array T) (i : nat)
  (axis_size curr_pad : Z) (before : bool) :
  let offset :=
    if (match m with reflect => true | _ => false end) && (1 <? axis_size)
    then 1 else 0 in
  m = symmetric \/ m = reflect ->
  (i < ndim arr)%nat -> 1 <= axis_size -> axis_size <= dim arr i ->
  1 <= curr_pad -> curr_pad + offset <= axis_size ->
  exists x,
    slice_in_dim arr
      (if before then offset else - (curr_pad + offset))
      (if before then Some (offset + curr_pad)
       else if (match m with symmetric => true | _ => false end)
               || (axis_size =? 1)
            then None else Some (-1)) i = Ok x /\
    shape x = set_nth (shape arr) i curr_pad.
Proof.
  intros offset Hm Hi H1 Hdim Hc Hco.
  assert (Hoff : offset = 0 \/ (offset = 1 /\ 1 < axis_size /\ m = reflect)).
  { unfold offset. destruct m; simpl; auto.
    destruct (Z.ltb_spec 1 axis_size); auto. }
  destruct before.
  - rewrite slice_in_dim_ok by lia.
    eexists. split; [reflexivity|]. cbn [shape]. f_equal. lia.
  - destruct ((match m with symmetric => true | _ => false end)
              || (axis_size =? 1)) eqn:Hstop.
    + assert (H0 : offset = 0).
      { destruct Hoff as [H0|(_ & Hlt & ->)]; [exact H0|].
        simpl in Hstop. apply Z.eqb_eq in Hstop. lia. }
      rewrite slice_in_dim_tail by lia.
      eexists. split; [reflexivity|]. cbn [shape]. f_equal. lia.
    + assert (Hoff1 : offset = 1).
      { destruct Hoff as [H0|[Ho _]]; [|exact Ho].
        unfold offset in H0. apply orb_false_iff in Hstop.
        destruct Hstop as [Hm' Hs]. apply Z.eqb_neq in Hs.
        destruct Hm as [-> | ->]; [discriminate|].
        simpl in H0. destruct (Z.ltb_spec 1 axis_size); lia. }
      unfold slice_in_dim.
      destruct (Z.ltb_spec (- (curr_pad + offset)) 0); [|lia].
      change (-1 <? 0) with true. cbv iota.
      destruct (Z.leb_spec 0 (- (curr_pad + offset) + dim arr i)); [|lia].
      destruct (Z.leb_spec (- (curr_pad + offset) + dim arr i)
                           (-1 + dim arr i)); [|lia].
      destruct (Z.leb_spec (-1 + dim arr i) (dim arr i)); [|lia].
      eexists. split; [reflexivity|]. cbn [shape]. f_equal. lia.
Qed.

(** The reflected chunk and the next edge, for either reflection type. *)
Lemma chunk_reflect (rt : reflect_kind) (x edge : array T) (i : nat)
  (axis_size curr_pad : Z) (before : bool) (shp : list Z) :
  (i < length shp)%nat -> 1 <= curr_pad ->
  shape x = set_nth shp i curr_pad ->
  exists x' edge',
    match rt with
    | odd =>
        let x := odd_combine edge x i in
        if 1 <? axis_size
        then edge <- (if before then slice_in_dim x 0 (Some 1) i
                      else slice_in_dim x (-1) None i) ;;
             Ok (x, edge)
        else Ok (x, edge)
    | even => Ok (x, edge)
    end = Ok (x', edge') /\
    shape x' = set_nth shp i curr_pad.
Proof.
  intros Hi Hc Hx. destruct rt.
  - exists x, edge. split; [reflexivity|exact Hx].
  - cbv zeta. destruct (1 <? axis_size).
    + assert (Hd : dim (odd_combine edge x i) i = curr_pad).
      { unfold dim, odd_combine. cbn [shape]. rewrite Hx.
        apply nth_set_nth_eq. exact Hi. }
      destruct before.
      * rewrite slice_in_dim_ok by lia. cbn [bind].
        eexists. eexists. split; [reflexivity|exact Hx].
      * change (slice_in_dim (odd_combine edge x i) (-1) None i)
          with (slice_in_dim (odd_combine edge x i) (- (1)) None i).
        rewrite slice_in_dim_tail by lia. cbn [bind].
        eexists. eexists. split; [reflexivity|exact Hx].
    + eexists. eexists. split; [reflexivity|exact Hx].
Qed.

Lemma build_padding_loop_pads (fuel : nat) (m : mode) (rt : reflect_kind)
  (i : nat) (axis_size : Z) (before : bool) :
  let offset :=
    if (match m with reflect => true | _ => false end) && (1 <? axis_size)
    then 1 else 0 in
  m = symmetric \/ m = reflect ->
  1 <= axis_size ->
  forall (arr : array T) (padding : Z) (edge : array T),
    (i < ndim arr)%nat -> axis_size <= dim arr i ->
    0 <= padding -> padding <= Z.of_nat fuel ->
    exists r,
      build_padding_loop fuel m rt i axis_size offset before arr padding edge
      = Ok r /\
      padded i (if before then padding else 0) (if before then 0 else padding)
             arr r.
Proof.
  intros offset Hm H1.
  assert (Hoff : 0 <= offset /\ 1 <= axis_size - offset).
  { unfold offset. destruct m; simpl; try lia.
    destruct (Z.ltb_spec 1 axis_size); lia. }
  induction fuel as [|fuel IH]; intros arr padding edge Hi Hdim Hp Hf.
  - assert (padding = 0) by lia. subst padding. simpl.
    exists arr. split; [reflexivity|]. destruct before; apply padded_refl.
  - cbn [build_padding_loop].
    destruct (Z.leb_spec padding 0) as [Hle|Hgt].
    { assert (padding = 0) by lia. subst padding.
      exists arr. split; [reflexivity|]. destruct before; apply padded_refl. }
    set (curr_pad := Z.min padding (axis_size - offset)).
    assert (Hc : 1 <= curr_pad /\ curr_pad <= padding
                 /\ curr_pad + offset <= axis_size) by (unfold curr_pad; lia).
    destruct Hc as (Hc1 & Hc2 & Hc3).
    destruct (chunk_slice m arr i axis_size curr_pad before Hm Hi H1 Hdim
                Hc1 Hc3)
      as [x [Hx Hsx]].
    fold offset in Hx. rewrite Hx. cbn [bind].
    destruct (chunk_reflect rt (rev x i) edge i axis_size curr_pad before
                (shape arr) Hi Hc1 Hsx) as [x' [edge' [Hx' Hsx']]].
    match goal with
    | |- exists r, bind ?E _ = _ /\ _ =>
        assert (HE : E = Ok (x', edge')) by exact Hx'
    end.
    rewrite HE. cbn [bind].
    assert (Hcat : exists arr',
               (if before then concatenate [x'; arr] i
                else concatenate [arr; x'] i) = Ok arr' /\
               padded i (if before then curr_pad else 0)
                        (if before then 0 else curr_pad) arr arr').
    { assert (Hsame : same_off_axis i x' arr).
      { unfold same_off_axis. rewrite Hsx'. apply set_nth_set_nth. }
      assert (Hdx : dim x' i = curr_pad).
      { unfold dim. rewrite Hsx'. apply nth_set_nth_eq. exact Hi. }
      destruct before.
      - destruct (concatenate_pads [x'] arr [] i Hi) as [r [Hr Hpad]].
        + intros p [<-|[]]. exact Hsame.
        + intros p [<-|[]]. lia.
        + exists r. split; [exact Hr|].
          rewrite sum_dims_one, sum_dims_nil, Hdx in Hpad. exact Hpad.
      - destruct (concatenate_pads [] arr [x'] i Hi) as [r [Hr Hpad]].
        + intros p [<-|[]]. exact Hsame.
        + intros p [].
        + exists r. split; [exact Hr|].
          rewrite sum_dims_one, sum_dims_nil, Hdx in Hpad. exact Hpad. }
    destruct Hcat as [arr' [Hcat Hpad]]. rewrite Hcat. cbn [bind].
    destruct (padded_dim i _ _ arr arr' Hi Hpad) as [Hd' Hn'].
    destruct (IH arr' (padding - curr_pad) edge') as [r [Hr Hpr]].
    + lia.
    + rewrite Hd'. destruct before; lia.
    + lia.
    + lia.
    + exists r. split; [exact Hr|].
      destruct before.
      * eapply padded_eq;
          [eapply (padded_compose i curr_pad 0 (padding - curr_pad) 0);
           eauto; lia|lia|lia].
      * eapply padded_eq;
          [eapply (padded_compose i 0 curr_pad 0 (padding - curr_pad));
           eauto; lia|lia|lia].
Qed.

Lemma build_padding_pads (m : mode) (rt : reflect_kind) (i : nat)
  (axis_size : Z) (arr : array T) (padding : Z) (before : bool) :
  m = symmetric \/ m = reflect ->
  (i < ndim arr)%nat -> 1 <= axis_size -> axis_size <= dim arr i ->
  0 <= padding ->
  exists r,
    build_padding m rt i axis_size arr padding before = Ok r /\
    padded i (if before then padding else 0) (if before then 0 else padding)
           arr r.
Proof.
  intros Hm Hi H1 Hdim Hp. unfold build_padding.
  assert (Hedge : exists e,
             (if before then slice_in_dim arr 0 (Some 1) i
              else slice_in_dim arr (-1) None i) = Ok e).
  { destruct before.
    - rewrite slice_in_dim_ok by lia. eexists. reflexivity.
    - change (slice_in_dim arr (-1) None i)
        with (slice_in_dim arr (- (1)) None i).
      rewrite slice_in_dim_tail by lia. eexists. reflexivity. }
  destruct Hedge as [e He]. rewrite He. cbn [bind].
  apply build_padding_loop_pads; auto. lia.
Qed.

Lemma symmetric_or_reflect_axis_pads (pw : list (Z * Z)) (m : mode)
  (rt : reflect_kind) (i : nat) (y : array T) :
  m = symmetric \/ m = reflect ->
  (i < ndim y)%nat -> Forall (fun n => 0 <= n) (shape y) ->
  guarded_accepts (dim y i) (width_at pw i) ->
  exists y', symmetric_or_reflect_axis pw m rt i y = Ok y' /\
             padded i (fst (width_at pw i)) (snd (width_at pw i)) y y'.
Proof.
  intros Hm Hi Hy Hacc. unfold symmetric_or_reflect_axis.
  pose proof (dim_nonneg y i Hy) as Hn.
  destruct (Z.eqb_spec (dim y i) 0) as [H0|H0].
  { apply guarded_empty_axis; assumption. }
  destruct Hacc as (Hb & Ha & _).
  destruct (build_padding_pads m rt i (dim y i) y (fst (width_at pw i)) true
              Hm)
    as [y1 [Hy1 Hp1]]; try lia.
  rewrite Hy1. cbn [bind].
  destruct (padded_dim i _ _ y y1 Hi Hp1) as [Hd1 Hn1].
  destruct (build_padding_pads m rt i (dim y i) y1 (snd (width_at pw i)) false
              Hm)
    as [y2 [Hy2 Hp2]]; try lia.
  rewrite Hy2. exists y2. split; [reflexivity|].
  eapply padded_eq;
    [eapply (padded_compose i (fst (width_at pw i)) 0 0 (snd (width_at pw i)));
     eauto; lia|lia|lia].
Qed.

(** [lax.pad] on one axis. *)
Lemma lax_pad_axis_shape (shp : list Z) (i : nat) (b a : Z) :
  (i < length shp)%nat ->
  map (fun p => fst (snd p) + fst p + snd (snd p))
      (combine shp (set_nth (repeat (0, 0) (length shp)) i (b, a)))
  = set_nth shp i (nth i shp 0 + b + a).
Proof.
  revert i. induction shp as [|n shp IH]; intros [|i] Hi; simpl in *;
    try lia.
  - f_equal; [lia|].
    clear. induction shp as [|m shp IH]; simpl; [reflexivity|].
    f_equal; [lia|exact IH].
  - f_equal; [lia|]. apply IH. lia.
Qed.

Lemma lax_pad_axis_inner (idx : list Z) (i : nat) (b a : Z) (n : nat) :
  (i < length idx)%nat -> length idx = n ->
  map (fun p => fst p - snd p)
      (combine (with_coord idx i (coord idx i + b))
               (map fst (set_nth (repeat (0, 0) n) i (b, a))))
  = idx.
Proof.
  unfold with_coord, coord. revert i n.
  induction idx as [|j idx IH]; intros [|i] [|n] Hi Hn; simpl in *;
    try lia.
  - f_equal; [lia|].
    assert (Hn' : length idx = n) by lia. clear -Hn'. revert n Hn'.
    induction idx as [|k idx IH]; intros [|n] Hn; simpl in *;
      try lia; [reflexivity|].
    f_equal; [lia|apply IH; lia].
  - f_equal; [lia|]. apply IH; lia.
Qed.

Lemma in_bounds_check (shp idx : list Z) :
  in_bounds shp idx ->
  forallb (fun p => (0 <=? snd p) && (snd p <? fst p)) (combine shp idx)
  = true.
Proof.
  intros Hb. induction Hb as [|n j shp idx Hj Hb IH]; simpl; [reflexivity|].
  rewrite IH.
  destruct (Z.leb_spec 0 j); [|lia]. destruct (Z.ltb_spec j n); [|lia].
  reflexivity.
Qed.

Lemma lax_pad_axis (y : array T) (v : T) (i : nat) (b a : Z) :
  (i < ndim y)%nat ->
  padded i b a y (lax_pad y v (set_nth (repeat (0, 0) (ndim y)) i (b, a))).
Proof.
  intros Hi. split.
  - unfold lax_pad. cbn [shape]. apply lax_pad_axis_shape. exact Hi.
  - intros idx Hb. unfold lax_pad. cbn [at_].
    pose proof (in_bounds_length _ _ Hb) as Hlen.
    rewrite lax_pad_axis_inner by (unfold ndim in *; lia).
    rewrite (in_bounds_check _ _ Hb). reflexivity.
Qed.

(** What [constant_axis] and [empty_axis] accept: non-negative widths. *)
Definition any_accepts (n : Z) (w : Z * Z) : Prop :=
  0 <= fst w /\ 0 <= snd w.

Lemma constant_axis_pads (pw : list (Z * Z)) (cvs : list (T * T))
  (i : nat) (y : array T) :
  (i < ndim y)%nat -> any_accepts (dim y i) (width_at pw i) ->
  exists y', constant_axis pw cvs (ndim y) i y = Ok y' /\
             padded i (fst (width_at pw i)) (snd (width_at pw i)) y y'.
Proof.
  intros Hi [Hb Ha]. unfold constant_axis.
  eexists. split; [reflexivity|].
  set (w0 := fst (width_at pw i)) in *. set (w1 := snd (width_at pw i)) in *.
  set (y1 := if negb (w0 =? 0)
             then lax_pad y (fst (nth i cvs (zero, zero)))
                    (set_nth (repeat (0, 0) (ndim y)) i (w0, 0))
             else y).
  assert (Hp1 : padded i w0 0 y y1).
  { unfold y1. destruct (Z.eqb_spec w0 0) as [->|_]; simpl.
    - apply padded_refl.
    - apply lax_pad_axis. exact Hi. }
  destruct (padded_dim i _ _ y y1 Hi Hp1) as [Hd1 Hn1].
  assert (Hp2 : padded i 0 w1 y1
                  (if negb (w1 =? 0)
                   then lax_pad y1 (snd (nth i cvs (zero, zero)))
                          (set_nth (repeat (0, 0) (ndim y)) i (0, w1))
                   else y1)).
  { destruct (Z.eqb_spec w1 0) as [->|_]; simpl.
    - apply padded_refl.
    - rewrite <- Hn1. apply lax_pad_axis. lia. }
  eapply padded_eq;
    [eapply (padded_compose i w0 0 0 w1); eauto; lia|lia|lia].
Qed.

(** [lax.pad] on all axes at once. *)
Lemma lax_pad_all (y : array T) (v : T) (pw : list (Z * Z)) :
  length pw = ndim y ->
  shape (lax_pad y v pw) = padded_shape (shape y) pw /\
  forall idx, in_bounds (shape y) idx ->
              at_ (lax_pad y v pw) (interior_index idx pw) = at_ y idx.
Proof.
  intros Hlen. split.
  - unfold lax_pad, padded_shape. cbn [shape]. apply map_ext.
    intros [n [lo hi]]. simpl. lia.
  - intros idx Hb. unfold lax_pad. cbn [at_].
    assert (Hinner : map (fun p => fst p - snd p)
                         (combine (interior_index idx pw) (map fst pw)) = idx).
    { pose proof (in_bounds_length _ _ Hb) as Hl.
      assert (Hl' : length idx = length pw) by (unfold ndim in *; lia).
      clear -Hl'. unfold interior_index. revert pw Hl'.
      induction idx as [|j idx IH]; intros [|p pw] Hl; simpl in *;
        try lia; [reflexivity|].
      f_equal; [lia|apply IH; lia]. }
    rewrite Hinner, (in_bounds_check _ _ Hb). reflexivity.
Qed.

(** *** Steps that refuse their input, and steps that return *)

Lemma sound_of_total (A : Prop) (s : result (array T))
  (P : array T -> Prop) :
  A \/ ~ A ->
  (A -> exists y', s = Ok y' /\ P y') ->
  (~ A -> exists e, s = Raise e) ->
  forall y', s = Ok y' -> P y'.
Proof.
  intros [HA|HA] Ht Hr y' Hs.
  - destruct (Ht HA) as [y0 [H0 HP]]. rewrite H0 in Hs.
    inversion Hs; subst. exact HP.
  - destruct (Hr HA) as [e He]. rewrite He in Hs. discriminate.
Qed.

Lemma returns_of_total (s : result (array T)) (P : array T -> Prop) :
  (exists y', s = Ok y' /\ P y') -> exists y', s = Ok y'.
Proof. intros [y' [Hs _]]. exists y'. exact Hs. Qed.

Lemma guarded_accepts_dec (n : Z) (w : Z * Z) :
  guarded_accepts n w \/ ~ guarded_accepts n w.
Proof.
  unfold guarded_accepts. destruct w as [b c]. cbn [fst snd].
  destruct (Z.eq_dec n 0), (Z_le_dec 0 b), (Z_le_dec 0 c),
    (Z.eq_dec b 0), (Z.eq_dec c 0);
    first [left; lia | right; lia].
Qed.

Lemma guarded_refuses (n : Z) (w : Z * Z) :
  0 <= fst w -> 0 <= snd w -> ~ guarded_accepts n w ->
  n = 0 /\ (0 < fst w \/ 0 < snd w).
Proof. unfold guarded_accepts. intros Hb Ha Hno. lia. Qed.

Lemma check_no_padding_raises (w : Z * Z) (y : array T) :
  0 < fst w \/ 0 < snd w ->
  (_check_no_padding w ;; Ok y) = Raise ValueError.
Proof.
  intros Hw. unfold _check_no_padding.
  destruct (Z.ltb_spec 0 (fst w)); [reflexivity|].
  destruct (Z.ltb_spec 0 (snd w)); [reflexivity|]. lia.
Qed.

Lemma edge_axis_rejects (pw : list (Z * Z)) (i : nat) (y : array T) :
  0 <= fst (width_at pw i) -> 0 <= snd (width_at pw i) ->
  ~ guarded_accepts (dim y i) (width_at pw i) ->
  edge_axis pw i y = Raise ValueError.
Proof.
  intros Hb Ha Hno. destruct (guarded_refuses _ _ Hb Ha Hno) as [H0 Hw].
  unfold edge_axis. rewrite H0. cbn [Z.eqb].
  apply check_no_padding_raises. exact Hw.
Qed.

Lemma wrap_axis_rejects (pw : list (Z * Z)) (i : nat) (y : array T) :
  0 <= fst (width_at pw i) -> 0 <= snd (width_at pw i) ->
  ~ guarded_accepts (dim y i) (width_at pw i) ->
  wrap_axis pw i y = Raise ValueError.
Proof.
  intros Hb Ha Hno. destruct (guarded_refuses _ _ Hb Ha Hno) as [H0 Hw].
  unfold wrap_axis. rewrite H0. cbn [Z.eqb].
  apply check_no_padding_raises. exact Hw.
Qed.

Lemma symmetric_or_reflect_axis_rejects (pw : list (Z * Z)) (m : mode)
  (rt : reflect_kind) (i : nat) (y : array T) :
  0 <= fst (width_at pw i) -> 0 <= snd (width_at pw i) ->
  ~ guarded_accepts (dim y i) (width_at pw i) ->
  symmetric_or_reflect_axis pw m rt i y = Raise ValueError.
Proof.
  intros Hb Ha Hno. destruct (guarded_refuses _ _ Hb Ha Hno) as [H0 Hw].
  unfold symmetric_or_reflect_axis. rewrite H0. cbn [Z.eqb].
  apply check_no_padding_raises. exact Hw.
Qed.

Lemma edge_axis_sound (pw : list (Z * Z)) (i : nat) (y y' : array T) :
  nonneg_widths pw ->
  (i < ndim y)%nat -> Forall (fun n => 0 <= n) (shape y) ->
  edge_axis pw i y = Ok y' ->
  padded i (fst (width_at pw i)) (snd (width_at pw i)) y y'.
Proof.
  intros Hw Hi Hy. destruct (width_at_nonneg pw i Hw) as [Hb Ha].
  apply (sound_of_total (guarded_accepts (dim y i) (width_at pw i))).
  - apply guarded_accepts_dec.
  - apply edge_axis_pads; assumption.
  - intros Hno. eexists. apply edge_axis_rejects; assumption.
Qed.

Lemma wrap_axis_sound (pw : list (Z * Z)) (i : nat) (y y' : array T) :
  nonneg_widths pw ->
  (i < ndim y)%nat -> Forall (fun n => 0 <= n) (shape y) ->
  wrap_axis pw i y = Ok y' ->
  padded i (fst (width_at pw i)) (snd (width_at pw i)) y y'.
Proof.
  intros Hw Hi Hy. destruct (width_at_nonneg pw i Hw) as [Hb Ha].
  apply (sound_of_total (guarded_accepts (dim y i) (width_at pw i))).
  - apply guarded_accepts_dec.
  - apply wrap_axis_pads; assumption.
  - intros Hno. eexists. apply wrap_axis_rejects; assumption.
Qed.

Lemma symmetric_or_reflect_axis_sound (pw : list (Z * Z)) (m : mode)
  (rt : reflect_kind) (i : nat) (y y' : array T) :
  m = symmetric \/ m = reflect ->
  nonneg_widths pw ->
  (i < ndim y)%nat -> Forall (fun n => 0 <= n) (shape y) ->
  symmetric_or_reflect_axis pw m rt i y = Ok y' ->
  padded i (fst (width_at pw i)) (snd (width_at pw i)) y y'.
Proof.
  intros Hm Hw Hi Hy. destruct (width_at_nonneg pw i Hw) as [Hb Ha].
  apply (sound_of_total (guarded_accepts (dim y i) (width_at pw i))).
  - apply guarded_accepts_dec.
  - apply symmetric_or_reflect_axis_pads; assumption.
  - intros Hno. eexists.
    apply symmetric_or_reflect_axis_rejects; assumption.
Qed.

Lemma linear_ramp_axis_sound (pw : list (Z * Z)) (ev : list (T * T))
  (i : nat) (y y' : array T) :
  nonneg_widths pw ->
  (i < ndim y)%nat -> Forall (fun n => 0 <= n) (shape y) ->
  linear_ramp_axis pw ev i y = Ok y' ->
  padded i (fst (width_at pw i)) (snd (width_at pw i)) y y'.
Proof.
  intros Hw Hi Hy. destruct (width_at_nonneg pw i Hw) as [Hb Ha].
  pose proof (dim_nonneg y i Hy) as Hn.
  apply (sound_of_total (nonempty_accepts (dim y i) (width_at pw i))).
  - unfold nonempty_accepts. destruct (Z_lt_dec 0 (dim y i)); [left|right];
      lia.
  - apply linear_ramp_axis_pads; assumption.
  - intros Hno. unfold nonempty_accepts in Hno.
    assert (H0 : dim y i = 0) by lia.
    exists TypeError. unfold linear_ramp_axis, slice_in_dim.
    rewrite H0. reflexivity.
Qed.

Lemma constant_axis_sound (pw : list (Z * Z)) (cvs : list (T * T))
  (nd i : nat) (y y' : array T) :
  nonneg_widths pw -> (i < ndim y)%nat -> ndim y = nd ->
  constant_axis pw cvs nd i y = Ok y' ->
  padded i (fst (width_at pw i)) (snd (width_at pw i)) y y'.
Proof.
  intros Hw Hi <- Hs.
  destruct (constant_axis_pads pw cvs i y Hi (width_at_nonneg pw i Hw))
    as [y0 [H0 Hp]].
  rewrite H0 in Hs. inversion Hs; subst. exact Hp.
Qed.

Lemma empty_axis_sound (pw : list (Z * Z)) (i : nat) (y y' : array T) :
  nonneg_widths pw -> (i < ndim y)%nat ->
  empty_axis pw i y = Ok y' ->
  padded i (fst (width_at pw i)) (snd (width_at pw i)) y y'.
Proof.
  intros Hw Hi Hs.
  destruct (empty_axis_pads pw i y Hi (proj1 (width_at_nonneg pw i Hw)))
    as [y0 [H0 Hp]].
  rewrite H0 in Hs. inversion Hs; subst. exact Hp.
Qed.

Lemma stat_along_shape (m : mode) (x r : array T) (i : nat) :
  stat_along m x i = Ok r -> shape r = set_nth (shape x) i 1.
Proof.
  unfold stat_along. destruct (dim x i <=? 0).
  - destruct (stat_of_empty m) as [v|e]; cbn [bind]; intros Hr;
      [|discriminate].
    inversion Hr. reflexivity.
  - intros Hr. inversion Hr. reflexivity.
Qed.

Lemma unit_of_slice (m : mode) (y s r : array T) (start : Z)
  (limit : option Z) (i : nat) :
  slice_in_dim y start limit i = Ok s -> stat_along m s i = Ok r ->
  shape r = set_nth (shape y) i 1.
Proof.
  intros Hs Hr. rewrite (stat_along_shape m s r i Hr).
  destruct (slice_in_dim_shape y s start limit i Hs) as [Heq _].
  rewrite <- (set_nth_set_nth (shape s) i 0 1).
  rewrite Heq. apply set_nth_set_nth.
Qed.

(** [stats_axis] pads whenever it returns, whatever the statistic does on
    an empty window. *)
Lemma stats_axis_sound (pw : list (Z * Z))
  (stat_length : option (list (Z * Z))) (m : mode)
  (i : nat) (y y' : array T) :
  nonneg_widths pw -> (i < ndim y)%nat ->
  stats_axis pw stat_length m i y = Ok y' ->
  padded i (fst (width_at pw i)) (snd (width_at pw i)) y y'.
Proof.
  intros Hw Hi Hs. destruct (width_at_nonneg pw i Hw) as [Hb Ha].
  unfold stats_axis in Hs.
  match type of Hs with
  | bind ?E _ = _ => destruct E as [[sb sa]|e] eqn:HE; [|discriminate]
  end.
  assert (Hshapes : shape sb = set_nth (shape y) i 1 /\
                    shape sa = set_nth (shape y) i 1).
  { destruct stat_length as [sl|].
    - destruct (width_at sl i) as [lb la].
      destruct ((lb =? 0) || (la =? 0)); [discriminate|].
      cbv zeta in HE.
      match type of HE with
      | bind ?S1 _ = _ => destruct S1 as [s1|e1] eqn:H1; [|discriminate]
      end.
      cbn [bind] in HE.
      match type of HE with
      | bind ?S2 _ = _ => destruct S2 as [s2|e2] eqn:H2; [|discriminate]
      end.
      cbn [bind] in HE.
      destruct (stat_along m s1 i) as [r1|e1] eqn:Hr1; [|discriminate].
      cbn [bind] in HE.
      destruct (stat_along m s2 i) as [r2|e2] eqn:Hr2; [|discriminate].
      cbn [bind] in HE. inversion HE; subst r1 r2.
      split; [exact (unit_of_slice m y s1 sb _ _ i H1 Hr1)
            |exact (unit_of_slice m y s2 sa _ _ i H2 Hr2)].
    - destruct (stat_along m y i) as [r1|e1] eqn:Hr1; [|discriminate].
      cbn [bind] in HE. inversion HE; subst.
      split; apply (stat_along_shape m y _ i Hr1). }
  destruct Hshapes as [Hssb Hssa].
  cbn [bind] in Hs.
  destruct (width_at pw i) as [npb npa]. cbn [fst snd] in *.
  destruct (repeat_unit_block sb y npb i Hi Hb Hssb) as [pb [Hpb Hspb]].
  destruct (repeat_unit_block sa y npa i Hi Ha Hssa) as [pa [Hpa Hspa]].
  rewrite Hpb in Hs. cbn [bind] in Hs. rewrite Hpa in Hs. cbn [bind] in Hs.
  destruct (concatenate_blocks pb pa y i npb npa Hi Hb Hspb Hspa)
    as [y0 [H0 Hp]].
  rewrite H0 in Hs. inversion Hs; subst. exact Hp.
Qed.

End Steps.

(** *** [_pad] and [pad] *)

(** The widths as [_broadcast_to_pairs] returns them. *)
Lemma rows_to_pairs_length {V : Type} (rows : list (list V))
  (pairs : list (V * V)) :
  rows_to_pairs rows = Some pairs -> length pairs = length rows.
Proof.
  revert pairs. induction rows as [|r rows IH]; intros pairs Hp.
  - inversion Hp. reflexivity.
  - destruct r as [|x [|y [|z r]]]; try discriminate. cbn in Hp.
    destruct (rows_to_pairs rows) as [ps|]; [|discriminate].
    inversion Hp; subst. simpl. f_equal. apply IH. reflexivity.
Qed.

Lemma broadcast_to_pairs_length {V : Type} (nvals : pad_value_like V)
  (nd : nat) (pairs : list (V * V)) :
  _broadcast_to_pairs nvals nd = Ok pairs -> length pairs = nd.
Proof.
  unfold _broadcast_to_pairs. destruct nvals as [v|l|rows].
  - intros Hp. inversion Hp. apply repeat_length.
  - destruct l as [|v1 [|v2 [|v3 l]]]; intros Hp; try discriminate;
      inversion Hp; apply repeat_length.
  - destruct (rows_to_pairs rows) as [ps|] eqn:Hrows.
    + destruct (Nat.eqb_spec (length rows) nd) as [Hn|Hn].
      * intros Hp. inversion Hp; subst.
        apply rows_to_pairs_length. exact Hrows.
      * destruct ps as [|p [|q ps]]; intros Hp; try discriminate.
        inversion Hp. apply repeat_length.
    + destruct (forallb _ rows); discriminate.
Qed.

Lemma rows_to_pairs_of_pairs {V : Type} (pairs : list (V * V)) :
  rows_to_pairs (pairs_to_rows pairs) = Some pairs.
Proof.
  induction pairs as [|[x y] pairs IH]; [reflexivity|].
  cbn. unfold pairs_to_rows in IH. rewrite IH. reflexivity.
Qed.

(** [_pad] finds again the pairs that [pad] hands to it. *)
Lemma broadcast_pairs_again {V : Type} (pairs : list (V * V)) (nd : nat) :
  length pairs = nd ->
  _broadcast_to_pairs (pv_matrix (pairs_to_rows pairs)) nd = Ok pairs.
Proof.
  intros Hlen. unfold _broadcast_to_pairs.
  rewrite rows_to_pairs_of_pairs.
  unfold pairs_to_rows. rewrite length_map, Hlen, Nat.eqb_refl.
  reflexivity.
Qed.

Lemma negative_widths_check (pw : list (Z * Z)) :
  existsb (fun p => (fst p <? 0) || (snd p <? 0)) pw = false <->
  nonneg_widths pw.
Proof.
  unfold nonneg_widths. induction pw as [|p pw IH]; simpl.
  - split; [constructor|reflexivity].
  - rewrite orb_false_iff, orb_false_iff, IH, !Z.ltb_ge. split.
    + intros [[H1 H2] H3]. constructor; [lia|exact H3].
    + intros Hf. inversion Hf; subst. split; assumption.
Qed.

Definition is_ok {A : Type} (r : result A) : bool :=
  match r with Ok _ => true | Raise _ => false end.

Lemma is_ok_returns {A : Type} (r : result A) :
  is_ok r = true -> exists x, r = Ok x.
Proof. destruct r as [x|e]; [exists x; reflexivity|discriminate]. Qed.

(** No axis of length zero gets any padding. *)
Definition no_padding_of_empty_axes (shp : list Z) (pw : list (Z * Z))
  : bool :=
  forallb (fun p => negb (fst p =? 0)
                    || ((fst (snd p) =? 0) && (snd (snd p) =? 0)))
          (combine shp pw).

Definition all_nonempty (shp : list Z) : bool :=
  forallb (fun n => 0 <? n) shp.

Definition positive_lengths (sl : list (Z * Z)) : bool :=
  forallb (fun p => (0 <? fst p) && (0 <? snd p)) sl.

Lemma no_padding_guarded (shp : list Z) (pw : list (Z * Z)) (i : nat) :
  nonneg_widths pw -> length pw = length shp ->
  no_padding_of_empty_axes shp pw = true -> (i < length shp)%nat ->
  guarded_accepts (nth i shp 0) (width_at pw i).
Proof.
  intros Hw Hlen Hno Hi. unfold no_padding_of_empty_axes in Hno.
  rewrite forallb_forall in Hno.
  specialize (Hno (nth i shp 0, width_at pw i)).
  destruct (width_at_nonneg pw i Hw) as [Hb Ha].
  unfold width_at in *.
  rewrite <- combine_nth in Hno by lia.
  assert (Hin : In (nth i (combine shp pw) (0, (0, 0))) (combine shp pw)).
  { apply nth_In. rewrite length_combine. lia. }
  specialize (Hno Hin). rewrite combine_nth in Hno by lia.
  cbn [fst snd] in Hno. unfold guarded_accepts.
  split; [exact Hb|]. split; [exact Ha|].
  intros H0. rewrite H0 in Hno. cbn in Hno.
  apply andb_true_iff in Hno. destruct Hno as [H1 H2].
  apply Z.eqb_eq in H1, H2. split; assumption.
Qed.

Lemma all_nonempty_nth (shp : list Z) (i : nat) :
  all_nonempty shp = true -> (i < length shp)%nat -> 0 < nth i shp 0.
Proof.
  unfold all_nonempty. rewrite forallb_forall. intros Hall Hi.
  apply Z.ltb_lt. apply Hall. apply nth_In. exact Hi.
Qed.

Lemma positive_lengths_nth (sl : list (Z * Z)) (i : nat) :
  positive_lengths sl = true -> (i < length sl)%nat ->
  0 < fst (width_at sl i) /\ 0 < snd (width_at sl i).
Proof.
  unfold positive_lengths, width_at. rewrite forallb_forall.
  intros Hall Hi.
  specialize (Hall (nth i sl (0, 0)) (nth_In _ _ Hi)).
  apply andb_true_iff in Hall. destruct Hall as [H1 H2].
  apply Z.ltb_lt in H1, H2. split; assumption.
Qed.

Section Top.

Context {T : Type} `{PadElem T}.

(** [r] is [a] padded by the widths [pw]: the shape has grown by the
    widths, and the elements of [a] are in the middle. *)
Definition pads (a : array T) (pw : list (Z * Z)) (r : array T) : Prop :=
  shape r = padded_shape (shape a) pw /\
  forall idx, in_bounds (shape a) idx ->
              at_ r (interior_index idx pw) = at_ a idx.

(** The inputs on which [_pad] in mode [m] returns: the guarded modes pad
    no axis of length zero, the modes that read the edges or a statistic of
    every axis need every axis non-empty, and the mode parameters broadcast
    to one pair per axis. *)
Definition accepted (m : mode) (a : array T) (pw : list (Z * Z))
  (cv : pad_value_like T) (sl : option (pad_value_like Z))
  (ev : pad_value_like T) : bool :=
  match m with
  | constant =>
      is_ok (broadcast_constants (map_pad_value convert_constant cv) (ndim a))
  | wrap | symmetric | reflect | edge =>
      no_padding_of_empty_axes (shape a) pw
  | linear_ramp =>
      all_nonempty (shape a) && is_ok (_broadcast_to_pairs ev (ndim a))
  | maximum | minimum | mean | median =>
      all_nonempty (shape a)
      && match sl with
         | None => true
         | Some sl =>
             match _broadcast_to_pairs sl (ndim a) with
             | Ok sl => positive_lengths sl
             | Raise _ => false
             end
         end
  | empty => true
  end.

Lemma pads_scalar (a : array T) (pw : list (Z * Z)) :
  ndim a = 0%nat -> pads a pw a.
Proof.
  unfold ndim, pads. intros H0.
  destruct (shape a) as [|n shp] eqn:Hs; [|discriminate].
  split; [reflexivity|].
  intros idx Hb. inversion Hb; subst. reflexivity.
Qed.

(** Whenever [_pad] returns, it has padded. *)
Lemma _pad_sound (a : array T) (w : pad_value_like Z) (m : mode)
  (cv : pad_value_like T) (sl : option (pad_value_like Z))
  (ev : pad_value_like T) (rt : reflect_kind)
  (pw : list (Z * Z)) (r : array T) :
  Forall (fun n => 0 <= n) (shape a) ->
  _broadcast_to_pairs w (ndim a) = Ok pw ->
  _pad a w m cv sl ev rt = Ok r ->
  pads a pw r.
Proof.
  intros Ha Hbc Hr.
  pose proof (broadcast_to_pairs_length _ _ _ Hbc) as Hlen.
  unfold _pad in Hr.
  destruct (Nat.eqb_spec (ndim a) 0) as [Hnd|Hnd].
  { inversion Hr; subst r. apply pads_scalar. exact Hnd. }
  rewrite Hbc in Hr. cbn [bind] in Hr.
  destruct (existsb _ pw) eqn:Hneg; [discriminate|].
  apply negative_widths_check in Hneg.
  destruct m.
  - (* constant *)
    unfold _pad_constant in Hr.
    assert (Hloop : forall cvs,
               for_axes (constant_axis pw cvs (ndim a)) (seq 0 (ndim a)) a
               = Ok r -> pads a pw r).
    { intros cvs Hl.
      apply (for_axes_sound (constant_axis pw cvs (ndim a)) pw); auto.
      intros i y y' Hi Hn Hy Hs.
      apply (constant_axis_sound pw cvs (ndim a) i y y'); auto. lia. }
    remember (map_pad_value convert_constant cv) as cv' eqn:Hcv.
    clear Hcv. destruct cv' as [v|l|rows].
    + inversion Hr. apply lax_pad_all. exact Hlen.
    + destruct l as [|v1 [|v2 l]].
      * discriminate.
      * inversion Hr. apply lax_pad_all. exact Hlen.
      * destruct (negb (length (v1 :: v2 :: l) =? 2)%nat); [discriminate|].
        cbn [bind] in Hr.
        destruct (broadcast_constants _ _) as [cvs|e]; [|discriminate].
        apply (Hloop cvs). exact Hr.
    + cbn [bind] in Hr.
      destruct (broadcast_constants _ _) as [cvs|e]; [|discriminate].
      apply (Hloop cvs). exact Hr.
  - (* wrap *)
    apply (for_axes_sound (wrap_axis pw) pw); auto.
    intros i y y' Hi Hn Hy Hs. apply wrap_axis_sound; auto.
  - (* symmetric *)
    apply (for_axes_sound (symmetric_or_reflect_axis pw symmetric rt) pw);
      auto.
    intros i y y' Hi Hn Hy Hs.
    apply (symmetric_or_reflect_axis_sound pw symmetric rt); auto.
  - (* reflect *)
    apply (for_axes_sound (symmetric_or_reflect_axis pw reflect rt) pw);
      auto.
    intros i y y' Hi Hn Hy Hs.
    apply (symmetric_or_reflect_axis_sound pw reflect rt); auto.
  - (* edge *)
    apply (for_axes_sound (edge_axis pw) pw); auto.
    intros i y y' Hi Hn Hy Hs. apply edge_axis_sound; auto.
  - (* linear_ramp *)
    destruct (_broadcast_to_pairs ev (ndim a)) as [evs|e]; [|discriminate].
    cbn [bind] in Hr.
    apply (for_axes_sound (linear_ramp_axis pw evs) pw); auto.
    intros i y y' Hi Hn Hy Hs. apply (linear_ramp_axis_sound pw evs); auto.
  - (* maximum *)
    match type of Hr with
    | bind ?E _ = _ => destruct E as [sls|e]; [|discriminate]
    end.
    cbn [bind] in Hr.
    apply (for_axes_sound (stats_axis pw sls maximum) pw); auto.
    intros i y y' Hi Hn Hy Hs. apply (stats_axis_sound pw sls maximum); auto.
  - (* minimum *)
    match type of Hr with
    | bind ?E _ = _ => destruct E as [sls|e]; [|discriminate]
    end.
    cbn [bind] in Hr.
    apply (for_axes_sound (stats_axis pw sls minimum) pw); auto.
    intros i y y' Hi Hn Hy Hs. apply (stats_axis_sound pw sls minimum); auto.
  - (* mean *)
    match type of Hr with
    | bind ?E _ = _ => destruct E as [sls|e]; [|discriminate]
    end.
    cbn [bind] in Hr.
    apply (for_axes_sound (stats_axis pw sls mean) pw); auto.
    intros i y y' Hi Hn Hy Hs. apply (stats_axis_sound pw sls mean); auto.
  - (* median *)
    match type of Hr with
    | bind ?E _ = _ => destruct E as [sls|e]; [|discriminate]
    end.
    cbn [bind] in Hr.
    apply (for_axes_sound (stats_axis pw sls median) pw); auto.
    intros i y y' Hi Hn Hy Hs. apply (stats_axis_sound pw sls median); auto.
  - (* empty *)
    apply (for_axes_sound (empty_axis pw) pw); auto.
    intros i y y' Hi Hn Hy Hs. apply empty_axis_sound; auto.
Qed.

Lemma _pad_widths (a : array T) (w : pad_value_like Z) (m : mode)
  (cv : pad_value_like T) (sl : option (pad_value_like Z))
  (ev : pad_value_like T) (rt : reflect_kind)
  (pw : list (Z * Z)) (r : array T) :
  _broadcast_to_pairs w (ndim a) = Ok pw ->
  _pad a w m cv sl ev rt = Ok r ->
  nonneg_widths pw.
Proof.
  intros Hbc Hr.
  pose proof (broadcast_to_pairs_length _ _ _ Hbc) as Hlen.
  unfold _pad in Hr.
  destruct (Nat.eqb_spec (ndim a) 0) as [Hnd|Hnd].
  { rewrite Hnd in Hlen. destruct pw; [constructor|discriminate]. }
  rewrite Hbc in Hr. cbn [bind] in Hr.
  destruct (existsb _ pw) eqn:Hneg; [discriminate|].
  apply negative_widths_check. exact Hneg.
Qed.

Lemma _pad_stats_returns (a : array T) (pw : list (Z * Z))
  (sls : option (list (Z * Z))) (m : mode) :
  Forall (fun n => 0 <= n) (shape a) -> length pw = ndim a ->
  nonneg_widths pw -> all_nonempty (shape a) = true ->
  match sls with
  | None => True
  | Some l => length l = ndim a /\ positive_lengths l = true
  end ->
  exists r, _pad_stats a pw sls m = Ok r.
Proof.
  intros Ha Hlen Hw Hne Hsl. unfold _pad_stats.
  apply (for_axes_returns (stats_axis pw sls m) nonempty_accepts pw); auto.
  - intros i y y' Hi Hn Hy Hs. apply (stats_axis_sound pw sls m); auto.
  - intros i y Hi Hn Hy Hacc.
    apply (returns_of_total _ _ (stats_axis_pads pw sls m i y Hi Hy
                                   ltac:(destruct sls as [l|]; [|exact I];
                                         destruct Hsl as [Hl Hp];
                                         apply positive_lengths_nth;
                                         [exact Hp|lia])
                                   Hacc)).
  - intros i Hi. destruct (width_at_nonneg pw i Hw) as [Hb Hc].
    split; [|split; assumption].
    apply all_nonempty_nth; assumption.
Qed.

(** [_pad] returns on the inputs its mode accepts. *)
Lemma _pad_returns (a : array T) (w : pad_value_like Z) (m : mode)
  (cv : pad_value_like T) (sl : option (pad_value_like Z))
  (ev : pad_value_like T) (rt : reflect_kind) (pw : list (Z * Z)) :
  Forall (fun n => 0 <= n) (shape a) ->
  _broadcast_to_pairs w (ndim a) = Ok pw ->
  nonneg_widths pw ->
  accepted m a pw cv sl ev = true ->
  exists r, _pad a w m cv sl ev rt = Ok r.
Proof.
  intros Ha Hbc Hw Hacc.
  pose proof (broadcast_to_pairs_length _ _ _ Hbc) as Hlen.
  unfold _pad.
  destruct (Nat.eqb_spec (ndim a) 0) as [Hnd|Hnd];
    [eexists; reflexivity|].
  rewrite Hbc. cbn [bind].
  rewrite (proj2 (negative_widths_check pw) Hw).
  assert (Hguarded :
            forall i, (i < ndim a)%nat ->
                      no_padding_of_empty_axes (shape a) pw = true ->
                      guarded_accepts (dim a i) (width_at pw i)).
  { intros i Hi Hno. apply no_padding_guarded; auto. }
  assert (Hstats : forall m',
             all_nonempty (shape a)
             && match sl with
                | None => true
                | Some sl =>
                    match _broadcast_to_pairs sl (ndim a) with
                    | Ok sl => positive_lengths sl
                    | Raise _ => false
                    end
                end = true ->
             exists r,
               (stat_length <- match sl with
                               | Some sl =>
                                   sl <- _broadcast_to_pairs sl (ndim a) ;;
                                   Ok (Some sl)
                               | None => Ok None
                               end ;;
                _pad_stats a pw stat_length m') = Ok r).
  { intros m' Hs. apply andb_true_iff in Hs. destruct Hs as [Hne Hsl].
    destruct sl as [s|].
    - destruct (_broadcast_to_pairs s (ndim a)) as [sls|e] eqn:Hsls;
        [|discriminate].
      cbn [bind]. apply _pad_stats_returns; auto.
      split; [|exact Hsl]. eapply broadcast_to_pairs_length. exact Hsls.
    - cbn [bind]. apply _pad_stats_returns; auto. }
  destruct m; cbn [accepted] in Hacc.
  - (* constant *)
    apply is_ok_returns in Hacc. destruct Hacc as [cvs Hcvs].
    unfold _pad_constant.
    assert (Hloop :
              exists r, for_axes (constant_axis pw cvs (ndim a))
                                 (seq 0 (ndim a)) a = Ok r).
    { apply (for_axes_returns (constant_axis pw cvs (ndim a))
                              any_accepts pw); auto.
      - intros i y y' Hi Hn Hy Hs.
        apply (constant_axis_sound pw cvs (ndim a) i y y'); auto. lia.
      - intros i y Hi Hn Hy Hany.
        replace (ndim a) with (ndim y) by lia.
        apply (returns_of_total _ _ (constant_axis_pads pw cvs i y Hi Hany)).
      - intros i Hi. apply width_at_nonneg. exact Hw. }
    remember (map_pad_value convert_constant cv) as cv' eqn:Hcv.
    clear Hcv. destruct cv' as [v|l|rows].
    + eexists. reflexivity.
    + destruct l as [|v1 [|v2 [|v3 l]]]; try discriminate.
      * eexists. reflexivity.
      * cbn [length Nat.eqb negb bind]. rewrite Hcvs. cbn [bind].
        exact Hloop.
    + cbn [bind]. rewrite Hcvs. cbn [bind]. exact Hloop.
  - (* wrap *)
    apply (for_axes_returns (wrap_axis pw) guarded_accepts pw); auto.
    + intros i y y' Hi Hn Hy Hs. apply wrap_axis_sound; auto.
    + intros i y Hi Hn Hy Hg.
      apply (returns_of_total _ _ (wrap_axis_pads pw i y Hi Hy Hg)).
  - (* symmetric *)
    apply (for_axes_returns (symmetric_or_reflect_axis pw symmetric rt)
                            guarded_accepts pw); auto.
    + intros i y y' Hi Hn Hy Hs.
      apply (symmetric_or_reflect_axis_sound pw symmetric rt); auto.
    + intros i y Hi Hn Hy Hg.
      apply (returns_of_total _ _
               (symmetric_or_reflect_axis_pads pw symmetric rt i y
                  (or_introl eq_refl) Hi Hy Hg)).
  - (* reflect *)
    apply (for_axes_returns (symmetric_or_reflect_axis pw reflect rt)
                            guarded_accepts pw); auto.
    + intros i y y' Hi Hn Hy Hs.
      apply (symmetric_or_reflect_axis_sound pw reflect rt); auto.
    + intros i y Hi Hn Hy Hg.
      apply (returns_of_total _ _
               (symmetric_or_reflect_axis_pads pw reflect rt i y
                  (or_intror eq_refl) Hi Hy Hg)).
  - (* edge *)
    apply (for_axes_returns (edge_axis pw) guarded_accepts pw); auto.
    + intros i y y' Hi Hn Hy Hs. apply edge_axis_sound; auto.
    + intros i y Hi Hn Hy Hg.
      apply (returns_of_total _ _ (edge_axis_pads pw i y Hi Hy Hg)).
  - (* linear_ramp *)
    apply andb_true_iff in Hacc. destruct Hacc as [Hne Hev].
    apply is_ok_returns in Hev. destruct Hev as [evs Hevs].
    rewrite Hevs. cbn [bind].
    apply (for_axes_returns (linear_ramp_axis pw evs) nonempty_accepts pw);
      auto.
    + intros i y y' Hi Hn Hy Hs. apply (linear_ramp_axis_sound pw evs); auto.
    + intros i y Hi Hn Hy Hg.
      apply (returns_of_total _ _ (linear_ramp_axis_pads pw evs i y Hi Hy Hg)).
    + intros i Hi. destruct (width_at_nonneg pw i Hw) as [Hb Hc].
      split; [|split; assumption].
      apply all_nonempty_nth; assumption.
  - apply Hstats. exact Hacc.
  - apply Hstats. exact Hacc.
  - apply Hstats. exact Hacc.
  - apply Hstats. exact Hacc.
  - (* empty *)
    apply (for_axes_returns (empty_axis pw) any_accepts pw); auto.
    + intros i y y' Hi Hn Hy Hs. apply empty_axis_sound; auto.
    + intros i y Hi Hn Hy [Hb _].
      apply (returns_of_total _ _ (empty_axis_pads pw i y Hi Hb)).
    + intros i Hi. apply width_at_nonneg. exact Hw.
Qed.

(** The modes that check an axis of length zero. *)
Definition guarded (m : mode) : bool :=
  match m with
  | wrap | symmetric | reflect | edge => true
  | _ => false
  end.

(** [_pad] in a guarded mode raises when an axis of length zero is to get
    some padding. *)
Lemma _pad_rejects (a : array T) (w : pad_value_like Z) (m : mode)
  (cv : pad_value_like T) (sl : option (pad_value_like Z))
  (ev : pad_value_like T) (rt : reflect_kind) (pw : list (Z * Z))
  (i : nat) :
  Forall (fun n => 0 <= n) (shape a) ->
  _broadcast_to_pairs w (ndim a) = Ok pw ->
  nonneg_widths pw ->
  guarded m = true ->
  (i < ndim a)%nat -> dim a i = 0 ->
  0 < fst (width_at pw i) \/ 0 < snd (width_at pw i) ->
  _pad a w m cv sl ev rt = Raise ValueError.
Proof.
  intros Ha Hbc Hw Hm Hi H0 Hpad.
  pose proof (broadcast_to_pairs_length _ _ _ Hbc) as Hlen.
  unfold _pad.
  destruct (Nat.eqb_spec (ndim a) 0) as [Hnd|Hnd]; [lia|].
  rewrite Hbc. cbn [bind].
  rewrite (proj2 (negative_widths_check pw) Hw).
  assert (Hrej : ~ guarded_accepts (dim a i) (width_at pw i)).
  { unfold guarded_accepts. lia. }
  destruct m; try discriminate.
  - (* wrap *)
    apply (for_axes_rejects (wrap_axis pw) guarded_accepts pw) with (i := i);
      auto.
    + intros k y y' Hk Hn Hy Hs. apply wrap_axis_sound; auto.
    + intros k y Hk Hn Hy Hg.
      apply (returns_of_total _ _ (wrap_axis_pads pw k y Hk Hy Hg)).
    + intros k y Hk Hn Hy Hno.
      destruct (width_at_nonneg pw k Hw) as [Hb Hc].
      apply wrap_axis_rejects; assumption.
    + apply guarded_accepts_dec.
  - (* symmetric *)
    apply (for_axes_rejects (symmetric_or_reflect_axis pw symmetric rt)
                            guarded_accepts pw) with (i := i); auto.
    + intros k y y' Hk Hn Hy Hs.
      apply (symmetric_or_reflect_axis_sound pw symmetric rt); auto.
    + intros k y Hk Hn Hy Hg.
      apply (returns_of_total _ _
               (symmetric_or_reflect_axis_pads pw symmetric rt k y
                  (or_introl eq_refl) Hk Hy Hg)).
    + intros k y Hk Hn Hy Hno.
      destruct (width_at_nonneg pw k Hw) as [Hb Hc].
      apply symmetric_or_reflect_axis_rejects; assumption.
    + apply guarded_accepts_dec.
  - (* reflect *)
    apply (for_axes_rejects (symmetric_or_reflect_axis pw reflect rt)
                            guarded_accepts pw) with (i := i); auto.
    + intros k y y' Hk Hn Hy Hs.
      apply (symmetric_or_reflect_axis_sound pw reflect rt); auto.
    + intros k y Hk Hn Hy Hg.
      apply (returns_of_total _ _
               (symmetric_or_reflect_axis_pads pw reflect rt k y
                  (or_intror eq_refl) Hk Hy Hg)).
    + intros k y Hk Hn Hy Hno.
      destruct (width_at_nonneg pw k Hw) as [Hb Hc].
      apply symmetric_or_reflect_axis_rejects; assumption.
    + apply guarded_accepts_dec.
  - (* edge *)
    apply (for_axes_rejects (edge_axis pw) guarded_accepts pw) with (i := i);
      auto.
    + intros k y y' Hk Hn Hy Hs. apply edge_axis_sound; auto.
    + intros k y Hk Hn Hy Hg.
      apply (returns_of_total _ _ (edge_axis_pads pw k y Hk Hy Hg)).
    + intros k y Hk Hn Hy Hno.
      destruct (width_at_nonneg pw k Hw) as [Hb Hc].
      apply edge_axis_rejects; assumption.
    + apply guarded_accepts_dec.
Qed.

(** The mode parameters that [pad] hands to [_pad]. *)
Definition constant_values_of (kw : kwargs T) : pad_value_like T :=
  match kw_constant_values kw with Some v => v | None => pv_scalar zero end.

Definition stat_length_of (kw : kwargs T) : option (pad_value_like Z) :=
  match kw_stat_length kw with Some v => v | None => None end.

Definition end_values_of (kw : kwargs T) : pad_value_like T :=
  match kw_end_values kw with Some v => v | None => pv_scalar zero end.

Definition reflect_type_of (kw : kwargs T) : reflect_kind :=
  match kw_reflect_type kw with Some v => v | None => even end.

(** The calls of [pad] that return: keyword arguments of the mode only, and
    an input that the mode accepts. *)
Definition accepted_call (m : mode) (a : array T) (pw : list (Z * Z))
  (kw : kwargs T) : bool :=
  negb (unsupported_kwargs m kw)
  && accepted m a pw (constant_values_of kw) (stat_length_of kw)
       (end_values_of kw).

Lemma pad_unfold (a : array T) (w : pad_value_like Z) (m : mode)
  (kw : kwargs T) (pw : list (Z * Z)) :
  _broadcast_to_pairs w (ndim a) = Ok pw ->
  unsupported_kwargs m kw = false ->
  pad a w m kw
  = _pad a (pv_matrix (pairs_to_rows pw)) m (constant_values_of kw)
         (stat_length_of kw) (end_values_of kw) (reflect_type_of kw).
Proof.
  intros Hbc Hkw. unfold pad. rewrite Hbc. cbn [bind]. rewrite Hkw.
  reflexivity.
Qed.

(** Whenever [pad] returns, it has padded by the widths that
    [_broadcast_to_pairs] makes of [pad_width]. *)
Lemma pad_sound (a : array T) (w : pad_value_like Z) (m : mode)
  (kw : kwargs T) (r : array T) :
  Forall (fun n => 0 <= n) (shape a) ->
  pad a w m kw = Ok r ->
  exists pw, _broadcast_to_pairs w (ndim a) = Ok pw /\
             nonneg_widths pw /\ pads a pw r.
Proof.
  intros Ha Hr.
  destruct (_broadcast_to_pairs w (ndim a)) as [pw|e] eqn:Hbc.
  2:{ unfold pad in Hr. rewrite Hbc in Hr. discriminate. }
  destruct (unsupported_kwargs m kw) eqn:Hkw.
  { unfold pad in Hr. rewrite Hbc in Hr. cbn [bind] in Hr.
    rewrite Hkw in Hr. discriminate. }
  rewrite (pad_unfold a w m kw pw Hbc Hkw) in Hr.
  pose proof (broadcast_to_pairs_length _ _ _ Hbc) as Hlen.
  pose proof (broadcast_pairs_again pw (ndim a) Hlen) as Hagain.
  exists pw. split; [reflexivity|]. split.
  - exact (_pad_widths _ _ _ _ _ _ _ _ _ Hagain Hr).
  - exact (_pad_sound _ _ _ _ _ _ _ _ _ Ha Hagain Hr).
Qed.

Lemma pad_returns (a : array T) (w : pad_value_like Z) (m : mode)
  (kw : kwargs T) (pw : list (Z * Z)) :
  Forall (fun n => 0 <= n) (shape a) ->
  _broadcast_to_pairs w (ndim a) = Ok pw ->
  nonneg_widths pw ->
  accepted_call m a pw kw = true ->
  exists r, pad a w m kw = Ok r.
Proof.
  intros Ha Hbc Hw Hacc. unfold accepted_call in Hacc.
  apply andb_true_iff in Hacc. destruct Hacc as [Hkw Hacc].
  apply negb_true_iff in Hkw.
  rewrite (pad_unfold a w m kw pw Hbc Hkw).
  pose proof (broadcast_to_pairs_length _ _ _ Hbc) as Hlen.
  apply (_pad_returns a _ m _ _ _ _ pw); auto.
  apply broadcast_pairs_again. exact Hlen.
Qed.

Lemma pad_rejects (a : array T) (w : pad_value_like Z) (m : mode)
  (kw : kwargs T) (pw : list (Z * Z)) (i : nat) :
  Forall (fun n => 0 <= n) (shape a) ->
  _broadcast_to_pairs w (ndim a) = Ok pw ->
  nonneg_widths pw ->
  guarded m = true ->
  (i < ndim a)%nat -> dim a i = 0 ->
  0 < fst (width_at pw i) \/ 0 < snd (width_at pw i) ->
  pad a w m kw = Raise ValueError.
Proof.
  intros Ha Hbc Hw Hm Hi H0 Hpad.
  destruct (unsupported_kwargs m kw) eqn:Hkw.
  { unfold pad. rewrite Hbc. cbn [bind]. rewrite Hkw. reflexivity. }
  rewrite (pad_unfold a w m kw pw Hbc Hkw).
  pose proof (broadcast_to_pairs_length _ _ _ Hbc) as Hlen.
  apply (_pad_rejects a _ m _ _ _ _ pw i); auto.
  apply broadcast_pairs_again. exact Hlen.
Qed.

(** *** The shape of the result, axis by axis *)

(** Every axis has grown by its two widths. *)
Definition grown (a : array T) (pw : list (Z * Z)) (r : array T) : Prop :=
  ndim r = ndim a /\
  forall i, (i < ndim a)%nat ->
            dim r i = dim a i + fst (width_at pw i) + snd (width_at pw i).

Lemma padded_shape_nth (shp : list Z) (pw : list (Z * Z)) (i : nat) :
  length pw = length shp -> (i < length shp)%nat ->
  nth i (padded_shape shp pw) 0
  = nth i shp 0 + fst (width_at pw i) + snd (width_at pw i).
Proof.
  unfold padded_shape, width_at. revert pw i.
  induction shp as [|n shp IH]; intros [|p pw] [|i] Hlen Hi; simpl in *;
    try lia.
  apply IH; lia.
Qed.

Lemma padded_shape_length (shp : list Z) (pw : list (Z * Z)) :
  length pw = length shp -> length (padded_shape shp pw) = length shp.
Proof.
  intros Hlen. unfold padded_shape. rewrite length_map, length_combine. lia.
Qed.

Lemma pads_grown (a : array T) (pw : list (Z * Z)) (r : array T) :
  length pw = ndim a -> pads a pw r -> grown a pw r.
Proof.
  intros Hlen [Hs _]. unfold grown, ndim, dim in *. rewrite Hs. split.
  - apply padded_shape_length. exact Hlen.
  - intros i Hi. apply padded_shape_nth; assumption.
Qed.

(** *** Slicing back to the region of the input *)

(** [r[b_0 : b_0 + n_0, ..., b_k : b_k + n_k]] for the lengths [shp] and
    the widths [pw], one axis after the other. *)
Definition slice_back (r : array T) (shp : list Z) (pw : list (Z * Z))
  : result (array T) :=
  for_axes (fun i y => slice_in_dim y (fst (width_at pw i))
                         (Some (fst (width_at pw i) + nth i shp 0)) i)
           (seq 0 (length shp)) r.

(** The shape after the first [k] axes have been cut back. *)
Fixpoint crop_first (k : nat) (shp : list Z) (pw : list (Z * Z)) : list Z :=
  match shp, pw with
  | n :: shp', p :: pw' =>
      match k with
      | O => (n + fst p + snd p) :: crop_first O shp' pw'
      | S k' => n :: crop_first k' shp' pw'
      end
  | _, _ => shp
  end.

Lemma crop_first_none (shp : list Z) (pw : list (Z * Z)) :
  length pw = length shp -> crop_first 0 shp pw = padded_shape shp pw.
Proof.
  unfold padded_shape. revert pw.
  induction shp as [|n shp IH]; intros [|p pw] Hlen; simpl in *;
    try lia; [reflexivity|].
  f_equal. apply IH. lia.
Qed.

Lemma crop_first_all (shp : list Z) (pw : list (Z * Z)) :
  crop_first (length shp) shp pw = shp.
Proof.
  revert pw. induction shp as [|n shp IH]; intros [|p pw]; simpl;
    try reflexivity.
  f_equal. apply IH.
Qed.

Lemma crop_first_length (k : nat) (shp : list Z) (pw : list (Z * Z)) :
  length (crop_first k shp pw) = length shp.
Proof.
  revert k pw. induction shp as [|n shp IH]; intros k [|p pw]; simpl;
    try reflexivity.
  destruct k; simpl; f_equal; apply IH.
Qed.

Lemma crop_first_nth (k : nat) (shp : list Z) (pw : list (Z * Z)) :
  (k < length shp)%nat -> length pw = length shp ->
  nth k (crop_first k shp pw) 0
  = nth k shp 0 + fst (width_at pw k) + snd (width_at pw k).
Proof.
  unfold width_at. revert k pw.
  induction shp as [|n shp IH]; intros [|k] [|p pw] Hk Hlen; simpl in *;
    try lia.
  apply IH; lia.
Qed.

Lemma crop_first_step (k : nat) (shp : list Z) (pw : list (Z * Z)) :
  (k < length shp)%nat -> length pw = length shp ->
  set_nth (crop_first k shp pw) k (nth k shp 0) = crop_first (S k) shp pw.
Proof.
  revert k pw.
  induction shp as [|n shp IH]; intros [|k] [|p pw] Hk Hlen; simpl in *;
    try lia.
  - reflexivity.
  - f_equal. apply IH; lia.
Qed.

Lemma shift_first_set (k : nat) (idx : list Z) (pw : list (Z * Z)) (v : Z) :
  shift_first k (set_nth idx k v) pw = set_nth (shift_first k idx pw) k v.
Proof.
  revert idx pw. induction k as [|k IH]; intros [|j idx] [|p pw]; simpl;
    try reflexivity.
  f_equal. apply IH.
Qed.

Lemma set_nth_shift_first (k : nat) (idx : list Z) (pw : list (Z * Z)) :
  (k < length idx)%nat -> length pw = length idx ->
  shift_first k (with_coord idx k (coord idx k + fst (width_at pw k))) pw
  = shift_first (S k) idx pw.
Proof.
  intros Hk Hlen. unfold with_coord, coord.
  rewrite shift_first_set.
  apply (shift_first_step k idx pw Hk Hlen).
Qed.

Section SliceBack.

Variable a r : array T.
Variable pw : list (Z * Z).
Hypothesis a_shape : Forall (fun n => 0 <= n) (shape a).
Hypothesis pw_length : length pw = ndim a.
Hypothesis pw_nonneg : nonneg_widths pw.
Hypothesis r_shape : shape r = padded_shape (shape a) pw.

Definition cropped (k : nat) (y : array T) : Prop :=
  shape y = crop_first k (shape a) pw /\
  forall idx, length idx = ndim a ->
              at_ y idx = at_ r (shift_first k idx pw).

Lemma slice_back_from (rem k : nat) (y : array T) :
  (k + rem = ndim a)%nat -> cropped k y ->
  exists s,
    for_axes (fun i y => slice_in_dim y (fst (width_at pw i))
                           (Some (fst (width_at pw i) + nth i (shape a) 0)) i)
             (seq k rem) y = Ok s /\
    cropped (ndim a) s.
Proof using a_shape pw_length pw_nonneg.
  revert k y. induction rem as [|rem IH]; intros k y Hk [Hs Hat]; simpl.
  - exists y. split; [reflexivity|].
    replace (ndim a) with k by lia. split; assumption.
  - assert (Hk' : (k < length (shape a))%nat) by (unfold ndim in *; lia).
    assert (Hdim : dim y k = dim a k + fst (width_at pw k)
                             + snd (width_at pw k)).
    { unfold dim. rewrite Hs. apply crop_first_nth; assumption. }
    destruct (width_at_nonneg pw k pw_nonneg) as [Hb Hc].
    pose proof (dim_nonneg a k a_shape) as Hn. unfold dim in Hn, Hdim.
    rewrite slice_in_dim_ok by (unfold dim; lia).
    cbn [bind]. apply IH; [lia|]. split.
    + cbn [shape]. rewrite Hs.
      replace (fst (width_at pw k) + nth k (shape a) 0 - fst (width_at pw k))
        with (nth k (shape a) 0) by lia.
      apply crop_first_step; assumption.
    + intros idx Hlen. cbn [at_].
      rewrite Hat by (unfold with_coord; rewrite set_nth_length; exact Hlen).
      rewrite set_nth_shift_first; [reflexivity| |];
        unfold ndim in *; lia.
Qed.

End SliceBack.

(** Cutting a padded array back gives the input. *)
Lemma slice_back_pads (a r : array T) (pw : list (Z * Z)) :
  Forall (fun n => 0 <= n) (shape a) -> length pw = ndim a ->
  nonneg_widths pw -> pads a pw r ->
  exists s, slice_back r (shape a) pw = Ok s /\ array_eq s a.
Proof.
  intros Ha Hlen Hw [Hs Hat].
  destruct (slice_back_from a r pw Ha Hlen Hw (ndim a) 0 r eq_refl)
    as [s [Hsb [Hss Hsat]]].
  { split.
    - rewrite Hs. symmetry. apply crop_first_none. exact Hlen.
    - intros idx _. destruct idx, pw; reflexivity. }
  exists s. split; [exact Hsb|]. split.
  - rewrite Hss. apply crop_first_all.
  - intros idx Hb.
    assert (Hb' : in_bounds (shape a) idx).
    { rewrite Hss in Hb. unfold ndim in Hb. rewrite crop_first_all in Hb.
      exact Hb. }
    pose proof (in_bounds_length _ _ Hb') as Hl.
    rewrite Hsat by exact Hl.
    rewrite <- (Hat idx Hb'). f_equal.
    unfold ndim. rewrite <- Hl. apply shift_first_all.
    unfold ndim in Hlen. lia.
Qed.

(** C3 (amended): for every array, width specification and supported mode,
    an array that [pad] returns has, on every axis [i], the length
    [a.shape[i] + before_i + after_i] for the non-negative pairs that the
    width specification normalises to; and [pad] does return one when the
    keyword arguments are those of the mode and the mode accepts the input
    (no padding of an axis of length zero in the modes wrap, symmetric,
    reflect and edge; no axis of length zero in the modes linear_ramp,
    maximum, minimum, mean and median; mode parameters that broadcast to one
    pair per axis, with positive statistic lengths). *)
Theorem pad_shape (a : array T) (w : pad_value_like Z) (m : mode)
  (kw : kwargs T) :
  Forall (fun n => 0 <= n) (shape a) ->
  (forall r, pad a w m kw = Ok r ->
             exists pw, _broadcast_to_pairs w (ndim a) = Ok pw /\
                        nonneg_widths pw /\ grown a pw r) /\
  (forall pw, _broadcast_to_pairs w (ndim a) = Ok pw ->
              nonneg_widths pw ->
              accepted_call m a pw kw = true ->
              exists r, pad a w m kw = Ok r /\ grown a pw r).
Proof.
  intros Ha. split.
  - intros r Hr. destruct (pad_sound a w m kw r Ha Hr) as [pw [Hbc [Hw Hp]]].
    exists pw. split; [exact Hbc|]. split; [exact Hw|].
    apply pads_grown; [|exact Hp].
    eapply broadcast_to_pairs_length. exact Hbc.
  - intros pw Hbc Hw Hacc.
    destruct (pad_returns a w m kw pw Ha Hbc Hw Hacc) as [r Hr].
    exists r. split; [exact Hr|].
    destruct (pad_sound a w m kw r Ha Hr) as [pw' [Hbc' [_ Hp]]].
    rewrite Hbc in Hbc'. inversion Hbc'; subst pw'.
    apply pads_grown; [|exact Hp].
    eapply broadcast_to_pairs_length. exact Hbc.
Qed.

(** C4 (amended): in the modes wrap, symmetric, reflect and edge, [pad] on
    an array that has an axis of length zero, with a non-zero width on that
    axis, raises [ValueError]; in the mode empty, and in the mode constant
    with constant values that broadcast to one pair per axis, it returns the
    enlarged array instead. *)
Theorem pad_empty_axis_rejected (a : array T) (w : pad_value_like Z)
  (m : mode) (kw : kwargs T) (pw : list (Z * Z)) (i : nat) :
  Forall (fun n => 0 <= n) (shape a) ->
  _broadcast_to_pairs w (ndim a) = Ok pw ->
  nonneg_widths pw ->
  (i < ndim a)%nat -> dim a i = 0 -> width_at pw i <> (0, 0) ->
  (guarded m = true -> pad a w m kw = Raise ValueError) /\
  (m = constant \/ m = empty -> accepted_call m a pw kw = true ->
   exists r, pad a w m kw = Ok r /\
             dim r i = fst (width_at pw i) + snd (width_at pw i)).
Proof.
  intros Ha Hbc Hw Hi H0 Hne. split.
  - intros Hm. apply (pad_rejects a w m kw pw i); auto.
    destruct (width_at_nonneg pw i Hw) as [Hb Hc].
    destruct (width_at pw i) as [b c]. cbn [fst snd] in *.
    destruct (Z.eq_dec b 0) as [->|Hb0]; [|lia].
    destruct (Z.eq_dec c 0) as [->|Hc0]; [|lia].
    contradiction Hne. reflexivity.
  - intros _ Hacc.
    destruct (pad_returns a w m kw pw Ha Hbc Hw Hacc) as [r Hr].
    exists r. split; [exact Hr|].
    destruct (pad_sound a w m kw r Ha Hr) as [pw' [Hbc' [_ Hp]]].
    rewrite Hbc in Hbc'. inversion Hbc'; subst pw'.
    pose proof (broadcast_to_pairs_length _ _ _ Hbc) as Hlen.
    destruct (pads_grown a pw r Hlen Hp) as [_ Hg].
    rewrite (Hg i Hi), H0. lia.
Qed.

(** C6 (amended): for every array, width specification and supported mode,
    slicing an array that [pad] returns back to the region of the input
    ([before_i : before_i + a.shape[i]] on every axis [i]) gives exactly the
    input; and [pad] does return one when the keyword arguments are those of
    the mode and the mode accepts the input. *)
Theorem pad_slice_back (a : array T) (w : pad_value_like Z) (m : mode)
  (kw : kwargs T) :
  Forall (fun n => 0 <= n) (shape a) ->
  (forall r, pad a w m kw = Ok r ->
             exists pw s, _broadcast_to_pairs w (ndim a) = Ok pw /\
                          slice_back r (shape a) pw = Ok s /\
                          array_eq s a) /\
  (forall pw, _broadcast_to_pairs w (ndim a) = Ok pw ->
              nonneg_widths pw ->
              accepted_call m a pw kw = true ->
              exists r s, pad a w m kw = Ok r /\
                          slice_back r (shape a) pw = Ok s /\
                          array_eq s a).
Proof.
  intros Ha.
  assert (Hback : forall r, pad a w m kw = Ok r ->
             exists pw s, _broadcast_to_pairs w (ndim a) = Ok pw /\
                          slice_back r (shape a) pw = Ok s /\
                          array_eq s a).
  { intros r Hr.
    destruct (pad_sound a w m kw r Ha Hr) as [pw [Hbc [Hw Hp]]].
    pose proof (broadcast_to_pairs_length _ _ _ Hbc) as Hlen.
    destruct (slice_back_pads a r pw Ha Hlen Hw Hp) as [s [Hs Heq]].
    exists pw, s. auto. }
  split; [exact Hback|].
  intros pw Hbc Hw Hacc.
  destruct (pad_returns a w m kw pw Ha Hbc Hw Hacc) as [r Hr].
  destruct (Hback r Hr) as [pw' [s [Hbc' [Hs Heq]]]].
  rewrite Hbc in Hbc'. inversion Hbc'; subst pw'.
  exists r, s. auto.
Qed.

End Top.

(** *** Instances on arrays of integers *)

Lemma pad_shape_witness :
  exists r, pad (of_list 0 [1; 2; 3]) (pv_scalar 2) reflect no_kwargs = Ok r /\
            grown (of_list 0 [1; 2; 3]) [(2, 2)] r.
Proof.
  assert (Ha : Forall (fun n => 0 <= n) (shape (of_list 0 [1; 2; 3]))).
  { constructor; [cbn; lia|constructor]. }
  apply (proj2 (pad_shape (of_list 0 [1; 2; 3]) (pv_scalar 2) reflect
                  no_kwargs Ha)
               [(2, 2)]).
  - reflexivity.
  - constructor; [simpl; lia|constructor].
  - reflexivity.
Defined.

(** C3, as stated, fails in the edge mode on an axis of length zero that is
    to get padding: [pad(zeros((0,)), 1, mode='edge')] raises instead of
    returning an array of shape [(2,)]. *)
Lemma pad_edge_empty_axis_raises :
  pad (mk_array [0] (fun _ => 0)) (pv_scalar 1) edge no_kwargs
  = Raise ValueError.
Proof. reflexivity. Qed.

Lemma pad_empty_axis_rejected_witness :
  pad (mk_array [2; 0] (fun _ => 5)) (pv_vector [0; 1]) wrap no_kwargs
  = Raise ValueError /\
  exists r,
    pad (mk_array [2; 0] (fun _ => 5)) (pv_vector [0; 1]) empty no_kwargs
    = Ok r /\
    dim r 1 = fst (width_at [(0, 1); (0, 1)] 1)
              + snd (width_at [(0, 1); (0, 1)] 1).
Proof.
  assert (Ha : Forall (fun n => 0 <= n)
                      (shape (mk_array [2; 0] (fun _ : list Z => 5)))).
  { constructor; [cbn; lia|]. constructor; [cbn; lia|constructor]. }
  assert (Hw : nonneg_widths [(0, 1); (0, 1)]).
  { constructor; [simpl; lia|]. constructor; [simpl; lia|constructor]. }
  assert (Hi : (1 < ndim (mk_array [2; 0]%Z (fun _ : list Z => 5%Z)))%nat).
  { unfold ndim. cbn. lia. }
  assert (Hne : width_at [(0, 1); (0, 1)] 1 <> (0, 0)) by discriminate.
  split.
  - apply (proj1 (pad_empty_axis_rejected (mk_array [2; 0] (fun _ => 5))
                    (pv_vector [0; 1]) wrap no_kwargs [(0, 1); (0, 1)] 1%nat
                    Ha eq_refl Hw Hi eq_refl Hne)).
    reflexivity.
  - apply (proj2 (pad_empty_axis_rejected (mk_array [2; 0] (fun _ => 5))
                    (pv_vector [0; 1]) empty no_kwargs [(0, 1); (0, 1)] 1%nat
                    Ha eq_refl Hw Hi eq_refl Hne)).
    + right. reflexivity.
    + reflexivity.
Defined.

(** C4, as stated, fails in the constant mode, which pads an axis of length
    zero: [pad(zeros((0,)), 1, mode='constant')] returns the two fill
    values. *)
Lemma pad_constant_empty_axis_returns :
  exists r, pad (mk_array [0] (fun _ => 7)) (pv_scalar 1) constant no_kwargs
            = Ok r /\
            shape r = [2] /\ at_ r [0] = 0 /\ at_ r [1] = 0.
Proof. eexists. split; [reflexivity|]. repeat split. Qed.

Lemma pad_slice_back_witness :
  exists r s,
    pad (of_list 0 [10; 20; 30; 40]) (pv_vector [2; 4]) symmetric no_kwargs
    = Ok r /\
    slice_back r (shape (of_list 0 [10; 20; 30; 40])) [(2, 4)] = Ok s /\
    array_eq s (of_list 0 [10; 20; 30; 40]).
Proof.
  assert (Ha : Forall (fun n => 0 <= n)
                       (shape (of_list 0 [10; 20; 30; 40]))).
  { constructor; [cbn; lia|constructor]. }
  apply (proj2 (pad_slice_back (of_list 0 [10; 20; 30; 40])
                  (pv_vector [2; 4]) symmetric no_kwargs Ha)
               [(2, 4)]).
  - reflexivity.
  - constructor; [simpl; lia|constructor].
  - reflexivity.
Defined.

(** C6, as stated, fails in the wrap mode on an axis of length zero that is
    to get padding: [pad(zeros((2, 0)), ((0, 0), (1, 1)), mode='wrap')]
    raises, so there is nothing to slice back. *)
Lemma pad_wrap_empty_axis_raises :
  pad (mk_array [2; 0] (fun _ => 0)) (pv_matrix [[0; 0]; [1; 1]]) wrap
      no_kwargs
  = Raise ValueError.
Proof. reflexivity. Qed.

End PadFacts.

(** ** [digitize] *)

Module DigitizeFacts.

Import Arr Search Digitize ArrFacts SearchFacts.

Section DigitizeCorrect.

Context {E : Type} `{SortKey E} `{Comparable E}.

(** Every method of the search counts, on a sorted array whose length fits
    the index dtype. *)
Lemma searchsorted_is_count (r q : list E) (s : side) (m : method) :
  sorted r -> len r <= 2 ^ 63 - 1 ->
  searchsorted r q s m = map (count_before s r) q.
Proof.
  intros Hs Hmax. unfold searchsorted.
  pose proof (dtype_fits r Hmax) as Hfit.
  destruct (Z.eqb_spec (len r) 0) as [Hz|Hz].
  - destruct r as [|a r]; [|unfold len in Hz; simpl in Hz; lia].
    apply map_ext. intros x. destruct s; reflexivity.
  - assert (Hn : 1 <= len r) by (pose proof (len_nonneg r); lia).
    destruct m; method_counts Hs Hn Hfit.
Qed.

Lemma count_before_range (s : side) (r : list E) (q : E) :
  0 <= count_before s r q <= len r.
Proof.
  unfold count_before. destruct s.
  - split; [apply len_nonneg|apply len_filter_le].
  - split; [apply len_nonneg|apply len_filter_le].
Qed.

Lemma combine_map_fst {A B C : Type} (f : A -> B) (g : A -> C) (l : list A) :
  map fst (combine (map f l) (map g l)) = map f l.
Proof. induction l as [|a l IH]; simpl; [reflexivity|]. f_equal. exact IH. Qed.

Lemma combine_map_snd {A B C : Type} (f : A -> B) (g : A -> C) (l : list A) :
  map snd (combine (map f l) (map g l)) = map g l.
Proof. induction l as [|a l IH]; simpl; [reflexivity|]. f_equal. exact IH. Qed.

(** What is not counted by the reversed search. *)
Definition count_after (s : side) (r : list E) (q : E) : Z :=
  match s with
  | left => len (filter (fun x => negb (_sort_lt_comparator x q)) r)
  | right => len (filter (fun x => negb (_sort_le_comparator x q)) r)
  end.

Lemma filter_split_length {A : Type} (p : A -> bool) (l : list A) :
  len (filter p l) + len (filter (fun x => negb (p x)) l) = len l.
Proof.
  unfold len. induction l as [|a l IH]; [reflexivity|].
  cbn [filter]. destruct (p a); cbn [negb length]; lia.
Qed.

Lemma filter_rev_length {A : Type} (p : A -> bool) (l : list A) :
  len (filter p (rev l)) = len (filter p l).
Proof.
  unfold len. f_equal. apply filter_length_perm.
  apply Permutation_sym, Permutation_rev.
Qed.

Lemma count_after_before (s : side) (r : list E) (q : E) :
  len r - count_before s (rev r) q = count_after s r q.
Proof.
  unfold count_before, count_after. destruct s.
  - rewrite filter_rev_length.
    pose proof (filter_split_length (fun x => _sort_lt_comparator x q) r)
      as Hsplit.
    cbv beta in Hsplit. lia.
  - rewrite filter_rev_length.
    pose proof (filter_split_length (fun x => _sort_le_comparator x q) r)
      as Hsplit.
    cbv beta in Hsplit. lia.
Qed.

(** The last element of a sorted array is not below its first. *)
Lemma sorted_ends (first : E) (rest : list E) :
  sorted (first :: rest) ->
  _sort_le_comparator first (last (first :: rest) first) = true.
Proof.
  intros Hs. apply sorted_strongly in Hs. inversion Hs as [|a l _ Hall]; subst.
  destruct rest as [|b rest]; [apply le_refl|].
  rewrite Forall_forall in Hall. apply Hall.
  change (last (first :: b :: rest) first) with (last (b :: rest) first).
  destruct (exists_last (l := b :: rest) ltac:(discriminate)) as [l' [z Hz]].
  rewrite Hz, last_last. apply in_or_app. right. left. reflexivity.
Qed.

Lemma select_branch {A : Type} (c : bool) (l1 l2 : list A) :
  length l1 = length l2 ->
  map (fun p => if c then fst p else snd p) (combine l1 l2)
  = if c then l1 else l2.
Proof.
  revert l2. induction l1 as [|a l1 IH]; intros [|b l2] Hlen; simpl in *;
    try discriminate.
  - destruct c; reflexivity.
  - rewrite IH by lia. destruct c; reflexivity.
Qed.

(** The result has one entry per query, whatever the reference array. *)
Lemma searchsorted_length (a v : list E) (s : side) (m : method) :
  length (searchsorted a v s m) = length v.
Proof.
  unfold searchsorted. destruct (len a =? 0); [apply length_map|].
  destruct m.
  - apply length_map.
  - apply length_map.
  - unfold _searchsorted_via_sort. rewrite !length_map, length_combine.
    assert (Hrank : forall l : list E, length (_rank l) = length l).
    { intros l. unfold _rank. rewrite at_set_length.
      unfold zeros, iota. rewrite repeat_length, length_map, length_seq.
      reflexivity. }
    rewrite Hrank. destruct s.
    + rewrite length_firstn, Hrank, length_app. lia.
    + rewrite length_skipn, Hrank, length_app. lia.
  - apply length_map.
Qed.

Lemma digitize_counts (x : list E) (right_ : bool) (m : option method)
  (first : E) (rest : list E) :
  let bins := first :: rest in
  let s := if negb right_ then right else left in
  len bins <= 2 ^ 63 - 1 ->
  (sorted bins ->
   ge (last bins first) first = true ->
   digitize x bins right_ m = map (count_before s bins) x) /\
  (sorted (rev bins) ->
   ge (last bins first) first = false ->
   digitize x bins right_ m = map (count_after s bins) x).
Proof.
  intros bins s Hmax.
  assert (Hrev : len (rev bins) <= 2 ^ 63 - 1).
  { unfold len in *. rewrite length_rev. exact Hmax. }
  assert (Hd : digitize x bins right_ m
               = map (fun p => if ge (last bins first) first
                               then fst p else snd p)
                   (combine
                      (searchsorted bins x s
                         match m with None => scan | Some m => m end)
                      (map (fun r => as_signed
                                       (if len bins <=? int32_max
                                        then int32 else int64)
                                       (len bins - r))
                           (searchsorted (rev bins) x s
                              match m with None => scan | Some m => m end))))
    by reflexivity.
  rewrite Hd. clear Hd.
  rewrite select_branch
    by (rewrite length_map, !searchsorted_length; reflexivity).
  split; intros Hs Hge; rewrite Hge.
  - apply searchsorted_is_count; assumption.
  - rewrite (searchsorted_is_count (rev bins) x s _ Hs Hrev).
    rewrite map_map.
    apply map_ext. intros q. rewrite <- count_after_before.
    apply as_signed_small.
    pose proof (count_before_range s (rev bins) q) as Hc.
    pose proof (dtype_fits bins Hmax) as Hfit.
    assert (Hl : len (rev bins) = len bins)
      by (unfold len; rewrite length_rev; reflexivity).
    lia.
Qed.

(** X1: for bin edges in increasing order (sorted by the comparator of the
    search, which the ordinary [>=] agrees with), [digitize] returns for
    every value the number of edges not above it, or with [right=True] the
    number of edges strictly below it; for no edges at all it returns
    zeros. *)
Theorem digitize_increasing (x bins : list E) (right_ : bool)
  (m : option method) :
  (forall a b, ge a b = _sort_le_comparator b a) ->
  sorted bins -> len bins <= 2 ^ 63 - 1 ->
  digitize x bins right_ m
  = map (count_before (if right_ then left else right) bins) x.
Proof.
  intros Hge Hs Hmax. destruct bins as [|first rest].
  - unfold digitize. apply map_ext. intros q. destruct right_; reflexivity.
  - destruct (digitize_counts x right_ m first rest Hmax) as [Hinc _].
    rewrite Hinc.
    + destruct right_; reflexivity.
    + exact Hs.
    + rewrite Hge. apply sorted_ends. exact Hs.
Qed.

(** X2: for bin edges in decreasing order whose last edge is strictly below
    the first, [digitize] returns for every value the number of edges
    strictly above it, or with [right=True] the number of edges not below
    it. *)
Theorem digitize_decreasing (x : list E) (first : E) (rest : list E)
  (right_ : bool) (m : option method) :
  let bins := first :: rest in
  (forall a b, ge a b = _sort_le_comparator b a) ->
  sorted (rev bins) ->
  _sort_lt_comparator (last bins first) first = true ->
  len bins <= 2 ^ 63 - 1 ->
  digitize x bins right_ m
  = map (count_after (if right_ then left else right) bins) x.
Proof.
  intros bins Hge Hs Hlt Hmax.
  destruct (digitize_counts x right_ m first rest Hmax) as [_ Hdec].
  fold bins in Hdec. rewrite Hdec.
  - destruct right_; reflexivity.
  - exact Hs.
  - rewrite Hge. rewrite lt_is_not_ge in Hlt.
    apply negb_true_iff in Hlt. exact Hlt.
Qed.

End DigitizeCorrect.

Lemma digitize_increasing_witness :
  digitize [1; 2; 2; 1; 3; 4] [1; 2; 3] false None = [1; 2; 2; 1; 3; 3] /\
  digitize [1; 2; 2; 1; 3; 4] [1; 2; 3] true None = [0; 1; 1; 0; 2; 3].
Proof.
  split.
  - rewrite (digitize_increasing [1; 2; 2; 1; 3; 4] [1; 2; 3] false None).
    + reflexivity.
    + intros a b. apply Z.geb_leb.
    + repeat constructor.
    + vm_compute. discriminate.
  - rewrite (digitize_increasing [1; 2; 2; 1; 3; 4] [1; 2; 3] true None).
    + reflexivity.
    + intros a b. apply Z.geb_leb.
    + repeat constructor.
    + vm_compute. discriminate.
Defined.

Lemma digitize_decreasing_witness :
  digitize [1; 2; 3; 4] [3; 2; 1] false None = [2; 1; 0; 0].
Proof.
  rewrite (digitize_decreasing [1; 2; 3; 4] 3 [2; 1] false None).
  - reflexivity.
  - intros a b. apply Z.geb_leb.
  - repeat constructor.
  - reflexivity.
  - vm_compute. discriminate.
Defined.

End DigitizeFacts.

(** ** [gcd] and [lcm] *)

Module GcdFacts.

Import Arr Gcd ArrFacts.

Lemma wrap_small (bits z : Z) :
  1 <= bits -> - 2 ^ (bits - 1) <= z < 2 ^ (bits - 1) -> wrap bits z = z.
Proof.
  intros Hb Hz. unfold wrap.
  assert (H2 : 2 ^ bits = 2 * 2 ^ (bits - 1)).
  { replace bits with (Z.succ (bits - 1)) at 1 by lia.
    rewrite Z.pow_succ_r by lia. reflexivity. }
  rewrite Z.mod_small by lia. lia.
Qed.

(** One turn of the loop on one pair of elements. *)
Definition step (p : Z * Z) : Z * Z :=
  let '(a, b) := p in
  let '(a, b) := if negb (b =? 0) then (b, Z.rem a b) else (a, 0) in
  if a <? b then (b, a) else (a, b).

Lemma combine_maps {P A B : Type} (g : P -> A) (h : P -> B) (ps : list P) :
  combine (map g ps) (map h ps) = map (fun p => (g p, h p)) ps.
Proof.
  induction ps as [|p ps IH]; simpl; [reflexivity|]. f_equal. exact IH.
Qed.

Lemma map2_maps {P A B C : Type} (f : A -> B -> C) (g : P -> A) (h : P -> B)
  (ps : list P) :
  map2 f (map g ps) (map h ps) = map (fun p => f (g p) (h p)) ps.
Proof. unfold map2. rewrite combine_maps, map_map. reflexivity. Qed.

Lemma combine_maps_pair {A B C D : Type} (g : A -> C) (h : B -> D)
  (x1 : list A) (x2 : list B) :
  combine (map g x1) (map h x2)
  = map (fun p => (g (fst p), h (snd p))) (combine x1 x2).
Proof.
  revert x2. induction x1 as [|a x1 IH]; intros [|b x2]; simpl;
    try reflexivity.
  f_equal. apply IH.
Qed.

Lemma body_on_pairs (ps : list (Z * Z)) :
  _gcd_body_fn (map fst ps, map snd ps)
  = (map (fun p => fst (step p)) ps, map (fun p => snd (step p)) ps).
Proof.
  unfold _gcd_body_fn, where_. cbv beta iota zeta.
  repeat (rewrite ?map_map, ?combine_maps, ?map2_maps).
  f_equal; apply map_ext; intros [a b]; unfold step; cbn [fst snd];
    destruct (negb (b =? 0)); cbn [fst snd];
    match goal with |- context [?u <? ?v] => destruct (u <? v) end;
    reflexivity.
Qed.

Lemma split_combine_eq {A B : Type} (x1 : list A) (x2 : list B) :
  length x1 = length x2 ->
  map fst (combine x1 x2) = x1 /\ map snd (combine x1 x2) = x2.
Proof.
  revert x2. induction x1 as [|a x1 IH]; intros [|b x2] Hlen;
    simpl in Hlen; try discriminate; [split; reflexivity|].
  destruct (IH x2 ltac:(lia)) as [H1 H2]. simpl. rewrite H1, H2.
  split; reflexivity.
Qed.

Lemma body_steps (x1 x2 : list Z) :
  length x1 = length x2 ->
  _gcd_body_fn (x1, x2)
  = (map fst (map step (combine x1 x2)), map snd (map step (combine x1 x2))).
Proof.
  intros Hlen. destruct (split_combine_eq x1 x2 Hlen) as [H1 H2].
  transitivity (_gcd_body_fn (map fst (combine x1 x2),
                              map snd (combine x1 x2))).
  - rewrite H1, H2. reflexivity.
  - rewrite body_on_pairs, !map_map. reflexivity.
Qed.

Lemma step_spec (f : nat) (a b : Z) :
  0 <= a -> 0 <= b <= Z.of_nat (S f) ->
  0 <= fst (step (a, b)) /\ 0 <= snd (step (a, b)) <= Z.of_nat f /\
  Z.gcd (fst (step (a, b))) (snd (step (a, b))) = Z.gcd a b.
Proof.
  intros Ha Hb. unfold step.
  destruct (Z.eqb_spec b 0) as [->|Hnz]; cbn [negb].
  - destruct (Z.ltb_spec a 0); [lia|]. cbn [fst snd]. lia.
  - rewrite Z.rem_mod_nonneg by lia.
    pose proof (Z.mod_pos_bound a b ltac:(lia)) as Hr.
    destruct (Z.ltb_spec b (a mod b)); [lia|]. cbn [fst snd].
    split; [lia|]. split; [lia|].
    rewrite Z.gcd_comm, Z.gcd_mod by lia. apply Z.gcd_comm.
Qed.

(** The state of the loop: non-negative pairs with the greatest common
    divisors [gs], whose second components are at most [f]. *)
Definition loop_inv (f : nat) (gs : list Z) (x1 x2 : list Z) : Prop :=
  length x1 = length x2 /\
  Forall2 (fun p g => 0 <= fst p /\ 0 <= snd p <= Z.of_nat f /\
                      Z.gcd (fst p) (snd p) = g)
          (combine x1 x2) gs.

Lemma combine_fst_snd {A B : Type} (l : list (A * B)) :
  combine (map fst l) (map snd l) = l.
Proof.
  induction l as [|[a b] l IH]; simpl; [reflexivity|]. f_equal. exact IH.
Qed.

Lemma loop_inv_step (f : nat) (gs x1 x2 : list Z) :
  loop_inv (S f) gs x1 x2 ->
  loop_inv f gs (fst (_gcd_body_fn (x1, x2))) (snd (_gcd_body_fn (x1, x2))).
Proof.
  intros [Hlen Hall]. rewrite (body_steps x1 x2 Hlen). cbn [fst snd].
  split; [rewrite !length_map; reflexivity|].
  rewrite combine_fst_snd.
  induction Hall as [|[a b] g ps gs' [Ha [Hb Hg]] _ IH]; [constructor|].
  cbn [map fst snd] in *. constructor; [|exact IH].
  destruct (step_spec f a b Ha Hb) as (H1 & H2 & H3).
  rewrite H3. auto.
Qed.

Lemma loop_done (f : nat) (gs x1 x2 : list Z) :
  loop_inv f gs x1 x2 -> _gcd_cond_fn (x1, x2) = false -> x1 = gs.
Proof.
  intros [Hlen Hall] Hc. unfold _gcd_cond_fn in Hc.
  revert x2 gs Hlen Hall Hc.
  induction x1 as [|a x1 IH]; intros [|b x2] gs Hlen Hall Hc;
    simpl in Hlen; try discriminate.
  - inversion Hall. reflexivity.
  - cbn [combine] in Hall. inversion Hall as [|p g ps gs' [Ha [Hb Hg]] Hrest];
      subst. cbn [existsb] in Hc. apply orb_false_iff in Hc.
    destruct Hc as [Hb0 Hc]. apply negb_false_iff, Z.eqb_eq in Hb0.
    cbn [fst snd] in *. subst b. rewrite Z.gcd_0_r_nonneg by lia.
    f_equal. apply (IH x2); [lia|exact Hrest|exact Hc].
Qed.

Lemma loop_zero (gs x1 x2 : list Z) :
  loop_inv 0 gs x1 x2 -> _gcd_cond_fn (x1, x2) = false.
Proof.
  intros [Hlen Hall]. unfold _gcd_cond_fn.
  revert x2 gs Hlen Hall.
  induction x1 as [|a x1 IH]; intros [|b x2] gs Hlen Hall;
    simpl in Hlen; try discriminate; [reflexivity|].
  cbn [combine] in Hall. inversion Hall as [|p g ps gs' [Ha [Hb Hg]] Hrest];
    subst. cbn [existsb fst snd] in *.
  assert (b = 0) by lia. subst b. cbn.
  apply (IH x2 gs'); [lia|exact Hrest].
Qed.

(** Enough fuel brings the loop to the greatest common divisors. *)
Lemma while_loop_gcd (f : nat) (gs x1 x2 : list Z) :
  loop_inv f gs x1 x2 ->
  exists zs, while_loop f _gcd_cond_fn _gcd_body_fn (x1, x2) = Ok (gs, zs).
Proof.
  revert x1 x2. induction f as [|f IH]; intros x1 x2 Hinv.
  - cbn [while_loop]. rewrite (loop_zero gs x1 x2 Hinv).
    rewrite (loop_done 0 gs x1 x2 Hinv (loop_zero gs x1 x2 Hinv)).
    eexists. reflexivity.
  - cbn [while_loop]. destruct (_gcd_cond_fn (x1, x2)) eqn:Hc.
    + pose proof (loop_inv_step f gs x1 x2 Hinv) as Hnext.
      destruct (_gcd_body_fn (x1, x2)) as [y1 y2]. apply IH. exact Hnext.
    + rewrite (loop_done (S f) gs x1 x2 Hinv Hc). eexists. reflexivity.
Qed.

(** The elements that the dtype holds with their absolute value. *)
Definition fits (bits : Z) (v : Z) : Prop := Z.abs v < 2 ^ (bits - 1).

Lemma abs_fits (bits v : Z) : 1 <= bits -> fits bits v -> abs bits v = Z.abs v.
Proof.
  intros Hb Hv. unfold abs. apply wrap_small; [exact Hb|].
  unfold fits in Hv. lia.
Qed.

Lemma loop_inv_init (bits : Z) (f : nat) (y1 y2 : list Z) :
  1 <= bits -> length y1 = length y2 ->
  Forall (fits bits) y1 -> Forall (fits bits) y2 ->
  Forall (fun v => Z.abs v <= Z.of_nat f) y2 ->
  loop_inv f (map2 Z.gcd y1 y2) (map (abs bits) y1) (map (abs bits) y2).
Proof.
  intros Hb Hlen H1 H2 Hf. split; [rewrite !length_map; exact Hlen|].
  unfold map2. revert y2 Hlen H2 Hf.
  induction H1 as [|a y1 Ha H1 IH]; intros [|b y2] Hlen H2 Hf;
    simpl in Hlen; try discriminate; [constructor|].
  inversion H2; subst. inversion Hf; subst.
  cbn [map combine fst snd]. constructor; [|apply IH; auto].
  cbn [fst snd]. rewrite !abs_fits by assumption.
  split; [lia|]. split; [lia|].
  rewrite Z.gcd_abs_l, Z.gcd_abs_r. reflexivity.
Qed.

Lemma broadcast_arrays_length {A : Type} (x1 x2 y1 y2 : list A) :
  broadcast_arrays x1 x2 = Ok (y1, y2) -> length y1 = length y2.
Proof.
  unfold broadcast_arrays.
  destruct (Nat.eqb_spec (length x1) (length x2)) as [He|Hne].
  - intros Hb. inversion Hb; subst. exact He.
  - destruct x1 as [|a [|a' x1]]; destruct x2 as [|b [|b' x2]];
      intros Hb; inversion Hb; subst; simpl; rewrite ?repeat_length;
      solve [reflexivity | simpl in Hne; lia].
Qed.

(** X3: on integer arrays that broadcast against each other and whose
    elements the dtype holds with their absolute value (every value but the
    most negative one), [gcd] returns the greatest common divisors of the
    corresponding elements, once the loop is given as many turns as the
    largest absolute value of the second array. *)
Theorem gcd_correct (bits : Z) (fuel : nat) (x1 x2 y1 y2 : list Z) :
  1 <= bits ->
  broadcast_arrays x1 x2 = Ok (y1, y2) ->
  Forall (fits bits) y1 -> Forall (fits bits) y2 ->
  Forall (fun v => Z.abs v <= Z.of_nat fuel) y2 ->
  gcd bits fuel x1 x2 = Ok (map2 Z.gcd y1 y2).
Proof.
  intros Hb Hbc H1 H2 Hf. unfold gcd. rewrite Hbc. cbn [bind].
  pose proof (broadcast_arrays_length _ _ _ _ Hbc) as Hlen.
  destruct (while_loop_gcd fuel (map2 Z.gcd y1 y2) _ _
              (loop_inv_init bits fuel y1 y2 Hb Hlen H1 H2 Hf)) as [zs Hz].
  rewrite Hz. reflexivity.
Qed.

Lemma gcd_correct_witness :
  gcd 32 18 [12; 18; -24; 0; 7] [5; 10; 15; 0; 0] = Ok [1; 2; 3; 0; 7] /\
  gcd 32 12 [12] [6; 9; 12] = Ok [6; 3; 12].
Proof.
  split.
  - rewrite (gcd_correct 32 18 [12; 18; -24; 0; 7] [5; 10; 15; 0; 0]
               [12; 18; -24; 0; 7] [5; 10; 15; 0; 0]).
    + reflexivity.
    + lia.
    + reflexivity.
    + repeat constructor.
    + repeat constructor.
    + repeat constructor; simpl; lia.
  - rewrite (gcd_correct 32 12 [12] [6; 9; 12] [12; 12; 12] [6; 9; 12]).
    + reflexivity.
    + lia.
    + reflexivity.
    + repeat constructor.
    + repeat constructor.
    + repeat constructor; simpl; lia.
Defined.

Lemma broadcast_arrays_map {A B : Type} (g : A -> B) (x1 x2 y1 y2 : list A) :
  broadcast_arrays x1 x2 = Ok (y1, y2) ->
  broadcast_arrays (map g x1) (map g x2) = Ok (map g y1, map g y2).
Proof.
  unfold broadcast_arrays. rewrite !length_map.
  destruct (length x1 =? length x2)%nat.
  - intros Hb. inversion Hb; subst. reflexivity.
  - destruct x1 as [|a [|a' x1]]; destruct x2 as [|b [|b' x2]];
      intros Hb; inversion Hb; subst; cbn [map length];
      rewrite ?length_map, ?map_repeat; reflexivity.
Qed.

Lemma abs_abs (bits v : Z) :
  1 <= bits -> fits bits v -> fits bits (abs bits v) /\
                              abs bits (abs bits v) = Z.abs v.
Proof.
  intros Hb Hv. rewrite (abs_fits bits v Hb Hv).
  assert (Hf : fits bits (Z.abs v)) by (unfold fits in *; lia).
  split; [exact Hf|]. rewrite (abs_fits bits _ Hb Hf). lia.
Qed.

Lemma Forall2_combine {A B : Type} (P : A -> B -> Prop) (l1 : list A)
  (l2 : list B) :
  Forall2 P l1 l2 -> Forall (fun p => P (fst p) (snd p)) (combine l1 l2).
Proof.
  intros HF. induction HF as [|a b l1 l2 Hab _ IH]; simpl; constructor;
    assumption.
Qed.

Lemma Forall_combine_l {A B : Type} (P : A -> Prop) (l1 : list A)
  (l2 : list B) :
  Forall P l1 -> Forall (fun p => P (fst p)) (combine l1 l2).
Proof.
  intros HF. revert l2. induction HF as [|a l1 Ha _ IH]; intros [|b l2];
    simpl; constructor; auto.
Qed.

Lemma Forall_combine_r {A B : Type} (P : B -> Prop) (l1 : list A)
  (l2 : list B) :
  Forall P l2 -> Forall (fun p => P (snd p)) (combine l1 l2).
Proof.
  intros HF. revert l1. induction HF as [|b l2 Hb _ IH]; intros [|a l1];
    simpl; constructor; auto.
Qed.

(** One element of [lcm]. *)
Lemma lcm_element (bits a b : Z) :
  1 <= bits -> Z.lcm a b < 2 ^ (bits - 1) ->
  (if Z.gcd (Z.abs a) (Z.abs b) =? 0 then 0
   else wrap bits (Z.abs a * (Z.abs b / Z.gcd (Z.abs a) (Z.abs b))))
  = Z.lcm a b.
Proof.
  intros Hb Hl.
  assert (Hlcm : Z.lcm a b
                 = Z.abs (Z.abs a * (Z.abs b / Z.gcd (Z.abs a) (Z.abs b)))).
  { rewrite <- (Z.lcm_abs_l a b), <- (Z.lcm_abs_r (Z.abs a) b).
    reflexivity. }
  pose proof (Z.gcd_nonneg (Z.abs a) (Z.abs b)) as Hg.
  destruct (Z.eqb_spec (Z.gcd (Z.abs a) (Z.abs b)) 0) as [H0|H0].
  - rewrite Hlcm, H0. rewrite Z.div_0_r, Z.mul_0_r. reflexivity.
  - assert (Hq : 0 <= Z.abs b / Z.gcd (Z.abs a) (Z.abs b))
      by (apply Z.div_pos; lia).
    assert (Hp : 0 <= Z.abs a * (Z.abs b / Z.gcd (Z.abs a) (Z.abs b)))
      by (apply Z.mul_nonneg_nonneg; lia).
    rewrite Z.abs_eq in Hlcm by exact Hp.
    rewrite wrap_small; [symmetry; exact Hlcm|exact Hb|].
    rewrite <- Hlcm. pose proof (Z.pow_pos_nonneg 2 (bits - 1)). lia.
Qed.

(** X4: on integer arrays that broadcast against each other, whose elements
    the dtype holds with their absolute value and whose least common
    multiples the dtype holds, [lcm] returns the least common multiples of
    the corresponding elements (zero where an element is zero), once the
    loop of [gcd] is given as many turns as the largest absolute value of
    the second array. *)
Theorem lcm_correct (bits : Z) (fuel : nat) (x1 x2 y1 y2 : list Z) :
  1 <= bits ->
  broadcast_arrays x1 x2 = Ok (y1, y2) ->
  Forall (fits bits) y1 -> Forall (fits bits) y2 ->
  Forall (fun v => Z.abs v <= Z.of_nat fuel) y2 ->
  Forall2 (fun a b => Z.lcm a b < 2 ^ (bits - 1)) y1 y2 ->
  lcm bits fuel x1 x2 = Ok (map2 Z.lcm y1 y2).
Proof.
  intros Hb Hbc H1 H2 Hf Hl. unfold lcm, gcd.
  pose proof (broadcast_arrays_length _ _ _ _ Hbc) as Hlen.
  pose proof (broadcast_arrays_map (abs bits) _ _ _ _ Hbc) as Hbc'.
  rewrite Hbc'. cbn [bind].
  assert (Hfits : forall l, Forall (fits bits) l ->
                            Forall (fits bits) (map (abs bits) l)).
  { intros l Hall. induction Hall as [|v l Hv _ IH]; simpl; constructor;
      [apply abs_abs; assumption|exact IH]. }
  assert (Hfuel : Forall (fun v => Z.abs v <= Z.of_nat fuel)
                         (map (abs bits) y2)).
  { clear -Hb H2 Hf. induction H2 as [|v l Hv _ IH]; simpl; [constructor|].
    inversion Hf; subst. constructor; [|apply IH; assumption].
    rewrite (abs_fits bits v Hb Hv). lia. }
  destruct (while_loop_gcd fuel
              (map2 Z.gcd (map (abs bits) y1) (map (abs bits) y2)) _ _
              (loop_inv_init bits fuel (map (abs bits) y1) (map (abs bits) y2)
                 Hb ltac:(rewrite !length_map; exact Hlen)
                 (Hfits y1 H1) (Hfits y2 H2) Hfuel)) as [zs Hz].
  rewrite Hz. cbn [bind]. f_equal.
  destruct (split_combine_eq y1 y2 Hlen) as [E1 E2].
  pose proof (Forall2_combine _ _ _ Hl) as Hl'.
  pose proof (Forall_combine_l (fits bits) y1 y2 H1) as H1'.
  pose proof (Forall_combine_r (fits bits) y1 y2 H2) as H2'.
  remember (combine y1 y2) as ps eqn:Hps.
  clear Hz Hbc Hbc' H1 H2 Hf Hl Hfuel Hlen Hps.
  subst y1 y2.
  unfold where_.
  repeat (rewrite ?map_map, ?combine_maps, ?map2_maps).
  apply map_ext_in. intros [a b] Hin.
  cbn [fst snd].
  rewrite Forall_forall in Hl', H1', H2'.
  specialize (Hl' _ Hin). specialize (H1' _ Hin). specialize (H2' _ Hin).
  cbn [fst snd] in *.
  rewrite (abs_fits bits a Hb H1'), (abs_fits bits b Hb H2').
  apply lcm_element; assumption.
Qed.

Lemma lcm_correct_witness :
  lcm 32 15 [12; 18; -24; 0] [5; 10; 15; 3] = Ok [60; 90; 120; 0].
Proof.
  rewrite (lcm_correct 32 15 [12; 18; -24; 0] [5; 10; 15; 3]
             [12; 18; -24; 0] [5; 10; 15; 3]).
  - reflexivity.
  - lia.
  - reflexivity.
  - repeat constructor.
  - repeat constructor.
  - repeat constructor; simpl; lia.
  - repeat constructor.
Defined.

(** The most negative value of the dtype is its own absolute value. *)
Lemma abs_most_negative (bits : Z) :
  1 <= bits -> abs bits (- 2 ^ (bits - 1)) = - 2 ^ (bits - 1).
Proof.
  intros Hb. unfold abs, wrap.
  assert (H2 : 2 ^ bits = 2 * 2 ^ (bits - 1)).
  { replace bits with (Z.succ (bits - 1)) at 1 by lia.
    rewrite Z.pow_succ_r by lia. reflexivity. }
  pose proof (Z.pow_pos_nonneg 2 (bits - 1) ltac:(lia) ltac:(lia)) as Hp.
  rewrite Z.abs_neq by lia.
  replace (- - 2 ^ (bits - 1) + 2 ^ (bits - 1)) with (0 + 1 * 2 ^ bits) by lia.
  rewrite Z.mod_add by lia. rewrite Z.mod_0_l by lia. lia.
Qed.

Lemma step_stuck (a m : Z) :
  m < 0 -> 0 < a < - m -> step (a, m) = (a, m).
Proof.
  intros Hm Ha. unfold step.
  destruct (Z.eqb_spec m 0) as [H0|_]; [lia|]. cbn [negb].
  assert (Hr : Z.rem a m = a) by (apply Z.rem_small_iff; lia).
  rewrite Hr. destruct (Z.ltb_spec m a); [reflexivity|lia].
Qed.

Lemma while_loop_stuck (fuel : nat) (x1 x2 : list Z) (a m : Z) :
  m < 0 -> 0 < a < - m ->
  length x1 = length x2 -> In (a, m) (combine x1 x2) ->
  while_loop fuel _gcd_cond_fn _gcd_body_fn (x1, x2) = Raise OutOfFuel.
Proof.
  intros Hm Ha. revert x1 x2.
  induction fuel as [|fuel IH]; intros x1 x2 Hlen Hin;
    assert (Hc : _gcd_cond_fn (x1, x2) = true).
  1, 3: (unfold _gcd_cond_fn; apply existsb_exists; exists m; split;
         [apply (in_combine_r _ _ _ _ Hin)|];
         destruct (Z.eqb_spec m 0); [lia|reflexivity]).
  - cbn [while_loop]. rewrite Hc. reflexivity.
  - cbn [while_loop]. rewrite Hc. rewrite (body_steps x1 x2 Hlen).
    apply IH.
    + rewrite !length_map. reflexivity.
    + rewrite combine_fst_snd.
      rewrite <- (step_stuck a m Hm Ha). apply in_map. exact Hin.
Qed.

(** X5: when an element of the second array is the most negative value of
    the dtype and the element of the first array at that place is not zero
    (and not the most negative value either), the loop of [gcd] never ends:
    whatever number of turns it is given, it has not finished. *)
Theorem gcd_most_negative_never_returns (bits : Z) (fuel : nat)
  (x1 x2 y1 y2 : list Z) (a : Z) :
  1 <= bits ->
  broadcast_arrays x1 x2 = Ok (y1, y2) ->
  In (a, - 2 ^ (bits - 1)) (combine y1 y2) ->
  a <> 0 -> fits bits a ->
  gcd bits fuel x1 x2 = Raise OutOfFuel.
Proof.
  intros Hb Hbc Hin Ha Hfit. unfold gcd. rewrite Hbc. cbn [bind].
  pose proof (broadcast_arrays_length _ _ _ _ Hbc) as Hlen.
  pose proof (Z.pow_pos_nonneg 2 (bits - 1) ltac:(lia) ltac:(lia)) as Hp.
  rewrite (while_loop_stuck fuel _ _ (Z.abs a) (- 2 ^ (bits - 1)));
    [reflexivity|lia|unfold fits in Hfit; lia| |].
  - rewrite !length_map. exact Hlen.
  - rewrite combine_maps_pair.
    rewrite <- (abs_fits bits a Hb Hfit), <- (abs_most_negative bits Hb) at 1.
    apply (in_map (fun p => (abs bits (fst p), abs bits (snd p))) _ _ Hin).
Qed.

Lemma gcd_most_negative_never_returns_witness :
  gcd 32 1000 [12; 5] [18; -2147483648] = Raise OutOfFuel.
Proof.
  apply (gcd_most_negative_never_returns 32 1000 [12; 5] [18; -2147483648]
           [12; 5] [18; -2147483648] 5).
  - lia.
  - reflexivity.
  - right. left. reflexivity.
  - discriminate.
  - unfold fits. simpl. lia.
Defined.

End GcdFacts.

(** ** [ravel_multi_index] and [unravel_index] *)

Module RavelIndexFacts.

Import Arr Clip RavelIndex ArrFacts GcdFacts.

(** The number of elements of a shape. *)
Definition prod (dims : list Z) : Z := fold_right Z.mul 1 dims.

(** The row-major position of a multi-index. *)
Fixpoint flat_of (idx dims : list Z) : Z :=
  match idx, dims with
  | i :: idx', _ :: dims' => i * prod dims' + flat_of idx' dims'
  | _, _ => 0
  end.

(** The row-major strides: the products of the later dimensions. *)
Fixpoint suffix_products (dims : list Z) : list Z :=
  match dims with
  | [] => []
  | _ :: dims' => prod dims' :: suffix_products dims'
  end.

Definition dot (idx strides : list Z) : Z :=
  fold_right Z.add 0 (map (fun p => fst p * snd p) (combine idx strides)).

Definition in_range (idx dims : list Z) : Prop :=
  Forall2 (fun i d => 0 <= i < d) idx dims.

Definition positive (dims : list Z) : Prop := Forall (fun d => 0 < d) dims.

Lemma prod_pos (dims : list Z) : positive dims -> 0 < prod dims.
Proof.
  intros Hp. induction Hp as [|d dims Hd _ IH]; simpl; [lia|].
  apply Z.mul_pos_pos; assumption.
Qed.

Lemma in_range_positive (idx dims : list Z) :
  in_range idx dims -> positive dims.
Proof.
  intros Hr. induction Hr as [|i d idx dims Hi _ IH]; constructor;
    [lia|exact IH].
Qed.

Lemma flat_of_range (idx dims : list Z) :
  in_range idx dims -> 0 <= flat_of idx dims < prod dims.
Proof.
  intros Hr. induction Hr as [|i d idx dims Hi Hr IH]; simpl; [lia|].
  pose proof (prod_pos dims (in_range_positive _ _ Hr)) as Hp. nia.
Qed.

Lemma dot_suffix_products (idx dims : list Z) :
  dot idx (suffix_products dims) = flat_of idx dims.
Proof.
  unfold dot. revert dims. induction idx as [|i idx IH]; intros [|d dims];
    simpl; try reflexivity.
  rewrite IH. reflexivity.
Qed.

(** *** Modular arithmetic of the dtype *)

Lemma pow2_split (bits : Z) :
  1 <= bits -> 2 ^ bits = 2 * 2 ^ (bits - 1) /\ 0 < 2 ^ (bits - 1).
Proof.
  intros Hb. split.
  - replace bits with (Z.succ (bits - 1)) at 1 by lia.
    rewrite Z.pow_succ_r by lia. reflexivity.
  - apply Z.pow_pos_nonneg; lia.
Qed.

Lemma wrap_mod (bits z : Z) :
  1 <= bits -> Gcd.wrap bits z mod 2 ^ bits = z mod 2 ^ bits.
Proof.
  intros Hb. destruct (pow2_split bits Hb) as [H2 Hp]. unfold Gcd.wrap.
  rewrite <- Zminus_mod_idemp_l, Z.mod_mod by lia.
  rewrite Zminus_mod_idemp_l. f_equal. lia.
Qed.

Lemma wrap_congr (bits a b : Z) :
  1 <= bits -> a mod 2 ^ bits = b mod 2 ^ bits ->
  Gcd.wrap bits a = Gcd.wrap bits b.
Proof.
  intros Hb Hab. unfold Gcd.wrap. f_equal.
  rewrite <- (Zplus_mod_idemp_l a), <- (Zplus_mod_idemp_l b), Hab.
  reflexivity.
Qed.

Lemma wrap_add_wrap (bits a b : Z) :
  1 <= bits ->
  Gcd.wrap bits (Gcd.wrap bits a + Gcd.wrap bits b) = Gcd.wrap bits (a + b).
Proof.
  intros Hb. apply wrap_congr; [exact Hb|].
  rewrite Zplus_mod, !wrap_mod by exact Hb. rewrite <- Zplus_mod.
  reflexivity.
Qed.

Lemma wrap_wrap (bits a : Z) :
  1 <= bits -> Gcd.wrap bits (Gcd.wrap bits a) = Gcd.wrap bits a.
Proof.
  intros Hb. apply wrap_congr; [exact Hb|]. apply wrap_mod. exact Hb.
Qed.

Lemma wrap_zero (bits : Z) : 1 <= bits -> Gcd.wrap bits 0 = 0.
Proof. intros Hb. apply wrap_small; [exact Hb|]. destruct (pow2_split bits Hb). lia. Qed.

(** The loop of [ravel_multi_index] adds up the products in the dtype. *)
Lemma ravel_loop (bits : Z) (idx strides : list Z) (acc : Z) :
  1 <= bits ->
  fold_left (fun result p =>
               Gcd.wrap bits (result + Gcd.wrap bits (fst p * snd p)))
            (combine idx strides) (Gcd.wrap bits acc)
  = Gcd.wrap bits (acc + dot idx strides).
Proof.
  intros Hb. unfold dot. revert strides acc.
  induction idx as [|i idx IH]; intros [|s strides] acc;
    cbn [combine fold_left map fold_right fst snd];
    rewrite ?Z.add_0_r; try reflexivity.
  rewrite wrap_add_wrap by exact Hb. rewrite IH. f_equal. lia.
Qed.

Lemma ravel_loop_zero (bits : Z) (idx strides : list Z) :
  1 <= bits ->
  fold_left (fun result p =>
               Gcd.wrap bits (result + Gcd.wrap bits (fst p * snd p)))
            (combine idx strides) 0
  = Gcd.wrap bits (dot idx strides).
Proof.
  intros Hb. rewrite <- (wrap_zero bits Hb) at 1.
  rewrite ravel_loop by exact Hb. reflexivity.
Qed.

(** *** The strides *)

Lemma last_default {A : Type} (z : A) (l : list A) (d d' : A) :
  last (z :: l) d = last (z :: l) d'.
Proof.
  revert z. induction l as [|y l IH]; intros z; [reflexivity|].
  change (last (z :: y :: l) d) with (last (y :: l) d).
  change (last (z :: y :: l) d') with (last (y :: l) d'). apply IH.
Qed.

Lemma cumprod_from_app (acc : Z) (l : list Z) (x : Z) :
  cumprod_from acc (l ++ [x])
  = cumprod_from acc l
    ++ [Gcd.wrap 64 (last (cumprod_from acc l) acc * x)].
Proof.
  revert acc. induction l as [|y l IH]; intros acc; [reflexivity|].
  cbn [app cumprod_from]. rewrite IH. cbn [app]. f_equal.
  destruct (cumprod_from (Gcd.wrap 64 (acc * y)) l) as [|z l0] eqn:Hc;
    [reflexivity|].
  change (last (Gcd.wrap 64 (acc * y) :: z :: l0) acc)
    with (last (z :: l0) acc).
  rewrite (last_default z l0 (Gcd.wrap 64 (acc * y)) acc). reflexivity.
Qed.

Lemma last_of_snoc {A : Type} (a : A) (l front : list A) (p d : A) :
  a :: l = front ++ [p] -> last l a = p.
Proof.
  intros Heq. destruct l as [|b l].
  - destruct front as [|c [|c' front]]; inversion Heq; reflexivity.
  - assert (Hl : last (a :: b :: l) a = p) by (rewrite Heq; apply last_last).
    exact Hl.
Qed.

Lemma prod_le (d : Z) (dims : list Z) :
  0 < d -> positive dims -> prod dims <= prod (d :: dims).
Proof.
  intros Hd Hp. pose proof (prod_pos dims Hp). simpl. nia.
Qed.

(** As long as the number of elements fits 64 bits, the reversed running
    products are the products of the later dimensions. *)
Lemma cumprod_rev (dims : list Z) :
  positive dims -> prod dims < 2 ^ 63 ->
  1 :: cumprod_from 1 (rev dims) = rev (prod dims :: suffix_products dims).
Proof.
  intros Hp. induction Hp as [|d dims Hd Hp IH]; intros Hfit;
    [reflexivity|].
  pose proof (prod_le d dims Hd Hp) as Hle.
  specialize (IH ltac:(lia)).
  cbn [rev]. rewrite cumprod_from_app.
  rewrite (last_of_snoc 1 _ (rev (suffix_products dims)) (prod dims) 0)
    by (rewrite IH; reflexivity).
  rewrite app_comm_cons, IH. cbn [suffix_products rev].
  rewrite wrap_small; [|lia|].
  - cbn [prod fold_right]. rewrite (Z.mul_comm d). reflexivity.
  - pose proof (prod_pos dims Hp). simpl in Hfit.
    change (fold_right Z.mul 1 dims) with (prod dims) in Hfit.
    split; [|nia]. transitivity 0; [|nia].
    pose proof (Z.pow_pos_nonneg 2 63). lia.
Qed.

Lemma strides_C (d : Z) (dims : list Z) :
  positive dims -> prod dims < 2 ^ 63 ->
  rev (cumprod (1 :: rev (tl (d :: dims)))) = suffix_products (d :: dims).
Proof.
  intros Hp Hfit. unfold cumprod. cbn [tl cumprod_from].
  change (Gcd.wrap 64 (1 * 1)) with 1.
  rewrite (cumprod_rev dims Hp Hfit), rev_involutive. reflexivity.
Qed.

(** The strides of the two orders mirror each other, whatever the
    dimensions. *)
Lemma strides_mirror (dims : list Z) :
  rev (cumprod (1 :: rev (tl (rev dims)))) = rev (cumprod (1 :: removelast dims)).
Proof.
  f_equal. f_equal. f_equal.
  destruct (rev dims) as [|x l] eqn:Hr.
  - apply (f_equal (@rev Z)) in Hr. rewrite rev_involutive in Hr.
    subst dims. reflexivity.
  - apply (f_equal (@rev Z)) in Hr. rewrite rev_involutive in Hr.
    subst dims. cbn [rev tl]. rewrite removelast_last. reflexivity.
Qed.

(** *** In-range multi-indices *)

Lemma in_range_length (idx dims : list Z) :
  in_range idx dims -> length idx = length dims.
Proof. apply Forall2_length. Qed.

Lemma in_range_as_is (idx dims : list Z) :
  in_range idx dims ->
  existsb (fun p => (fst p <? 0) || (snd p <=? fst p)) (combine idx dims)
  = false /\
  map (fun p => clip (fst p) (Some 0) (Some (snd p - 1))) (combine idx dims)
  = idx /\
  map (fun p => fst p mod snd p) (combine idx dims) = idx.
Proof.
  intros Hr. induction Hr as [|i d idx dims Hi _ [IH1 [IH2 IH3]]];
    cbn [combine existsb map fst snd]; [auto|].
  rewrite IH1, IH2, IH3. unfold clip.
  destruct (Z.ltb_spec i 0); [lia|]. destruct (Z.leb_spec d i); [lia|].
  rewrite Z.mod_small by lia.
  split; [reflexivity|]. split; [f_equal; lia|reflexivity].
Qed.

Lemma ravel_in_range (bits : Z) (idx dims : list Z) (m : index_mode) :
  1 <= bits <= 64 -> in_range idx dims -> prod dims < 2 ^ (bits - 1) ->
  ravel_multi_index bits idx dims m order_C = Ok (flat_of idx dims).
Proof.
  intros Hb Hr Hfit. unfold ravel_multi_index.
  rewrite (in_range_length _ _ Hr), Nat.eqb_refl. cbn [negb].
  destruct (in_range_as_is idx dims Hr) as (E1 & E2 & E3).
  assert (Hm : match m with
               | mode_raise =>
                   if existsb (fun p => (fst p <? 0) || (snd p <=? fst p))
                              (combine idx dims)
                   then Raise ValueError else Ok idx
               | mode_clip =>
                   Ok (map (fun p => clip (fst p) (Some 0) (Some (snd p - 1)))
                           (combine idx dims))
               | mode_wrap =>
                   Ok (map (fun p => fst p mod snd p) (combine idx dims))
               end = Ok idx).
  { destruct m; [rewrite E1|rewrite E2|rewrite E3]; reflexivity. }
  rewrite Hm. cbn [bind]. f_equal.
  rewrite ravel_loop_zero by lia.
  pose proof (flat_of_range idx dims Hr) as Hflat.
  assert (Hpow : 2 ^ (bits - 1) <= 2 ^ 63)
    by (apply Z.pow_le_mono_r; lia).
  destruct Hr as [|i d idx dims Hi Hr].
  - cbn. apply wrap_zero. lia.
  - pose proof (in_range_positive _ _ Hr) as Hp.
    rewrite strides_C; [|exact Hp|].
    + rewrite dot_suffix_products. apply wrap_small; [lia|].
      pose proof (Z.pow_pos_nonneg 2 (bits - 1)). lia.
    + assert (Hd : 0 < d) by lia. pose proof (prod_le d dims Hd Hp). lia.
Qed.

(** *** Unravelling *)

Definition divide_out (indices : Z) (shape : list Z) : Z * list Z :=
  fold_right (fun s st => (fst st / s, (fst st mod s) :: snd st))
             (indices, []) shape.

Lemma divide_out_flat (idx dims : list Z) (k : Z) :
  in_range idx dims ->
  divide_out (k * prod dims + flat_of idx dims) dims = (k, idx).
Proof.
  intros Hr. revert k. induction Hr as [|i d idx dims Hi Hr IH]; intros k.
  - cbn. f_equal. lia.
  - unfold divide_out in *. cbn [fold_right flat_of prod].
    change (fold_right Z.mul 1 dims) with (prod dims).
    replace (k * (d * prod dims) + (i * prod dims + flat_of idx dims))
      with ((k * d + i) * prod dims + flat_of idx dims) by lia.
    rewrite IH. cbn [fst snd].
    rewrite Z.div_add_l by lia. rewrite Z.div_small by lia.
    replace (k * d + i) with (i + k * d) by lia.
    rewrite Z.mod_add by lia. rewrite Z.mod_small by lia.
    f_equal. lia.
Qed.

(** Every position below the number of elements is the position of an
    in-range multi-index. *)
Lemma digits_exist (dims : list Z) (r : Z) :
  positive dims -> 0 <= r < prod dims ->
  exists idx, in_range idx dims /\ flat_of idx dims = r.
Proof.
  intros Hp. revert r. induction Hp as [|d dims Hd Hp IH]; intros r Hr.
  - exists []. split; [constructor|]. simpl in *. lia.
  - pose proof (prod_pos dims Hp) as Hpp.
    cbn [prod fold_right] in Hr.
    change (fold_right Z.mul 1 dims) with (prod dims) in Hr.
    destruct (IH (r mod prod dims)) as [idx [Hin Hflat]].
    { apply Z.mod_pos_bound. exact Hpp. }
    exists (r / prod dims :: idx). split.
    + constructor; [|exact Hin]. split.
      * apply Z.div_pos; lia.
      * apply Z.div_lt_upper_bound; [exact Hpp|]. lia.
    + cbn [flat_of]. rewrite Hflat.
      rewrite (Z.div_mod r (prod dims)) at 3 by lia. lia.
Qed.

Lemma select_inner (shape out : list Z) :
  length out = length shape ->
  map (fun p => if false then fst p - 1 else if false then 0 else snd p)
      (combine shape out) = out.
Proof.
  revert out. induction shape as [|s shape IH]; intros [|o out] Hlen;
    simpl in *; try discriminate; [reflexivity|].
  f_equal. apply IH. lia.
Qed.

Lemma unravel_in_bounds (idx dims : list Z) (k : Z) :
  in_range idx dims -> k = 0 \/ k = -1 ->
  unravel_index (k * prod dims + flat_of idx dims) dims = idx.
Proof.
  intros Hr Hk. unfold unravel_index.
  fold (divide_out (k * prod dims + flat_of idx dims) dims).
  rewrite (divide_out_flat idx dims k Hr).
  assert (H1 : (0 <? k) = false) by (apply Z.ltb_ge; lia).
  assert (H2 : (k <? -1) = false) by (apply Z.ltb_ge; lia).
  rewrite H1, H2. apply select_inner. apply in_range_length. exact Hr.
Qed.

(** X6: for dimensions whose number of elements the index dtype holds and
    a multi-index within them, [ravel_multi_index] (row-major, in any mode)
    returns the row-major position, which is below the number of elements,
    and [unravel_index] takes that position back to the multi-index. *)
Theorem unravel_ravel_roundtrip (bits : Z) (idx dims : list Z)
  (m : index_mode) :
  1 <= bits <= 64 -> in_range idx dims -> prod dims < 2 ^ (bits - 1) ->
  exists flat,
    ravel_multi_index bits idx dims m order_C = Ok flat /\
    0 <= flat < prod dims /\
    unravel_index flat dims = idx.
Proof.
  intros Hb Hr Hfit. exists (flat_of idx dims).
  split; [apply ravel_in_range; assumption|].
  split; [apply flat_of_range; exact Hr|].
  rewrite <- (unravel_in_bounds idx dims 0 Hr) at 2 by (left; reflexivity).
  f_equal; lia.
Qed.

Lemma unravel_ravel_roundtrip_witness :
  exists flat,
    ravel_multi_index 32 [1; 0; 2] [2; 3; 4] mode_raise order_C = Ok flat /\
    0 <= flat < prod [2; 3; 4] /\
    unravel_index flat [2; 3; 4] = [1; 0; 2].
Proof.
  apply (unravel_ravel_roundtrip 32 [1; 0; 2] [2; 3; 4] mode_raise).
  - lia.
  - repeat constructor; lia.
  - vm_compute. reflexivity.
Defined.

(** X7: for a shape of positive dimensions whose number of elements the
    index dtype holds and a flat position below that number,
    [unravel_index] returns a multi-index within the shape, and
    [ravel_multi_index] takes it back to the position. *)
Theorem ravel_unravel_roundtrip (bits : Z) (flat : Z) (shape : list Z)
  (m : index_mode) :
  1 <= bits <= 64 -> positive shape -> prod shape < 2 ^ (bits - 1) ->
  0 <= flat < prod shape ->
  in_range (unravel_index flat shape) shape /\
  ravel_multi_index bits (unravel_index flat shape) shape m order_C = Ok flat.
Proof.
  intros Hb Hp Hfit Hflat.
  destruct (digits_exist shape flat Hp Hflat) as [idx [Hr Hf]].
  assert (Hu : unravel_index flat shape = idx).
  { rewrite <- (unravel_in_bounds idx shape 0 Hr) by (left; reflexivity).
    f_equal; lia. }
  rewrite Hu. split; [exact Hr|].
  rewrite <- Hf. apply ravel_in_range; assumption.
Qed.

Lemma ravel_unravel_roundtrip_witness :
  in_range (unravel_index 17 [2; 3; 4]) [2; 3; 4] /\
  ravel_multi_index 32 (unravel_index 17 [2; 3; 4]) [2; 3; 4] mode_clip
                    order_C = Ok 17.
Proof.
  apply (ravel_unravel_roundtrip 32 17 [2; 3; 4] mode_clip).
  - lia.
  - repeat constructor.
  - vm_compute. reflexivity.
  - vm_compute. split; [discriminate|reflexivity].
Defined.

Lemma divide_out_any (shape : list Z) (flat : Z) :
  positive shape ->
  exists idx, in_range idx shape /\
              flat_of idx shape = flat mod prod shape /\
              divide_out flat shape = (flat / prod shape, idx).
Proof.
  intros Hp. pose proof (prod_pos shape Hp) as Hpp.
  destruct (digits_exist shape (flat mod prod shape) Hp) as [idx [Hr Hf]].
  { apply Z.mod_pos_bound. exact Hpp. }
  exists idx. split; [exact Hr|]. split; [exact Hf|].
  rewrite <- (divide_out_flat idx shape (flat / prod shape) Hr).
  f_equal. rewrite Hf. rewrite (Z.div_mod flat (prod shape)) at 1 by lia.
  lia.
Qed.

Lemma select_const (shape out : list Z) (c1 c2 : bool) (f : Z -> Z) :
  length out = length shape ->
  (c1 = true -> forall s, f s = s - 1) ->
  (c1 = false -> c2 = true /\ forall s, f s = 0) ->
  map (fun p => if c1 then fst p - 1 else if c2 then 0 else snd p)
      (combine shape out) = map f shape.
Proof.
  intros Hlen H1 H2. revert out Hlen.
  induction shape as [|s shape IH]; intros [|o out] Hlen; simpl in *;
    try discriminate; [reflexivity|].
  rewrite IH by lia. f_equal.
  destruct c1.
  - symmetry. apply H1. reflexivity.
  - destruct (H2 eq_refl) as [-> Hf]. symmetry. apply Hf.
Qed.

(** X8: [unravel_index] on positions outside of a shape of positive
    dimensions: a position at or beyond the number of elements gives the
    last multi-index, a position below minus the number of elements gives
    the first one, and a negative position down to minus the number of
    elements counts from the end. *)
Theorem unravel_index_out_of_bounds (flat : Z) (shape : list Z) :
  positive shape ->
  (prod shape <= flat ->
   unravel_index flat shape = map (fun s => s - 1) shape) /\
  (flat < - prod shape ->
   unravel_index flat shape = map (fun _ => 0) shape) /\
  (- prod shape <= flat < 0 ->
   unravel_index flat shape = unravel_index (flat + prod shape) shape).
Proof.
  intros Hp. pose proof (prod_pos shape Hp) as Hpp.
  destruct (divide_out_any shape flat Hp) as [idx [Hr [Hf Hd]]].
  pose proof (in_range_length _ _ Hr) as Hlen.
  split; [|split].
  - intros Hbig. unfold unravel_index. fold (divide_out flat shape).
    rewrite Hd.
    assert (Hq : 1 <= flat / prod shape)
      by (apply Z.div_le_lower_bound; lia).
    apply select_const; [exact Hlen| |].
    + reflexivity.
    + intros Hc. apply Z.ltb_ge in Hc. lia.
  - intros Hsmall. unfold unravel_index. fold (divide_out flat shape).
    rewrite Hd.
    assert (Hq : flat / prod shape < -1).
    { apply Z.div_lt_upper_bound; lia. }
    apply select_const; [exact Hlen| |].
    + intros Hc. apply Z.ltb_lt in Hc. lia.
    + intros _. split; [apply Z.ltb_lt; exact Hq|reflexivity].
  - intros Hneg.
    assert (Hq : flat / prod shape = -1).
    { symmetry. apply (Z.div_unique flat (prod shape) (-1) (flat + prod shape));
        [left; lia|lia]. }
    assert (Hm : flat mod prod shape = flat + prod shape).
    { symmetry. apply (Z.mod_unique flat (prod shape) (-1) (flat + prod shape));
        [left; lia|lia]. }
    rewrite Hm in Hf.
    transitivity idx.
    + rewrite <- (unravel_in_bounds idx shape (-1) Hr) by (right; reflexivity).
      f_equal. lia.
    + rewrite <- (unravel_in_bounds idx shape 0 Hr) at 1
        by (left; reflexivity).
      f_equal. lia.
Qed.

Lemma unravel_index_out_of_bounds_witness :
  (prod [2; 3] <= 100 -> unravel_index 100 [2; 3] = [1; 2]) /\
  (-100 < - prod [2; 3] -> unravel_index (-100) [2; 3] = [0; 0]) /\
  (- prod [2; 3] <= -1 < 0 ->
   unravel_index (-1) [2; 3] = unravel_index (-1 + prod [2; 3]) [2; 3]).
Proof.
  destruct (unravel_index_out_of_bounds 100 [2; 3]) as [H1 _].
  { repeat constructor. }
  destruct (unravel_index_out_of_bounds (-100) [2; 3]) as [_ [H2 _]].
  { repeat constructor. }
  destruct (unravel_index_out_of_bounds (-1) [2; 3]) as [_ [_ H3]].
  { repeat constructor. }
  split; [exact H1|]. split; [exact H2|exact H3].
Defined.

(** *** The modes and the orders *)

Lemma ravel_sum_C (bits : Z) (arr dims : list Z) :
  1 <= bits <= 64 -> in_range arr dims -> prod dims < 2 ^ (bits - 1) ->
  fold_left (fun result p =>
               Gcd.wrap bits (result + Gcd.wrap bits (fst p * snd p)))
            (combine arr (rev (cumprod (1 :: rev (tl dims))))) 0
  = flat_of arr dims.
Proof.
  intros Hb Hr Hfit. rewrite ravel_loop_zero by lia.
  pose proof (flat_of_range arr dims Hr) as Hflat.
  assert (Hpow : 2 ^ (bits - 1) <= 2 ^ 63)
    by (apply Z.pow_le_mono_r; lia).
  destruct Hr as [|i d idx dims Hi Hr].
  - cbn. apply wrap_zero. lia.
  - pose proof (in_range_positive _ _ Hr) as Hp.
    rewrite strides_C; [|exact Hp|].
    + rewrite dot_suffix_products. apply wrap_small; [lia|].
      pose proof (Z.pow_pos_nonneg 2 (bits - 1)). lia.
    + assert (Hd : 0 < d) by lia. pose proof (prod_le d dims Hd Hp). lia.
Qed.

Lemma not_rejected_in_range (idx dims : list Z) :
  length idx = length dims ->
  existsb (fun p => (fst p <? 0) || (snd p <=? fst p)) (combine idx dims)
  = false ->
  in_range idx dims.
Proof.
  revert dims. induction idx as [|i idx IH]; intros [|d dims] Hlen He;
    simpl in Hlen; try discriminate; [constructor|].
  cbn [combine existsb fst snd] in He.
  apply orb_false_iff in He. destruct He as [Hi He].
  apply orb_false_iff in Hi. destruct Hi as [H1 H2].
  apply Z.ltb_ge in H1. apply Z.leb_gt in H2.
  constructor; [lia|]. apply IH; [lia|exact He].
Qed.

Lemma clipped_in_range (idx dims : list Z) :
  length idx = length dims -> positive dims ->
  in_range (map (fun p => clip (fst p) (Some 0) (Some (snd p - 1)))
                (combine idx dims)) dims /\
  in_range (map (fun p => fst p mod snd p) (combine idx dims)) dims.
Proof.
  intros Hlen Hp. revert idx Hlen.
  induction Hp as [|d dims Hd Hp IH]; intros [|i idx] Hlen;
    simpl in Hlen; try discriminate; [split; constructor|].
  destruct (IH idx ltac:(lia)) as [IH1 IH2].
  cbn [combine map fst snd]. split; constructor; try assumption.
  - unfold clip. lia.
  - apply Z.mod_pos_bound. exact Hd.
Qed.

(** X9: [ravel_multi_index] in mode raise refuses a multi-index that is
    not within the dimensions with a [ValueError], in either order; in the
    modes clip and wrap it returns a position below the number of elements
    for every multi-index (positive dimensions whose number of elements the
    index dtype holds). *)
Theorem ravel_multi_index_modes (bits : Z) (idx dims : list Z) :
  length idx = length dims ->
  (forall order, ~ in_range idx dims ->
     ravel_multi_index bits idx dims mode_raise order = Raise ValueError) /\
  (1 <= bits <= 64 -> positive dims -> prod dims < 2 ^ (bits - 1) ->
   forall m, m = mode_clip \/ m = mode_wrap ->
     exists flat, ravel_multi_index bits idx dims m order_C = Ok flat /\
                  0 <= flat < prod dims).
Proof.
  intros Hlen. split.
  - intros order Hout. unfold ravel_multi_index.
    rewrite Hlen, Nat.eqb_refl. cbn [negb].
    destruct (existsb _ (combine idx dims)) eqn:He; [reflexivity|].
    contradiction Hout. apply not_rejected_in_range; assumption.
  - intros Hb Hp Hfit m Hm.
    destruct (clipped_in_range idx dims Hlen Hp) as [Hc Hw].
    unfold ravel_multi_index. rewrite Hlen, Nat.eqb_refl. cbn [negb].
    destruct Hm as [-> | ->]; cbn [bind].
    + rewrite (ravel_sum_C bits _ dims Hb Hc Hfit).
      eexists. split; [reflexivity|]. apply flat_of_range. exact Hc.
    + rewrite (ravel_sum_C bits _ dims Hb Hw Hfit).
      eexists. split; [reflexivity|]. apply flat_of_range. exact Hw.
Qed.

Lemma ravel_multi_index_modes_witness :
  ravel_multi_index 32 [1; 7] [2; 3] mode_raise order_F = Raise ValueError /\
  exists flat, ravel_multi_index 32 [1; 7] [2; 3] mode_wrap order_C = Ok flat /\
               0 <= flat < prod [2; 3].
Proof.
  destruct (ravel_multi_index_modes 32 [1; 7] [2; 3] eq_refl) as [H1 H2].
  split.
  - apply H1. intros Hr. inversion Hr as [|? ? ? ? _ Hr']; subst.
    inversion Hr' as [|? ? ? ? H7 _]; subst. lia.
  - apply H2.
    + lia.
    + repeat constructor.
    + vm_compute. reflexivity.
    + right. reflexivity.
Defined.

Lemma combine_rev {A B : Type} (l1 : list A) (l2 : list B) :
  length l1 = length l2 ->
  combine (rev l1) (rev l2) = rev (combine l1 l2).
Proof.
  revert l2. induction l1 as [|a l1 IH]; intros [|b l2] Hlen;
    simpl in Hlen; try discriminate; [reflexivity|].
  cbn [rev combine].
  rewrite <- IH by lia.
  assert (Hl : length (rev l1) = length (rev l2))
    by (rewrite !length_rev; lia).
  clear IH Hlen. revert Hl. generalize (rev l1) (rev l2).
  intros m1. induction m1 as [|x m1 IHm]; intros [|y m2] Hl;
    simpl in Hl; try discriminate; [reflexivity|].
  cbn [app combine]. f_equal. apply IHm. lia.
Qed.

Lemma sum_rev (l : list Z) :
  fold_right Z.add 0 (rev l) = fold_right Z.add 0 l.
Proof.
  induction l as [|x l IH]; [reflexivity|].
  cbn [rev]. rewrite fold_right_app. cbn [fold_right].
  rewrite <- IH. generalize (rev l). intros m.
  induction m as [|y m IHm]; cbn [fold_right]; lia.
Qed.

Lemma dot_rev (a b : list Z) :
  length a = length b -> dot (rev a) (rev b) = dot a b.
Proof.
  intros Hlen. unfold dot.
  rewrite combine_rev by exact Hlen. rewrite map_rev. apply sum_rev.
Qed.

Lemma existsb_rev_eq {A : Type} (p : A -> bool) (l : list A) :
  existsb p (rev l) = existsb p l.
Proof.
  induction l as [|x l IH]; [reflexivity|].
  cbn [rev]. rewrite existsb_app, IH. cbn [existsb].
  rewrite orb_false_r. apply orb_comm.
Qed.

Lemma removelast_cons_length {A : Type} (a : A) (l : list A) :
  length (removelast (a :: l)) = length l.
Proof.
  revert a. induction l as [|b l IH]; intros a; [reflexivity|].
  change (removelast (a :: b :: l)) with (a :: removelast (b :: l)).
  cbn [length]. f_equal. apply IH.
Qed.

Lemma cumprod_from_length (acc : Z) (l : list Z) :
  length (cumprod_from acc l) = length l.
Proof.
  revert acc. induction l as [|x l IH]; intros acc; simpl; [reflexivity|].
  f_equal. apply IH.
Qed.

(** X10: column-major raveling is row-major raveling of the reversed
    multi-index in the reversed dimensions, in every mode and whether or
    not the arithmetic wraps. *)
Theorem ravel_order_F_mirror (bits : Z) (idx dims : list Z)
  (m : index_mode) :
  1 <= bits -> length idx = length dims ->
  ravel_multi_index bits idx dims m order_F
  = ravel_multi_index bits (rev idx) (rev dims) m order_C.
Proof.
  intros Hb Hlen. unfold ravel_multi_index.
  rewrite !length_rev, Hlen, Nat.eqb_refl. cbn [negb].
  rewrite (combine_rev idx dims Hlen).
  rewrite strides_mirror.
  destruct dims as [|d dims].
  { destruct idx; [|discriminate]. destruct m; reflexivity. }
  assert (Hstr : length (cumprod (1 :: removelast (d :: dims)))
                 = length (d :: dims)).
  { unfold cumprod. rewrite cumprod_from_length. cbn [length].
    f_equal. apply removelast_cons_length. }
  assert (Htail : forall arr,
             length arr = length (d :: dims) ->
             fold_left (fun result p =>
                          Gcd.wrap bits (result + Gcd.wrap bits (fst p * snd p)))
                       (combine arr (cumprod (1 :: removelast (d :: dims)))) 0
             = fold_left (fun result p =>
                          Gcd.wrap bits (result + Gcd.wrap bits (fst p * snd p)))
                       (combine (rev arr)
                          (rev (cumprod (1 :: removelast (d :: dims))))) 0).
  { intros arr Harr. rewrite !ravel_loop_zero by exact Hb.
    rewrite dot_rev by lia. reflexivity. }
  destruct m.
  - rewrite existsb_rev_eq.
    destruct (existsb _ (combine idx (d :: dims))); [reflexivity|].
    cbn [bind]. f_equal. apply Htail. exact Hlen.
  - cbn [bind]. f_equal. rewrite map_rev. apply Htail.
    rewrite length_map, length_combine. lia.
  - cbn [bind]. f_equal. rewrite map_rev. apply Htail.
    rewrite length_map, length_combine. lia.
Qed.

Lemma ravel_order_F_mirror_witness :
  ravel_multi_index 32 [1; 0; 2] [2; 3; 4] mode_raise order_F
  = ravel_multi_index 32 [2; 0; 1] [4; 3; 2] mode_raise order_C.
Proof.
  apply (ravel_order_F_mirror 32 [1; 0; 2] [2; 3; 4] mode_raise).
  - lia.
  - reflexivity.
Defined.

End RavelIndexFacts.

(** ** [roll] *)

Module RollFacts.

Import Arr Nd Roll ArrFacts NdFacts.

Section RollCorrect.

Context {T : Type}.

(** [r] is [a] rolled by [s] places along axis [ax]. *)
Definition rolled (ax : nat) (s : Z) (a r : array T) : Prop :=
  shape r = shape a /\
  forall idx, in_bounds (shape a) idx ->
              at_ r idx
              = at_ a (with_coord idx ax ((coord idx ax - s) mod dim a ax)).

Lemma roll_axis_rolls (a : array T) (ax : nat) (s : Z) :
  (ax < ndim a)%nat -> Forall (fun n => 0 <= n) (shape a) ->
  exists r, roll_axis a ax s = Ok r /\ rolled ax s a r.
Proof.
  intros Hax Hnn. unfold roll_axis.
  assert (Hn : 0 <= dim a ax).
  { unfold dim. rewrite Forall_forall in Hnn. apply Hnn. apply nth_In.
    exact Hax. }
  destruct (Z.eqb_spec (dim a ax) 0) as [H0|H0].
  { exists a. split; [reflexivity|]. split; [reflexivity|].
    intros idx Hb. pose proof (in_bounds_coord _ _ ax Hb Hax) as Hc.
    unfold dim in H0. lia. }
  set (n := dim a ax) in *. set (i := (- s) mod n).
  assert (Hi : 0 <= i < n) by (apply Z.mod_pos_bound; lia).
  rewrite slice_in_dim_ok by (fold n; lia). cbn [bind].
  rewrite slice_in_dim_ok by (fold n; lia). cbn [bind].
  set (front := mk_array (set_nth (shape a) ax (n - i))
                  (fun idx => at_ a (with_coord idx ax (coord idx ax + i)))).
  set (back := mk_array (set_nth (shape a) ax (i - 0))
                 (fun idx => at_ a (with_coord idx ax (coord idx ax + 0)))).
  assert (Hf_nd : (ax < ndim front)%nat)
    by (unfold ndim, front; cbn [shape]; rewrite set_nth_length; exact Hax).
  assert (Hb_nd : (ax < ndim back)%nat)
    by (unfold ndim, back; cbn [shape]; rewrite set_nth_length; exact Hax).
  assert (Hdf : dim front ax = n - i)
    by (unfold dim, front; cbn [shape]; apply nth_set_nth_eq; exact Hax).
  assert (Hdb : dim back ax = i)
    by (unfold dim, back; cbn [shape]; rewrite nth_set_nth_eq by exact Hax;
        lia).
  assert (Hsame : same_off_axis ax back front).
  { unfold same_off_axis, front, back. cbn [shape].
    rewrite !set_nth_set_nth. reflexivity. }
  destruct (concatenate_pads [] front [back] ax Hf_nd) as [r [Hr Hp1]].
  { intros p [<-|[]]. exact Hsame. }
  { intros p []. }
  destruct (concatenate_pads [front] back [] ax Hb_nd) as [r' [Hr' Hp2]].
  { intros p [<-|[]]. unfold same_off_axis in *. symmetry. exact Hsame. }
  { intros p [<-|[]]. lia. }
  cbn [app] in Hr, Hr'. rewrite Hr in Hr'. inversion Hr'; subst r'.
  clear Hr'. exists r. split; [exact Hr|].
  destruct Hp1 as [Hs1 Hat1]. destruct Hp2 as [_ Hat2].
  split.
  - rewrite Hs1. unfold sum_dims. cbn [map Arr.sum fold_right].
    rewrite Hdf, Hdb. unfold front. cbn [shape].
    rewrite set_nth_set_nth.
    replace (n - i + 0 + (i + 0)) with n by lia.
    unfold n, dim. apply set_nth_same.
  - intros idx Hb.
    pose proof (in_bounds_coord _ _ ax Hb Hax) as Hc. fold (dim a ax) in Hc.
    fold n in Hc.
    assert (Hlen : (ax < length idx)%nat)
      by (rewrite (in_bounds_length _ _ Hb); exact Hax).
    destruct (Z_lt_dec (coord idx ax) (n - i)) as [Hlt|Hge].
    + assert (Hbf : in_bounds (shape front) idx).
      { unfold front. cbn [shape].
        rewrite <- (with_coord_same idx ax).
        apply in_bounds_set; [exact Hb|lia]. }
      specialize (Hat1 idx Hbf). unfold sum_dims in Hat1.
      cbn [map Arr.sum fold_right] in Hat1.
      rewrite Z.add_0_r, with_coord_same in Hat1. rewrite Hat1.
      unfold front. cbn [at_]. f_equal. f_equal.
      fold n. apply (Z.mod_unique _ _ ((- s) / n)); [left; lia|].
      unfold i. rewrite (Z.mod_eq (- s) n) by lia. lia.
    + set (j := coord idx ax - (n - i)).
      assert (Hbb : in_bounds (shape back) (with_coord idx ax j)).
      { unfold back. cbn [shape]. apply in_bounds_set; [exact Hb|].
        unfold j. lia. }
      specialize (Hat2 _ Hbb). unfold sum_dims in Hat2.
      cbn [map Arr.sum fold_right] in Hat2.
      rewrite coord_with_coord in Hat2 by exact Hlen.
      rewrite with_coord_twice in Hat2.
      replace (j + (dim front ax + 0)) with (coord idx ax) in Hat2
        by (rewrite Hdf; unfold j; lia).
      rewrite with_coord_same in Hat2. rewrite Hat2.
      unfold back. cbn [at_].
      rewrite coord_with_coord by exact Hlen. rewrite with_coord_twice.
      f_equal. f_equal.
      fold n. apply (Z.mod_unique _ _ ((- s) / n + 1)); [left; unfold j; lia|].
      unfold j, i. rewrite (Z.mod_eq (- s) n) by lia. lia.
Qed.

Lemma canonicalize_axis_bound (axis : Z) (n k : nat) :
  Repeat._canonicalize_axis axis n = Ok k -> (k < n)%nat.
Proof.
  unfold Repeat._canonicalize_axis.
  destruct (Z.leb_spec (- Z.of_nat n) axis); [|discriminate].
  destruct (Z.ltb_spec axis (Z.of_nat n)); [|discriminate].
  cbn [andb]. intros Hk. inversion Hk.
  destruct (Z.ltb_spec axis 0); lia.
Qed.

Lemma roll_single (a : array T) (s axis : Z) (k : nat) :
  Forall (fun n => 0 <= n) (shape a) ->
  Repeat._canonicalize_axis axis (ndim a) = Ok k ->
  exists r, roll a [s] (Some [axis]) = Ok r /\ rolled k s a r.
Proof.
  intros Hnn Hk. unfold roll, _roll_static.
  cbn [map_result]. rewrite Hk. cbn [bind broadcast_tuples length Nat.eqb
                                     combine roll_axes].
  destruct (roll_axis_rolls a k s (canonicalize_axis_bound _ _ _ Hk) Hnn)
    as [r [Hr Hrolled]].
  rewrite Hr. cbn [bind]. exists r. split; [reflexivity|exact Hrolled].
Qed.

Lemma rolled_compose (k : nat) (s t : Z) (a r1 r2 : array T) :
  (k < ndim a)%nat ->
  rolled k s a r1 -> rolled k t r1 r2 -> rolled k (s + t) a r2.
Proof.
  intros Hk [Hs1 Hat1] [Hs2 Hat2]. split; [congruence|].
  intros idx Hb.
  pose proof (in_bounds_coord _ _ k Hb Hk) as Hc.
  assert (Hlen : (k < length idx)%nat)
    by (rewrite (in_bounds_length _ _ Hb); exact Hk).
  assert (Hd : dim r1 k = dim a k) by (unfold dim; rewrite Hs1; reflexivity).
  rewrite Hat2 by (rewrite Hs1; exact Hb). rewrite Hd.
  fold (dim a k) in Hc.
  assert (Hm : 0 <= (coord idx k - t) mod dim a k < dim a k)
    by (apply Z.mod_pos_bound; lia).
  rewrite Hat1.
  - rewrite coord_with_coord by exact Hlen. rewrite with_coord_twice.
    f_equal. f_equal. rewrite Zminus_mod_idemp_l. f_equal. lia.
  - rewrite <- (set_nth_same (shape a) k 0).
    apply in_bounds_set; [exact Hb|exact Hm].
Qed.

Lemma rolled_zero (k : nat) (a r : array T) :
  (k < ndim a)%nat -> rolled k 0 a r -> array_eq r a.
Proof.
  intros Hk [Hs Hat]. split; [exact Hs|].
  intros idx Hb. rewrite Hs in Hb. rewrite (Hat idx Hb).
  pose proof (in_bounds_coord _ _ k Hb Hk) as Hc. fold (dim a k) in Hc.
  rewrite Z.sub_0_r, Z.mod_small by exact Hc.
  rewrite with_coord_same. reflexivity.
Qed.

(** X11: [roll] by a static shift [s] along one axis keeps the shape, and
    the element at position [j] of the axis is the element of the input at
    position [(j - s) mod n], for an axis of length [n]. *)
Theorem roll_elements (a : array T) (s axis : Z) (k : nat) :
  Forall (fun n => 0 <= n) (shape a) ->
  Repeat._canonicalize_axis axis (ndim a) = Ok k ->
  exists r,
    roll a [s] (Some [axis]) = Ok r /\
    shape r = shape a /\
    forall idx, in_bounds (shape a) idx ->
                at_ r idx
                = at_ a (with_coord idx k ((coord idx k - s) mod dim a k)).
Proof.
  intros Hnn Hk. destruct (roll_single a s axis k Hnn Hk) as [r [Hr [Hs Hat]]].
  exists r. auto.
Qed.

(** X12: rolling by [s] and then by [t] along the same axis gives the
    elements of rolling once by [s + t]; in particular rolling back by [-s]
    gives the input again. *)
Theorem roll_composes (a : array T) (s t axis : Z) (k : nat) :
  Forall (fun n => 0 <= n) (shape a) ->
  Repeat._canonicalize_axis axis (ndim a) = Ok k ->
  exists r1 r2 r3,
    roll a [s] (Some [axis]) = Ok r1 /\
    roll r1 [t] (Some [axis]) = Ok r2 /\
    roll a [s + t] (Some [axis]) = Ok r3 /\
    array_eq r2 r3 /\
    (s + t = 0 -> array_eq r2 a).
Proof.
  intros Hnn Hk.
  pose proof (canonicalize_axis_bound _ _ _ Hk) as Hkn.
  destruct (roll_single a s axis k Hnn Hk) as [r1 [Hr1 H1]].
  assert (Hs1 : shape r1 = shape a) by (destruct H1; assumption).
  assert (Hnd : ndim r1 = ndim a) by (unfold ndim; rewrite Hs1; reflexivity).
  destruct (roll_single r1 t axis k) as [r2 [Hr2 H2]].
  { rewrite Hs1. exact Hnn. }
  { rewrite Hnd. exact Hk. }
  destruct (roll_single a (s + t) axis k Hnn Hk) as [r3 [Hr3 H3]].
  exists r1, r2, r3. repeat (split; [assumption|]).
  pose proof (rolled_compose k s t a r1 r2 Hkn H1 H2) as H12.
  split.
  - destruct H12 as [Hs12 Hat12]. destruct H3 as [Hs3 Hat3].
    split; [congruence|].
    intros idx Hb. rewrite Hs12 in Hb.
    rewrite Hat12, Hat3 by exact Hb. reflexivity.
  - intros Hst. rewrite Hst in H12. apply (rolled_zero k a r2 Hkn H12).
Qed.

End RollCorrect.

Lemma roll_elements_witness :
  exists r,
    roll (of_list 0 [1; 2; 3; 4; 5]) [2] (Some [-1]) = Ok r /\
    shape r = shape (of_list 0 [1; 2; 3; 4; 5]) /\
    forall idx, in_bounds (shape (of_list 0 [1; 2; 3; 4; 5])) idx ->
                at_ r idx
                = at_ (of_list 0 [1; 2; 3; 4; 5])
                      (with_coord idx 0
                         ((coord idx 0 - 2)
                          mod dim (of_list 0 [1; 2; 3; 4; 5]) 0)).
Proof.
  apply (roll_elements (of_list 0 [1; 2; 3; 4; 5]) 2 (-1) 0%nat).
  - constructor; [cbn; lia|constructor].
  - reflexivity.
Defined.

Lemma roll_composes_witness :
  exists r1 r2 r3,
    roll (of_list 0 [1; 2; 3; 4; 5]) [2] (Some [0]) = Ok r1 /\
    roll r1 [-2] (Some [0]) = Ok r2 /\
    roll (of_list 0 [1; 2; 3; 4; 5]) [2 + -2] (Some [0]) = Ok r3 /\
    array_eq r2 r3 /\
    (2 + -2 = 0 -> array_eq r2 (of_list 0 [1; 2; 3; 4; 5])).
Proof.
  apply (roll_composes (of_list 0 [1; 2; 3; 4; 5]) 2 (-2) 0 0%nat).
  - constructor; [cbn; lia|constructor].
  - reflexivity.
Defined.

End RollFacts.

(** ** [trim_zeros] *)

Module TrimZerosFacts.

Import Arr TrimZeros ArrFacts.

Section TrimCorrect.

Context {T : Type}.
Variable is_zero : T -> bool.

(** The number of leading zeros. *)
Fixpoint leading (l : list T) : nat :=
  match l with
  | [] => O
  | x :: t => if is_zero x then S (leading t) else O
  end.

Definition zeros_only (l : list T) : Prop :=
  Forall (fun x => is_zero x = true) l.

Lemma forallb_map_id (l : list T) :
  forallb (fun x => x) (map is_zero l) = forallb is_zero l.
Proof. induction l as [|x l IH]; simpl; [reflexivity|]. rewrite IH. reflexivity. Qed.

Lemma argmin_leading (l : list T) :
  forallb is_zero l = false ->
  argmin (map is_zero l) = Z.of_nat (leading l).
Proof.
  induction l as [|x l IH]; intros Hnz; [discriminate|].
  cbn [map argmin leading forallb] in *.
  destruct (is_zero x); cbn [negb andb] in *; [|reflexivity].
  rewrite forallb_map_id, Hnz, IH by exact Hnz. lia.
Qed.

Lemma leading_zeros (l : list T) : zeros_only (firstn (leading l) l).
Proof.
  induction l as [|x l IH]; simpl; [constructor|].
  destruct (is_zero x) eqn:Hx; simpl; constructor; assumption.
Qed.

Lemma leading_next (l : list T) :
  forallb is_zero l = false ->
  exists x t, skipn (leading l) l = x :: t /\ is_zero x = false.
Proof.
  induction l as [|x l IH]; intros Hnz; [discriminate|].
  cbn [forallb leading] in *. destruct (is_zero x) eqn:Hx.
  - cbn [andb skipn] in *. apply IH. exact Hnz.
  - exists x, l. split; [reflexivity|exact Hx].
Qed.

Lemma leading_app_le (a : list T) (x : T) (b : list T) :
  is_zero x = false -> (leading (a ++ x :: b) <= length a)%nat.
Proof.
  intros Hx. induction a as [|y a IH]; simpl.
  - rewrite Hx. lia.
  - destruct (is_zero y); lia.
Qed.

Lemma leading_both (l : list T) :
  forallb is_zero l = false ->
  (leading l + leading (rev l) < length l)%nat.
Proof.
  intros Hnz. destruct (leading_next l Hnz) as [x [t [Hs Hx]]].
  assert (Hl : l = firstn (leading l) l ++ x :: t).
  { rewrite <- Hs. symmetry. apply firstn_skipn. }
  assert (Hlen : length l = (length (firstn (leading l) l) + S (length t))%nat).
  { rewrite Hl at 1. rewrite length_app. reflexivity. }
  assert (Hf : (length (firstn (leading l) l) <= leading l)%nat)
    by (rewrite length_firstn; lia).
  assert (Hfl : length (firstn (leading l) l) = leading l).
  { rewrite length_firstn. apply Nat.min_l.
    assert (Hle : (length (skipn (leading l) l) >= 1)%nat)
      by (rewrite Hs; simpl; lia).
    rewrite length_skipn in Hle. lia. }
  assert (Hr : (leading (rev l) <= length t)%nat).
  { rewrite Hl, rev_app_distr. cbn [rev]. rewrite <- app_assoc. cbn [app].
    rewrite <- (length_rev t). apply leading_app_le. exact Hx. }
  lia.
Qed.

Lemma zeros_only_rev (l : list T) : zeros_only l -> zeros_only (rev l).
Proof.
  unfold zeros_only. rewrite !Forall_forall. intros Hl x Hx.
  apply Hl. apply in_rev. exact Hx.
Qed.

Lemma all_zero_none (l : list T) :
  forallb is_zero l = false -> ~ zeros_only l.
Proof.
  intros Hnz Hall. unfold zeros_only in Hall.
  rewrite Forall_forall in Hall. apply forallb_forall in Hall. congruence.
Qed.

(** The slice between [s] leading and [e] trailing places. *)
Lemma slice_between_parts (l : list T) (s e : nat) :
  (s + e <= length l)%nat ->
  l = firstn s l
      ++ slice_between l (Z.of_nat s) (len l - Z.of_nat e)
      ++ rev (firstn e (rev l)).
Proof.
  intros Hse. unfold slice_between, len.
  replace (Z.to_nat (Z.of_nat (length l) - Z.of_nat e))
    with (length l - e)%nat by lia.
  rewrite Nat2Z.id.
  rewrite firstn_rev, rev_involutive.
  rewrite skipn_firstn_comm.
  rewrite <- (firstn_skipn s l) at 1. f_equal.
  rewrite <- (firstn_skipn (length l - e - s) (skipn s l)) at 1. f_equal.
  rewrite skipn_skipn. f_equal. lia.
Qed.

Lemma slice_between_head (l : list T) (s e : nat) (x : T) (t : list T) :
  (s + e < length l)%nat -> skipn s l = x :: t ->
  exists u, slice_between l (Z.of_nat s) (len l - Z.of_nat e) = x :: u.
Proof.
  intros Hse Hs. unfold slice_between, len.
  replace (Z.to_nat (Z.of_nat (length l) - Z.of_nat e))
    with (length l - e)%nat by lia.
  rewrite Nat2Z.id, skipn_firstn_comm, Hs.
  destruct (length l - e - s)%nat as [|k] eqn:Hk; [lia|].
  eexists. reflexivity.
Qed.

Lemma slice_between_rev (l : list T) (s e : nat) :
  (s + e <= length l)%nat ->
  rev (slice_between l (Z.of_nat s) (len l - Z.of_nat e))
  = slice_between (rev l) (Z.of_nat e) (len (rev l) - Z.of_nat s).
Proof.
  intros Hse. unfold slice_between, len. rewrite length_rev.
  replace (Z.to_nat (Z.of_nat (length l) - Z.of_nat e))
    with (length l - e)%nat by lia.
  replace (Z.to_nat (Z.of_nat (length l) - Z.of_nat s))
    with (length l - s)%nat by lia.
  rewrite !Nat2Z.id.
  rewrite firstn_rev, skipn_rev, length_skipn.
  replace (length l - (length l - s))%nat with s by lia.
  rewrite skipn_firstn_comm. do 2 f_equal. lia.
Qed.

Lemma forallb_rev_eq (l : list T) :
  forallb is_zero (rev l) = forallb is_zero l.
Proof.
  induction l as [|x l IH]; [reflexivity|].
  cbn [rev]. rewrite forallb_app, IH. cbn [forallb].
  rewrite andb_true_r. apply andb_comm.
Qed.

(** What [trim_zeros] does on an array that is not all zeros, with the
    numbers of places it takes from the two ends. *)
Lemma trim_zeros_slice (filt : list T) (trim : String.string) :
  forallb is_zero filt = false ->
  trim_zeros is_zero filt trim
  = slice_between filt
      (Z.of_nat (if in_lower letter_f trim then leading filt else O))
      (len filt
       - Z.of_nat (if in_lower letter_b trim then leading (rev filt) else O)).
Proof.
  intros Hnz. unfold trim_zeros. rewrite forallb_map_id, Hnz.
  rewrite <- map_rev.
  rewrite !argmin_leading by (rewrite ?forallb_rev_eq; exact Hnz).
  destruct (in_lower letter_f trim), (in_lower letter_b trim); reflexivity.
Qed.

(** X13: [trim_zeros] returns the empty array for an array of zeros only;
    otherwise it cuts zeros only, from the ends that [trim] names: the
    input is a run of zeros, the result and a run of zeros, the result
    starts with a non-zero element when [trim] has the letter f (and nothing
    is cut at the front when it has not), and ends with a non-zero element
    when [trim] has the letter b (and nothing is cut at the back when it has
    not). *)
Theorem trim_zeros_trims (filt : list T) (trim : String.string) :
  (forallb is_zero filt = true -> trim_zeros is_zero filt trim = []) /\
  (forallb is_zero filt = false ->
   exists zs1 zs2,
     filt = zs1 ++ trim_zeros is_zero filt trim ++ zs2 /\
     zeros_only zs1 /\ zeros_only zs2 /\
     (if in_lower letter_f trim
      then exists x t, trim_zeros is_zero filt trim = x :: t /\
                       is_zero x = false
      else zs1 = []) /\
     (if in_lower letter_b trim
      then exists t y, trim_zeros is_zero filt trim = t ++ [y] /\
                       is_zero y = false
      else zs2 = [])).
Proof.
  split.
  - intros Hall. unfold trim_zeros. rewrite forallb_map_id, Hall.
    reflexivity.
  - intros Hnz. rewrite (trim_zeros_slice filt trim Hnz).
    pose proof (leading_both filt Hnz) as Hboth.
    assert (Hnz' : forallb is_zero (rev filt) = false)
      by (rewrite forallb_rev_eq; exact Hnz).
    set (s := if in_lower letter_f trim then leading filt else O).
    set (e := if in_lower letter_b trim then leading (rev filt) else O).
    assert (Hse : (s + e < length filt)%nat).
    { unfold s, e.
      destruct (in_lower letter_f trim), (in_lower letter_b trim); lia. }
    exists (firstn s filt), (rev (firstn e (rev filt))).
    split; [apply slice_between_parts; lia|].
    split.
    { unfold s. destruct (in_lower letter_f trim);
        [apply leading_zeros|constructor]. }
    split.
    { apply zeros_only_rev. unfold e. destruct (in_lower letter_b trim);
        [apply leading_zeros|constructor]. }
    split.
    + unfold s in *. destruct (in_lower letter_f trim); [|reflexivity].
      destruct (leading_next filt Hnz) as [x [t [Hs Hx]]].
      destruct (slice_between_head filt (leading filt) e x t Hse Hs)
        as [u Hu].
      exists x, u. split; [exact Hu|exact Hx].
    + unfold e in *. destruct (in_lower letter_b trim); [|reflexivity].
      destruct (leading_next (rev filt) Hnz') as [y [t [Hs Hy]]].
      destruct (slice_between_head (rev filt) (leading (rev filt)) s y t)
        as [u Hu].
      { rewrite length_rev. lia. }
      { exact Hs. }
      rewrite <- slice_between_rev in Hu by lia.
      exists (rev u), y. split; [|exact Hy].
      apply (f_equal (@rev T)) in Hu. rewrite rev_involutive in Hu.
      rewrite Hu. reflexivity.
Qed.

End TrimCorrect.

Lemma trim_zeros_trims_witness :
  trim_zeros (Z.eqb 0) [0; 0; 2; 0; 1; 4; 3; 0; 0; 0] (String.String letter_f (String.String letter_b String.EmptyString))
  = [2; 0; 1; 4; 3] /\
  exists zs1 zs2,
    [0; 0; 2; 0; 1; 4; 3; 0; 0; 0]
    = zs1 ++ trim_zeros (Z.eqb 0) [0; 0; 2; 0; 1; 4; 3; 0; 0; 0] (String.String (Ascii.ascii_of_nat 70) String.EmptyString)
          ++ zs2 /\
    zeros_only (Z.eqb 0) zs1 /\ zs2 = [].
Proof.
  split; [reflexivity|].
  destruct (proj2 (trim_zeros_trims (Z.eqb 0)
                     [0; 0; 2; 0; 1; 4; 3; 0; 0; 0] (String.String (Ascii.ascii_of_nat 70) String.EmptyString)) eq_refl)
    as [zs1 [zs2 (H1 & H2 & _ & _ & H5)]].
  exists zs1, zs2. split; [exact H1|]. split; [exact H2|exact H5].
Defined.

End TrimZerosFacts.

(** ** Splitting a one-dimensional array into sections *)

Module SplitFacts.

Import Arr Split ArrFacts.

Section SplitCorrect.

Context {T : Type}.

Lemma sum_repeat (x : Z) (n : nat) : Arr.sum (repeat x n) = Z.of_nat n * x.
Proof. induction n as [|n IH]; cbn [repeat Arr.sum fold_right]; [lia|]. fold (Arr.sum (repeat x n)). lia. Qed.

Lemma sum_app (l1 l2 : list Z) : Arr.sum (l1 ++ l2) = Arr.sum l1 + Arr.sum l2.
Proof.
  unfold Arr.sum. induction l1 as [|x l1 IH]; simpl; [reflexivity|].
  rewrite IH. lia.
Qed.

(** The pieces of non-negative sizes that add up to the length are the
    array cut at the running sums. *)
Lemma pieces_concat (l : list T) (sizes : list Z) :
  Forall (fun s => 0 <= s) sizes -> len l = Arr.sum sizes ->
  concat (pieces l sizes) = l /\
  map (fun p => len p) (pieces l sizes) = sizes.
Proof.
  intros Hs. revert l. induction Hs as [|s sizes Hs0 Hrest IH]; intros l Hlen.
  - cbn in *. destruct l; [split; reflexivity|]. unfold len in Hlen.
    simpl in Hlen. lia.
  - cbn [pieces concat map Arr.sum fold_right] in *.
    fold (Arr.sum sizes) in Hlen.
    assert (Hsum : 0 <= Arr.sum sizes).
    { clear -Hrest. induction Hrest as [|x xs Hx _ IHx]; cbn; [lia|].
      fold (Arr.sum xs). lia. }
    destruct (IH (skipn (Z.to_nat s) l)) as [Hc Hm].
    { unfold len in *. rewrite length_skipn. lia. }
    rewrite Hc, Hm, firstn_skipn. split; [reflexivity|]. f_equal.
    unfold len in *. rewrite length_firstn. lia.
Qed.

Lemma lax_split_ok (l : list T) (sizes : list Z) :
  Forall (fun s => 0 <= s) sizes -> len l = Arr.sum sizes ->
  lax_split l sizes = Ok (pieces l sizes).
Proof.
  intros Hs Hlen. unfold lax_split.
  assert (He : existsb (fun s => s <? 0) sizes = false).
  { clear -Hs. induction Hs as [|x xs Hx _ IHx]; cbn; [reflexivity|].
    rewrite IHx. destruct (Z.ltb_spec x 0); [lia|reflexivity]. }
  rewrite He, Hlen, Z.eqb_refl. reflexivity.
Qed.

Lemma split_number (op : split_op) (ary : list T) (n : Z) :
  1 <= n ->
  let q := len ary / n in
  let r := len ary mod n in
  (r = 0 \/ op = op_array_split ->
   exists parts,
     _split op ary (sections_number n) 0 = Ok parts /\
     concat parts = ary /\
     map (fun p => len p) parts
     = repeat (q + 1) (Z.to_nat r) ++ repeat q (Z.to_nat (n - r))) /\
  (r <> 0 -> op <> op_array_split ->
   _split op ary (sections_number n) 0 = Raise ValueError).
Proof.
  intros Hn q r.
  pose proof (Z.mod_pos_bound (len ary) n ltac:(lia)) as Hr. fold r in Hr.
  pose proof (Z.div_mod (len ary) n ltac:(lia)) as Hdm.
  fold q r in Hdm.
  pose proof (len_nonneg ary) as Hlen.
  assert (Hq : 0 <= q) by (apply Z.div_pos; lia).
  unfold _split. cbn [Z.leb Z.ltb Z.compare andb negb].
  destruct (Z.eqb_spec n 0) as [Hz|_]; [lia|].
  fold q r. split.
  - intros Hcase.
    set (sizes := repeat (q + 1) (Z.to_nat r) ++ repeat q (Z.to_nat (n - r))).
    assert (Hsizes : (if r =? 0 then Ok (repeat q (Z.to_nat n))
                      else match op with
                           | op_array_split => Ok sizes
                           | _ => Raise ValueError
                           end) = Ok sizes).
    { destruct (Z.eqb_spec r 0) as [Hr0|Hr0].
      - unfold sizes. rewrite Hr0. cbn [Z.to_nat repeat app].
        rewrite Z.sub_0_r. reflexivity.
      - destruct Hcase as [Hc|Hc]; [contradiction|]. rewrite Hc.
        reflexivity. }
    rewrite Hsizes. cbn [bind].
    assert (Hnn : Forall (fun s => 0 <= s) sizes).
    { unfold sizes. apply Forall_app. split; apply Forall_forall;
        intros x Hx; apply repeat_spec in Hx; lia. }
    assert (Hsum : len ary = Arr.sum sizes).
    { unfold sizes. rewrite sum_app, !sum_repeat.
      rewrite !Z2Nat.id by lia. lia. }
    rewrite (lax_split_ok ary sizes Hnn Hsum).
    destruct (pieces_concat ary sizes Hnn Hsum) as [Hc Hm].
    exists (pieces ary sizes). auto.
  - intros Hr0 Hop. destruct (Z.eqb_spec r 0) as [?|_]; [contradiction|].
    destruct op; try reflexivity. contradiction Hop. reflexivity.
Qed.

(** X14: on a one-dimensional array and a positive number [n] of sections,
    along axis 0: [array_split] returns [n] pieces whose concatenation is
    the array, the first [len mod n] of length [len / n + 1] and the others
    of length [len / n]; [split], [vsplit] and [hsplit] return the [n]
    pieces of length [len / n] when [n] divides the length and raise
    [ValueError] when it does not; [dsplit], which splits along axis 2,
    raises [IndexError]. *)
Theorem split_sections (ary : list T) (n : Z) :
  1 <= n ->
  let q := len ary / n in
  let r := len ary mod n in
  let ios := sections_number n in
  (exists parts,
     array_split ary ios 0 = Ok parts /\
     concat parts = ary /\
     map (fun p => len p) parts
     = repeat (q + 1) (Z.to_nat r) ++ repeat q (Z.to_nat (n - r))) /\
  (r = 0 ->
   exists parts,
     split ary ios 0 = Ok parts /\ vsplit ary ios = Ok parts /\
     hsplit ary ios = Ok parts /\
     concat parts = ary /\
     map (fun p => len p) parts = repeat q (Z.to_nat n)) /\
  (r <> 0 ->
   split ary ios 0 = Raise ValueError /\ vsplit ary ios = Raise ValueError /\
   hsplit ary ios = Raise ValueError) /\
  dsplit ary ios = Raise IndexError.
Proof.
  intros Hn q r ios. repeat split.
  - apply (proj1 (split_number op_array_split ary n Hn)). right. reflexivity.
  - intros Hr0.
    destruct (proj1 (split_number op_split ary n Hn) (or_introl Hr0))
      as [parts [Hs [Hc Hm]]].
    destruct (proj1 (split_number op_vsplit ary n Hn) (or_introl Hr0))
      as [parts1 [Hs1 _]].
    destruct (proj1 (split_number op_hsplit ary n Hn) (or_introl Hr0))
      as [parts2 [Hs2 _]].
    assert (H1 : parts1 = parts).
    { unfold _split in Hs, Hs1. cbn [Z.leb Z.ltb Z.compare andb negb] in *.
      destruct (n =? 0); [discriminate|]. fold r in Hs, Hs1.
      rewrite Hr0 in Hs, Hs1. cbn [Z.eqb] in *. congruence. }
    assert (H2 : parts2 = parts).
    { unfold _split in Hs, Hs2. cbn [Z.leb Z.ltb Z.compare andb negb] in *.
      destruct (n =? 0); [discriminate|]. fold r in Hs, Hs2.
      rewrite Hr0 in Hs, Hs2. cbn [Z.eqb] in *. congruence. }
    subst parts1 parts2.
    exists parts. fold r q in Hm. rewrite Hr0 in Hm.
    cbn [Z.to_nat repeat app] in Hm. rewrite Z.sub_0_r in Hm.
    repeat split; assumption.
  - apply (proj2 (split_number op_split ary n Hn)); [assumption|discriminate].
  - apply (proj2 (split_number op_vsplit ary n Hn)); [assumption|discriminate].
  - apply (proj2 (split_number op_hsplit ary n Hn)); [assumption|discriminate].
Qed.

End SplitCorrect.

Lemma split_sections_witness :
  (exists parts,
     array_split [1; 2; 3; 4; 5; 6; 7; 8; 9] (sections_number 4) 0
     = Ok parts /\
     concat parts = [1; 2; 3; 4; 5; 6; 7; 8; 9] /\
     map (fun p => len p) parts = [3; 2; 2; 2]) /\
  split [1; 2; 3; 4; 5; 6; 7; 8; 9] (sections_number 4) 0
  = Raise ValueError.
Proof.
  pose proof (split_sections [1; 2; 3; 4; 5; 6; 7; 8; 9] 4 ltac:(lia))
    as [H1 [_ [H2 _]]].
  split.
  - exact H1.
  - apply H2. cbn. lia.
Defined.

End SplitFacts.

(** ** [_triu_size] *)

Module TriFacts.

Import Arr Search Tri ArrFacts SplitFacts.

(** The number of places [(i, j)] of an [n] by [m] array on or above the
    [k]-th diagonal, that is with [j - i >= k]. *)
Definition count_triu (n m : nat) (k : Z) : Z :=
  Arr.sum (map (fun i => Arr.sum (map (fun j => b2z (k <=? j - i)) (iota m)))
               (iota n)).

Lemma iota_succ (n : nat) : iota (S n) = iota n ++ [Z.of_nat n].
Proof. unfold iota. rewrite seq_S, map_app. reflexivity. Qed.

Lemma sum_one (x : Z) : Arr.sum [x] = x.
Proof. cbn. lia. Qed.

(** The number of [j < m] with [t <= j]. *)
Lemma count_from (m : nat) (t : Z) :
  0 <= t ->
  Arr.sum (map (fun j => b2z (t <=? j)) (iota m))
  = Z.max 0 (Z.of_nat m - t).
Proof.
  intros Ht. induction m as [|m IH]; [cbn; lia|].
  rewrite iota_succ, map_app, sum_app, IH. cbn [map]. rewrite sum_one.
  unfold b2z. destruct (Z.leb_spec t (Z.of_nat m)); lia.
Qed.

Lemma row_count (m : nat) (k i : Z) :
  0 <= k + i ->
  Arr.sum (map (fun j => b2z (k <=? j - i)) (iota m))
  = Z.max 0 (Z.of_nat m - k - i).
Proof.
  intros Hki.
  transitivity (Arr.sum (map (fun j => b2z (k + i <=? j)) (iota m))).
  - f_equal. apply map_ext. intros j. f_equal.
    destruct (Z.leb_spec k (j - i)), (Z.leb_spec (k + i) j); lia.
  - rewrite (count_from m (k + i) Hki). f_equal. lia.
Qed.

Lemma triangular_succ (x : Z) :
  (x + 1) * (x + 2) / 2 = x * (x + 1) / 2 + (x + 1).
Proof.
  replace ((x + 1) * (x + 2)) with (x * (x + 1) + (x + 1) * 2) by lia.
  apply Z.div_add. lia.
Qed.

(** The closed form of the source for a non-negative [k] below [m]. *)
Definition closed_form (n c : Z) : Z :=
  let mk := Z.min n c in mk * (mk + 1) / 2 + mk * (c - mk).

Lemma closed_form_succ (n c : Z) :
  0 <= n -> 0 <= c ->
  closed_form (n + 1) c = closed_form n c + Z.max 0 (c - n).
Proof.
  intros Hn Hc. unfold closed_form.
  destruct (Z_lt_dec n c) as [Hlt|Hge].
  - rewrite (Z.min_l (n + 1) c), (Z.min_l n c) by lia.
    replace (n + 1 + 1) with (n + 2) by lia.
    rewrite triangular_succ. lia.
  - rewrite (Z.min_r (n + 1) c), (Z.min_r n c) by lia. lia.
Qed.

Lemma count_triu_nonneg (n m : nat) (k : Z) :
  0 <= k -> k < Z.of_nat m ->
  count_triu n m k = closed_form (Z.of_nat n) (Z.of_nat m - k).
Proof.
  intros Hk Hm. unfold count_triu. induction n as [|n IH].
  - unfold closed_form. cbn [Z.of_nat iota seq map Arr.sum fold_right].
    rewrite Z.min_l by lia. reflexivity.
  - rewrite iota_succ, map_app, sum_app, IH. cbn [map]. rewrite sum_one.
    rewrite row_count by lia.
    replace (Z.of_nat (S n)) with (Z.of_nat n + 1) by lia.
    rewrite closed_form_succ by lia. lia.
Qed.

Lemma count_triu_none (n m : nat) (k : Z) :
  Z.of_nat m <= k -> count_triu n m k = 0.
Proof.
  intros Hm. unfold count_triu. induction n as [|n IH]; [reflexivity|].
  rewrite iota_succ, map_app, sum_app, IH. cbn [map]. rewrite sum_one.
  rewrite row_count by lia. lia.
Qed.

Lemma sum_map_add {A : Type} (f g : A -> Z) (l : list A) :
  Arr.sum (map (fun x => f x + g x) l)
  = Arr.sum (map f l) + Arr.sum (map g l).
Proof.
  unfold Arr.sum. induction l as [|x l IH]; simpl; [reflexivity|].
  rewrite IH. lia.
Qed.

Lemma sum_const {A : Type} (c : Z) (l : list A) :
  Arr.sum (map (fun _ => c) l) = len l * c.
Proof.
  unfold Arr.sum, len. induction l as [|x l IH]; simpl length;
    cbn [map fold_right]; [lia|].
  rewrite IH. lia.
Qed.

Lemma sum_swap {A B : Type} (f : A -> B -> Z) (la : list A) (lb : list B) :
  Arr.sum (map (fun a => Arr.sum (map (fun b => f a b) lb)) la)
  = Arr.sum (map (fun b => Arr.sum (map (fun a => f a b) la)) lb).
Proof.
  induction la as [|a la IH].
  - transitivity (Arr.sum (map (fun _ : B => 0) lb)).
    + rewrite sum_const. cbn. lia.
    + reflexivity.
  - transitivity (Arr.sum (map (fun b => f a b) lb)
                  + Arr.sum (map (fun a' => Arr.sum (map (fun b => f a' b) lb))
                                 la)).
    + reflexivity.
    + rewrite IH.
      rewrite <- (sum_map_add (fun b => f a b)
                    (fun b => Arr.sum (map (fun a' => f a' b) la)) lb).
      reflexivity.
Qed.

Lemma len_iota (n : nat) : len (iota n) = Z.of_nat n.
Proof. unfold len, iota. rewrite length_map, length_seq. reflexivity. Qed.

(** The places on or above the [k]-th diagonal and the places on or above
    the [(1 - k)]-th diagonal of the transposed array make up the array. *)
Lemma count_triu_complement (n m : nat) (k : Z) :
  count_triu n m k + count_triu m n (1 - k) = Z.of_nat n * Z.of_nat m.
Proof.
  unfold count_triu.
  rewrite (sum_swap (fun i j => b2z (1 - k <=? j - i)) (iota m) (iota n)).
  rewrite <- sum_map_add.
  transitivity (Arr.sum (map (fun _ : Z => Z.of_nat m) (iota n))).
  - f_equal. apply map_ext. intros i.
    rewrite <- sum_map_add.
    transitivity (Arr.sum (map (fun _ : Z => 1) (iota m))).
    + f_equal. apply map_ext. intros j. unfold b2z.
      destruct (Z.leb_spec k (j - i)), (Z.leb_spec (1 - k) (i - j)); lia.
    + rewrite sum_const, len_iota. lia.
  - rewrite sum_const, len_iota. reflexivity.
Qed.

Lemma triu_size_nonneg (fuel : nat) (n m : nat) (k : Z) :
  0 <= k ->
  _triu_size fuel (Z.of_nat n) (Z.of_nat m) k = Ok (count_triu n m k).
Proof.
  intros Hk.
  assert (Hbody : (if k <? 0 then Raise OutOfFuel
                   else if Z.of_nat m <=? k then Ok 0
                   else Ok (closed_form (Z.of_nat n) (Z.of_nat m - k)))
                  = Ok (count_triu n m k)).
  { destruct (Z.ltb_spec k 0); [lia|].
    destruct (Z.leb_spec (Z.of_nat m) k).
    - rewrite count_triu_none by lia. reflexivity.
    - rewrite count_triu_nonneg by lia. reflexivity. }
  destruct fuel; cbn [_triu_size]; destruct (Z.ltb_spec k 0); try lia;
    exact Hbody.
Qed.

(** X15: for an [n] by [m] array, [_triu_size(n, m, k)] is the number of
    places [(i, j)] with [j - i >= k], those on or above the [k]-th
    diagonal, for every [k], negative ones included (one level of
    recursion is enough). *)
Theorem triu_size_counts (fuel : nat) (n m : nat) (k : Z) :
  (1 <= fuel)%nat ->
  _triu_size fuel (Z.of_nat n) (Z.of_nat m) k = Ok (count_triu n m k).
Proof.
  intros Hfuel. destruct (Z_lt_dec k 0) as [Hneg|Hpos].
  - destruct fuel as [|fuel]; [lia|]. cbn [_triu_size].
    destruct (Z.ltb_spec k 0); [|lia].
    rewrite (triu_size_nonneg fuel m n (1 - k)) by lia. cbn [bind].
    f_equal. pose proof (count_triu_complement n m k). lia.
  - apply triu_size_nonneg. lia.
Qed.

Lemma triu_size_counts_witness :
  _triu_size 1 3 3 (-1) = Ok 8 /\ _triu_size 1 3 2 0 = Ok 3.
Proof.
  assert (Hfuel : (1 <= 1)%nat) by lia.
  split.
  - exact (triu_size_counts 1 3 3 (-1) Hfuel).
  - exact (triu_size_counts 1 3 2 0 Hfuel).
Defined.

End TriFacts.

(** ** [bincount]: counts, drops and totals *)

Module BincountFacts.

Import Arr ArrFacts Clip Bincount ScatterFacts.

(** The bin of a value: negative values go to the first bin. *)
Definition bin_of (v : Z) : Z := Z.max 0 v.

Lemma clip_bins (x : list Z) :
  map (fun v => clip v (Some 0) None) x = map bin_of x.
Proof. reflexivity. Qed.

Lemma bins_nonneg (x : list Z) : Forall (fun i => 0 <= i) (map bin_of x).
Proof.
  apply Forall_forall. intros i Hin. apply in_map_iff in Hin.
  destruct Hin as [v [<- _]]. unfold bin_of. lia.
Qed.

Lemma array_max_bound (x : list Z) : Forall (fun v => v <= array_max x) x.
Proof.
  unfold array_max. generalize (hd 0 x). intros d.
  induction x as [|v x IH]; constructor.
  - cbn. lia.
  - eapply Forall_impl; [|exact IH]. cbn. intros a Ha. lia.
Qed.

(** The weights [bincount] scatters. *)
Definition weights_of (x : list Z) (weights : option (list Z)) : list Z :=
  match weights with
  | None => map (fun _ => 1) x
  | Some w => w
  end.

Section Wrapped.

Variable bits : Z.
Hypothesis bits_pos : 1 <= bits.

Lemma wrap_add_l (a b : Z) :
  Gcd.wrap bits (Gcd.wrap bits a + b) = Gcd.wrap bits (a + b).
Proof using bits_pos.
  apply RavelIndexFacts.wrap_congr; [exact bits_pos|].
  rewrite <- Zplus_mod_idemp_l, RavelIndexFacts.wrap_mod by exact bits_pos.
  rewrite Zplus_mod_idemp_l. reflexivity.
Qed.

Lemma nth_update_wrapped (dst : list Z) (i v : Z) (p : nat) :
  0 <= i ->
  nth p (update (add_weights bits) dst i v) 0
  = if (i =? Z.of_nat p) && (Z.of_nat p <? len dst)
    then Gcd.wrap bits (nth p dst 0 + v) else nth p dst 0.
Proof using Type.
  intros Hi. unfold update, norm_index.
  destruct (Z.ltb_spec i 0); [lia|].
  destruct (Z.leb_spec 0 i); [|lia]. cbn [andb].
  destruct (Z.ltb_spec i (len dst)) as [Hlt|Hge].
  - assert (Hn : (Z.to_nat i < length dst)%nat) by (unfold len in Hlt; lia).
    destruct (nth_error dst (Z.to_nat i)) as [old|] eqn:Hold.
    2:{ apply nth_error_None in Hold. lia. }
    rewrite nth_set_nth by exact Hn.
    destruct (Nat.eqb_spec (Z.to_nat i) p) as [He|Hne].
    + subst p. rewrite Z2Nat.id by lia. rewrite Z.eqb_refl.
      destruct (Z.ltb_spec i (len dst)); [|lia]. cbn [andb].
      rewrite (nth_error_nth _ _ 0 Hold). reflexivity.
    + destruct (Z.eqb_spec i (Z.of_nat p)); [lia|]. reflexivity.
  - destruct (Z.eqb_spec i (Z.of_nat p)) as [He|Hne]; cbn [andb];
      [|reflexivity].
    destruct (Z.ltb_spec (Z.of_nat p) (len dst)); [lia|]. reflexivity.
Qed.

(** A scatter-add in the dtype holds, at every position, the wrapped sum of
    what was there and of the values scattered to it. *)
Lemma at_add_wrapped_hits (dst idxs vals : list Z) (p : nat) :
  Forall (fun i => 0 <= i) idxs -> (p < length dst)%nat ->
  Gcd.wrap bits (nth p dst 0) = nth p dst 0 ->
  nth p (at_add (add_weights bits) dst idxs vals) 0
  = Gcd.wrap bits (nth p dst 0 + hits p idxs vals).
Proof using bits_pos.
  unfold at_add, hits. intros Hi. revert dst vals.
  induction Hi as [|i idxs Hi0 _ IH]; intros dst vals Hp Hcanon.
  - cbn. rewrite Z.add_0_r. symmetry. exact Hcanon.
  - destruct vals as [|v vals].
    { cbn. rewrite Z.add_0_r. symmetry. exact Hcanon. }
    cbn [combine fold_left map fst snd].
    change (Arr.sum (?x :: ?l)) with (x + Arr.sum l).
    pose proof (nth_update_wrapped dst i v p Hi0) as Hstep.
    destruct (Z.ltb_spec (Z.of_nat p) (len dst)); [|unfold len in *; lia].
    rewrite andb_true_r in Hstep.
    rewrite IH.
    + rewrite Hstep. destruct (i =? Z.of_nat p).
      * rewrite wrap_add_l. f_equal; lia.
      * f_equal; lia.
    + rewrite update_length. exact Hp.
    + rewrite Hstep. destruct (i =? Z.of_nat p); [|exact Hcanon].
      apply RavelIndexFacts.wrap_wrap. exact bits_pos.
Qed.

End Wrapped.

Lemma hits_bounds (p : nat) (idxs vals : list Z) :
  Forall (fun v => 0 <= v) vals ->
  0 <= hits p idxs vals <= Arr.sum vals.
Proof.
  unfold hits. intros Hv. revert idxs.
  induction Hv as [|v vals Hv0 _ IH]; intros [|i idxs];
    cbn [combine map fst snd]; try (cbn; lia).
  - change (Arr.sum (v :: vals)) with (v + Arr.sum vals).
    specialize (IH []). destruct vals; cbn in *; lia.
  - change (Arr.sum (?a :: ?l)) with (a + Arr.sum l).
    specialize (IH idxs). destruct (i =? Z.of_nat p); lia.
Qed.

Lemma bincount_unfold (bits : Z) (x : list Z) (weights : option (list Z))
  (minlength : Z) (length : option nat) (r : list Z) :
  bincount bits x weights minlength length = Ok r ->
  List.length (weights_of x weights) = List.length x /\
  exists n : nat,
    r = at_add (add_weights bits) (zeros n) (map bin_of x)
               (weights_of x weights) /\
    Z.of_nat n
    = match length with
      | Some l => Z.of_nat l
      | None => Z.max minlength
                  (match x with [] => 0 | _ => Z.max 0 (array_max x) + 1 end)
      end /\
    (length = None -> Forall (fun v => bin_of v < Z.of_nat n) x).
Proof.
  unfold bincount. intros H.
  assert (Hw : List.length (weights_of x weights) = List.length x /\
               match weights with
               | None => Ok (map (fun _ => 1) x)
               | Some w => if negb (len x =? len w) then Raise ValueError
                           else Ok w
               end = Ok (weights_of x weights)).
  { destruct weights as [w|]; cbn [weights_of].
    - destruct (Z.eqb_spec (len x) (len w)) as [He|Hne]; cbn [negb] in *.
      + split; [unfold len in He; lia|reflexivity].
      + discriminate.
    - split; [apply length_map|reflexivity]. }
  destruct Hw as [Hlen Hw]. rewrite Hw in H. cbn [bind] in H.
  injection H as <-. split; [exact Hlen|].
  eexists. split; [rewrite clip_bins; reflexivity|].
  assert (Hsize : (if len x =? 0 then 0 else Z.max 0 (array_max x) + 1)
                  = match x with [] => 0 | _ => Z.max 0 (array_max x) + 1 end).
  { destruct x as [|x0 x']; [reflexivity|].
    destruct (Z.eqb_spec (len (x0 :: x')) 0) as [He|_]; [|reflexivity].
    unfold len in He. simpl in He. lia. }
  rewrite Hsize. split.
  - destruct length as [l|]; [rewrite Nat2Z.id; reflexivity|].
    apply Z2Nat.id. destruct x; lia.
  - intros ->. pose proof (array_max_bound x) as Hmax.
    apply Forall_forall. intros v Hin.
    rewrite Forall_forall in Hmax. specialize (Hmax v Hin).
    destruct x as [|x0 x']; [destruct Hin|].
    unfold bin_of. lia.
Qed.

(** X16: for integer weights in a signed dtype of [bits] bits, whenever
    [bincount] returns, entry [p] of the result is the sum, wrapped to the
    dtype, of the weights of the values whose bin is [p], negative values
    being counted in bin 0 and values beyond the result being dropped.
    Without weights, and with fewer than [2^(bits-1)] values, it is the
    number of such values.  With a static [length] the result has that many
    entries. *)
Theorem bincount_bins (bits : Z) (x : list Z) (weights : option (list Z))
  (minlength : Z) (length : option nat) (r : list Z) :
  1 <= bits ->
  bincount bits x weights minlength length = Ok r ->
  (forall l, length = Some l -> List.length r = l) /\
  (forall p : nat, (p < List.length r)%nat ->
     nth p r 0
     = Gcd.wrap bits (hits p (map bin_of x) (weights_of x weights))) /\
  (weights = None -> len x < 2 ^ (bits - 1) ->
   forall p : nat, (p < List.length r)%nat ->
     nth p r 0 = Z.of_nat (count_occ Z.eq_dec (map bin_of x) (Z.of_nat p))).
Proof.
  intros Hbits H. apply bincount_unfold in H.
  destruct H as [Hlen [n [-> [Hn _]]]].
  assert (Hr : List.length (at_add (add_weights bits) (zeros n)
                                   (map bin_of x) (weights_of x weights))
               = n).
  { rewrite at_add_length. apply repeat_length. }
  assert (Hp : forall p : nat, (p < n)%nat ->
            nth p (at_add (add_weights bits) (zeros n) (map bin_of x)
                          (weights_of x weights)) 0
            = Gcd.wrap bits (hits p (map bin_of x) (weights_of x weights))).
  { intros p Hp. rewrite at_add_wrapped_hits.
    - rewrite nth_zeros. reflexivity.
    - exact Hbits.
    - apply bins_nonneg.
    - unfold zeros. rewrite repeat_length. exact Hp.
    - rewrite nth_zeros. apply RavelIndexFacts.wrap_zero. exact Hbits. }
  rewrite Hr. repeat split.
  - intros l ->. lia.
  - exact Hp.
  - intros -> Hfit p Hlt. rewrite (Hp p Hlt). cbn [weights_of].
    pose proof (hits_bounds p (map bin_of x) (map (fun _ => 1) (map bin_of x)))
      as Hb.
    rewrite map_map in Hb.
    assert (Hones : forall l : list Z,
               Forall (fun v => 0 <= v) (map (fun _ => 1) l) /\
               Arr.sum (map (fun _ => 1) l) = len l).
    { clear. induction l as [|v l [IH1 IH2]]; [split; [constructor|reflexivity]|].
      cbn [map]. change (Arr.sum (?a :: ?t)) with (a + Arr.sum t).
      split; [constructor; [lia|exact IH1]|].
      rewrite IH2. unfold len. cbn [List.length]. lia. }
    destruct (Hones x) as [Hnn Hsum]. specialize (Hb Hnn). rewrite Hsum in Hb.
    rewrite GcdFacts.wrap_small.
    + rewrite <- (hits_ones p (map bin_of x)). rewrite map_map. reflexivity.
    + exact Hbits.
    + destruct (RavelIndexFacts.pow2_split bits Hbits). lia.
Qed.

Lemma bincount_bins_witness :
  nth 0 [2; 1; 0; 1; 0] 0
  = Z.of_nat (count_occ Z.eq_dec (map bin_of [-1; -1; 1; 3; 10]) 0).
Proof.
  refine (proj2 (proj2 (bincount_bins 32 [-1; -1; 1; 3; 10] None 0
                         (Some 5%nat) [2; 1; 0; 1; 0] _ _)) eq_refl _ 0%nat _).
  - lia.
  - reflexivity.
  - cbn. lia.
  - cbn. lia.
Defined.



(** X18: weights whose shape differs from that of [x] are refused with a
    ValueError, whatever the other arguments. *)
Theorem bincount_weights_shape (bits : Z) (x w : list Z) (minlength : Z)
  (length : option nat) :
  List.length w <> List.length x ->
  bincount bits x (Some w) minlength length = Raise ValueError.
Proof.
  intros Hne. unfold bincount.
  destruct (Z.eqb_spec (len x) (len w)) as [He|_].
  - unfold len in He. lia.
  - reflexivity.
Qed.

Lemma bincount_weights_shape_witness :
  bincount 32 [1; 2] (Some [1]) 0 None = Raise ValueError.
Proof. apply bincount_weights_shape. cbn. lia. Defined.

End BincountFacts.

(** ** [repeat] with an array of counts *)

Module RepeatArrayFacts.

Import Arr ArrFacts Nd Repeat ScatterFacts.

(** The exclusive prefix sums of the counts: where each block starts. *)
Fixpoint starts (acc : Z) (l : list Z) : list Z :=
  match l with
  | [] => []
  | k :: t => acc :: starts (acc + k) t
  end.

(** The index of the source element at every position of the result:
    [k0] times [i], then [k1] times [i + 1], and so on. *)
Fixpoint blocks (i : Z) (l : list Z) : list Z :=
  match l with
  | [] => []
  | k :: t => List.repeat i (Z.to_nat k) ++ blocks (i + 1) t
  end.

(** The run-length expansion of a one-dimensional array: [a[i]] repeated
    [k0] times, then [a[i + 1]] repeated [k1] times, and so on. *)
Fixpoint runs {T : Type} (a : array T) (i : Z) (l : list Z) : list T :=
  match l with
  | [] => []
  | k :: t => List.repeat (at_ a [i]) (Z.to_nat k) ++ runs a (i + 1) t
  end.

Lemma runs_blocks {T : Type} (a : array T) (i : Z) (l : list Z) :
  map (fun g => at_ a [g]) (blocks i l) = runs a i l.
Proof.
  revert i. induction l as [|k t IH]; intros i; [reflexivity|].
  cbn [blocks runs]. rewrite map_app, map_repeat, IH. reflexivity.
Qed.

Lemma blocks_length (i : Z) (l : list Z) :
  Forall (fun k => 0 <= k) l -> len (blocks i l) = Arr.sum l.
Proof.
  intros Hl. revert i. induction Hl as [|k t Hk _ IH]; intros i;
    [reflexivity|].
  cbn [blocks]. rewrite len_app, IH. unfold len. rewrite repeat_length.
  change (Arr.sum (k :: t)) with (k + Arr.sum t). lia.
Qed.

Lemma sum_nonneg (l : list Z) :
  Forall (fun k => 0 <= k) l -> 0 <= Arr.sum l.
Proof.
  induction 1 as [|k t Hk _ IH]; [cbn; lia|].
  change (Arr.sum (k :: t)) with (k + Arr.sum t). lia.
Qed.

Lemma starts_removelast (acc k : Z) (t : list Z) :
  acc :: cumsum_from acc (removelast (k :: t)) = starts acc (k :: t).
Proof.
  revert acc k. induction t as [|k' t IH]; intros acc k; [reflexivity|].
  change (removelast (k :: k' :: t)) with (k :: removelast (k' :: t)).
  cbn [cumsum_from]. rewrite IH. reflexivity.
Qed.

Lemma scatter_indices_starts (k : Z) (t : list Z) :
  cumsum (set_nth (roll1 (k :: t)) 0 0) = starts 0 (k :: t).
Proof.
  unfold roll1, cumsum. cbn [set_nth cumsum_from].
  change (0 + 0) with 0. apply starts_removelast.
Qed.

Lemma starts_ge (acc : Z) (l : list Z) :
  Forall (fun k => 0 <= k) l -> Forall (fun s => acc <= s) (starts acc l).
Proof.
  intros Hl. revert acc. induction Hl as [|k t Hk _ IH]; intros acc;
    constructor.
  - lia.
  - eapply Forall_impl; [|apply IH]. cbn beta. intros s Hs. lia.
Qed.

Lemma filter_none {A : Type} (f : A -> bool) (l : list A) :
  Forall (fun x => f x = false) l -> filter f l = [].
Proof.
  induction 1 as [|x l Hx _ IH]; [reflexivity|].
  cbn [filter]. rewrite Hx. exact IH.
Qed.

(** The number of blocks that start at or before position [p], less one, is
    the index of the block that holds [p]. *)
Lemma block_of_position (l : list Z) (acc i p : Z) :
  Forall (fun k => 0 <= k) l -> acc <= p < acc + Arr.sum l ->
  len (filter (fun s => s <? p + 1) (starts acc l)) - 1
  = nth (Z.to_nat (p - acc)) (blocks i l) 0 - i.
Proof.
  intros Hl. revert acc i.
  induction Hl as [|k t Hk Ht IH]; intros acc i Hp.
  - cbn in Hp. lia.
  - change (Arr.sum (k :: t)) with (k + Arr.sum t) in Hp.
    cbn [starts blocks filter].
    destruct (Z.ltb_spec acc (p + 1)) as [_|Hbad]; [|lia].
    unfold len. cbn [length]. fold (len (filter (fun s => s <? p + 1)
                                                 (starts (acc + k) t))).
    destruct (Z.lt_ge_cases p (acc + k)) as [Hin|Hout].
    + rewrite filter_none.
      2:{ eapply Forall_impl; [|apply (starts_ge (acc + k) t Ht)].
          cbn beta. intros s Hs. apply Z.ltb_ge. lia. }
      rewrite app_nth1 by (rewrite repeat_length; lia).
      rewrite nth_repeat_lt by lia. cbn. lia.
    + rewrite app_nth2 by (rewrite repeat_length; lia).
      rewrite repeat_length.
      replace (Z.to_nat (p - acc) - Z.to_nat k)%nat
        with (Z.to_nat (p - (acc + k))) by lia.
      pose proof (IH (acc + k) (i + 1)) as IH'. unfold len in IH'. lia.
Qed.

Lemma gather_indices_blocks (k : Z) (t : list Z) :
  Forall (fun c => 0 <= c) (k :: t) ->
  let scatter_indices := cumsum (set_nth (roll1 (k :: t)) 0 0) in
  map (fun c => c - 1)
      (cumsum (at_add Z.add (zeros (Z.to_nat (Arr.sum (k :: t))))
                      scatter_indices (map (fun _ => 1) scatter_indices)))
  = blocks 0 (k :: t).
Proof.
  intros Hl. cbv zeta. rewrite scatter_indices_starts.
  set (l := k :: t) in *. set (n := Z.to_nat (Arr.sum l)).
  pose proof (sum_nonneg l Hl) as Hsum.
  pose proof (blocks_length 0 l Hl) as Hblocks. unfold len in Hblocks.
  assert (Hlen : length (at_add Z.add (zeros n) (starts 0 l)
                                (map (fun _ => 1) (starts 0 l))) = n).
  { rewrite at_add_length. apply repeat_length. }
  apply (nth_ext _ _ 0 0).
  - rewrite length_map. unfold cumsum. rewrite cumsum_from_length, Hlen.
    unfold n. lia.
  - intros p Hp.
    rewrite length_map in Hp. unfold cumsum in Hp.
    rewrite cumsum_from_length, Hlen in Hp.
    unfold cumsum.
    rewrite (nth_map_lt _ _ p 0 0)
      by (rewrite cumsum_from_length, Hlen; exact Hp).
    rewrite nth_cumsum_from by (rewrite Hlen; exact Hp).
    rewrite sum_firstn_at_add.
    + rewrite sum_firstn_zeros.
      replace (Z.of_nat (S p)) with (Z.of_nat p + 1) by lia.
      pose proof (block_of_position l 0 0 (Z.of_nat p) Hl) as Hb.
      replace (Z.to_nat (Z.of_nat p - 0)) with p in Hb by lia.
      unfold n in Hp. lia.
    + eapply Forall_impl; [|apply (starts_ge 0 l Hl)]. cbn beta. lia.
    + unfold zeros. rewrite repeat_length. lia.
Qed.

Lemma map_nth_iota {A : Type} (f : Z -> A) (g : list Z) :
  map (fun p => f (nth (Z.to_nat p) g 0)) (iota (length g)) = map f g.
Proof.
  unfold iota. rewrite map_map.
  apply (nth_ext _ _ (f 0) (f 0)).
  - rewrite !length_map, length_seq. reflexivity.
  - intros p Hp. rewrite length_map, length_seq in Hp.
    rewrite (nth_map_lt _ _ p (f 0) 0%nat) by (rewrite length_seq; exact Hp).
    rewrite (nth_map_lt f g p (f 0) 0) by exact Hp.
    rewrite seq_nth by exact Hp. cbn [Nat.add]. rewrite Nat2Z.id.
    reflexivity.
Qed.

Lemma runs_all_zero {T : Type} (a : array T) (i : Z) (l : list Z) :
  Forall (fun k => 0 <= k) l -> Arr.sum l = 0 -> runs a i l = [].
Proof.
  intros Hl. revert i. induction Hl as [|k t Hk Ht IH]; intros i Hs;
    [reflexivity|].
  change (Arr.sum (k :: t)) with (k + Arr.sum t) in Hs.
  pose proof (sum_nonneg t Ht).
  cbn [runs]. rewrite IH by lia. replace k with 0 by lia. reflexivity.
Qed.

(** The elements of a one-dimensional array, in order. *)
Definition elements {T : Type} (r : array T) : list T :=
  map (fun p => at_ r [p]) (iota (Z.to_nat (dim r 0))).

(** X19: for a one-dimensional array [a] and an array [l] of as many
    non-negative counts, [repeat(a, l)] (no axis or axis 0, no total length)
    returns a one-dimensional array of [sum l] elements which is the
    run-length expansion of [a]: [a[0]] repeated [l[0]] times, then [a[1]]
    repeated [l[1]] times, and so on. *)
Theorem repeat_array_runs {T : Type} (a : array T) (l : list Z)
  (axis : option Z) :
  shape a = [len l] -> Forall (fun k => 0 <= k) l ->
  axis = None \/ axis = Some 0 ->
  exists r,
    repeat a (repeats_array l) axis None = Ok r /\
    shape r = [Arr.sum l] /\
    elements r = runs a 0 l.
Proof.
  intros Hshape Hl Haxis.
  pose proof (sum_nonneg l Hl) as Hsum.
  set (arr := match axis with None => ravel a | Some _ => a end).
  assert (Harr : shape arr = [len l] /\ forall p, at_ arr [p] = at_ a [p]).
  { destruct Haxis as [-> | ->]; subst arr; cbn.
    - rewrite Hshape. cbn. split; [f_equal; lia|].
      intros p. rewrite Z.div_1_r. reflexivity.
    - split; [exact Hshape|reflexivity]. }
  destruct Harr as [Hs Hat].
  assert (Hrun : repeat a (repeats_array l) axis None
                 = if Arr.sum l =? 0
                   then Ok (mk_array (set_nth (shape arr) 0 0) (at_ arr))
                   else if dim arr 0 =? 0 then Ok arr
                   else
                     let scatter_indices :=
                       cumsum (set_nth (roll1 l) 0 0) in
                     Ok (take arr
                           (map (fun c => c - 1)
                              (cumsum (at_add Z.add
                                         (zeros (Z.to_nat (Arr.sum l)))
                                         scatter_indices
                                         (map (fun _ => 1) scatter_indices))))
                           0)).
  { assert (Hax : python_axis 0 1 = Ok 0%nat) by reflexivity.
    unfold repeat, _repeat.
    destruct Haxis as [-> | ->]; subst arr; cbv beta iota zeta;
      unfold ndim, dim, broadcast_to_1d;
      rewrite Hs; cbn [length Nat.eqb negb];
      rewrite Hax; cbn [bind nth];
      rewrite Z.eqb_refl; cbn [bind]; reflexivity. }
  rewrite Hrun. clear Hrun.
  destruct (Z.eqb_spec (Arr.sum l) 0) as [Hz|Hnz].
  - eexists. split; [reflexivity|]. split.
    + cbn. rewrite Hs, Hz. reflexivity.
    + unfold elements, dim. cbn [shape]. rewrite Hs. cbn.
      symmetry. apply runs_all_zero; assumption.
  - destruct l as [|k t]; [cbn in Hnz; lia|].
    unfold dim. rewrite Hs. cbn [nth].
    destruct (Z.eqb_spec (len (k :: t)) 0) as [He|_].
    { unfold len in He. simpl in He. lia. }
    cbv zeta. rewrite (gather_indices_blocks k t Hl).
    eexists. split; [reflexivity|]. split.
    + cbn [take shape]. rewrite Hs. cbn [set_nth].
      rewrite (blocks_length 0 (k :: t) Hl). reflexivity.
    + unfold elements, dim. cbn [take shape at_]. rewrite Hs.
      cbn [set_nth nth]. rewrite <- runs_blocks.
      rewrite <- (map_nth_iota (fun g => at_ a [g])).
      unfold len. rewrite Nat2Z.id.
      apply map_ext. intros p. unfold with_coord, coord.
      cbn [set_nth nth]. apply Hat.
Qed.

Lemma repeat_array_runs_witness :
  exists r,
    repeat (of_list 0 [7; 8; 9]) (repeats_array [2; 0; 1]) None None = Ok r /\
    shape r = [Arr.sum [2; 0; 1]] /\
    elements r = runs (of_list 0 [7; 8; 9]) 0 [2; 0; 1].
Proof.
  apply (repeat_array_runs (of_list 0 [7; 8; 9]) [2; 0; 1] None).
  - reflexivity.
  - repeat constructor; lia.
  - left. reflexivity.
Defined.

End RepeatArrayFacts.

(** ** [fill_diagonal]: the values on the diagonal, and [_tile_to_size] *)

Module FillDiagonalValues.

Import Arr ArrFacts Nd FillDiagonal NdFacts FillDiagonalFacts.

Lemma tile_length {T : Type} (arr : list T) (reps : Z) :
  0 <= reps -> len (tile arr reps) = reps * len arr.
Proof.
  intros Hr. unfold tile, len.
  rewrite <- (Z2Nat.id reps) at 2 by exact Hr.
  induction (Z.to_nat reps) as [|n IH]; [reflexivity|].
  cbn [repeat concat]. rewrite length_app. lia.
Qed.

(** Tiling is periodic: position [k] holds the element at [k mod len]. *)
Lemma tile_nth_error {T : Type} (arr : list T) (reps : Z) (k : nat) :
  arr <> [] -> Z.of_nat k < reps * len arr ->
  nth_error (tile arr reps) k = nth_error arr (k mod length arr).
Proof.
  intros Hne. unfold tile.
  assert (Hpos : (0 < length arr)%nat) by (destruct arr; [contradiction|simpl; lia]).
  destruct (Z.le_gt_cases reps 0) as [Hle|Hgt].
  { intros Hk. unfold len in Hk. nia. }
  rewrite <- (Z2Nat.id reps) at 1 by lia.
  generalize (Z.to_nat reps). clear Hgt reps. intros n. revert k.
  induction n as [|n IH]; intros k Hk.
  - unfold len in Hk. lia.
  - cbn [repeat concat].
    destruct (Nat.lt_ge_cases k (length arr)) as [Hlt|Hge].
    + rewrite nth_error_app1 by exact Hlt.
      rewrite Nat.mod_small by exact Hlt. reflexivity.
    + rewrite nth_error_app2 by exact Hge.
      rewrite IH by (unfold len in *; lia).
      f_equal.
      replace k with ((k - length arr) + 1 * length arr)%nat at 2 by lia.
      rewrite Nat.Div0.mod_add. reflexivity.
Qed.

Lemma ceil_div_bounds (size n : Z) :
  0 < n -> 0 <= size ->
  0 <= (size + n - 1) / n /\ size <= (size + n - 1) / n * n.
Proof.
  intros Hn Hs.
  pose proof (Z.div_mod (size + n - 1) n ltac:(lia)) as Hd.
  pose proof (Z.mod_pos_bound (size + n - 1) n Hn) as Hm.
  split; [apply Z.div_pos; lia|nia].
Qed.

Lemma tile_to_size_spec {T : Type} (arr : list T) (size : Z) :
  arr <> [] -> 0 <= size ->
  exists r,
    _tile_to_size arr size = Ok r /\
    len r = size /\
    forall k : nat, Z.of_nat k < size ->
      nth_error r k = nth_error arr (k mod length arr).
Proof.
  intros Hne Hsize.
  assert (Hpos : 0 < len arr)
    by (destruct arr; [contradiction|unfold len; simpl; lia]).
  unfold _tile_to_size.
  assert (Hcut : forall tiled : list T,
             size <= len tiled ->
             (forall k : nat, Z.of_nat k < size ->
                nth_error tiled k = nth_error arr (k mod length arr)) ->
             exists r,
               (if negb (size <=? len tiled) then Raise AssertionError
                else Ok (if size <? len tiled
                         then firstn (Z.to_nat size) tiled else tiled))
               = Ok r /\
               len r = size /\
               forall k : nat, Z.of_nat k < size ->
                 nth_error r k = nth_error arr (k mod length arr)).
  { intros tiled Hle Hk.
    destruct (Z.leb_spec size (len tiled)) as [_|Hbad]; [|lia].
    cbn [negb]. eexists. split; [reflexivity|].
    destruct (Z.ltb_spec size (len tiled)) as [Hlt|Hge].
    - split.
      + unfold len in *. rewrite length_firstn. lia.
      + intros k Hlt'. rewrite nth_error_firstn.
        destruct (Nat.ltb_spec k (Z.to_nat size)) as [_|Hbad]; [|lia].
        apply Hk. exact Hlt'.
    - split; [lia|exact Hk]. }
  destruct (Z.ltb_spec (len arr) size) as [Hsmall|Hbig].
  - destruct (Z.eqb_spec (len arr) 0) as [Hz|_]; [lia|].
    cbn [bind].
    pose proof (ceil_div_bounds size (len arr) Hpos Hsize) as [Hr0 Hr1].
    apply Hcut.
    + rewrite tile_length by exact Hr0. exact Hr1.
    + intros k Hk. apply tile_nth_error; [exact Hne|lia].
  - cbn [bind]. apply Hcut; [exact Hbig|].
    intros k Hk. rewrite Nat.mod_small by (unfold len in Hbig; lia).
    reflexivity.
Qed.

(** X20: [_tile_to_size] on a non-empty array and a size [>= 0] returns
    exactly [size] elements, the array repeated cyclically: position [k]
    holds [arr[k mod len(arr)]].  On an empty array and a positive size it
    raises ZeroDivisionError. *)
Theorem tile_to_size_cyclic {T : Type} (arr : list T) (size : Z) :
  0 <= size ->
  (arr <> [] ->
   exists r,
     _tile_to_size arr size = Ok r /\
     len r = size /\
     forall k : nat, Z.of_nat k < size ->
       nth_error r k = nth_error arr (k mod length arr)) /\
  (arr = [] -> 0 < size -> _tile_to_size arr size = Raise ZeroDivisionError).
Proof.
  intros Hsize. split.
  - intros Hne. apply tile_to_size_spec; assumption.
  - intros -> Hpos. unfold _tile_to_size. cbn [length len Z.of_nat].
    unfold len. cbn [length Z.of_nat].
    destruct (Z.ltb_spec 0 size) as [_|Hbad]; [|lia]. reflexivity.
Qed.

Lemma tile_to_size_cyclic_witness :
  exists r,
    _tile_to_size [1; 2] 5 = Ok r /\
    len r = 5 /\
    forall k : nat, Z.of_nat k < 5 ->
      nth_error r k = nth_error [1; 2] (k mod length [1; 2]).
Proof.
  apply (proj1 (tile_to_size_cyclic [1; 2] 5 ltac:(lia))). discriminate.
Defined.

(** A scatter through index arrays changes nothing at a multi-index none of
    the written positions names. *)
Lemma scatter_elsewhere {T : Type} (idx : list (list Z))
  (l : list (nat * T)) (f : list Z -> T) (j : list Z) :
  (forall kv, In kv l -> j <> position idx (fst kv)) ->
  fold_left (fun f kv => fun j => if shape_eqb j (position idx (fst kv))
                                  then snd kv else f j) l f j = f j.
Proof.
  revert f. induction l as [|[k v] l IH]; intros f Hj; [reflexivity|].
  cbn [fold_left]. rewrite IH by (intros kv Hin; apply Hj; right; exact Hin).
  cbn [fst snd].
  destruct (shape_eqb j (position idx k)) eqn:He; [|reflexivity].
  apply shape_eqb_eq in He. exfalso.
  exact (Hj (k, v) (or_introl eq_refl) He).
Qed.

(** A scatter through index arrays that name pairwise distinct positions
    stores value [k] at position [k]. *)
Lemma scatter_lookup {T : Type} (idx : list (list Z)) (vals : list T)
  (s k : nat) (f : list Z -> T) :
  (k < length vals)%nat ->
  (forall k', (s + k < k' < s + length vals)%nat ->
              position idx (s + k) <> position idx k') ->
  Some (fold_left (fun f kv => fun j =>
                     if shape_eqb j (position idx (fst kv))
                     then snd kv else f j)
                  (combine (seq s (length vals)) vals) f
                  (position idx (s + k)))
  = nth_error vals k.
Proof.
  revert s k f. induction vals as [|v vals IH]; intros s k f Hk Hdist;
    simpl in Hk; [lia|].
  cbn [length seq combine fold_left fst snd].
  destruct k as [|k].
  - rewrite scatter_elsewhere.
    + rewrite Nat.add_0_r, shape_eqb_refl. reflexivity.
    + intros [k' v'] Hin. cbn [fst].
      apply in_combine_l in Hin. apply in_seq in Hin.
      apply Hdist. cbn [length]. lia.
  - replace (s + S k)%nat with (S s + k)%nat by lia.
    cbn [nth_error]. apply IH; [lia|].
    intros k' Hk'. replace (S s + k)%nat with (s + S k)%nat by lia.
    apply Hdist. cbn [length]. lia.
Qed.

Lemma repeat_inj (d : nat) (x y : Z) :
  (0 < d)%nat -> repeat x d = repeat y d -> x = y.
Proof.
  destruct d as [|d]; [lia|]. intros _ H. cbn in H. congruence.
Qed.

Lemma nth_iota (n k : nat) : (k < n)%nat -> nth k (iota n) 0 = Z.of_nat k.
Proof.
  intros Hk. unfold iota.
  rewrite (ScatterFacts.nth_map_lt Z.of_nat (seq 0 n) k 0 0%nat)
    by (rewrite length_seq; exact Hk).
  rewrite seq_nth by exact Hk. reflexivity.
Qed.

(** The value [fill_diagonal] writes at the [k]-th diagonal position. *)
Definition value_at {T : Type} (val : value_like T) (k : nat) : option T :=
  match val with
  | val_scalar v => Some v
  | val_array l => nth_error l (k mod length l)
  end.

Lemma min_of_shape (n : Z) (s : list Z) :
  In n s -> Forall (fun x => n <= x) s ->
  fold_right Z.min (hd 0 s) (tl s) = n.
Proof.
  intros Hin Hall. destruct s as [|h t]; [destruct Hin|].
  cbn [hd tl]. inversion Hall as [|? ? Hh Ht]; subst.
  assert (Hge : n <= fold_right Z.min h t).
  { clear Hin Hall. induction Ht as [|x t Hx _ IH]; cbn [fold_right]; lia. }
  assert (Hle : fold_right Z.min h t <= n).
  { destruct Hin as [->|Hin].
    - clear. induction t as [|x t IH]; cbn [fold_right]; lia.
    - clear Hh Ht Hall Hge. induction t as [|x t IH]; [destruct Hin|].
      destruct Hin as [->|Hin]; cbn [fold_right]; [lia|].
      specialize (IH Hin). lia. }
  lia.
Qed.

(** X21: with [inplace=False] and [wrap=False], on a two-dimensional array,
    or an array of more dimensions whose dimensions are all equal,
    [fill_diagonal] returns an array of the same shape whose entry
    [(k, ..., k)], for every [k] below the smallest dimension [n], is the
    scalar [val], or element [k mod len(val)] of a non-empty array [val]:
    the values are repeated cyclically along the diagonal. *)
Theorem fill_diagonal_values {T : Type} (a : array T) (val : value_like T)
  (n : Z) :
  (2 <= ndim a)%nat ->
  In n (shape a) -> Forall (fun x => n <= x) (shape a) -> 0 <= n ->
  (ndim a = 2%nat \/ Forall (fun x => x = n) (shape a)) ->
  val <> val_array [] ->
  exists r,
    fill_diagonal a val false false = Ok r /\
    shape r = shape a /\
    forall k : nat, Z.of_nat k < n ->
      Some (at_ r (repeat (Z.of_nat k) (ndim a))) = value_at val k.
Proof.
  intros Hnd Hin Hmin Hn Hsq Hval.
  unfold fill_diagonal.
  destruct (Nat.ltb_spec (ndim a) 2) as [Hbad|_]; [lia|].
  assert (Hguard : (2 <? ndim a)%nat
                   && negb (forallb (fun x => x =? hd 0 (shape a))
                                    (tl (shape a))) = false).
  { destruct Hsq as [H2|Heq].
    - rewrite H2. reflexivity.
    - apply andb_false_iff. right. apply negb_false_iff.
      apply forallb_forall. intros x Hx. apply Z.eqb_eq.
      rewrite Forall_forall in Heq.
      unfold ndim in Hnd. destruct (shape a) as [|h t]; [simpl in Hnd; lia|].
      cbn [hd tl] in *. rewrite (Heq x (or_intror Hx)).
      rewrite (Heq h (or_introl eq_refl)). reflexivity. }
  rewrite Hguard. rewrite (min_of_shape n (shape a) Hin Hmin).
  unfold diag_indices.
  destruct (Z.ltb_spec n 0) as [Hbad|_]; [lia|].
  destruct (Z.ltb_spec (Z.of_nat (ndim a)) 0) as [Hbad|_]; [lia|].
  cbn [bind]. rewrite Nat2Z.id.
  assert (Hvals : exists vals,
             match val with
             | val_scalar v => Ok (repeat v (Z.to_nat n))
             | val_array l => _tile_to_size l n
             end = Ok vals /\
             length vals = Z.to_nat n /\
             forall k : nat, Z.of_nat k < n ->
               nth_error vals k = value_at val k).
  { destruct val as [v|l].
    - eexists. split; [reflexivity|]. split; [apply repeat_length|].
      intros k Hk. cbn [value_at].
      apply nth_error_repeat. lia.
    - assert (Hne : l <> []) by (intros ->; apply Hval; reflexivity).
      destruct (tile_to_size_spec l n Hne Hn) as [r [Hr [Hlen Hk]]].
      exists r. split; [exact Hr|]. split; [unfold len in Hlen; lia|].
      exact Hk. }
  destruct Hvals as [vals [-> [Hlen Hk]]]. cbn [bind].
  eexists. split; [reflexivity|]. split; [reflexivity|].
  intros k Hlt. rewrite <- (Hk k Hlt).
  unfold at_set_tuple. cbn [at_].
  assert (Hpos : forall k' : nat, (k' < Z.to_nat n)%nat ->
            position (repeat (iota (Z.to_nat n)) (ndim a)) k'
            = repeat (Z.of_nat k') (ndim a)).
  { intros k' Hk'. rewrite position_diag, nth_iota by exact Hk'.
    reflexivity. }
  rewrite <- (Hpos k) by lia.
  apply (scatter_lookup _ vals 0 k); [lia|].
  intros k' Hk'. cbn [Nat.add] in *.
  rewrite (Hpos k) by lia. rewrite (Hpos k') by lia.
  intros Heq. apply repeat_inj in Heq; lia.
Qed.

Lemma fill_diagonal_values_witness :
  exists r,
    fill_diagonal (mk_array [2; 3] (fun _ => 0)) (val_array [5; 6; 7]) false false
    = Ok r /\
    shape r = [2; 3] /\
    forall k : nat, Z.of_nat k < 2 ->
      Some (at_ r (repeat (Z.of_nat k) 2)) = value_at (val_array [5; 6; 7]) k.
Proof.
  apply (fill_diagonal_values (mk_array [2; 3] (fun _ => 0))
           (val_array [5; 6; 7]) 2).
  - cbn. lia.
  - cbn. left. reflexivity.
  - cbn. repeat constructor; lia.
  - lia.
  - left. reflexivity.
  - discriminate.
Defined.

(** X22: with [inplace=False] and [wrap=False], [fill_diagonal] raises
    ValueError on an array of fewer than two dimensions, and on an array of
    more than two dimensions that are not all equal. *)
Theorem fill_diagonal_rejects {T : Type} (a : array T) (val : value_like T) :
  (ndim a < 2)%nat \/
  ((2 < ndim a)%nat /\ exists x, In x (shape a) /\ x <> hd 0 (shape a)) ->
  fill_diagonal a val false false = Raise ValueError.
Proof.
  intros [Hlt|[Hgt [x [Hin Hx]]]]; unfold fill_diagonal.
  - destruct (Nat.ltb_spec (ndim a) 2) as [_|Hbad]; [reflexivity|lia].
  - destruct (Nat.ltb_spec (ndim a) 2) as [Hbad|_]; [lia|].
    destruct (Nat.ltb_spec 2 (ndim a)) as [_|Hbad]; [|lia].
    cbn [andb].
    destruct (forallb (fun n => n =? hd 0 (shape a)) (tl (shape a))) eqn:Hall;
      [|reflexivity].
    exfalso. rewrite forallb_forall in Hall.
    destruct (shape a) as [|h t]; [destruct Hin|].
    cbn [hd tl] in *. destruct Hin as [->|Hin]; [apply Hx; reflexivity|].
    apply Hx. apply Z.eqb_eq. apply Hall. exact Hin.
Qed.

Lemma fill_diagonal_rejects_witness :
  fill_diagonal (mk_array [2; 2; 3] (fun _ => 0)) (val_scalar 1) false false
  = Raise ValueError.
Proof.
  apply fill_diagonal_rejects. right. split; [cbn; lia|].
  exists 3. split; [cbn; tauto|cbn; lia].
Defined.

End FillDiagonalValues.
